(** * Hdl21 elaboration ([hdl21/elab.py]): a shallow embedding and its properties

    The elaborator is a pipeline of four hierarchy visitors that mutate an
    in-memory circuit description in place.  The embedding keeps the Python
    object graph as an explicit heap of records indexed by object identity,
    insertion-ordered dictionaries as association lists, and exceptions as an
    error result that leaves the mutated heap observable. *)

From Stdlib Require Import ZArith Lia.
From stdpp Require Import base option list strings gmap.

Open Scope string_scope.
Open Scope nat_scope.
Open Scope list_scope.

(** ** Insertion-ordered dictionaries

    Python's [dict] keeps insertion order; [popitem] removes the most
    recently inserted pair and assigning to an existing key keeps its
    position.  Both matter to the elaborator, so a dictionary is an
    association list with the oldest pair first. *)

Section dict.
Context {K V : Type} `{EqDecision K}.

Definition dict_get (k : K) (d : list (K * V)) : option V :=
  snd <$> List.find (fun kv => bool_decide (fst kv = k)) d.

Definition dict_mem (k : K) (d : list (K * V)) : bool :=
  bool_decide (is_Some (dict_get k d)).

(** [d[k] = v] *)
Fixpoint dict_set (k : K) (v : V) (d : list (K * V)) : list (K * V) :=
  match d with
  | [] => [(k, v)]
  | (k', v') :: d' =>
      if decide (k' = k) then (k, v) :: d' else (k', v') :: dict_set k v d'
  end.

(** [d.pop(k)], [None] standing for the [KeyError] *)
Fixpoint dict_pop (k : K) (d : list (K * V)) : option (V * list (K * V)) :=
  match d with
  | [] => None
  | (k', v') :: d' =>
      if decide (k' = k) then Some (v', d')
      else '(v, r) ← dict_pop k d'; Some (v, (k', v') :: r)
  end.

(** [d.popitem()]: last-in, first-out *)
Fixpoint dict_popitem (d : list (K * V)) : option ((K * V) * list (K * V)) :=
  match d with
  | [] => None
  | [kv] => Some (kv, [])
  | kv :: d' => '(x, r) ← dict_popitem d'; Some (x, kv :: r)
  end.

Definition dict_keys (d : list (K * V)) : list K := d.*1.
Definition dict_values (d : list (K * V)) : list V := d.*2.
End dict.

Abbreviation dict K V := (list (K * V)) (only parsing).

(** ** Exceptions and the elaboration monad *)

(** The exceptions [elab.py] raises, by the place that raises them.  The
    [RuntimeError]s are told apart by what their message reports. *)
Inductive error : Type :=
  | TypeError
  | KeyError
  | AttributeError
  | RecursionError
  | NameExhaustion (segments : list string) (trying : string)
  | InvalidGeneratorCall
  | UndefinedInstance
  | AnonymousModule
  | InterfacesNotFlattened
  | Shorting (conn : nat) (names : list (string * string))
  | InvalidPort (portname instname : string)
  | UndefinedPort
  | PortNotFound (portname : string)
  | UnboundLocalError
  | GeneratorFailed.

Inductive result (A : Type) : Type :=
  | Ok (a : A)
  | Raise (e : error).
Arguments Ok {A} a.
Arguments Raise {A} e.

Definition is_ok {A} (r : result A) : bool :=
  match r with Ok _ => true | Raise _ => false end.

(** A computation over a mutable state [S]: an exception keeps the state
    reached when it was raised, as in-place mutation does. *)
Definition M (S A : Type) : Type := S → result A * S.

Definition ret {S A} (a : A) : M S A := fun s => (Ok a, s).
Definition raise {S A} (e : error) : M S A := fun s => (Raise e, s).
Definition bind {S A B} (m : M S A) (f : A → M S B) : M S B :=
  fun s => match m s with
           | (Ok a, s') => f a s'
           | (Raise e, s') => (Raise e, s')
           end.
Definition get {S} : M S S := fun s => (Ok s, s).
Definition modify {S} (f : S → S) : M S unit := fun s => (Ok tt, f s).
Definition lift_opt {S A} (e : error) (o : option A) : M S A :=
  match o with Some a => ret a | None => raise e end.

Declare Scope elab_scope.
Delimit Scope elab_scope with elab.
Notation "'let*' x ':=' c1 'in' c2" := (bind c1 (fun x => c2))
  (at level 10, x name, c1 at level 100, c2 at level 200) : elab_scope.
Notation "'let*' ' p ':=' c1 'in' c2" := (bind c1 (fun p => c2))
  (at level 10, p pattern, c1 at level 100, c2 at level 200) : elab_scope.
Notation "c1 ;; c2" := (bind c1 (fun _ => c2))
  (at level 100, c2 at level 200, right associativity) : elab_scope.

(** [for x in l: body(x)] *)
Fixpoint for_each {S A} (l : list A) (body : A → M S unit) : M S unit :=
  match l with
  | [] => ret tt
  | x :: l' => (body x ;; for_each l' body)%elab
  end.

(** [acc = b; for x in l: acc = body(acc, x)] *)
Fixpoint fold_each {S A B} (l : list A) (body : B → A → M S B) (b : B) : M S B :=
  match l with
  | [] => ret b
  | x :: l' => (let* b' := body b x in fold_each l' body b')%elab
  end.

(** [[f(x) for x in l]] *)
Fixpoint map_each {S A B} (l : list A) (f : A → M S B) : M S (list B) :=
  match l with
  | [] => ret []
  | x :: l' => (let* y := f x in let* ys := map_each l' f in ret (y :: ys))%elab
  end.

Definition lift_result {S A} (r : result A) : M S A :=
  match r with Ok a => ret a | Raise e => raise e end.

(** ** [_Elaborator.flatname] *)

(** ["_".join(segments)] *)
Fixpoint join (sep : string) (segments : list string) : string :=
  match segments with
  | [] => ""
  | [s] => s
  | s :: rest => s +:+ sep +:+ join sep rest
  end.

(** The [while True] loop of [flatname].  Every turn either leaves the loop
    or lengthens [name] by two characters, so it is left after at most
    [maxlen + 1] turns; [fuel] counts the turns still allowed and
    [RecursionError] marks the (unreachable) case that they run out. *)
Fixpoint flatname_loop {V} (fuel : nat) (segments : list string)
    (name : string) (avoid : dict string V) (maxlen : Z) : result string :=
  if (Z.of_nat (String.length name) >? maxlen)%Z then
    Raise (NameExhaustion segments name)
  else if negb (dict_mem name avoid) then Ok name
  else match fuel with
       | O => Raise RecursionError
       | S fuel' =>
           flatname_loop fuel' segments ("_" +:+ name +:+ "_") avoid maxlen
       end.

Definition flatname {V} (segments : list string) (avoid : dict string V)
    (maxlen : Z) : result string :=
  flatname_loop (Z.to_nat maxlen) segments
    ("_" +:+ join "_" segments +:+ "_") avoid maxlen.

(** The default of the keyword argument [maxlen]. *)
Definition default_maxlen : Z := 511.

(** ** The circuit data model

    [elab.py] imports its data classes ([Module], [Instance], [PortRef],
    [Signal], [Interface], [InterfaceInstance], [Generator],
    [GeneratorCall], [PrimitiveCall], [ExternalModuleCall]) from sibling
    files; they are given here with the attributes the elaborator reads and
    writes.  Every object lives in the heap under its identity (what Python's
    [id] and [is] observe), so that aliasing and in-place mutation are
    explicit. *)

Abbreviation modid := nat (only parsing).   (* Module *)
Abbreviation instid := nat (only parsing).  (* Instance *)
Abbreviation sigid := nat (only parsing).   (* Signal *)
Abbreviation intfid := nat (only parsing).  (* InterfaceInstance *)
Abbreviation ifcid := nat (only parsing).   (* Interface *)
Abbreviation callid := nat (only parsing).  (* GeneratorCall *)
Abbreviation genid := nat (only parsing).   (* Generator *)
Abbreviation leafid := nat (only parsing).  (* PrimitiveCall, ExternalModuleCall *)

(** Values of generator arguments.  [elab.py] only compares and hashes them
    (through [GeneratorCall]) and names them with [params._unique_name]. *)
Class GenArgs := {
  Arg : Type;
  Arg_eq_dec :: EqDecision Arg;
  _unique_name : Arg → string;
}.

Inductive Visibility := INTERNAL | PORT.
Inductive PortDir := INPUT | OUTPUT | INOUT | NONE.

(** A role is a member of an enumeration, compared by identity. *)
Abbreviation Role := nat (only parsing).

Record Signal := mkSignal {
  sig_name : string;
  sig_width : Z;
  sig_vis : Visibility;
  sig_direction : PortDir;
  sig_src : option Role;
  sig_dest : option Role;
}.

(** What a [PortRef] points into: an [Instance] or an [InterfaceInstance]. *)
Inductive ref := RInst (i : instid) | RIntf (i : intfid).

Record PortRef := mkPortRef {
  pr_id : nat;          (* object identity, for [is] *)
  pr_inst : ref;
  pr_portname : string;
}.

(** A value of [Instance.conns]. *)
Inductive Conn :=
  | CSignal (s : sigid)
  | CPortRef (p : PortRef)
  | CInterface (i : intfid)
  | COther.

(** [Instance.of]. *)
Inductive Target :=
  | TModule (m : modid)
  | TGeneratorCall (c : callid)
  | TPrimitiveCall (p : leafid)
  | TExternalModuleCall (x : leafid)
  | TOther.

Record Instance := mkInstance {
  inst_name : string;
  inst_of : Target;
  inst_conns : dict string Conn;
  inst_elaborated : bool;
}.

Record InterfaceInstance := mkInterfaceInstance {
  intf_name : string;
  intf_of : ifcid;
  intf_port : bool;
  intf_role : option Role;
  intf_portrefs : dict string PortRef;
  intf_elaborated : bool;
}.

Record Interface := mkInterface {
  ifc_name : string;
  ifc_signals : dict string sigid;
  ifc_interfaces : dict string intfid;
}.

Record GeneratorCall `{GenArgs} := mkGeneratorCall {
  call_gen : genid;
  call_arg : Arg;
  call_result : option modid;
}.

(** A value of [Module.namespace]. *)
Inductive Attr := ASignal (s : sigid) | AInstance (i : instid) | AInterface (i : intfid).

Record Module := mkModule {
  mod_name : option string;
  mod_ports : dict string sigid;
  mod_signals : dict string sigid;
  mod_instances : dict string instid;
  mod_interfaces : dict string intfid;
  mod_namespace : dict string Attr;
  mod_pymodule : option string;
}.

(** [PrimitiveCall] and [ExternalModuleCall] are leaves of the hierarchy; the
    elaborator only looks up their port definitions. *)
Record Leaf := mkLeaf { leaf_ports : dict string sigid }.

Record heap `{GenArgs} := mkHeap {
  h_modules : gmap nat Module;
  h_instances : gmap nat Instance;
  h_signals : gmap nat Signal;
  h_intfinsts : gmap nat InterfaceInstance;
  h_interfaces : gmap nat Interface;
  h_calls : gmap nat GeneratorCall;
  h_prims : gmap nat Leaf;
  h_exts : gmap nat Leaf;
}.

(** [FlatInterfaceInst] *)
Record FlatInterfaceInst := mkFlatInterfaceInst {
  flat_inst_name : string;
  flat_src : ifcid;
  flat_signals : dict string sigid;
}.

(** The elaboration [Context] is an empty class. *)
Inductive Context := mkContext.

(** What a generator function may hand back. *)
Inductive GenReturn :=
  | GRModule (m : modid)
  | GRGeneratorCall (c : callid)
  | GROther.

(** The [Generator]s of a design: [gen_func g arg ctx] is the user function
    [g.func], called with [ctx] when [g.usecontext] holds.  It runs on the
    heap, may build new objects there and may raise. *)
Class Generators `{GenArgs} := {
  gen_name : genid → string;           (* [gen.func.__name__] *)
  gen_usecontext : genid → bool;
  gen_pymodule : genid → option string;
  gen_func : genid → Arg → option Context → heap → result GenReturn * heap;
}.

(** ** Elaborator state *)

(** One elaborator object and the heap it works on.  [st_generator_calls]
    and [st_modules] are the tables of [GeneratorElaborator]; [st_modules]
    and [st_replacements] those of [InterfaceFlattener]; the two implicit-net
    passes keep no table.  [st_trace] is not part of the program: it records
    the modules whose [elaborate_module] body ran, oldest first, so that the
    amount of work can be stated. *)
Record estate `{GenArgs} := mkState {
  st_heap : heap;
  st_generator_calls : dict (genid * Arg) modid;
  st_modules : gset nat;
  st_replacements : gmap nat (dict string FlatInterfaceInst);
  st_trace : list modid;
}.

(** A [PortRef] up to equality: the identity of its instance and its port
    name (see [key_of]). *)
Abbreviation pkey := (ref * string)%type (only parsing).

#[global] Instance ref_eq_dec : EqDecision ref.
Proof. solve_decision. Defined.

Section state.
Context `{GenArgs}.

(** A fresh elaborator, as built by [cls(top, ctx)]. *)
Definition init_state (h : heap) : estate :=
  mkState _ h [] ∅ ∅ [].

Definition with_heap (f : heap → heap) (s : estate) : estate :=
  mkState _ (f (st_heap s)) (st_generator_calls s) (st_modules s)
    (st_replacements s) (st_trace s).

Definition upd_modules (f : gmap nat Module → gmap nat Module) (h : heap) : heap :=
  mkHeap _ (f (h_modules h)) (h_instances h) (h_signals h) (h_intfinsts h)
    (h_interfaces h) (h_calls h) (h_prims h) (h_exts h).
Definition upd_instances (f : gmap nat Instance → gmap nat Instance) (h : heap) : heap :=
  mkHeap _ (h_modules h) (f (h_instances h)) (h_signals h) (h_intfinsts h)
    (h_interfaces h) (h_calls h) (h_prims h) (h_exts h).
Definition upd_signals (f : gmap nat Signal → gmap nat Signal) (h : heap) : heap :=
  mkHeap _ (h_modules h) (h_instances h) (f (h_signals h)) (h_intfinsts h)
    (h_interfaces h) (h_calls h) (h_prims h) (h_exts h).
Definition upd_intfinsts
    (f : gmap nat InterfaceInstance → gmap nat InterfaceInstance) (h : heap) : heap :=
  mkHeap _ (h_modules h) (h_instances h) (h_signals h) (f (h_intfinsts h))
    (h_interfaces h) (h_calls h) (h_prims h) (h_exts h).
Definition upd_calls (f : gmap nat GeneratorCall → gmap nat GeneratorCall) (h : heap) : heap :=
  mkHeap _ (h_modules h) (h_instances h) (h_signals h) (h_intfinsts h)
    (h_interfaces h) (f (h_calls h)) (h_prims h) (h_exts h).

(** Reading an object through a reference.  A reference to an object that
    is not in the heap cannot occur in Python; here it raises
    [AttributeError]. *)
Definition load {A} (sel : heap → gmap nat A) (i : nat) : M estate A :=
  fun s => match sel (st_heap s) !! i with
           | Some a => (Ok a, s)
           | None => (Raise AttributeError, s)
           end.

Definition get_module : modid → M estate Module := load h_modules.
Definition get_instance : instid → M estate Instance := load h_instances.
Definition get_signal : sigid → M estate Signal := load h_signals.
Definition get_intfinst : intfid → M estate InterfaceInstance := load h_intfinsts.
Definition get_interface : ifcid → M estate Interface := load h_interfaces.
Definition get_call : callid → M estate GeneratorCall := load h_calls.

(** In-place mutation of the object behind a reference: [f] is the
    assignment to one of its attributes. *)
Definition setattr_module (m : modid) (f : Module → Module) : M estate unit :=
  modify (with_heap (upd_modules (alter f m))).
Definition setattr_instance (i : instid) (f : Instance → Instance) : M estate unit :=
  modify (with_heap (upd_instances (alter f i))).
Definition setattr_signal (i : sigid) (f : Signal → Signal) : M estate unit :=
  modify (with_heap (upd_signals (alter f i))).
Definition setattr_intfinst (i : intfid) (f : InterfaceInstance → InterfaceInstance)
    : M estate unit :=
  modify (with_heap (upd_intfinsts (alter f i))).
Definition setattr_call (c : callid) (f : GeneratorCall → GeneratorCall) : M estate unit :=
  modify (with_heap (upd_calls (alter f c))).

(** Creating an object: it gets an identity no live object of its class has. *)
Definition new_signal (x : Signal) : M estate sigid :=
  fun s => let i := fresh (dom (h_signals (st_heap s))) in
           (Ok i, with_heap (upd_signals <[i := x]>) s).
Definition new_intfinst (x : InterfaceInstance) : M estate intfid :=
  fun s => let i := fresh (dom (h_intfinsts (st_heap s))) in
           (Ok i, with_heap (upd_intfinsts <[i := x]>) s).

(** Ghost: note that the body of [elaborate_module] runs on [m]. *)
Definition visit (m : modid) : M estate unit :=
  modify (fun s => mkState _ (st_heap s) (st_generator_calls s) (st_modules s)
                     (st_replacements s) (st_trace s ++ [m])).

(** [self.modules[id(module)] = module]: the table maps an identity to
    the module that has it, so it is kept as the set of its keys. *)
Definition mark_done (module : modid) : M estate unit :=
  modify (fun s => mkState _ (st_heap s) (st_generator_calls s)
                     ({[module]} ∪ st_modules s) (st_replacements s) (st_trace s)).

(** *** Attribute writes *)

Definition Signal_set_name (n : string) (x : Signal) : Signal :=
  mkSignal n (sig_width x) (sig_vis x) (sig_direction x) (sig_src x) (sig_dest x).
Definition Signal_set_vis (v : Visibility) (x : Signal) : Signal :=
  mkSignal (sig_name x) (sig_width x) v (sig_direction x) (sig_src x) (sig_dest x).
Definition Signal_set_direction (d : PortDir) (x : Signal) : Signal :=
  mkSignal (sig_name x) (sig_width x) (sig_vis x) d (sig_src x) (sig_dest x).

Definition Instance_set_elaborated (b : bool) (x : Instance) : Instance :=
  mkInstance (inst_name x) (inst_of x) (inst_conns x) b.
Definition Instance_set_conns (c : dict string Conn) (x : Instance) : Instance :=
  mkInstance (inst_name x) (inst_of x) c (inst_elaborated x).

Definition InterfaceInstance_set_elaborated (b : bool) (x : InterfaceInstance) :=
  mkInterfaceInstance (intf_name x) (intf_of x) (intf_port x) (intf_role x)
    (intf_portrefs x) b.
Definition InterfaceInstance_set_name (n : string) (x : InterfaceInstance) :=
  mkInterfaceInstance n (intf_of x) (intf_port x) (intf_role x)
    (intf_portrefs x) (intf_elaborated x).
Definition InterfaceInstance_set_port (b : bool) (x : InterfaceInstance) :=
  mkInterfaceInstance (intf_name x) (intf_of x) b (intf_role x)
    (intf_portrefs x) (intf_elaborated x).
Definition InterfaceInstance_set_role (r : option Role) (x : InterfaceInstance) :=
  mkInterfaceInstance (intf_name x) (intf_of x) (intf_port x) r
    (intf_portrefs x) (intf_elaborated x).

Definition GeneratorCall_set_result (r : option modid) (x : GeneratorCall) :=
  mkGeneratorCall _ (call_gen x) (call_arg x) r.

Definition Module_set_name (n : option string) (x : Module) : Module :=
  mkModule n (mod_ports x) (mod_signals x) (mod_instances x) (mod_interfaces x)
    (mod_namespace x) (mod_pymodule x).
Definition Module_set_pymodule (p : option string) (x : Module) : Module :=
  mkModule (mod_name x) (mod_ports x) (mod_signals x) (mod_instances x)
    (mod_interfaces x) (mod_namespace x) p.
Definition Module_set_ports (d : dict string sigid) (x : Module) : Module :=
  mkModule (mod_name x) d (mod_signals x) (mod_instances x) (mod_interfaces x)
    (mod_namespace x) (mod_pymodule x).
Definition Module_set_signals (d : dict string sigid) (x : Module) : Module :=
  mkModule (mod_name x) (mod_ports x) d (mod_instances x) (mod_interfaces x)
    (mod_namespace x) (mod_pymodule x).
Definition Module_set_interfaces (d : dict string intfid) (x : Module) : Module :=
  mkModule (mod_name x) (mod_ports x) (mod_signals x) (mod_instances x) d
    (mod_namespace x) (mod_pymodule x).
Definition Module_set_namespace (d : dict string Attr) (x : Module) : Module :=
  mkModule (mod_name x) (mod_ports x) (mod_signals x) (mod_instances x)
    (mod_interfaces x) d (mod_pymodule x).

(** *** Methods of the data classes *)

(** Modelled from the spec: [Module.add] for a [Signal], which is not in
    the sources at hand.  The spec's data model makes the namespace the
    union of the names of the member maps and files a signal under the
    ports or the internal signals by its visibility. *)
Definition Module_add_signal (sig : sigid) (s : Signal) (x : Module) : Module :=
  let x := Module_set_namespace (dict_set (sig_name s) (ASignal sig) (mod_namespace x)) x in
  match sig_vis s with
  | PORT => Module_set_ports (dict_set (sig_name s) sig (mod_ports x)) x
  | INTERNAL => Module_set_signals (dict_set (sig_name s) sig (mod_signals x)) x
  end.

(** Modelled from the spec: [Module.add] for an [InterfaceInstance], filed
    under the interface map and the namespace. *)
Definition Module_add_interface (i : intfid) (x : InterfaceInstance) (m : Module) : Module :=
  let m := Module_set_namespace (dict_set (intf_name x) (AInterface i) (mod_namespace m)) m in
  Module_set_interfaces (dict_set (intf_name x) i (mod_interfaces m)) m.

Definition add_signal (module : modid) (sig : sigid) : M estate unit :=
  (let* s := get_signal sig in
   setattr_module module (Module_add_signal sig s))%elab.

Definition add_interface (module : modid) (i : intfid) : M estate unit :=
  (let* ii := get_intfinst i in
   setattr_module module (Module_add_interface i ii))%elab.

(** Modelled from the spec: [Instance._resolved], the resolved-target slot:
    the result of the [GeneratorCall] when the instance is of one ([None]
    until the generator ran), the target itself otherwise. *)
Definition _resolved (h : heap) (x : Instance) : option Target :=
  match inst_of x with
  | TGeneratorCall c => call ← h_calls h !! c; TModule <$> call_result call
  | t => Some t
  end.

(** Modelled from the spec: [Module._interface_ports], the interface
    instances of a module that are ports. *)
Definition _interface_ports (h : heap) (x : Module) : dict string intfid :=
  List.filter
    (fun kv => match h_intfinsts h !! kv.2 with
               | Some ii => intf_port ii
               | None => false
               end)
    (mod_interfaces x).

(** Modelled from the spec: [Module.get] looks a name up in the namespace;
    [Interface.get] looks it up among the signals and the nested
    interface fields of the bundle. *)
Definition Module_get (name : string) (x : Module) : option Attr :=
  dict_get name (mod_namespace x).
Definition Interface_get (name : string) (x : Interface) : option Attr :=
  match dict_get name (ifc_signals x) with
  | Some s => Some (ASignal s)
  | None => AInterface <$> dict_get name (ifc_interfaces x)
  end.

(** Modelled from the spec: equality and hash of a [PortRef] are those of
    the pair of the identity of its instance and its port name. *)
Definition key_of (p : PortRef) : pkey := (pr_inst p, pr_portname p).

(** Modelled from the spec: equality and hash of a [GeneratorCall] are
    those of the pair of its generator's identity and its argument. *)
Definition call_key (c : GeneratorCall) : genid * Arg := (call_gen c, call_arg c).
End state.

(** The top-level object handed to an elaborator. *)
Inductive Top :=
  | TopModule (m : modid)
  | TopGeneratorCall (c : callid)
  | TopGenerator (g : genid)
  | TopOther.

(** [elabable(obj)] *)
Definition elabable_top (t : Top) : bool :=
  match t with
  | TopModule _ | TopGenerator _ | TopGeneratorCall _ => true
  | TopOther => false
  end.

(** ** [class _Elaborator]

    The methods a pass inherits.  [elaborate_module] is abstract in the base
    class; the methods that call it take the overriding method as an
    argument. *)
Module Elaborator.
Section methods.
Context `{GenArgs}.

Definition elaborate_top (elaborate_module : modid → M estate modid)
    (top : Top) : M estate modid :=
  match top with
  | TopModule m => elaborate_module m
  | _ => raise TypeError
  end.

Definition elaborate_generator_call (call : callid) : M estate modid :=
  raise InvalidGeneratorCall.

Definition elaborate_external_module (call : leafid) : M estate leafid :=
  ret call.

Definition elaborate_primitive_call (call : leafid) : M estate leafid :=
  ret call.

Definition elaborate_interface_instance (inst : intfid) : M estate unit :=
  setattr_intfinst inst (InterfaceInstance_set_elaborated true).

Definition elaborate_interface (intf : ifcid) : M estate ifcid :=
  ret intf.

(** The post-generators [elaborate_instance]. *)
Definition elaborate_instance (elaborate_module : modid → M estate modid)
    (inst : instid) : M estate Target :=
  (setattr_instance inst (Instance_set_elaborated true) ;;
   let* x := get_instance inst in
   let* s := get in
   match _resolved (st_heap s) x with
   | None => raise UndefinedInstance
   | Some (TModule m) => let* r := elaborate_module m in ret (TModule r)
   | Some (TPrimitiveCall p) =>
       let* r := elaborate_primitive_call p in ret (TPrimitiveCall r)
   | Some (TExternalModuleCall p) =>
       let* r := elaborate_external_module p in ret (TExternalModuleCall r)
   | Some _ => raise TypeError
   end)%elab.

(** [for inst in module.instances.values(): self.elaborate_instance(inst)] *)
Definition elaborate_instances (elaborate_module : modid → M estate modid)
    (module : modid) : M estate unit :=
  (let* x := get_module module in
   for_each (dict_values (mod_instances x))
     (fun inst => elaborate_instance elaborate_module inst ;; ret tt))%elab.
End methods.
End Elaborator.

(** ** [class GeneratorElaborator] *)
Module GeneratorElaborator.
Section methods.
Context `{Generators}.
Variable ctx : Context.

(** [call.result = m] *)
Definition set_result (call : callid) (m : modid) : M estate unit :=
  setattr_call call (GeneratorCall_set_result (Some m)).

(** [self.generator_calls[call] = m] *)
Definition remember (call : callid) (m : modid) : M estate unit :=
  (let* c := get_call call in
   modify (fun s => mkState _ (st_heap s)
                      (dict_set (call_key c) m (st_generator_calls s))
                      (st_modules s) (st_replacements s) (st_trace s)))%elab.

(** Running the generator function on the heap. *)
Definition call_generator (g : genid) (arg : Arg) : M estate GenReturn :=
  fun s =>
    let '(r, h) :=
      gen_func g arg (if gen_usecontext g then Some ctx else None) (st_heap s) in
    (r, with_heap (fun _ => h) s).

(** The module gets the generator's name when it has none, then the suffix
    made of its parameter values, and the generator's [pymodule]. *)
Definition name_result (call : callid) (m : modid) : M estate unit :=
  (let* c := get_call call in
   let* x := get_module m in
   match mod_name x with
   | None => setattr_module m (Module_set_name (Some (gen_name (call_gen c))))
   | Some _ => ret tt
   end ;;
   setattr_module m
     (fun x => Module_set_name
                 ((fun n => n +:+ "(" +:+ _unique_name (call_arg c) +:+ ")") <$> mod_name x) x) ;;
   setattr_module m (Module_set_pymodule (gen_pymodule (call_gen c))))%elab.

(** The three mutually recursive methods.  [fuel] bounds the depth of
    nested method calls, as the interpreter's recursion limit does; going
    past it raises [RecursionError].

    [elaborate_generator_call] returns a [Module] whenever it returns, so
    the loop [while isinstance(m, GeneratorCall)] runs its body at most
    once and is left with a [Module]. *)
Fixpoint elaborate_generator_call (fuel : nat) (call : callid) {struct fuel}
    : M estate modid :=
  match fuel with
  | O => raise RecursionError
  | S fuel =>
      (let* c := get_call call in
       let* s := get in
       match dict_get (call_key c) (st_generator_calls s) with
       | Some result => set_result call result ;; ret result
       | None =>
           let* r := call_generator (call_gen c) (call_arg c) in
           let* m := match r with
                     | GRGeneratorCall c' => elaborate_generator_call fuel c'
                     | GRModule m => ret m
                     | GROther => raise TypeError
                     end in
           set_result call m ;;
           remember call m ;;
           name_result call m ;;
           elaborate_module fuel m
       end)%elab
  end
with elaborate_module (fuel : nat) (module : modid) {struct fuel}
    : M estate modid :=
  match fuel with
  | O => raise RecursionError
  | S fuel =>
      (let* s := get in
       if bool_decide (module ∈ st_modules s) then ret module
       else
         visit module ;;
         let* x := get_module module in
         match mod_name x with
         | None | Some "" => raise AnonymousModule
         | Some _ =>
             for_each (dict_values (mod_instances x))
               (fun inst => elaborate_instance fuel inst ;; ret tt) ;;
             let* x := get_module module in
             for_each (dict_values (mod_interfaces x))
               Elaborator.elaborate_interface_instance ;;
             mark_done module ;;
             ret module
         end)%elab
  end
with elaborate_instance (fuel : nat) (inst : instid) {struct fuel}
    : M estate Target :=
  match fuel with
  | O => raise RecursionError
  | S fuel =>
      (setattr_instance inst (Instance_set_elaborated true) ;;
       let* x := get_instance inst in
       match inst_of x with
       | TGeneratorCall c =>
           let* r := elaborate_generator_call fuel c in ret (TModule r)
       | TModule m => let* r := elaborate_module fuel m in ret (TModule r)
       | TPrimitiveCall p =>
           let* r := Elaborator.elaborate_primitive_call p in ret (TPrimitiveCall r)
       | TExternalModuleCall p =>
           let* r := Elaborator.elaborate_external_module p in
           ret (TExternalModuleCall r)
       | TOther => raise TypeError
       end)%elab
  end.

Definition elaborate_top (fuel : nat) (top : Top) : M estate modid :=
  match top with
  | TopModule m => elaborate_module fuel m
  | TopGeneratorCall c => elaborate_generator_call fuel c
  | _ => raise TypeError
  end.
End methods.

(** [cls(top, ctx).elaborate_top()] *)
Definition elaborate `{Generators} (fuel : nat) (top : Top) (ctx : Context)
    : M estate modid :=
  elaborate_top ctx fuel top.
End GeneratorElaborator.

(** ** [class SetList]

    The hash-set of a [SetList] holds exactly the items of its list, so the
    list alone stands for both; items are [PortRef]s up to their equality. *)
Module SetList.
Abbreviation t := (list pkey) (only parsing).
Definition empty : t := [].
Definition contains (item : pkey) (l : t) : bool := bool_decide (item ∈ l).
Definition add (item : pkey) (l : t) : t :=
  if contains item l then l else l ++ [item].
Definition order (l : t) : list pkey := l.
End SetList.

(** ** What the two implicit-net passes share

    The source repeats this code in [ImplicitSignals] and
    [ImplicitInterfaces]. *)
Section nets.
Context `{GenArgs}.

(** The inner loop [while outer in portconns: outer = portconns.pop(outer)].
    Each turn removes a key, so [length portconns] turns are enough. *)
Fixpoint follow (fuel : nat) (outer : PortRef) (portconns : dict pkey PortRef)
    (this_net : SetList.t) : dict pkey PortRef * SetList.t :=
  match fuel with
  | O => (portconns, this_net)
  | S fuel =>
      match dict_pop (key_of outer) portconns with
      | Some (outer', portconns') =>
          follow fuel outer' portconns' (SetList.add (key_of outer') this_net)
      | None => (portconns, this_net)
      end
  end.

(** The loop [while portconns:], which removes at least one key a turn. *)
Fixpoint build_nets (fuel : nat) (portconns : dict pkey PortRef)
    (nets : list (list pkey)) : list (list pkey) :=
  match fuel with
  | O => nets
  | S fuel =>
      match dict_popitem portconns with
      | None => nets
      | Some ((inner, outer), portconns) =>
          let this_net := SetList.add (key_of outer) (SetList.add inner SetList.empty) in
          let '(portconns, this_net) :=
            follow (length portconns) outer portconns this_net in
          build_nets fuel portconns (nets ++ [SetList.order this_net])
      end
  end.

Definition nets_of (portconns : dict pkey PortRef) : list (list pkey) :=
  build_nets (length portconns) portconns [].

(** [portref.inst.name] *)
Definition name_of (portref : pkey) : M estate string :=
  match portref.1 with
  | RInst i => (let* x := get_instance i in ret (inst_name x))%elab
  | RIntf i => (let* x := get_intfinst i in ret (intf_name x))%elab
  end.

(** [portref.inst.conns.get(portref.portname, None)]; an
    [InterfaceInstance] has no [conns]. *)
Definition conn_of (portref : pkey) : M estate (option Conn) :=
  match portref.1 with
  | RInst i => (let* x := get_instance i in ret (dict_get portref.2 (inst_conns x)))%elab
  | RIntf _ => raise AttributeError
  end.

(** [portref.inst.conns[portref.portname] = conn] *)
Definition connect (conn : Conn) (portref : pkey) : M estate unit :=
  match portref.1 with
  | RInst i =>
      setattr_instance i
        (fun x => Instance_set_conns (dict_set portref.2 conn (inst_conns x)) x)
  | RIntf _ => raise AttributeError
  end.

(** [[(p.inst.name, p.portname) for p in net]] *)
Definition pair_names (net : list pkey) : M estate (list (string * string)) :=
  map_each net (fun p => let* n := name_of p in ret (n, p.2))%elab.

(** [[f"{p.inst.name}_{p.portname}" for p in net]] *)
Definition segments_of (net : list pkey) : M estate (list string) :=
  map_each net (fun p => let* n := name_of p in ret (n +:+ "_" +:+ p.2))%elab.

(** [portref.inst._resolved]; for an [InterfaceInstance] it is its
    [Interface], told apart by [inr]. *)
Definition resolved_of (portref : pkey) : M estate (option (Target + ifcid)) :=
  match portref.1 with
  | RInst i =>
      (let* x := get_instance i in
       let* s := get in
       ret (inl <$> _resolved (st_heap s) x))%elab
  | RIntf i => (let* x := get_intfinst i in ret (Some (inr (intf_of x))))%elab
  end.

(** The loop variable [portref] after [for portref in net]: the last item. *)
Definition last_portref (net : list pkey) : M estate pkey :=
  lift_opt UnboundLocalError (last net).
End nets.

(** ** [class ImplicitSignals] *)
Module ImplicitSignals.
Section methods.
Context `{GenArgs}.

(** The adjacency table of the [PortRef]-valued connections. *)
Definition instance_portconns (inst : instid) (x : Instance)
    (portconns : dict pkey PortRef) : dict pkey PortRef :=
  foldl (fun pc kv => match kv.2 with
                      | CPortRef conn => dict_set (RInst inst, kv.1) conn pc
                      | _ => pc
                      end)
    portconns (inst_conns x).

Definition build_portconns (module : modid) : M estate (dict pkey PortRef) :=
  (let* x := get_module module in
   fold_each (dict_values (mod_instances x))
     (fun pc inst => let* i := get_instance inst in ret (instance_portconns inst i pc))
     [])%elab.

(** Is the net connected to a declared [Signal]?  At most one is allowed.
    [check_signal] is the body of the loop [for portref in net]. *)
Definition check_signal (net : list pkey) (sig : option sigid) (portref : pkey)
    : M estate (option sigid) :=
  (let* portconn := conn_of portref in
   match portconn with
   | Some (CSignal s) =>
       match sig with
       | Some s0 =>
           if bool_decide (s = s0) then ret (Some s)
           else let* names := pair_names net in raise (Shorting s names)
       | None => ret (Some s)
       end
   | _ => ret sig
   end)%elab.

Definition find_signal (net : list pkey) : M estate (option sigid) :=
  fold_each net (check_signal net) None.

(** [lastmod.ports.get(portname, None)] *)
Definition port_of (lastmod : option (Target + ifcid)) (portname : string)
    : M estate (option sigid) :=
  match lastmod with
  | Some (inl (TModule m)) =>
      (let* x := get_module m in ret (dict_get portname (mod_ports x)))%elab
  | Some (inl (TPrimitiveCall p)) =>
      (let* x := load h_prims p in ret (dict_get portname (leaf_ports x)))%elab
  | Some (inl (TExternalModuleCall p)) =>
      (let* x := load h_exts p in ret (dict_get portname (leaf_ports x)))%elab
  | _ => raise AttributeError
  end.

(** Naming and creating the signal of a net that has none. *)
Definition create_signal (module : modid) (net : list pkey) : M estate sigid :=
  (let* segments := segments_of net in
   let* x := get_module module in
   let* signame := lift_result (flatname segments (mod_namespace x) default_maxlen) in
   let* portref := last_portref net in
   let* lastmod := resolved_of portref in
   let* sig := port_of lastmod portref.2 in
   match sig with
   | Some sig =>
       let* s := get_signal sig in
       let* sig := new_signal s in
       setattr_signal sig (Signal_set_vis INTERNAL) ;;
       setattr_signal sig (Signal_set_direction NONE) ;;
       setattr_signal sig (Signal_set_name signame) ;;
       add_signal module sig ;;
       ret sig
   | None =>
       let* n := name_of portref in
       raise (InvalidPort portref.2 n)
   end)%elab.

(** The body of [for net in nets]. *)
Definition connect_net (module : modid) (net : list pkey) : M estate unit :=
  (let* sig := find_signal net in
   let* sig := match sig with
               | Some sig => ret sig
               | None => create_signal module net
               end in
   for_each net (connect (CSignal sig)))%elab.

Fixpoint elaborate_module (fuel : nat) (module : modid) : M estate modid :=
  match fuel with
  | O => raise RecursionError
  | S fuel =>
      (visit module ;;
       let* x := get_module module in
       if negb (bool_decide (length (mod_interfaces x) = 0)) then
         raise InterfacesNotFlattened
       else
         Elaborator.elaborate_instances (elaborate_module fuel) module ;;
         let* portconns := build_portconns module in
         for_each (nets_of portconns) (connect_net module) ;;
         ret module)%elab
  end.
End methods.

Definition elaborate `{GenArgs} (fuel : nat) (top : Top) (ctx : Context)
    : M estate modid :=
  Elaborator.elaborate_top (elaborate_module fuel) top.
End ImplicitSignals.

(** ** [class InterfaceFlattener] *)
Module InterfaceFlattener.
Section methods.
Context `{GenArgs}.

(** [copy.deepcopy] of a dictionary of signals: one new object for each
    distinct signal, shared again where the original was shared. *)
Definition deepcopy_signals (d : dict string sigid) : M estate (dict string sigid) :=
  (let* r :=
     fold_each d
       (fun (acc : dict string sigid * dict sigid sigid) kv =>
          match dict_get kv.2 acc.2 with
          | Some c => ret (acc.1 ++ [(kv.1, c)], acc.2)
          | None =>
              let* s := get_signal kv.2 in
              let* c := new_signal s in
              ret (acc.1 ++ [(kv.1, c)], acc.2 ++ [(kv.2, c)])
          end)
       ([], []) in
   ret r.1)%elab.

(** Renaming the signals of a nested bundle into the flat bundle. *)
Definition merge_nested (iname : string) (signals : dict string sigid)
    (sig : sigid) : M estate (dict string sigid) :=
  (let* s := get_signal sig in
   let* signame := lift_result (flatname [iname; sig_name s] signals default_maxlen) in
   setattr_signal sig (Signal_set_name signame) ;;
   ret (dict_set signame sig signals))%elab.

Fixpoint flatten_interface (fuel : nat) (intf : intfid) : M estate FlatInterfaceInst :=
  match fuel with
  | O => raise RecursionError
  | S fuel =>
      (let* x := get_intfinst intf in
       let* ifc := get_interface (intf_of x) in
       let* signals := deepcopy_signals (ifc_signals ifc) in
       let* signals :=
         fold_each (dict_values (ifc_interfaces ifc))
           (fun signals i =>
              let* iflat := flatten_interface fuel i in
              let* ii := get_intfinst i in
              fold_each (dict_values (flat_signals iflat))
                (merge_nested (intf_name ii)) signals)
           signals in
       ret (mkFlatInterfaceInst (intf_name x) (intf_of x) signals))%elab
  end.

(** Visibility and direction of a flattened signal. *)
Definition vis_dir (intf : InterfaceInstance) (sig : Signal) : Visibility * PortDir :=
  if intf_port intf then
    (PORT,
     match intf_role intf with
     | None => NONE
     | Some role =>
         if bool_decide (Some role = sig_src sig) then OUTPUT
         else if bool_decide (Some role = sig_dest sig) then INPUT
         else NONE
     end)
  else (INTERNAL, NONE).

(** The body of [for sig in flat.signals.values()]. *)
Definition add_flat_signal (module : modid) (intf : intfid) (sig : sigid)
    : M estate unit :=
  (let* i := get_intfinst intf in
   let* s := get_signal sig in
   let* x := get_module module in
   let* signame :=
     lift_result (flatname [intf_name i; sig_name s] (mod_namespace x) default_maxlen) in
   let '(vis_, dir_) := vis_dir i s in
   setattr_signal sig (Signal_set_name signame) ;;
   setattr_signal sig (Signal_set_vis vis_) ;;
   setattr_signal sig (Signal_set_direction dir_) ;;
   add_signal module sig)%elab.

Definition add_flat_signals (module : modid) (intf : intfid)
    (flat : FlatInterfaceInst) : M estate unit :=
  for_each (dict_values (flat_signals flat)) (add_flat_signal module intf).

Definition update_conns (inst : instid) (f : dict string Conn → dict string Conn)
    : M estate unit :=
  setattr_instance inst (fun x => Instance_set_conns (f (inst_conns x)) x).

(** [self.replacements[id(inst._resolved)]]; only modules are keys. *)
Definition replacements_of (inst : instid) : M estate (dict string FlatInterfaceInst) :=
  (let* x := get_instance inst in
   let* s := get in
   match _resolved (st_heap s) x with
   | Some (TModule m) => lift_opt KeyError (st_replacements s !! m)
   | _ => raise KeyError
   end)%elab.

(** One connection of [inst] to the bundle is replaced by a connection to
    each of its flat signals, under the name the child gave that signal. *)
Definition replace_connection (inst : instid) (flat : FlatInterfaceInst)
    (portname : string) : M estate unit :=
  (let* inst_replacements := replacements_of inst in
   let* inst_flat := lift_opt KeyError (dict_get portname inst_replacements) in
   for_each (flat_signals flat)
     (fun kv =>
        let* inst_sig := lift_opt KeyError (dict_get kv.1 (flat_signals inst_flat)) in
        let* s := get_signal inst_sig in
        update_conns inst (dict_set (sig_name s) (CSignal kv.2))) ;;
   let* x := get_instance inst in
   let* popped := lift_opt KeyError (dict_pop portname (inst_conns x)) in
   setattr_instance inst (Instance_set_conns popped.2))%elab.

Definition replace_connections (module : modid) (intf : intfid)
    (flat : FlatInterfaceInst) : M estate unit :=
  (let* x := get_module module in
   for_each (dict_values (mod_instances x))
     (fun inst =>
        let* i := get_instance inst in
        for_each (dict_keys (inst_conns i))
          (fun portname =>
             let* i := get_instance inst in
             let* conn := lift_opt KeyError (dict_get portname (inst_conns i)) in
             match conn with
             | CInterface c =>
                 if bool_decide (c = intf) then replace_connection inst flat portname
                 else ret tt
             | _ => ret tt
             end)))%elab.

(** [if conn is portref: inst.conns[portname] = flatsig], for every
    connection of the instance; assigning to a key that exists keeps the
    order of the dictionary. *)
Definition repoint (portref : PortRef) (flatsig : sigid)
    (conns : dict string Conn) : dict string Conn :=
  (fun kv => match kv.2 with
             | CPortRef p =>
                 if bool_decide (pr_id p = pr_id portref) then (kv.1, CSignal flatsig)
                 else kv
             | _ => kv
             end) <$> conns.

Definition reconnect_portrefs (module : modid) (intf : intfid)
    (flat : FlatInterfaceInst) : M estate unit :=
  (let* i := get_intfinst intf in
   for_each (dict_values (intf_portrefs i))
     (fun portref =>
        match dict_get (pr_portname portref) (flat_signals flat) with
        | None => raise (PortNotFound (pr_portname portref))
        | Some flatsig =>
            let* x := get_module module in
            for_each (dict_values (mod_instances x))
              (fun inst => update_conns inst (repoint portref flatsig))
        end))%elab.

(** The loop [while module.interfaces:].  A turn removes one interface
    instance and adds none, so [fuel] starts at their number; [depth] is
    the recursion budget left for [flatten_interface]. *)
Fixpoint flatten_all (fuel depth : nat) (module : modid)
    (replacements : dict string FlatInterfaceInst)
    : M estate (dict string FlatInterfaceInst) :=
  (let* x := get_module module in
   match dict_popitem (mod_interfaces x) with
   | None => ret replacements
   | Some ((name, intf), rest) =>
       match fuel with
       | O => raise RecursionError
       | S fuel =>
           setattr_module module (Module_set_interfaces rest) ;;
           let* x := get_module module in
           let* popped := lift_opt KeyError (dict_pop name (mod_namespace x)) in
           setattr_module module (Module_set_namespace popped.2) ;;
           let* flat := flatten_interface depth intf in
           let replacements := dict_set name flat replacements in
           add_flat_signals module intf flat ;;
           replace_connections module intf flat ;;
           reconnect_portrefs module intf flat ;;
           flatten_all fuel depth module replacements
       end
   end)%elab.

(** [self.replacements[id(module)] = replacements] *)
Definition record_replacements (module : modid)
    (replacements : dict string FlatInterfaceInst) : M estate unit :=
  modify (fun s => mkState _ (st_heap s) (st_generator_calls s) (st_modules s)
                     (<[module := replacements]> (st_replacements s)) (st_trace s)).

Fixpoint elaborate_module (fuel : nat) (module : modid) : M estate modid :=
  match fuel with
  | O => raise RecursionError
  | S fuel =>
      (let* s := get in
       if bool_decide (module ∈ st_modules s) then ret module
       else
         visit module ;;
         Elaborator.elaborate_instances (elaborate_module fuel) module ;;
         let* x := get_module module in
         let* replacements :=
           flatten_all (length (mod_interfaces x)) fuel module [] in
         mark_done module ;;
         record_replacements module replacements ;;
         ret module)%elab
  end.
End methods.

Definition elaborate `{GenArgs} (fuel : nat) (top : Top) (ctx : Context)
    : M estate modid :=
  Elaborator.elaborate_top (elaborate_module fuel) top.
End InterfaceFlattener.

(** ** [class ImplicitInterfaces] *)
Module ImplicitInterfaces.
Section methods.
Context `{GenArgs}.

(** [conn.inst._resolved.get(conn.portname)] when [conn.inst._resolved] is
    a [Module] or an [Interface]; the outer [None] says it is neither. *)
Definition other_port (conn : PortRef) : M estate (option (option Attr)) :=
  (let* r := resolved_of (key_of conn) in
   match r with
   | Some (inl (TModule m)) =>
       let* x := get_module m in ret (Some (Module_get (pr_portname conn) x))
   | Some (inr ifc) =>
       let* x := get_interface ifc in ret (Some (Interface_get (pr_portname conn) x))
   | _ => ret None
   end)%elab.

(** The adjacency table of the interface-valued [PortRef] connections. *)
Definition instance_portconns (inst : instid) (x : Instance)
    (portconns : dict pkey PortRef) : M estate (dict pkey PortRef) :=
  fold_each (inst_conns x)
    (fun pc kv =>
       match kv.2 with
       | CPortRef conn =>
           let* o := other_port conn in
           match o with
           | None => ret pc
           | Some None => raise UndefinedPort
           | Some (Some (AInterface _)) => ret (dict_set (RInst inst, kv.1) conn pc)
           | Some (Some _) => ret pc
           end
       | _ => ret pc
       end)%elab
    portconns.

Definition build_portconns (module : modid) : M estate (dict pkey PortRef) :=
  (let* x := get_module module in
   fold_each (dict_values (mod_instances x))
     (fun pc inst => let* i := get_instance inst in instance_portconns inst i pc)
     [])%elab.

(** Is the net connected to a declared [InterfaceInstance]?  At most one
    is allowed.  [check_interface] is the body of the loop
    [for portref in net]. *)
Definition check_interface (net : list pkey) (sig : option intfid) (portref : pkey)
    : M estate (option intfid) :=
  (let* portconn := conn_of portref in
   match portconn with
   | Some (CInterface s) =>
       match sig with
       | Some s0 =>
           if bool_decide (s = s0) then ret (Some s)
           else let* names := pair_names net in raise (Shorting s names)
       | None => ret (Some s)
       end
   | _ => ret sig
   end)%elab.

Definition find_interface (net : list pkey) : M estate (option intfid) :=
  fold_each net (check_interface net) None.

(** [lastmod._interface_ports.get(portname, None)] *)
Definition interface_port_of (lastmod : option (Target + ifcid)) (portname : string)
    : M estate (option intfid) :=
  match lastmod with
  | Some (inl (TModule m)) =>
      (let* x := get_module m in
       let* s := get in
       ret (dict_get portname (_interface_ports (st_heap s) x)))%elab
  | _ => raise AttributeError
  end.

(** Naming and creating the interface instance of a net that has none.
    [copy.copy] shares the [portrefs] dictionary of the original; no pass
    writes to that dictionary, so the copy carries its own. *)
Definition create_interface (module : modid) (net : list pkey) : M estate intfid :=
  (let* segments := segments_of net in
   let* x := get_module module in
   let* signame := lift_result (flatname segments (mod_namespace x) default_maxlen) in
   let* portref := last_portref net in
   let* lastmod := resolved_of portref in
   let* sig := interface_port_of lastmod portref.2 in
   match sig with
   | Some sig =>
       let* s := get_intfinst sig in
       let* sig := new_intfinst s in
       setattr_intfinst sig (InterfaceInstance_set_port false) ;;
       setattr_intfinst sig (InterfaceInstance_set_role None) ;;
       setattr_intfinst sig (InterfaceInstance_set_name signame) ;;
       add_interface module sig ;;
       ret sig
   | None =>
       let* n := name_of portref in
       raise (InvalidPort portref.2 n)
   end)%elab.

(** The body of [for net in nets]. *)
Definition connect_net (module : modid) (net : list pkey) : M estate unit :=
  (let* sig := find_interface net in
   let* sig := match sig with
               | Some sig => ret sig
               | None => create_interface module net
               end in
   for_each net (connect (CInterface sig)))%elab.

Fixpoint elaborate_module (fuel : nat) (module : modid) : M estate modid :=
  match fuel with
  | O => raise RecursionError
  | S fuel =>
      (visit module ;;
       Elaborator.elaborate_instances (elaborate_module fuel) module ;;
       let* portconns := build_portconns module in
       for_each (nets_of portconns) (connect_net module) ;;
       ret module)%elab
  end.
End methods.

Definition elaborate `{GenArgs} (fuel : nat) (top : Top) (ctx : Context)
    : M estate modid :=
  Elaborator.elaborate_top (elaborate_module fuel) top.
End ImplicitInterfaces.

(** ** [class ElabPasses] and [elaborate] *)

Inductive ElabPasses :=
  | RUN_GENERATORS
  | IMPLICIT_INTERFACES
  | FLATTEN_INTERFACES
  | IMPLICIT_SIGNALS.

(** Iterating over the enumeration yields its members in definition order. *)
Definition all_passes : list ElabPasses :=
  [RUN_GENERATORS; IMPLICIT_INTERFACES; FLATTEN_INTERFACES; IMPLICIT_SIGNALS].

Section elaborate.
Context `{Generators}.

(** [pass_.value.elaborate(top=res, ctx=ctx)]: a new elaborator object runs
    on the heap and is dropped. *)
Definition run_pass (fuel : nat) (pass_ : ElabPasses) (top : Top) (ctx : Context)
    (h : heap) : result modid * heap :=
  let '(r, s) :=
    match pass_ with
    | RUN_GENERATORS => GeneratorElaborator.elaborate fuel top ctx
    | IMPLICIT_INTERFACES => ImplicitInterfaces.elaborate fuel top ctx
    | FLATTEN_INTERFACES => InterfaceFlattener.elaborate fuel top ctx
    | IMPLICIT_SIGNALS => ImplicitSignals.elaborate fuel top ctx
    end (init_state h) in
  (r, st_heap s).

(** [res = top; for pass_ in passes: res = ...; return res] *)
Fixpoint run_passes (fuel : nat) (passes : list ElabPasses) (res : Top)
    (ctx : Context) (h : heap) : result Top * heap :=
  match passes with
  | [] => (Ok res, h)
  | pass_ :: passes =>
      match run_pass fuel pass_ res ctx h with
      | (Ok m, h) => run_passes fuel passes (TopModule m) ctx h
      | (Raise e, h) => (Raise e, h)
      end
  end.

(** [x or default], for an optional argument that is a list: [None] and
    the empty list are both false. *)
Definition or_default {A} (x : option (list A)) (default : list A) : list A :=
  match x with
  | Some (a :: l) => a :: l
  | _ => default
  end.

(** [elaborate(top, *, ctx=None, passes=None)].  [fuel] is the recursion
    limit of the interpreter. *)
Definition elaborate (fuel : nat) (top : Top) (ctx : option Context)
    (passes : option (list ElabPasses)) (h : heap) : result Top * heap :=
  let ctx := default mkContext ctx in
  let passes := or_default passes all_passes in
  run_passes fuel passes top ctx h.
End elaborate.

(** ** [elab_all] *)

(** The values [_list_elabables_helper] tells apart. *)
#[warnings="-register-all"]
Inductive pyobj :=
  | PElabable (t : Top)                         (* Module, Generator, GeneratorCall *)
  | PList (items : list pyobj)
  | PNamespace (attrs : list (string * pyobj))   (* SimpleNamespace *)
  | POther.                                      (* anything else *)

Definition elabable (obj : pyobj) : bool :=
  match obj with PElabable _ => true | _ => false end.

(** [isinstance(i, (SimpleNamespace, list)) or elabable(i)] *)
Definition descends (obj : pyobj) : bool :=
  match obj with POther => false | _ => true end.

(** [_list_elabables_helper(obj, accum)]: the new [accum], or the
    [TypeError]. *)
Fixpoint _list_elabables_helper (obj : pyobj) (accum : list Top) : result (list Top) :=
  match obj with
  | PElabable t => Ok (accum ++ [t])
  | PList items =>
      (fix each (items : list pyobj) (accum : list Top) : result (list Top) :=
         match items with
         | [] => Ok accum
         | i :: items =>
             match _list_elabables_helper i accum with
             | Ok accum => each items accum
             | Raise e => Raise e
             end
         end) items accum
  | PNamespace attrs =>
      (fix each (attrs : list (string * pyobj)) (accum : list Top) : result (list Top) :=
         match attrs with
         | [] => Ok accum
         | (_, i) :: attrs =>
             if descends i then
               match _list_elabables_helper i accum with
               | Ok accum => each attrs accum
               | Raise e => Raise e
               end
             else each attrs accum
         end) attrs accum
  | POther => Raise TypeError
  end.

Section elab_all.
Context `{Generators}.

(** [[elaborate(top=t, **kwargs) for t in ls]] *)
Fixpoint elaborate_each (fuel : nat) (ls : list Top) (ctx : option Context)
    (passes : option (list ElabPasses)) (h : heap) : result (list Top) * heap :=
  match ls with
  | [] => (Ok [], h)
  | t :: ls =>
      match elaborate fuel t ctx passes h with
      | (Ok m, h) =>
          match elaborate_each fuel ls ctx passes h with
          | (Ok ms, h) => (Ok (m :: ms), h)
          | (Raise e, h) => (Raise e, h)
          end
      | (Raise e, h) => (Raise e, h)
      end
  end.

Definition elab_all (fuel : nat) (top : pyobj) (ctx : option Context)
    (passes : option (list ElabPasses)) (h : heap) : result (list Top) * heap :=
  match _list_elabables_helper top [] with
  | Ok ls => elaborate_each fuel ls ctx passes h
  | Raise e => (Raise e, h)
  end.
End elab_all.

(** * Vocabulary of the statements *)

(** ** Names *)

(** [k] more underscores on either side of [s]. *)
Fixpoint wrap (k : nat) (s : string) : string :=
  match k with
  | O => s
  | S k => "_" +:+ wrap k s +:+ "_"
  end.

(** ** Containers of elaboration candidates *)

(** Does [_list_elabables_helper] meet a value it refuses?  That is a value
    that is neither a candidate nor a container, met as the argument itself
    or as an item of a list; as an attribute of a namespace such a value is
    passed over. *)
Fixpoint refused (obj : pyobj) : bool :=
  match obj with
  | PElabable _ => false
  | PList items => existsb refused items
  | PNamespace attrs =>
      existsb (fun kv => descends kv.2 && refused kv.2) attrs
  | POther => true
  end.

(** The candidates of a container, in the order they are met. *)
Fixpoint candidates (obj : pyobj) : list Top :=
  match obj with
  | PElabable t => [t]
  | PList items => flat_map candidates items
  | PNamespace attrs => flat_map (fun kv => candidates kv.2) attrs
  | POther => []
  end.

(** * Example designs *)

(** Generator arguments that are numbers, named by their value. *)
Definition nat_args : GenArgs :=
  {| Arg := nat; _unique_name := fun n => "n=" +:+ String (Ascii.ascii_of_nat (48 + n)) "" |}.

(** A design without generators. *)
Definition no_generators : @Generators nat_args :=
  {| gen_name := fun _ => "";
     gen_usecontext := fun _ => false;
     gen_pymodule := fun _ => None;
     gen_func := fun _ _ _ h => (Raise GeneratorFailed, h) |}.

Definition empty_heap : @heap nat_args := mkHeap _ ∅ ∅ ∅ ∅ ∅ ∅ ∅ ∅.

(** ** Reasoning about elaborator runs *)

(** Every run of [m], whether it returns or raises, takes a state to one
    related to it by [R]. *)
Definition preserves {S A} (R : S → S → Prop) (m : M S A) : Prop :=
  ∀ s r s', m s = (r, s') → R s s'.

(** ** The hierarchy *)

(** [frame pm pi] relates two states in which every module shows the same
    [pm], every instance the same [pi] and the generator calls are the same:
    what a pass leaves alone. *)
Definition frame `{GenArgs} {X Y} (pm : Module → X) (pi : Instance → Y)
    (s s' : estate) : Prop :=
  (∀ m, pm <$> h_modules (st_heap s') !! m = pm <$> h_modules (st_heap s) !! m) ∧
  (∀ i, pi <$> h_instances (st_heap s') !! i = pi <$> h_instances (st_heap s) !! i) ∧
  h_calls (st_heap s') = h_calls (st_heap s).

(** The hierarchy of a design: the names of the modules, their instances,
    and what the instances are instances of. *)
Definition mod_hier (x : Module) : option string * dict string instid :=
  (mod_name x, mod_instances x).
Definition mod_hier_intf (x : Module)
    : option string * dict string instid * dict string intfid :=
  (mod_name x, mod_instances x, mod_interfaces x).

(** [child h m c]: module [m] has an instance that resolves to module [c]. *)
Definition child `{GenArgs} (h : heap) (m c : modid) : Prop :=
  ∃ x i inst,
    h_modules h !! m = Some x ∧
    i ∈ dict_values (mod_instances x) ∧
    h_instances h !! i = Some inst ∧
    _resolved h inst = Some (TModule c).

(** The modules reachable from [m] through instance targets, [m] included. *)
Definition reachable `{GenArgs} (h : heap) : modid → modid → Prop :=
  rtc (child h).


(** A bundle [Diff] of two signals from role 1 to role 2.  Module [M] has
    the bundle as a port [io], in role 1.  The parent [P] has an internal
    bundle [b] connected to instance [m] of [M], and two more instances of
    [M] whose bundle ports are tied by a reference. *)
Definition bundle_design : @heap nat_args :=
  mkHeap _
    (list_to_map
       [(0, mkModule (Some "P") [] [] [("m", 30); ("m2", 31); ("m3", 32)] [("b", 21)]
              [("m", AInstance 30); ("m2", AInstance 31); ("m3", AInstance 32);
               ("b", AInterface 21)] None);
        (1, mkModule (Some "M") [] [] [] [("io", 20)] [("io", AInterface 20)] None)])
    (list_to_map
       [(30, mkInstance "m" (TModule 1) [("io", CInterface 21)] false);
        (31, mkInstance "m2" (TModule 1)
               [("io", CPortRef (mkPortRef 100 (RInst 32) "io"))] false);
        (32, mkInstance "m3" (TModule 1) [] false)])
    (list_to_map
       [(10, mkSignal "p" 1 INTERNAL NONE (Some 1) (Some 2));
        (11, mkSignal "n" 1 INTERNAL NONE (Some 1) (Some 2))])
    (list_to_map
       [(20, mkInterfaceInstance "io" 0 true (Some 1) [] false);
        (21, mkInterfaceInstance "b" 0 false None [] false)])
    (list_to_map [(0, mkInterface "Diff" [("p", 10); ("n", 11)] [])])
    ∅ ∅ ∅.

(** ** Flattened signals *)

(** The direction of a flattened port signal, in the words of the
    specification: NONE without a role, OUTPUT when the role is the source
    of the signal, otherwise INPUT when it is its destination, otherwise
    NONE. *)
Definition role_direction (role src dest : option Role) : PortDir :=
  match role with
  | None => NONE
  | Some r =>
      if decide (src = Some r) then OUTPUT
      else if decide (dest = Some r) then INPUT
      else NONE
  end.

(** Signal [sig] is as flattening the bundle instance [i] leaves it. *)
Definition flattened_as `{GenArgs} (i : InterfaceInstance) (sig : sigid) (s : estate) : Prop :=
  ∃ x, h_signals (st_heap s) !! sig = Some x ∧
       (sig_vis x = PORT ↔ intf_port i = true) ∧
       (intf_port i = true →
          sig_direction x = role_direction (intf_role i) (sig_src x) (sig_dest x)) ∧
       (intf_port i = false → sig_vis x = INTERNAL ∧ sig_direction x = NONE).

(** ** Nets *)

Section net_vocabulary.
Context `{GenArgs}.

(** The members of [net] are ports of instances that are in the heap. *)
Definition net_of_instances (h : heap) (net : list pkey) : Prop :=
  Forall (fun p => ∃ i, p.1 = RInst i ∧ is_Some (h_instances h !! i)) net.

(** What the port [p] is connected to, if anything. *)
Definition connection (h : heap) (p : pkey) : option Conn :=
  match p.1 with
  | RInst i => x ← h_instances h !! i; dict_get p.2 (inst_conns x)
  | RIntf _ => None
  end.

(** The name of the instance or bundle instance [p] points into. *)
Definition owner_name (h : heap) (p : pkey) : string :=
  match p.1 with
  | RInst i => from_option inst_name "" (h_instances h !! i)
  | RIntf i => from_option intf_name "" (h_intfinsts h !! i)
  end.

(** The (instance name, port name) pairs of the members of a net. *)
Definition member_names (h : heap) (net : list pkey) : list (string * string) :=
  (fun p => (owner_name h p, p.2)) <$> net.

(** The name segments ["instname_portname"] of the members of a net. *)
Definition member_segments (h : heap) (net : list pkey) : list string :=
  (fun p => owner_name h p +:+ "_" +:+ p.2) <$> net.

(** The declared signals, resp. bundle instances, attached to a net. *)
Definition attached_signals (h : heap) (net : list pkey) : list sigid :=
  omap (fun p => match connection h p with Some (CSignal s) => Some s | _ => None end) net.
Definition attached_interfaces (h : heap) (net : list pkey) : list intfid :=
  omap (fun p => match connection h p with Some (CInterface s) => Some s | _ => None end) net.

End net_vocabulary.

(** A parent [P] in which the ports [a.p] and [b.q] are both tied to
    [c.r] by references, and [c.r] is connected to nothing. *)
Definition fan_in_design : @heap nat_args :=
  mkHeap _
    (list_to_map
       [(0, mkModule (Some "P") [] [] [("a", 1); ("b", 2); ("c", 3)] []
              [("a", AInstance 1); ("b", AInstance 2); ("c", AInstance 3)] None);
        (1, mkModule (Some "A") [("p", 1)] [] [] [] [("p", ASignal 1)] None);
        (2, mkModule (Some "B") [("q", 2)] [] [] [] [("q", ASignal 2)] None);
        (3, mkModule (Some "C") [("r", 3)] [] [] [] [("r", ASignal 3)] None)])
    (list_to_map
       [(1, mkInstance "a" (TModule 1)
              [("p", CPortRef (mkPortRef 100 (RInst 3) "r"))] false);
        (2, mkInstance "b" (TModule 2)
              [("q", CPortRef (mkPortRef 101 (RInst 3) "r"))] false);
        (3, mkInstance "c" (TModule 3) [] false)])
    (list_to_map
       [(1, mkSignal "p" 1 PORT INPUT None None);
        (2, mkSignal "q" 1 PORT INPUT None None);
        (3, mkSignal "r" 1 PORT OUTPUT None None)])
    ∅ ∅ ∅ ∅ ∅.

(** Two instances whose ports are connected to different declared signals
    and to different bundle instances. *)
Definition shorted_design : @heap nat_args :=
  mkHeap _
    (list_to_map
       [(0, mkModule (Some "P") [] [("s1", 1); ("s2", 2)] [("x", 1); ("y", 2)]
              [("b1", 1); ("b2", 2)]
              [("s1", ASignal 1); ("s2", ASignal 2); ("x", AInstance 1);
               ("y", AInstance 2); ("b1", AInterface 1); ("b2", AInterface 2)] None)])
    (list_to_map
       [(1, mkInstance "x" (TPrimitiveCall 0)
              [("p", CSignal 1); ("r", CInterface 1)] false);
        (2, mkInstance "y" (TPrimitiveCall 0)
              [("q", CSignal 2); ("r", CInterface 2)] false)])
    (list_to_map
       [(1, mkSignal "s1" 1 INTERNAL NONE None None);
        (2, mkSignal "s2" 1 INTERNAL NONE None None)])
    (list_to_map
       [(1, mkInterfaceInstance "b1" 0 false None [] false);
        (2, mkInterfaceInstance "b2" 0 false None [] false)])
    (list_to_map [(0, mkInterface "B" [] [])])
    ∅
    (list_to_map [(0, mkLeaf [])])
    ∅.

(** ** Generator calls *)

Section generator_vocabulary.
Context `{Generators}.

(** Generator functions leave the [GeneratorCall] objects they find as they
    are. *)
Definition generators_keep_calls : Prop :=
  ∀ g arg cx h r h',
    gen_func g arg cx h = (r, h') →
    ∀ c x, h_calls h !! c = Some x → h_calls h' !! c = Some x.

(** The generator pass has the result [m] for the call [c]: it is the
    result field of [c] and the entry of the table for calls equal to [c]. *)
Definition remembered (c : callid) (m : modid) (s : estate) : Prop :=
  ∃ x, h_calls (st_heap s) !! c = Some x ∧
       call_result x = Some m ∧
       dict_get (call_key x) (st_generator_calls s) = Some m.

(** The gen and arg of the calls in the heap stay what they are. *)
Definition keys_stable (s s' : estate) : Prop :=
  ∀ c x, h_calls (st_heap s) !! c = Some x →
         ∃ x', h_calls (st_heap s') !! c = Some x' ∧ call_key x' = call_key x.

(** A run keeps what the pass has for [c]. *)
Definition keeps (c : callid) (m : modid) (s s' : estate) : Prop :=
  keys_stable s s' ∧ (remembered c m s → remembered c m s').

(** One run, from call to return or exception, of a method of the generator
    pass; [later] is any number of them, one after the other. *)
Definition method_run (ctx : Context) (s s' : estate) : Prop :=
  (∃ fuel c r, GeneratorElaborator.elaborate_generator_call ctx fuel c s = (r, s')) ∨
  (∃ fuel m r, GeneratorElaborator.elaborate_module ctx fuel m s = (r, s')) ∨
  (∃ fuel i r, GeneratorElaborator.elaborate_instance ctx fuel i s = (r, s')).
Definition later (ctx : Context) : estate → estate → Prop := rtc (method_run ctx).
End generator_vocabulary.

(** Two generators.  Generator 0 hands back the module with identity 2;
    generator 1 builds a new, empty and unnamed module at every call. *)
Definition example_generators : @Generators nat_args :=
  {| gen_name := fun g => if g is 0 then "shared" else "fresh";
     gen_usecontext := fun _ => false;
     gen_pymodule := fun _ => Some "example";
     gen_func := fun g _ _ h =>
       if g is 0 then (Ok (GRModule 2), h)
       else
         let m := fresh (dom (h_modules h)) in
         (Ok (GRModule m),
          upd_modules <[m := mkModule None [] [] [] [] [] None]> h) |}.

(** A parent with two instances of generator 1 called on 3, by two call
    objects of equal value, and an instance of generator 0 called on 3. *)
Definition generated_design : @heap nat_args :=
  mkHeap _
    (list_to_map
       [(0, mkModule (Some "P") [] [] [("a", 1); ("b", 2); ("c", 3)] []
              [("a", AInstance 1); ("b", AInstance 2); ("c", AInstance 3)] None);
        (2, mkModule (Some "M") [] [] [] [] [] None)])
    (list_to_map
       [(1, mkInstance "a" (TGeneratorCall 1) [] false);
        (2, mkInstance "b" (TGeneratorCall 2) [] false);
        (3, mkInstance "c" (TGeneratorCall 3) [] false)])
    ∅ ∅ ∅
    (list_to_map
       [(1, @mkGeneratorCall nat_args 1 3 None);
        (2, @mkGeneratorCall nat_args 1 3 None);
        (3, @mkGeneratorCall nat_args 0 3 None)])
    ∅ ∅.

(** A parent with two instances of one child. *)
Definition shared_design : @heap nat_args :=
  mkHeap _
    (list_to_map
       [(0, mkModule (Some "P") [] [] [("a", 1); ("b", 2)] []
              [("a", AInstance 1); ("b", AInstance 2)] None);
        (1, mkModule (Some "C") [] [] [] [] [] None)])
    (list_to_map
       [(1, mkInstance "a" (TModule 1) [] false);
        (2, mkInstance "b" (TModule 1) [] false)])
    ∅ ∅ ∅ ∅ ∅ ∅.

(** ** Bookkeeping of a pass *)

(** The table of the modules done only grows, and so does the record of the
    modules visited. *)
Definition bookkeeping_grows `{GenArgs} (s s' : estate) : Prop :=
  st_modules s ⊆ st_modules s' ∧ ∃ l, st_trace s' = st_trace s ++ l.

(** ** Designs a second run leaves alone *)

(** No instance of the design is an instance of a generator call. *)
Definition no_generator_calls `{GenArgs} (h : heap) : Prop :=
  ∀ i x, h_instances h !! i = Some x → ∀ c, inst_of x ≠ TGeneratorCall c.

(** A Python dictionary holds a key once; the connections of every
    instance are such a dictionary. *)
Definition conns_wf (x : Instance) : Prop := NoDup (dict_keys (inst_conns x)).
Definition dicts_wf `{GenArgs} (h : heap) : Prop :=
  ∀ i x, h_instances h !! i = Some x → conns_wf x.

(** The connection of [port] is not a [PortRef]. *)
Definition no_portref_at (x : Instance) (port : string) : Prop :=
  ∀ p, dict_get port (inst_conns x) ≠ Some (CPortRef p).

(** [settled h n m]: in the hierarchy under [m], which is less than [n]
    deep, no module has an interface instance, and every instance is in the
    heap, is marked elaborated, has no [PortRef] among its connections, and
    is an instance of a module, a primitive or an external module. *)
Fixpoint settled `{GenArgs} (h : heap) (n : nat) (m : modid) : Prop :=
  match n with
  | O => False
  | S n =>
      ∃ x, h_modules h !! m = Some x ∧ mod_interfaces x = [] ∧
        ∀ i, i ∈ dict_values (mod_instances x) →
          ∃ xi, h_instances h !! i = Some xi ∧
                inst_elaborated xi = true ∧
                conns_wf xi ∧
                (∀ port, no_portref_at xi port) ∧
                match _resolved h xi with
                | Some (TModule c) => settled h n c
                | Some (TPrimitiveCall _) | Some (TExternalModuleCall _) => True
                | _ => False
                end
  end.

(** [heap_rel PM PI] relates two states with the same modules, instances
    and generator calls, where every module has changed within [PM] and
    every instance within [PI]. *)
Definition heap_rel `{GenArgs} (PM : relation Module) (PI : relation Instance)
    (s s' : estate) : Prop :=
  (∀ m, option_Forall2 PM (h_modules (st_heap s) !! m) (h_modules (st_heap s') !! m)) ∧
  (∀ i, option_Forall2 PI (h_instances (st_heap s) !! i)
          (h_instances (st_heap s') !! i)) ∧
  h_calls (st_heap s') = h_calls (st_heap s).

(** The module shows the same [pm] as before. *)
Definition same_on {X} (pm : Module → X) (x x' : Module) : Prop := pm x' = pm x.

(** What the passes after the generators do to an instance at most: its
    target stays and its connections stay a dictionary. *)
Definition stays_wf (x x' : Instance) : Prop :=
  inst_of x' = inst_of x ∧ (conns_wf x → conns_wf x').

(** What the implicit-signals pass does to an instance at most: moreover
    the mark stays once set, and a connection that is not a [PortRef] does
    not become one. *)
Definition settles (x x' : Instance) : Prop :=
  stays_wf x x' ∧
  (inst_elaborated x = true → inst_elaborated x' = true) ∧
  (∀ port, no_portref_at x port → no_portref_at x' port).

(** The relation [R] as far as the run starts from a design without
    generator calls. *)
Definition gen_free `{GenArgs} (R : relation estate) (s s' : estate) : Prop :=
  no_generator_calls (st_heap s) → R s s'.

(** The heap is still [h]. *)
Definition stays `{GenArgs} (h : heap) (s s' : estate) : Prop :=
  st_heap s = h → st_heap s' = h.

(** Two states in which the generator pass sees the same design, one
    without generator calls: the same table of modules done, and modules
    and instances that agree on the hierarchy. *)
Definition same_design `{GenArgs} (s t : estate) : Prop :=
  st_modules s = st_modules t ∧ frame mod_hier inst_of s t ∧
  no_generator_calls (st_heap s).

(** Two outcomes agree: both are results, related by [Q], or both are the
    same exception. *)
Definition result_rel {A B} (Q : A → B → Prop) (r : result A) (r' : result B) : Prop :=
  match r, r' with
  | Ok a, Ok b => Q a b
  | Raise e, Raise e' => e = e'
  | _, _ => False
  end.

(** Whatever [m1] does on a state, [m2] does on a state showing the same
    design, and they end in states showing the same design. *)
Definition simulates `{GenArgs} {A B} (Q : A → B → Prop)
    (m1 : M estate A) (m2 : M estate B) : Prop :=
  ∀ s t r s', same_design s t → m1 s = (r, s') →
    ∃ r' t', m2 t = (r', t') ∧ same_design s' t' ∧ result_rel Q r r'.

(** ** The nets of a module *)

(** [chains K seen nets]: each of the [nets] holds a reference, and none
    twice; and each of its members other than its last is one of [K] that
    is neither in [seen] nor in a net before it. *)
Fixpoint chains (K seen : list pkey) (nets : list (list pkey)) : Prop :=
  match nets with
  | [] => True
  | net :: rest =>
      (NoDup net ∧ net ≠ [] ∧
       ∀ p, p ∈ net → (p ∈ K ∧ p ∉ seen) ∨ last net = Some p) ∧
      chains K (seen ++ net) rest
  end.

(** The port [p] is connected to a [PortRef]. *)
Definition held `{GenArgs} (h : heap) (p : pkey) : Prop :=
  ∃ pr, connection h p = Some (CPortRef pr).


(** [never_shorts m]: run on a design whose connection dictionaries are
    dictionaries, [m] keeps them so and does not raise the shorting error. *)
Definition never_shorts `{GenArgs} {A} (m : M estate A) : Prop :=
  ∀ s r s', dicts_wf (st_heap s) → m s = (r, s') →
            dicts_wf (st_heap s') ∧ ∀ c names, r ≠ Raise (Shorting c names).

(** The connections outside the net [net] are the same in both states. *)
Definition outside `{GenArgs} (net : list pkey) (s s' : estate) : Prop :=
  ∀ p, p ∉ net → connection (st_heap s') p = connection (st_heap s) p.

(** ** What the generator pass has checked *)

(** The module has a name, and not the empty one. *)
Definition named (x : Module) : Prop := ∃ a n, mod_name x = Some (String a n).

(** The target of an instance another pass can work on: a module, a
    primitive or an external module. *)
Definition plain_target (t : Target) : Prop :=
  t ≠ TOther ∧ ∀ c, t ≠ TGeneratorCall c.

(** [hier_done h done]: every module of the table [done] is in the heap
    and named, and each of its instances is in the heap and is an instance
    of a module of [done], of a primitive or of an external module. *)
Definition hier_done `{GenArgs} (h : heap) (done : gset nat) : Prop :=
  ∀ m, m ∈ done →
    ∃ x, h_modules h !! m = Some x ∧ named x ∧
      ∀ i, i ∈ dict_values (mod_instances x) →
        ∃ xi, h_instances h !! i = Some xi ∧ plain_target (inst_of xi) ∧
              ∀ c, inst_of xi = TModule c → c ∈ done.

(** A step of the generator pass on a design without generator calls. *)
Definition gen_walk `{GenArgs} (s s' : estate) : Prop :=
  gen_free (heap_rel (same_on mod_hier) stays_wf) s s' ∧ bookkeeping_grows s s'.

(** The run keeps the table of the modules done a table of checked
    modules. *)
Definition keeps_done `{GenArgs} (s s' : estate) : Prop :=
  no_generator_calls (st_heap s) → hier_done (st_heap s) (st_modules s) →
  hier_done (st_heap s') (st_modules s').

(** ** What flattening a bundle instance makes *)

(** From [s] to [s'] nothing but the signals has changed, and the signals
    of [s] are in [s'] as they were. *)
Definition signals_added `{GenArgs} (s s' : estate) : Prop :=
  s' = with_heap (upd_signals (λ _, h_signals (st_heap s'))) s ∧
  h_signals (st_heap s) ⊆ h_signals (st_heap s').

(** The signal [c] has been made between [s] and [s']. *)
Definition made_since `{GenArgs} (s s' : estate) (c : sigid) : Prop :=
  h_signals (st_heap s) !! c = None ∧ is_Some (h_signals (st_heap s') !! c).

(** The signal [c], made since [s], has in [s'] the attributes that [sig]
    had in [s], if [sig] was a signal then. *)
Definition copy_of `{GenArgs} (s s' : estate) (sig c : sigid) : Prop :=
  made_since s s' c ∧
  ∀ y, h_signals (st_heap s) !! sig = Some y → h_signals (st_heap s') !! c = Some y.

(** [out] holds, under the keys of [d] and in their order, copies made
    since [s] of the signals of [d]. *)
Definition copied `{GenArgs} (s s' : estate) (d out : dict string sigid) : Prop :=
  dict_keys out = dict_keys d ∧
  (∀ k sig, dict_get k d = Some sig → ∃ c, dict_get k out = Some c ∧ copy_of s s' sig c) ∧
  (∀ c, c ∈ dict_values out → made_since s s' c).

(** A bundle [Pair] with a scalar signal [clk] and a nested bundle instance
    [d] of the bundle [Diff], and the bundle instance [pair] of it. *)
Definition nested_bundle_design : @heap nat_args :=
  mkHeap _ ∅ ∅
    (list_to_map
       [(10, mkSignal "p" 1 INTERNAL NONE (Some 1) (Some 2));
        (11, mkSignal "n" 1 INTERNAL NONE (Some 1) (Some 2));
        (12, mkSignal "clk" 1 INTERNAL NONE None None)])
    (list_to_map
       [(22, mkInterfaceInstance "d" 0 false None [] false);
        (23, mkInterfaceInstance "pair" 1 false None [] false)])
    (list_to_map
       [(0, mkInterface "Diff" [("p", 10); ("n", 11)] []);
        (1, mkInterface "Pair" [("clk", 12)] [("d", 22)])])
    ∅ ∅ ∅.

(** ** Connections to a bundle the flattener takes apart *)

(** What the flattener does to an instance at most: its target stays, its
    connections stay a dictionary, and no port gets connected to a bundle
    instance it was not connected to. *)
Definition sheds (x x' : Instance) : Prop :=
  inst_of x' = inst_of x ∧
  (conns_wf x →
   conns_wf x' ∧
   ∀ port d, dict_get port (inst_conns x') = Some (CInterface d) →
             dict_get port (inst_conns x) = Some (CInterface d)).

(** No instance of the module [x] is connected to the bundle instance
    [intf]. *)
Definition disconnected `{GenArgs} (h : heap) (x : Module) (intf : intfid) : Prop :=
  ∀ i xi, i ∈ dict_values (mod_instances x) → h_instances h !! i = Some xi →
    ∀ port, dict_get port (inst_conns xi) ≠ Some (CInterface intf).


(** A parent [P] that declares the signals [s1] and [s2], with an instance
    [x] of [X] whose port [p] is connected to [xp] and an instance [y] of
    [Y] whose port [q] is connected to [s2].  A port holds one connection:
    [xp] is the signal [s1], or the reference to [y.q] assigned over it. *)
Definition two_signals_design (xp : Conn) : @heap nat_args :=
  mkHeap _
    (list_to_map
       [(0, mkModule (Some "P") [] [("s1", 11); ("s2", 12)] [("x", 1); ("y", 2)] []
              [("s1", ASignal 11); ("s2", ASignal 12);
               ("x", AInstance 1); ("y", AInstance 2)] None);
        (1, mkModule (Some "X") [("p", 1)] [] [] [] [("p", ASignal 1)] None);
        (2, mkModule (Some "Y") [("q", 2)] [] [] [] [("q", ASignal 2)] None)])
    (list_to_map
       [(1, mkInstance "x" (TModule 1) [("p", xp)] false);
        (2, mkInstance "y" (TModule 2) [("q", CSignal 12)] false)])
    (list_to_map
       [(1, mkSignal "p" 1 PORT INPUT None None);
        (2, mkSignal "q" 1 PORT OUTPUT None None);
        (11, mkSignal "s1" 1 INTERNAL NONE None None);
        (12, mkSignal "s2" 1 INTERNAL NONE None None)])
    ∅ ∅ ∅ ∅ ∅.

(** The generator functions keep the connections of every instance a
    dictionary, and the exception a generator function raises, if any, is
    not the shorting error of the passes. *)
Definition generators_never_short `{Generators} : Prop :=
  ∀ g arg cx h r h',
    gen_func g arg cx h = (r, h') →
    (dicts_wf h → dicts_wf h') ∧ ∀ c names, r ≠ Raise (Shorting c names).

(** * Properties *)

(** ** Dictionaries *)

Section dict_facts.
Context {K V : Type} `{EqDecision K}.
Implicit Types (d : list (K * V)) (k : K) (v : V).

Lemma dict_get_nil k : dict_get k ([] : list (K * V)) = None.
Proof. reflexivity. Qed.

Lemma dict_get_cons k k' v d :
  dict_get k ((k', v) :: d) = if decide (k' = k) then Some v else dict_get k d.
Proof.
  unfold dict_get; simpl. destruct (decide (k' = k)) as [->|Hne].
  - by rewrite bool_decide_eq_true_2.
  - by rewrite bool_decide_eq_false_2.
Qed.

Lemma dict_get_Some_keys k d : is_Some (dict_get k d) ↔ k ∈ dict_keys d.
Proof.
  induction d as [|[k' v'] d IH]; simpl.
  - rewrite dict_get_nil. split; [intros [? [=]] | by intros ?%elem_of_nil].
  - rewrite dict_get_cons, elem_of_cons. destruct (decide (k' = k)) as [->|Hne].
    + split; eauto.
    + rewrite IH. unfold dict_keys. split; [by right | by intros [?|?]].
Qed.

Lemma dict_mem_true k d : dict_mem k d = true ↔ k ∈ dict_keys d.
Proof. unfold dict_mem. by rewrite bool_decide_eq_true, dict_get_Some_keys. Qed.

Lemma dict_mem_false k d : dict_mem k d = false ↔ k ∉ dict_keys d.
Proof. unfold dict_mem. by rewrite bool_decide_eq_false, dict_get_Some_keys. Qed.
End dict_facts.

(** ** C8: [flatname] *)

Lemma length_append (s t : string) :
  String.length (s +:+ t) = String.length s + String.length t.
Proof. induction s as [|c s IH]; simpl; [done | by rewrite IH]. Qed.

Lemma wrap_shift k s : wrap k ("_" +:+ s +:+ "_") = wrap (S k) s.
Proof. induction k as [|k IH]; simpl in *; [done | by rewrite IH]. Qed.

Lemma length_wrap k s : String.length (wrap k s) = String.length s + 2 * k.
Proof.
  induction k as [|k IH]; [simpl; lia |].
  change (wrap (S k) s) with ("_" +:+ wrap k s +:+ "_").
  rewrite !length_append, IH. simpl. lia.
Qed.

(** What the loop computes, started at [name] with enough turns left. *)
Lemma flatname_loop_spec {V} (avoid : dict string V) segments maxlen fuel :
  ∀ name,
    (Z.of_nat (String.length name) + Z.of_nat fuel > maxlen)%Z →
    ∃ k,
      (∀ j, j < k →
         (wrap j name ∈ dict_keys avoid) ∧
         (Z.of_nat (String.length (wrap j name)) ≤ maxlen)%Z) ∧
      ((flatname_loop fuel segments name avoid maxlen = Ok (wrap k name) ∧
        (wrap k name ∉ dict_keys avoid) ∧
        (Z.of_nat (String.length (wrap k name)) ≤ maxlen)%Z) ∨
       (flatname_loop fuel segments name avoid maxlen
          = Raise (NameExhaustion segments (wrap k name)) ∧
        (Z.of_nat (String.length (wrap k name)) > maxlen)%Z)).
Proof.
  induction fuel as [|fuel IH]; intros name Hfuel.
  - exists 0. split; [lia |]. right. simpl.
    destruct (Z.gtb_spec (Z.of_nat (String.length name)) maxlen); [split; [done | lia] | lia].
  - simpl. destruct (Z.gtb_spec (Z.of_nat (String.length name)) maxlen) as [Hlong|Hshort].
    + exists 0. split; [lia |]. right. split; [done | simpl; lia].
    + destruct (dict_mem name avoid) eqn:Hmem; simpl.
      * destruct (IH ("_" +:+ name +:+ "_")) as (k & Hbelow & Hres).
        { rewrite !length_append. simpl. lia. }
        exists (S k). split.
        -- intros [|j] Hj.
           ++ simpl. split; [by apply dict_mem_true | done].
           ++ rewrite <- wrap_shift. apply Hbelow. lia.
        -- rewrite <- !wrap_shift. exact Hres.
      * exists 0. split; [lia |]. left. split; [done |].
        split; [by apply dict_mem_false | done].
Qed.

(** A name [flatname] returns is not taken. *)
Lemma flatname_ok_free {V} (segments : list string) (avoid : dict string V) (maxlen : Z)
    (name : string) :
  flatname segments avoid maxlen = Ok name → name ∉ dict_keys avoid.
Proof.
  intros Hname.
  destruct (flatname_loop_spec avoid segments maxlen (Z.to_nat maxlen)
              ("_" +:+ join "_" segments +:+ "_")) as (k & _ & Hres).
  { rewrite !length_append. simpl. lia. }
  change (flatname_loop (Z.to_nat maxlen) segments ("_" +:+ join "_" segments +:+ "_")
            avoid maxlen) with (flatname segments avoid maxlen) in Hres.
  rewrite Hname in Hres. by destruct Hres as [([= ->] & ? & _) | ([=] & _)].
Qed.

(** C8.  [flatname] tries the names [wrap 0 base], [wrap 1 base], ... where
    [base] is ["_" + "_".join(segments) + "_"]: it returns the first one that
    is not a key of [avoid], unless a name it has to look at is longer than
    [maxlen], in which case it raises the name-exhaustion error for that
    name.  It always ends one of these two ways.  So the name returned is
    [base] itself when [base] is free, is never a key of [avoid] and never
    longer than [maxlen]; the default [maxlen] is 511. *)
Theorem flatname_correct {V} (segments : list string) (avoid : dict string V) (maxlen : Z) :
  let base := "_" +:+ join "_" segments +:+ "_" in
  (∃ k,
     (∀ j, j < k →
        (wrap j base ∈ dict_keys avoid) ∧
        (Z.of_nat (String.length (wrap j base)) ≤ maxlen)%Z) ∧
     ((flatname segments avoid maxlen = Ok (wrap k base) ∧
       (wrap k base ∉ dict_keys avoid) ∧
       (Z.of_nat (String.length (wrap k base)) ≤ maxlen)%Z) ∨
      (flatname segments avoid maxlen = Raise (NameExhaustion segments (wrap k base)) ∧
       (Z.of_nat (String.length (wrap k base)) > maxlen)%Z))) ∧
  (∀ name, flatname segments avoid maxlen = Ok name →
     (name ∉ dict_keys avoid) ∧ (Z.of_nat (String.length name) ≤ maxlen)%Z) ∧
  (base ∉ dict_keys avoid → (Z.of_nat (String.length base) ≤ maxlen)%Z →
     flatname segments avoid maxlen = Ok base) ∧
  default_maxlen = 511%Z.
Proof.
  intros base.
  assert (Hspec := flatname_loop_spec avoid segments maxlen (Z.to_nat maxlen) base).
  destruct Hspec as (k & Hbelow & Hres).
  { subst base. rewrite !length_append. simpl. lia. }
  change (flatname_loop (Z.to_nat maxlen) segments base avoid maxlen)
    with (flatname segments avoid maxlen) in Hres.
  split; [by exists k |]. split; [| split; [| done]].
  - intros name Hname. rewrite Hname in Hres.
    destruct Hres as [([= ->] & ? & ?) | ([=] & _)]. done.
  - intros Hfree Hlen. destruct k as [|k].
    + destruct Hres as [(? & _) | (_ & ?)]; [done | simpl in *; lia].
    + destruct (Hbelow 0) as [? _]; [lia | done].
Qed.

(** ** C10: the default pass list *)

(** C10.  An explicitly empty [passes] is false in [passes or ElabPasses],
    so it is replaced by the enumeration: [elaborate(top, passes=[])] is
    [elaborate(top)], which runs the four passes in definition order. *)
Theorem elaborate_empty_passes `{Generators} (fuel : nat) (top : Top)
    (ctx : option Context) (h : heap) :
  elaborate fuel top ctx (Some []) h = elaborate fuel top ctx None h ∧
  elaborate fuel top ctx None h =
    run_passes fuel
      [RUN_GENERATORS; IMPLICIT_INTERFACES; FLATTEN_INTERFACES; IMPLICIT_SIGNALS]
      top (default mkContext ctx) h.
Proof. split; reflexivity. Qed.

(** ** C9: [elab_all] *)

(** An induction principle for [pyobj] that reaches the items of a list and
    the attributes of a namespace. *)
Lemma pyobj_nested_ind (P : pyobj → Prop) :
  (∀ t, P (PElabable t)) →
  (∀ items, Forall P items → P (PList items)) →
  (∀ attrs, Forall (fun kv => P kv.2) attrs → P (PNamespace attrs)) →
  P POther →
  ∀ obj, P obj.
Proof.
  intros Hel Hlist Hns Hother.
  fix IH 1. intros [t|items|attrs|].
  - apply Hel.
  - apply Hlist. induction items as [|i items IHitems]; constructor; [apply IH | apply IHitems].
  - apply Hns. induction attrs as [|[k i] attrs IHattrs]; constructor; [apply IH | apply IHattrs].
  - apply Hother.
Qed.

Lemma _list_elabables_helper_spec (obj : pyobj) :
  ∀ accum,
    _list_elabables_helper obj accum =
      if refused obj then Raise TypeError else Ok (accum ++ candidates obj).
Proof.
  induction obj as [t|items IH|attrs IH|] using pyobj_nested_ind; intros accum.
  - reflexivity.
  - cbn [_list_elabables_helper refused candidates]. revert accum.
    induction IH as [|i items Hi _ IHitems]; intros accum.
    + cbn. by rewrite app_nil_r.
    + cbn [existsb flat_map]. rewrite Hi. destruct (refused i); [done |].
      cbn [orb]. rewrite IHitems. destruct (existsb refused items); [done |].
      by rewrite app_assoc.
  - cbn [_list_elabables_helper refused candidates]. revert accum.
    induction IH as [|[k i] attrs Hi _ IHattrs]; intros accum.
    + cbn. by rewrite app_nil_r.
    + cbn [existsb flat_map snd]. cbn [snd] in Hi.
      destruct (descends i) eqn:Hd.
      * rewrite Hi. destruct (refused i); [done |].
        cbn [andb orb]. rewrite IHattrs. destruct (existsb _ attrs); [done |].
        by rewrite app_assoc.
      * destruct i; try discriminate Hd.
        cbn [andb orb candidates app]. rewrite IHattrs.
        by destruct (existsb _ attrs).
  - reflexivity.
Qed.

(** C9, as the code has it.  [elab_all] first collects the candidates of
    its argument in order (a candidate itself, the items of lists, the
    attributes of namespaces, recursively).  When on the way it meets a value
    that is neither a candidate nor a container as the argument itself or as
    an item of a list, it raises the type error before elaborating anything,
    and the design is untouched; such a value met as an attribute of a
    namespace is passed over.  Otherwise it calls [elaborate] on each
    candidate in order, and its outcome is that of these calls: the list of
    their results, or the first exception one of them raises, which can be a
    type error of its own. *)
Theorem elab_all_correct `{Generators} (fuel : nat) (top : pyobj)
    (ctx : option Context) (passes : option (list ElabPasses)) (h : heap) :
  elab_all fuel top ctx passes h =
    if refused top then (Raise TypeError, h)
    else elaborate_each fuel (candidates top) ctx passes h.
Proof.
  unfold elab_all. rewrite _list_elabables_helper_spec.
  by destruct (refused top).
Qed.

(** C9 as stated fails: a namespace with an attribute that is neither a
    candidate nor a container (its name, say) is accepted, and nothing is
    raised. *)
Lemma elab_all_skips_namespace_leaf :
  _list_elabables_helper (PNamespace [("name", POther)]) [] = Ok [] ∧
  elab_all (H0:=no_generators) 10 (PNamespace [("name", POther)]) None None empty_heap
    = (Ok [], empty_heap) ∧
  (elab_all (H0:=no_generators) 10 (PNamespace [("name", POther)]) None None empty_heap).1
    ≠ Raise TypeError.
Proof. split; [reflexivity | split; [reflexivity | discriminate]]. Qed.

(** ** Runs of the elaboration monad *)

Section monad_facts.
Context {S : Type}.
Implicit Types (s : S).

Lemma bind_inv {A B} (m : M S A) (f : A → M S B) s r s' :
  bind m f s = (r, s') →
  (∃ a s1, m s = (Ok a, s1) ∧ f a s1 = (r, s')) ∨
  (∃ e, m s = (Raise e, s') ∧ r = Raise e).
Proof.
  unfold bind. destruct (m s) as [[a|e] s1]; intros Hrun.
  - left. eauto.
  - right. injection Hrun as <- <-. eauto.
Qed.

Lemma bind_ok {A B} (m : M S A) (f : A → M S B) s b s' :
  bind m f s = (Ok b, s') →
  ∃ a s1, m s = (Ok a, s1) ∧ f a s1 = (Ok b, s').
Proof. intros [?|(e & _ & [=])]%bind_inv. done. Qed.

Lemma bind_run {A B} (m : M S A) (f : A → M S B) s a s1 :
  m s = (Ok a, s1) → bind m f s = f a s1.
Proof. unfold bind. by intros ->. Qed.

Lemma bind_raise {A B} (m : M S A) (f : A → M S B) s e s1 :
  m s = (Raise e, s1) → bind m f s = (Raise e, s1).
Proof. unfold bind. by intros ->. Qed.

Lemma bind_bind_run {A B C} (m : M S A) (f : A → M S B) (g : B → M S C) s a s1 :
  m s = (Ok a, s1) → bind (bind m f) g s = bind (f a) g s1.
Proof. unfold bind. by intros ->. Qed.

Lemma bind_get {B} (f : S → M S B) s : bind get f s = f s s.
Proof. reflexivity. Qed.

Lemma lift_opt_inv {A} e (o : option A) s r s' :
  lift_opt e o s = (r, s') → s' = s ∧ r = match o with Some a => Ok a | None => Raise e end.
Proof. destruct o; intros [= <- <-]; done. Qed.

Lemma lift_result_inv {A} (x : result A) s r s' :
  lift_result x s = (r, s') → s' = s ∧ r = x.
Proof. destruct x; intros [= <- <-]; done. Qed.

Section preserves.
Context (R : S → S → Prop) (HR : PreOrder R).

Lemma preserves_ret {A} (a : A) : preserves R (ret a).
Proof. intros s r s' [= <- <-]. reflexivity. Qed.

Lemma preserves_raise {A} e : preserves R (raise (A:=A) e).
Proof. intros s r s' [= <- <-]. reflexivity. Qed.

Lemma preserves_get : preserves R get.
Proof. intros s r s' [= <- <-]. reflexivity. Qed.

Lemma preserves_lift_opt {A} e (o : option A) : preserves R (lift_opt e o).
Proof. destruct o; [apply preserves_ret | apply preserves_raise]. Qed.

Lemma preserves_lift_result {A} (x : result A) : preserves R (lift_result x).
Proof. destruct x; [apply preserves_ret | apply preserves_raise]. Qed.

Lemma preserves_modify (f : S → S) : (∀ s, R s (f s)) → preserves R (modify f).
Proof. intros Hf s r s' [= <- <-]. apply Hf. Qed.

Lemma preserves_bind {A B} (m : M S A) (f : A → M S B) :
  preserves R m → (∀ a, preserves R (f a)) → preserves R (bind m f).
Proof.
  intros Hm Hf s r s' [(a & s1 & Hrun & Hk)|(e & Hrun & _)]%bind_inv.
  - etrans; [by eapply Hm | by eapply Hf].
  - by eapply Hm.
Qed.

Lemma preserves_for_each {A} (l : list A) (body : A → M S unit) :
  (∀ x, x ∈ l → preserves R (body x)) → preserves R (for_each l body).
Proof.
  induction l as [|x l IH]; intros Hbody; simpl.
  - apply preserves_ret.
  - apply preserves_bind; [apply Hbody; left | intros _; apply IH].
    intros y Hy. apply Hbody. by right.
Qed.

Lemma preserves_fold_each {A B} (l : list A) (body : B → A → M S B) b :
  (∀ b x, x ∈ l → preserves R (body b x)) → preserves R (fold_each l body b).
Proof.
  revert b. induction l as [|x l IH]; intros b Hbody; simpl.
  - apply preserves_ret.
  - apply preserves_bind; [apply Hbody; left | intros b'; apply IH].
    intros b'' y Hy. apply Hbody. by right.
Qed.

Lemma preserves_map_each {A B} (l : list A) (f : A → M S B) :
  (∀ x, x ∈ l → preserves R (f x)) → preserves R (map_each l f).
Proof.
  induction l as [|x l IH]; intros Hf; simpl.
  - apply preserves_ret.
  - apply preserves_bind; [apply Hf; left | intros y].
    apply preserves_bind; [| intros ys; apply preserves_ret].
    apply IH. intros z Hz. apply Hf. by right.
Qed.

(** Each item of a loop that ran to its end was handled, in a state the
    loop had reached, and returned. *)
Lemma for_each_ok_elem {A} (l : list A) (body : A → M S unit) s s' u :
  (∀ x, x ∈ l → preserves R (body x)) →
  for_each l body s = (Ok u, s') →
  ∀ x, x ∈ l → ∃ s1 s2, R s s1 ∧ body x s1 = (Ok tt, s2) ∧ R s2 s'.
Proof.
  revert s. induction l as [|y l IH]; intros s Hbody Hrun x Hx.
  - by apply elem_of_nil in Hx.
  - simpl in Hrun. apply bind_ok in Hrun as ([] & s1 & Hy & Hrest).
    assert (R s s1) by (eapply Hbody; [left | done]).
    assert (R s1 s').
    { eapply (preserves_for_each l body); [| done]. intros z Hz. apply Hbody. by right. }
    apply elem_of_cons in Hx as [->|Hx].
    + exists s, s1. split; [reflexivity | done].
    + destruct (IH s1) with (x := x) as (s2 & s3 & ? & ? & ?); [| done | done |].
      { intros z Hz. apply Hbody. by right. }
      exists s2, s3. split; [by etrans | done].
Qed.
End preserves.
End monad_facts.

(** ** What a pass leaves alone *)

Section frame_facts.
Context `{GenArgs} {X Y : Type} (pm : Module → X) (pi : Instance → Y).

#[global] Instance frame_preorder : PreOrder (frame pm pi).
Proof.
  split.
  - by intros s.
  - intros s1 s2 s3 (Hm & Hi & Hc) (Hm' & Hi' & Hc'). split; [| split].
    + intros m. by rewrite Hm', Hm.
    + intros i. by rewrite Hi', Hi.
    + by rewrite Hc', Hc.
Qed.

Lemma frame_sym s s' : frame pm pi s s' → frame pm pi s' s.
Proof.
  intros (Hm & Hi & Hc). split; [| split]; [intros m | intros i |]; by symmetry.
Qed.

Lemma frame_weaken {X' Y'} (gm : X → X') (gi : Y → Y') s s' :
  frame pm pi s s' → frame (gm ∘ pm) (gi ∘ pi) s s'.
Proof.
  intros (Hm & Hi & Hc). split; [| split; [| done]].
  - intros m. specialize (Hm m).
    destruct (h_modules (st_heap s') !! m), (h_modules (st_heap s) !! m);
      simplify_eq/=; unfold compose; congruence.
  - intros i. specialize (Hi i).
    destruct (h_instances (st_heap s') !! i), (h_instances (st_heap s) !! i);
      simplify_eq/=; unfold compose; congruence.
Qed.

Lemma frame_module s s' m x :
  frame pm pi s s' → h_modules (st_heap s) !! m = Some x →
  ∃ x', h_modules (st_heap s') !! m = Some x' ∧ pm x' = pm x.
Proof.
  intros (Hm & _) Hx. specialize (Hm m). rewrite Hx in Hm.
  destruct (h_modules (st_heap s') !! m) as [x'|]; simplify_eq/=. eauto.
Qed.

Lemma frame_instance s s' i x :
  frame pm pi s s' → h_instances (st_heap s) !! i = Some x →
  ∃ x', h_instances (st_heap s') !! i = Some x' ∧ pi x' = pi x.
Proof.
  intros (_ & Hi & _) Hx. specialize (Hi i). rewrite Hx in Hi.
  destruct (h_instances (st_heap s') !! i) as [x'|]; simplify_eq/=. eauto.
Qed.

Lemma preserves_load {A} (sel : heap → gmap nat A) i : preserves (frame pm pi) (load sel i).
Proof.
  intros s r s'. unfold load.
  destruct (sel (st_heap s) !! i); intros [= <- <-]; reflexivity.
Qed.

Lemma preserves_setattr_module m f :
  (∀ x, pm (f x) = pm x) → preserves (frame pm pi) (setattr_module m f).
Proof.
  intros Hf. apply preserves_modify. intros s. split; [| done].
  intros m'. simpl. destruct (decide (m = m')) as [<-|].
  - rewrite lookup_alter_eq. destruct (h_modules (st_heap s) !! m); simpl; [| done].
    by rewrite Hf.
  - by rewrite lookup_alter_ne.
Qed.

Lemma preserves_setattr_instance i f :
  (∀ x, pi (f x) = pi x) → preserves (frame pm pi) (setattr_instance i f).
Proof.
  intros Hf. apply preserves_modify. intros s. split; [done | split; [| done]].
  intros i'. simpl. destruct (decide (i = i')) as [<-|].
  - rewrite lookup_alter_eq. destruct (h_instances (st_heap s) !! i); simpl; [| done].
    by rewrite Hf.
  - by rewrite lookup_alter_ne.
Qed.

Lemma preserves_setattr_signal i f : preserves (frame pm pi) (setattr_signal i f).
Proof. by apply preserves_modify. Qed.

Lemma preserves_setattr_intfinst i f : preserves (frame pm pi) (setattr_intfinst i f).
Proof. by apply preserves_modify. Qed.

Lemma preserves_new_signal x : preserves (frame pm pi) (new_signal x).
Proof. by intros s r s' [= <- <-]. Qed.

Lemma preserves_new_intfinst x : preserves (frame pm pi) (new_intfinst x).
Proof. by intros s r s' [= <- <-]. Qed.

Lemma preserves_visit m : preserves (frame pm pi) (visit m).
Proof. by apply preserves_modify. Qed.

Lemma preserves_mark_done m : preserves (frame pm pi) (mark_done m).
Proof. by apply preserves_modify. Qed.
End frame_facts.

(** Relations are shown to be kept along the structure of the code; the
    reads and writes are dealt with apart. *)
Ltac pres_structure :=
  first
    [ assumption
    | match goal with H : ∀ _, preserves _ _ |- _ => apply H end
    | lazymatch goal with
      | |- preserves _ (ret _) => apply preserves_ret; apply _
      | |- preserves _ (raise _) => apply preserves_raise; apply _
      | |- preserves _ get => apply preserves_get; apply _
      | |- preserves _ (lift_opt _ _) => apply preserves_lift_opt; apply _
      | |- preserves _ (lift_result _) => apply preserves_lift_result; apply _
      | |- preserves _ (bind _ _) => apply preserves_bind; [apply _ | | intros ?]
      | |- preserves _ (for_each _ _) => apply preserves_for_each; [apply _ | intros ? ?]
      | |- preserves _ (fold_each _ _ _) =>
          apply preserves_fold_each; [apply _ | intros ? ? ?]
      | |- preserves _ (map_each _ _) => apply preserves_map_each; [apply _ | intros ? ?]
      | |- preserves _ (match ?x with _ => _ end) => destruct x
      end ].

(** Steps that keep any relation of the kind [frame pm pi]. *)
Ltac frame_leaf :=
  lazymatch goal with
  | |- preserves _ (load _ _) => apply preserves_load
  | |- preserves _ (get_module _) => apply preserves_load
  | |- preserves _ (get_instance _) => apply preserves_load
  | |- preserves _ (get_signal _) => apply preserves_load
  | |- preserves _ (get_intfinst _) => apply preserves_load
  | |- preserves _ (get_interface _) => apply preserves_load
  | |- preserves _ (get_call _) => apply preserves_load
  | |- preserves _ (setattr_signal _ _) => apply preserves_setattr_signal
  | |- preserves _ (setattr_intfinst _ _) => apply preserves_setattr_intfinst
  | |- preserves _ (new_signal _) => apply preserves_new_signal
  | |- preserves _ (new_intfinst _) => apply preserves_new_intfinst
  | |- preserves _ (visit _) => apply preserves_visit
  | |- preserves _ (mark_done _) => apply preserves_mark_done
  end.
Ltac pres_step := first [pres_structure | frame_leaf].
Ltac pres := repeat pres_step.

(** ** Hierarchy and reachability *)

Section hierarchy_facts.
Context `{GenArgs}.

Lemma _resolved_ext (h h' : heap) (x x' : Instance) :
  inst_of x' = inst_of x → h_calls h' = h_calls h → _resolved h' x' = _resolved h x.
Proof. unfold _resolved. by intros -> ->. Qed.

Lemma child_frame (s s' : estate) m c :
  frame mod_hier inst_of s s' → child (st_heap s) m c → child (st_heap s') m c.
Proof.
  intros Hfr (x & i & inst & Hx & Hi & Hinst & Hres).
  destruct (frame_module _ _ _ _ _ _ Hfr Hx) as (x' & Hx' & [= _ Hinsts]).
  destruct (frame_instance _ _ _ _ _ _ Hfr Hinst) as (inst' & Hinst' & Hof).
  exists x', i, inst'. split; [done |]. split; [by rewrite Hinsts |]. split; [done |].
  rewrite <- Hres. apply _resolved_ext; [done |]. apply Hfr.
Qed.

Lemma reachable_frame (s s' : estate) m m' :
  frame mod_hier inst_of s s' → reachable (st_heap s) m m' → reachable (st_heap s') m m'.
Proof.
  intros Hfr. induction 1 as [|m c m' Hchild _ IH]; [constructor |].
  econstructor; [by eapply child_frame | done].
Qed.

Lemma frame_hier_intf_hier (s s' : estate) :
  frame mod_hier_intf inst_of s s' → frame mod_hier inst_of s s'.
Proof. apply (frame_weaken mod_hier_intf inst_of fst id). Qed.
End hierarchy_facts.

(** ** The base class and the implicit-signals pass keep the hierarchy *)

Section implicit_signals_frame.
Context `{GenArgs} {X : Type} (pm : Module → X).
Hypothesis pm_add_signal : ∀ sig s x, pm (Module_add_signal sig s x) = pm x.

Lemma preserves_elaborate_instance elaborate_module inst :
  (∀ m, preserves (frame pm inst_of) (elaborate_module m)) →
  preserves (frame pm inst_of) (Elaborator.elaborate_instance elaborate_module inst).
Proof.
  intros Hrec. unfold Elaborator.elaborate_instance,
    Elaborator.elaborate_primitive_call, Elaborator.elaborate_external_module.
  apply preserves_bind; [apply _ | by apply preserves_setattr_instance | intros _].
  pres.
Qed.

Lemma preserves_elaborate_instances elaborate_module module :
  (∀ m, preserves (frame pm inst_of) (elaborate_module m)) →
  preserves (frame pm inst_of) (Elaborator.elaborate_instances elaborate_module module).
Proof.
  intros Hrec. unfold Elaborator.elaborate_instances. pres.
  by apply preserves_elaborate_instance.
Qed.

Lemma preserves_name_of p : preserves (frame pm inst_of) (name_of p).
Proof. unfold name_of. pres. Qed.

Lemma preserves_conn_of p : preserves (frame pm inst_of) (conn_of p).
Proof. unfold conn_of. pres. Qed.

Lemma preserves_connect c p : preserves (frame pm inst_of) (connect c p).
Proof. unfold connect. pres. by apply preserves_setattr_instance. Qed.

Lemma preserves_pair_names net : preserves (frame pm inst_of) (pair_names net).
Proof. unfold pair_names. pres. apply preserves_name_of. Qed.

Lemma preserves_segments_of net : preserves (frame pm inst_of) (segments_of net).
Proof. unfold segments_of. pres. apply preserves_name_of. Qed.

Lemma preserves_resolved_of p : preserves (frame pm inst_of) (resolved_of p).
Proof. unfold resolved_of. pres. Qed.

Lemma preserves_add_signal module sig : preserves (frame pm inst_of) (add_signal module sig).
Proof. unfold add_signal. pres. by apply preserves_setattr_module. Qed.

Lemma preserves_find_signal net :
  preserves (frame pm inst_of) (ImplicitSignals.find_signal net).
Proof.
  unfold ImplicitSignals.find_signal, ImplicitSignals.check_signal. pres;
    first [apply preserves_conn_of | apply preserves_pair_names].
Qed.

Lemma preserves_create_signal module net :
  preserves (frame pm inst_of) (ImplicitSignals.create_signal module net).
Proof.
  unfold ImplicitSignals.create_signal, ImplicitSignals.port_of, last_portref. pres;
    first [apply preserves_segments_of | apply preserves_resolved_of
          | apply preserves_add_signal | apply preserves_name_of].
Qed.

Lemma preserves_connect_net module net :
  preserves (frame pm inst_of) (ImplicitSignals.connect_net module net).
Proof.
  unfold ImplicitSignals.connect_net. pres;
    first [apply preserves_find_signal | apply preserves_create_signal
          | apply preserves_connect].
Qed.

Lemma preserves_build_portconns module :
  preserves (frame pm inst_of) (ImplicitSignals.build_portconns module).
Proof. unfold ImplicitSignals.build_portconns. pres. Qed.

Lemma preserves_implicit_signals fuel :
  ∀ module, preserves (frame pm inst_of) (ImplicitSignals.elaborate_module fuel module).
Proof.
  induction fuel as [|fuel IH]; intros module; simpl; pres;
    first [by apply preserves_elaborate_instances | apply preserves_build_portconns
          | apply preserves_connect_net ].
Qed.
End implicit_signals_frame.

(** ** C1: no interface instance is left *)

Section no_interfaces.
Context `{GenArgs}.

Lemma mod_hier_intf_add_signal sig s x :
  mod_hier_intf (Module_add_signal sig s x) = mod_hier_intf x.
Proof. unfold Module_add_signal. by destruct (sig_vis s). Qed.

Lemma length_zero_nil {A} (l : list A) : length l = 0 → l = [].
Proof. by destruct l. Qed.

(** A visit of the implicit-signals pass that returns has found every module
    it could reach free of interface instances. *)
Lemma implicit_signals_checks_interfaces fuel :
  ∀ module s r s',
    ImplicitSignals.elaborate_module fuel module s = (Ok r, s') →
    r = module ∧
    ∀ m', reachable (st_heap s) module m' →
          ∃ x, h_modules (st_heap s) !! m' = Some x ∧ mod_interfaces x = [].
Proof.
  induction fuel as [|fuel IH]; intros module s r s' Hrun; [done |].
  simpl in Hrun.
  apply bind_ok in Hrun as ([] & s0 & [= <-] & Hrun).
  apply bind_ok in Hrun as (x & s1 & Hx & Hrun).
  unfold get_module, load in Hx. simpl in Hx.
  destruct (h_modules (st_heap s) !! module) as [x'|] eqn:Hmod; [| done].
  injection Hx as -> <-.
  destruct (bool_decide (length (mod_interfaces x) = 0)) eqn:Hlen; [| done].
  apply bool_decide_eq_true in Hlen. apply length_zero_nil in Hlen. simpl in Hrun.
  apply bind_ok in Hrun as ([] & s1 & Hinsts & Hrun).
  apply bind_ok in Hrun as (portconns & s2 & _ & Hrun).
  apply bind_ok in Hrun as ([] & s3 & _ & [= <- <-]).
  split; [done |]. intros m' Hreach.
  apply rtc_inv in Hreach as [<-|(c & Hchild & Hreach)]; [eauto |].
  destruct Hchild as (x' & i & inst & Hx' & Hi & Hinst & Hres).
  simpl in Hx'. rewrite Hmod in Hx'. injection Hx' as <-.
  unfold Elaborator.elaborate_instances in Hinsts.
  apply bind_ok in Hinsts as (x' & s1' & Hx' & Hinsts).
  unfold get_module, load in Hx'. simpl in Hx'. rewrite Hmod in Hx'.
  injection Hx' as <- <-.
  set (R := frame mod_hier_intf inst_of).
  assert (Hbody : ∀ j, j ∈ dict_values (mod_instances x) →
            preserves R (bind (Elaborator.elaborate_instance
                                 (ImplicitSignals.elaborate_module fuel) j)
                           (fun _ => ret tt))).
  { intros j _. apply preserves_bind; [apply _ | | intros ?; apply preserves_ret; apply _].
    apply preserves_elaborate_instance. intros m.
    apply preserves_implicit_signals, mod_hier_intf_add_signal. }
  destruct (for_each_ok_elem R _ _ _ _ _ _ Hbody Hinsts i Hi)
    as (sa & sb & Hsa & Hi_run & _).
  assert (Hs_sa : frame mod_hier_intf inst_of s sa) by (etrans; [| exact Hsa]; done).
  clear Hbody Hinsts.
  apply bind_ok in Hi_run as (t & sc & Hi_run & _).
  unfold Elaborator.elaborate_instance in Hi_run.
  apply bind_ok in Hi_run as ([] & sa1 & Hset & Hi_run).
  assert (Hsa1 : frame mod_hier_intf inst_of s sa1).
  { etrans; [exact Hs_sa |]. by eapply preserves_setattr_instance, Hset. }
  apply bind_ok in Hi_run as (inst' & sa2 & Hget & Hi_run).
  unfold get_instance, load in Hget.
  destruct (h_instances (st_heap sa1) !! i) as [inst''|] eqn:Hinst'; [| done].
  injection Hget as -> <-.
  apply bind_ok in Hi_run as (sa2 & sa3 & [= <- <-] & Hi_run).
  destruct (frame_instance _ _ _ _ _ _ Hsa1 Hinst) as (? & Hinst2 & Hof).
  rewrite Hinst' in Hinst2. injection Hinst2 as <-.
  rewrite (_resolved_ext (st_heap s) _ inst _ Hof), Hres in Hi_run by apply Hsa1.
  apply bind_ok in Hi_run as (r & sd & Hrec & _).
  apply IH in Hrec as [_ Hrec].
  destruct (Hrec m') as (xm & Hxm & Hempty).
  { eapply reachable_frame; [| done]. by apply frame_hier_intf_hier. }
  destruct (frame_module _ _ _ _ _ _ (frame_sym _ _ _ _ Hsa1) Hxm) as (xm' & ? & Heq).
  exists xm'. split; [done |]. injection Heq as _ _ ->. done.
Qed.
End no_interfaces.

(** C1.  When [elaborate] runs the default passes and returns, it returns a
    module, and every module reachable from it through the targets of
    instances is in the heap with an empty interface map. *)
Theorem elaborate_no_interfaces `{Generators} (fuel : nat) (top : Top)
    (ctx : option Context) (h h' : heap) (r : Top) :
  elaborate fuel top ctx None h = (Ok r, h') →
  ∃ m, r = TopModule m ∧
       ∀ m', reachable h' m m' →
             ∃ x, h_modules h' !! m' = Some x ∧ mod_interfaces x = [].
Proof.
  unfold elaborate, or_default, all_passes. cbn [run_passes].
  destruct (run_pass fuel RUN_GENERATORS _ _ _) as [[m1|?] h1]; [| done].
  destruct (run_pass fuel IMPLICIT_INTERFACES _ _ _) as [[m2|?] h2]; [| done].
  destruct (run_pass fuel FLATTEN_INTERFACES _ _ _) as [[m3|?] h3]; [| done].
  destruct (run_pass fuel IMPLICIT_SIGNALS _ _ _) as [[m4|?] h4] eqn:Hlast; [| done].
  intros [= <- <-]. exists m4. split; [done |].
  unfold run_pass, ImplicitSignals.elaborate, Elaborator.elaborate_top in Hlast.
  destruct (ImplicitSignals.elaborate_module fuel m3 (init_state h3))
    as [r s4] eqn:Hrun.
  injection Hlast as -> <-.
  assert (Hfr : frame mod_hier_intf inst_of (init_state h3) s4).
  { eapply preserves_implicit_signals; [apply mod_hier_intf_add_signal | done]. }
  apply implicit_signals_checks_interfaces in Hrun as [-> Hempty].
  intros m' Hreach.
  destruct (Hempty m') as (x & Hx & Hnil).
  { apply (reachable_frame s4 (init_state h3)); [| done].
    apply frame_hier_intf_hier. by apply frame_sym. }
  destruct (frame_module _ _ _ _ _ _ Hfr Hx) as (x' & ? & Heq).
  exists x'. split; [done |]. injection Heq as _ _ ->. done.
Qed.

Lemma elaborate_no_interfaces_witness :
  ∃ r h',
    elaborate (H0:=no_generators) 10 (TopModule 0) None None bundle_design = (Ok r, h') ∧
    ∃ m, r = TopModule m ∧
         ∀ m', reachable h' m m' →
               ∃ x, h_modules h' !! m' = Some x ∧ mod_interfaces x = [].
Proof.
  eexists _, _. split; [vm_compute; reflexivity |].
  eapply (elaborate_no_interfaces (H0:=no_generators) 10 (TopModule 0) None bundle_design).
  vm_compute. reflexivity.
Defined.

(** ** C3: visibility and direction of flattened signals *)

Section flattened_signals.
Context `{GenArgs}.

Lemma vis_dir_spec (i : InterfaceInstance) (x : Signal) :
  InterfaceFlattener.vis_dir i x =
    if intf_port i
    then (PORT, role_direction (intf_role i) (sig_src x) (sig_dest x))
    else (INTERNAL, NONE).
Proof.
  unfold InterfaceFlattener.vis_dir, InterfaceFlattener.vis_dir, role_direction.
  destruct (intf_port i); [| done]. destruct (intf_role i) as [r|]; [| done].
  rewrite (bool_decide_ext (Some r = sig_src x) (sig_src x = Some r)) by done.
  rewrite (bool_decide_ext (Some r = sig_dest x) (sig_dest x = Some r)) by done.
  by repeat case_bool_decide; repeat case_decide.
Qed.

(** One turn of the loop over the flat signals. *)
Lemma add_flat_signal_ok module intf sig s u s' :
  InterfaceFlattener.add_flat_signal module intf sig s = (Ok u, s') →
  ∃ i x name,
    h_intfinsts (st_heap s) !! intf = Some i ∧
    h_signals (st_heap s) !! sig = Some x ∧
    h_intfinsts (st_heap s') = h_intfinsts (st_heap s) ∧
    h_signals (st_heap s') =
      alter (fun x => mkSignal name (sig_width x) (InterfaceFlattener.vis_dir i x).1 (InterfaceFlattener.vis_dir i x).2
                        (sig_src x) (sig_dest x)) sig (h_signals (st_heap s)).
Proof.
  unfold InterfaceFlattener.add_flat_signal. intros Hrun.
  apply bind_ok in Hrun as (i & s1 & Hi & Hrun).
  unfold get_intfinst, load in Hi.
  destruct (h_intfinsts (st_heap s) !! intf) as [i'|] eqn:Hintf; [| done].
  injection Hi as -> <-.
  apply bind_ok in Hrun as (x & s1 & Hx & Hrun).
  unfold get_signal, load in Hx.
  destruct (h_signals (st_heap s) !! sig) as [x'|] eqn:Hsig; [| done].
  injection Hx as -> <-.
  apply bind_ok in Hrun as (xm & s1 & Hm & Hrun).
  unfold get_module, load in Hm.
  destruct (h_modules (st_heap s) !! module) as [xm'|] eqn:Hmod; [| done].
  injection Hm as -> <-.
  apply bind_ok in Hrun as (name & s1 & Hname & Hrun).
  apply lift_result_inv in Hname as [-> Hname].
  destruct (InterfaceFlattener.vis_dir i x) as [vis_ dir_] eqn:Hvd.
  unfold setattr_signal, add_signal, get_signal, setattr_module, load, bind, modify in Hrun.
  simpl in Hrun. rewrite !lookup_alter_eq, Hsig in Hrun. simpl in Hrun.
  injection Hrun as _ <-.
  exists i, x, name. split; [done |]. split; [done |]. split; [done |]. simpl.
  rewrite !alter_alter_eq. apply alter_ext. intros y Hy.
  rewrite Hsig in Hy. injection Hy as <-.
  by rewrite Hvd.
Qed.

Lemma flattened_as_alter i name sig sig' s s' :
  h_signals (st_heap s') =
    alter (fun x => mkSignal name (sig_width x) (InterfaceFlattener.vis_dir i x).1 (InterfaceFlattener.vis_dir i x).2
                      (sig_src x) (sig_dest x)) sig' (h_signals (st_heap s)) →
  (sig = sig' → is_Some (h_signals (st_heap s) !! sig)) →
  (sig ≠ sig' → flattened_as i sig s) →
  flattened_as i sig s'.
Proof.
  intros Hs' Hsame Hother. unfold flattened_as. rewrite Hs'.
  destruct (decide (sig = sig')) as [<-|Hne].
  - destruct Hsame as [x Hx]; [done |]. rewrite lookup_alter_eq, Hx. simpl.
    eexists. split; [done |]. simpl. rewrite vis_dir_spec.
    destruct (intf_port i); simpl; naive_solver.
  - rewrite lookup_alter_ne by done. by apply Hother.
Qed.

Lemma add_flat_signals_ok module intf i sigs :
  ∀ s u s',
    for_each sigs (InterfaceFlattener.add_flat_signal module intf) s = (Ok u, s') →
    h_intfinsts (st_heap s) !! intf = Some i →
    h_intfinsts (st_heap s') !! intf = Some i ∧
    ∀ sig, sig ∈ sigs ∨ flattened_as i sig s → flattened_as i sig s'.
Proof.
  induction sigs as [|sig' sigs IH]; intros s u s' Hrun Hintf.
  - injection Hrun as _ <-. split; [done |]. by intros sig [?%elem_of_nil|?].
  - simpl in Hrun. apply bind_ok in Hrun as ([] & s1 & Hone & Hrun).
    apply add_flat_signal_ok in Hone as (i' & x & name & Hi' & Hx & Hintfs & Hsigs).
    rewrite Hintf in Hi'. injection Hi' as <-.
    destruct (IH _ _ _ Hrun) as [Hintf' Hrest]; [by rewrite Hintfs |].
    split; [done |]. intros sig Hsig. apply Hrest.
    destruct (decide (sig = sig')) as [->|Hne].
    + right. eapply flattened_as_alter; [done | by eauto | done].
    + destruct Hsig as [[->|Hin]%elem_of_cons|Hgood]; [done | by left |].
      right. eapply flattened_as_alter; [done | done | done].
Qed.
End flattened_signals.

(** C3.  When the flattening pass has added the flat signals of a bundle
    instance to its module, each of them has visibility PORT if and only if
    the bundle instance is a port; for a port its direction is NONE without
    a role, OUTPUT when the role is the signal's source, otherwise INPUT
    when it is its destination, otherwise NONE; for a bundle that is no port
    the signal is INTERNAL with direction NONE. *)
Theorem flat_signals_vis_dir `{GenArgs} (module : modid) (intf : intfid)
    (flat : FlatInterfaceInst) (i : InterfaceInstance) (s s' : estate) (u : unit) :
  h_intfinsts (st_heap s) !! intf = Some i →
  InterfaceFlattener.add_flat_signals module intf flat s = (Ok u, s') →
  ∀ sig, sig ∈ dict_values (flat_signals flat) →
    ∃ x, h_signals (st_heap s') !! sig = Some x ∧
         (sig_vis x = PORT ↔ intf_port i = true) ∧
         (intf_port i = true →
            sig_direction x = role_direction (intf_role i) (sig_src x) (sig_dest x)) ∧
         (intf_port i = false → sig_vis x = INTERNAL ∧ sig_direction x = NONE).
Proof.
  intros Hintf Hrun sig Hsig.
  destruct (add_flat_signals_ok _ _ _ _ _ _ _ Hrun Hintf) as [_ Hall].
  apply Hall. by left.
Qed.

(** ** Nets: reading the members *)

Section net_reads.
Context `{GenArgs}.

Lemma load_run {A} (sel : heap → gmap nat A) i (s : estate) a :
  sel (st_heap s) !! i = Some a → load sel i s = (Ok a, s).
Proof. unfold load. by intros ->. Qed.

Lemma name_of_run s p :
  net_of_instances (st_heap s) [p] → name_of p s = (Ok (owner_name (st_heap s) p), s).
Proof.
  intros [(i & Hp & [x Hx]) _]%Forall_cons. unfold name_of, owner_name. rewrite Hp.
  unfold get_instance. erewrite bind_run by by apply load_run. by rewrite Hx.
Qed.

Lemma conn_of_run s p :
  net_of_instances (st_heap s) [p] → conn_of p s = (Ok (connection (st_heap s) p), s).
Proof.
  intros [(i & Hp & [x Hx]) _]%Forall_cons. unfold conn_of, connection. rewrite Hp.
  unfold get_instance. erewrite bind_run by by apply load_run. by rewrite Hx.
Qed.

Lemma pair_names_run s net :
  net_of_instances (st_heap s) net →
  pair_names net s = (Ok (member_names (st_heap s) net), s).
Proof.
  unfold pair_names, member_names. induction net as [|p net IH]; intros Hnet; [done |].
  apply Forall_cons in Hnet as [Hp Hnet]. simpl.
  erewrite bind_run; [| erewrite bind_run; [done | by apply name_of_run, Forall_singleton]].
  erewrite bind_run by by apply IH. done.
Qed.

Lemma segments_of_run s net :
  net_of_instances (st_heap s) net →
  segments_of net s = (Ok (member_segments (st_heap s) net), s).
Proof.
  unfold segments_of, member_segments. induction net as [|p net IH]; intros Hnet; [done |].
  apply Forall_cons in Hnet as [Hp Hnet]. simpl.
  erewrite bind_run; [| erewrite bind_run; [done | by apply name_of_run, Forall_singleton]].
  erewrite bind_run by by apply IH. done.
Qed.
End net_reads.

(** ** The check for shorted nets *)

Section shorting.
Context `{GenArgs}.

Lemma attached_signals_cons h p l :
  attached_signals h (p :: l) =
    match connection h p with
    | Some (CSignal c) => c :: attached_signals h l
    | _ => attached_signals h l
    end.
Proof.
  unfold attached_signals. cbn [omap list_omap].
  by destruct (connection h p) as [[]|].
Qed.

Lemma attached_interfaces_cons h p l :
  attached_interfaces h (p :: l) =
    match connection h p with
    | Some (CInterface c) => c :: attached_interfaces h l
    | _ => attached_interfaces h l
    end.
Proof.
  unfold attached_interfaces. cbn [omap list_omap].
  by destruct (connection h p) as [[]|].
Qed.

Lemma check_signal_run s net sig p :
  net_of_instances (st_heap s) net → net_of_instances (st_heap s) [p] →
  ImplicitSignals.check_signal net sig p s =
    match connection (st_heap s) p with
    | Some (CSignal c) =>
        match sig with
        | Some s0 =>
            if bool_decide (c = s0) then (Ok (Some c), s)
            else (Raise (Shorting c (member_names (st_heap s) net)), s)
        | None => (Ok (Some c), s)
        end
    | _ => (Ok sig, s)
    end.
Proof.
  intros Hnet Hp. unfold ImplicitSignals.check_signal.
  erewrite bind_run by by apply conn_of_run.
  destruct (connection (st_heap s) p) as [[]|]; try done.
  destruct sig; [| done]. case_bool_decide; [done |].
  by erewrite bind_run by by apply pair_names_run.
Qed.

(** The scan of [ImplicitSignals.find_signal], from [sig] on over the members [l] of
    [net]: it ends with the one declared signal attached, if there is any,
    or raises when it meets a second, different one. *)
Lemma find_signal_scan s net l :
  net_of_instances (st_heap s) net → net_of_instances (st_heap s) l →
  ∀ sig,
    (∃ r, fold_each l (ImplicitSignals.check_signal net) sig s = (Ok r, s) ∧
          (∀ c, c ∈ attached_signals (st_heap s) l → r = Some c) ∧
          (∀ c, sig = Some c → r = Some c) ∧
          (attached_signals (st_heap s) l = [] → r = sig)) ∨
    (∃ c, c ∈ attached_signals (st_heap s) l ∧
          fold_each l (ImplicitSignals.check_signal net) sig s =
            (Raise (Shorting c (member_names (st_heap s) net)), s)).
Proof.
  intros Hnet Hl. induction l as [|p l IH]; intros sig.
  - left. exists sig. split; [done |]. split; [by intros c ?%elem_of_nil | done].
  - apply Forall_cons in Hl as [Hp Hl]. specialize (IH Hl).
    cbn [fold_each]. unfold bind.
    rewrite check_signal_run by (done || by apply Forall_singleton).
    rewrite attached_signals_cons.
    destruct (connection (st_heap s) p) as [[c| | |]|] eqn:Hc;
      try (destruct (IH sig) as [(r & Hr & Hall & Hsig & Hnone)|(c' & ? & ?)];
           [left; exists r; by rewrite Hr | right; by exists c']).
    assert (Hcons : ∀ r, (∀ c', c' ∈ attached_signals (st_heap s) l → r = Some c') →
                         (∀ c', Some c = Some c' → r = Some c') →
                         ∀ c', c' ∈ c :: attached_signals (st_heap s) l → r = Some c').
    { intros r Hall Hsig c' [->|?]%elem_of_cons; [by apply Hsig | by apply Hall]. }
    destruct sig as [s0|].
    + case_bool_decide as Heq.
      * subst s0. destruct (IH (Some c)) as [(r & Hr & Hall & Hsig & Hnone)|(c' & ? & ?)];
          [left | right; exists c'; split; [by right | done]].
        exists r. rewrite Hr. split; [done |]. split; [by apply Hcons |]. by split.
      * right. exists c. split; [by left | done].
    + destruct (IH (Some c)) as [(r & Hr & Hall & Hsig & Hnone)|(c' & ? & ?)];
        [left | right; exists c'; split; [by right | done]].
      exists r. rewrite Hr. split; [done |]. split; [by apply Hcons |]. by split.
Qed.

Lemma check_interface_run s net sig p :
  net_of_instances (st_heap s) net → net_of_instances (st_heap s) [p] →
  ImplicitInterfaces.check_interface net sig p s =
    match connection (st_heap s) p with
    | Some (CInterface c) =>
        match sig with
        | Some s0 =>
            if bool_decide (c = s0) then (Ok (Some c), s)
            else (Raise (Shorting c (member_names (st_heap s) net)), s)
        | None => (Ok (Some c), s)
        end
    | _ => (Ok sig, s)
    end.
Proof.
  intros Hnet Hp. unfold ImplicitInterfaces.check_interface.
  erewrite bind_run by by apply conn_of_run.
  destruct (connection (st_heap s) p) as [[]|]; try done.
  destruct sig; [| done]. case_bool_decide; [done |].
  by erewrite bind_run by by apply pair_names_run.
Qed.

(** The scan of [ImplicitInterfaces.find_interface], from [sig] on over the members [l] of
    [net]: it ends with the one declared interface attached, if there is any,
    or raises when it meets a second, different one. *)
Lemma find_interface_scan s net l :
  net_of_instances (st_heap s) net → net_of_instances (st_heap s) l →
  ∀ sig,
    (∃ r, fold_each l (ImplicitInterfaces.check_interface net) sig s = (Ok r, s) ∧
          (∀ c, c ∈ attached_interfaces (st_heap s) l → r = Some c) ∧
          (∀ c, sig = Some c → r = Some c) ∧
          (attached_interfaces (st_heap s) l = [] → r = sig)) ∨
    (∃ c, c ∈ attached_interfaces (st_heap s) l ∧
          fold_each l (ImplicitInterfaces.check_interface net) sig s =
            (Raise (Shorting c (member_names (st_heap s) net)), s)).
Proof.
  intros Hnet Hl. induction l as [|p l IH]; intros sig.
  - left. exists sig. split; [done |]. split; [by intros c ?%elem_of_nil | done].
  - apply Forall_cons in Hl as [Hp Hl]. specialize (IH Hl).
    cbn [fold_each]. unfold bind.
    rewrite check_interface_run by (done || by apply Forall_singleton).
    rewrite attached_interfaces_cons.
    destruct (connection (st_heap s) p) as [[| |c|]|] eqn:Hc;
      try (destruct (IH sig) as [(r & Hr & Hall & Hsig & Hnone)|(c' & ? & ?)];
           [left; exists r; by rewrite Hr | right; by exists c']).
    assert (Hcons : ∀ r, (∀ c', c' ∈ attached_interfaces (st_heap s) l → r = Some c') →
                         (∀ c', Some c = Some c' → r = Some c') →
                         ∀ c', c' ∈ c :: attached_interfaces (st_heap s) l → r = Some c').
    { intros r Hall Hsig c' [->|?]%elem_of_cons; [by apply Hsig | by apply Hall]. }
    destruct sig as [s0|].
    + case_bool_decide as Heq.
      * subst s0. destruct (IH (Some c)) as [(r & Hr & Hall & Hsig & Hnone)|(c' & ? & ?)];
          [left | right; exists c'; split; [by right | done]].
        exists r. rewrite Hr. split; [done |]. split; [by apply Hcons |]. by split.
      * right. exists c. split; [by left | done].
    + destruct (IH (Some c)) as [(r & Hr & Hall & Hsig & Hnone)|(c' & ? & ?)];
        [left | right; exists c'; split; [by right | done]].
      exists r. rewrite Hr. split; [done |]. split; [by apply Hcons |]. by split.
Qed.

End shorting.

(** The check for shorted nets in the body of the loop over nets.  Handed a
    net to whose members two different declared signals are attached, or
    two different bundle instances in the implicit-interfaces pass, the body
    raises the shorting error, which names the (instance name, port name)
    pairs of the members of the net, before anything is created or
    reconnected.  No net that a pass builds is such a net, as is shown
    further on for every elaboration. *)
Lemma connect_net_shorting `{GenArgs} (module : modid) (net : list pkey)
    (s : estate) (a b : nat) :
  net_of_instances (st_heap s) net →
  a ≠ b →
  (a ∈ attached_signals (st_heap s) net → b ∈ attached_signals (st_heap s) net →
   ∃ c, ImplicitSignals.connect_net module net s =
          (Raise (Shorting c (member_names (st_heap s) net)), s)) ∧
  (a ∈ attached_interfaces (st_heap s) net → b ∈ attached_interfaces (st_heap s) net →
   ∃ c, ImplicitInterfaces.connect_net module net s =
          (Raise (Shorting c (member_names (st_heap s) net)), s)).
Proof.
  intros Hnet Hab. split; intros Ha Hb.
  - unfold ImplicitSignals.connect_net, ImplicitSignals.find_signal.
    destruct (find_signal_scan s net net Hnet Hnet None)
      as [(r & _ & Hall & _)|(c & _ & Hc)].
    + pose proof (Hall a Ha). pose proof (Hall b Hb). congruence.
    + exists c. by erewrite bind_raise.
  - unfold ImplicitInterfaces.connect_net, ImplicitInterfaces.find_interface.
    destruct (find_interface_scan s net net Hnet Hnet None)
      as [(r & _ & Hall & _)|(c & _ & Hc)].
    + pose proof (Hall a Ha). pose proof (Hall b Hb). congruence.
    + exists c. by erewrite bind_raise.
Qed.

(** ** C4: the signal of an implicit net *)

Section dict_set_facts.
Context {K V : Type} `{EqDecision K}.

Lemma dict_get_set (k k' : K) (v : V) (d : list (K * V)) :
  dict_get k (dict_set k' v d) = if decide (k = k') then Some v else dict_get k d.
Proof.
  induction d as [|[k0 v0] d IH]; simpl.
  - rewrite dict_get_cons, dict_get_nil. by repeat case_decide.
  - destruct (decide (k0 = k')) as [->|Hne]; rewrite !dict_get_cons.
    + by repeat case_decide.
    + rewrite IH. repeat case_decide; congruence.
Qed.
End dict_set_facts.

Section implicit_net.
Context `{GenArgs}.

(** Connecting a port changes the connection of that port alone. *)
Lemma connection_connect (h : heap) c (q p : pkey) i :
  q.1 = RInst i → is_Some (h_instances h !! i) →
  connection
    (upd_instances
       (alter (fun x => Instance_set_conns (dict_set q.2 c (inst_conns x)) x) i) h) p =
    if decide (p = q) then Some c else connection h p.
Proof.
  intros Hq [x Hx]. unfold connection. destruct p as [[j|j] port], q as [qi qport].
  - simpl in *. subst qi. destruct (decide (j = i)) as [->|Hne].
    + rewrite lookup_alter_eq, Hx. simpl. rewrite dict_get_set.
      repeat case_decide; congruence.
    + rewrite lookup_alter_ne by done. case_decide; congruence.
  - simpl in *. case_decide; congruence.
Qed.

Lemma connect_run c (p : pkey) (s : estate) i :
  p.1 = RInst i →
  connect c p s =
    (Ok tt,
     with_heap
       (upd_instances
          (alter (fun x => Instance_set_conns (dict_set p.2 c (inst_conns x)) x) i)) s).
Proof. unfold connect. by intros ->. Qed.

(** The loop that reconnects the members of a net: every member ends up
    connected to [c], nothing else changes. *)
Lemma connect_all_run c net :
  ∀ s, net_of_instances (st_heap s) net →
    ∃ s', for_each net (connect c) s = (Ok tt, s') ∧
          h_modules (st_heap s') = h_modules (st_heap s) ∧
          h_signals (st_heap s') = h_signals (st_heap s) ∧
          h_intfinsts (st_heap s') = h_intfinsts (st_heap s) ∧
          (∀ i, inst_of <$> h_instances (st_heap s') !! i =
                inst_of <$> h_instances (st_heap s) !! i) ∧
          (∀ p, connection (st_heap s') p =
                if decide (p ∈ net) then Some c else connection (st_heap s) p).
Proof.
  induction net as [|q net IH]; intros s Hnet.
  - exists s. split; [done |].
    repeat split; try done; intros p; by rewrite decide_False by apply not_elem_of_nil.
  - apply Forall_cons in Hnet as [(i & Hq & Hi) Hnet].
    set (s1 := with_heap
       (upd_instances
          (alter (fun x => Instance_set_conns (dict_set q.2 c (inst_conns x)) x) i)) s).
    destruct (IH s1) as (s' & Hrun & Hm & Hs & Hii & Hof & Hconn).
    { eapply Forall_impl; [exact Hnet |]. intros p (j & Hp & Hj). exists j.
      split; [done |]. simpl. by apply lookup_alter_is_Some. }
    exists s'. split; [| split; [done | split; [done | split; [done | split]]]].
    + simpl. by erewrite bind_run by by apply connect_run.
    + intros j. rewrite Hof. simpl. destruct (decide (i = j)) as [<-|].
      * rewrite lookup_alter_eq. by destruct (h_instances (st_heap s) !! i).
      * by rewrite lookup_alter_ne.
    + intros p. rewrite Hconn. subst s1. simpl.
      rewrite connection_connect by done.
      destruct (decide (p = q)) as [->|Hne].
      * rewrite (decide_True (P := q ∈ q :: net)) by by left. by case_decide.
      * destruct (decide (p ∈ net)).
        -- by rewrite decide_True by by right.
        -- rewrite decide_False; [done |]. by intros [?|?]%elem_of_cons.
Qed.

Lemma resolved_of_run (s : estate) (p : pkey) i x :
  p.1 = RInst i → h_instances (st_heap s) !! i = Some x →
  resolved_of p s = (Ok (inl <$> _resolved (st_heap s) x), s).
Proof.
  intros Hp Hx. unfold resolved_of. rewrite Hp.
  unfold get_instance. by erewrite bind_run by by apply load_run.
Qed.

End implicit_net.


(** ** The statements at example designs *)

Lemma flat_signals_vis_dir_witness :
  let flattened := InterfaceFlattener.flatten_interface 5 20 (init_state bundle_design) in
  let flat := match flattened.1 with
              | Ok flat => flat
              | Raise _ => mkFlatInterfaceInst "" 0 []
              end in
  let added := InterfaceFlattener.add_flat_signals 1 20 flat flattened.2 in
  dict_values (flat_signals flat) = [12; 13] ∧
  added.1 = Ok tt ∧
  ∀ sig, sig ∈ dict_values (flat_signals flat) →
    ∃ x, h_signals (st_heap added.2) !! sig = Some x ∧
         (sig_vis x = PORT ↔ true = true) ∧
         (true = true →
            sig_direction x = role_direction (Some 1) (sig_src x) (sig_dest x)) ∧
         (true = false → sig_vis x = INTERNAL ∧ sig_direction x = NONE).
Proof.
  intros flattened flat added. split; [reflexivity |]. split; [reflexivity |].
  apply (flat_signals_vis_dir 1 20 flat
           (mkInterfaceInstance "io" 0 true (Some 1) [] false) flattened.2 added.2 tt);
    vm_compute; reflexivity.
Defined.


Lemma connect_net_shorting_witness :
  let s := init_state shorted_design in
  let net := [(RInst 1, "p"); (RInst 2, "q"); (RInst 1, "r"); (RInst 2, "r")] in
  attached_signals (st_heap s) net = [1; 2] ∧
  attached_interfaces (st_heap s) net = [1; 2] ∧
  member_names (st_heap s) net = [("x", "p"); ("y", "q"); ("x", "r"); ("y", "r")] ∧
  (∃ c, ImplicitSignals.connect_net 0 net s =
          (Raise (Shorting c (member_names (st_heap s) net)), s)) ∧
  (∃ c, ImplicitInterfaces.connect_net 0 net s =
          (Raise (Shorting c (member_names (st_heap s) net)), s)).
Proof.
  intros s net. split; [reflexivity |]. split; [reflexivity |]. split; [reflexivity |].
  destruct (connect_net_shorting 0 net s 1 2) as [Hsig Hintf].
  { repeat constructor; eexists; (split; [reflexivity | vm_compute; eauto]). }
  { discriminate. }
  split; [apply Hsig | apply Hintf]; vm_compute; set_solver.
Defined.

(** Where two references end in the same port, the pass builds two nets
    that share it.  The first net handled gets the new signal, named after
    its own members; the second finds that signal attached to the shared
    port and joins it.  One signal is created, and the three ports are
    connected to it. *)
Lemma fan_in_nets_share_signal :
  let pc := [((RInst 1, "p"), mkPortRef 100 (RInst 3) "r");
             ((RInst 2, "q"), mkPortRef 101 (RInst 3) "r")] in
  let run := ImplicitSignals.elaborate 10 (TopModule 0) mkContext
               (init_state fan_in_design) in
  (ImplicitSignals.build_portconns 0 (init_state fan_in_design)).1 = Ok pc ∧
  nets_of pc = [[(RInst 2, "q"); (RInst 3, "r")]; [(RInst 1, "p"); (RInst 3, "r")]] ∧
  run.1 = Ok 0 ∧
  mod_signals <$> h_modules (st_heap run.2) !! 0 = Some [("_b_q_c_r_", 4)] ∧
  connection (st_heap run.2) (RInst 1, "p") = Some (CSignal 4) ∧
  connection (st_heap run.2) (RInst 2, "q") = Some (CSignal 4) ∧
  connection (st_heap run.2) (RInst 3, "r") = Some (CSignal 4).
Proof. repeat split; vm_compute; reflexivity. Qed.


(** ** C2: generator results are memoized *)

Section memoized.
Context `{Generators} (ctx : Context).

#[local] Instance keys_stable_preorder : PreOrder keys_stable.
Proof.
  split.
  - intros s c x Hx. eauto.
  - intros s1 s2 s3 H12 H23 c x Hx.
    destruct (H12 c x Hx) as (x' & Hx' & Hk).
    destruct (H23 c x' Hx') as (x'' & Hx'' & Hk'). exists x''. split; [done | congruence].
Qed.

#[local] Instance keeps_preorder c m : PreOrder (keeps c m).
Proof.
  split.
  - intros s. split; [reflexivity | done].
  - intros s1 s2 s3 [Hk Hr] [Hk' Hr']. split; [by etrans | auto].
Qed.

(** A step that touches neither the calls nor the table keeps everything. *)
Lemma keeps_same c m (s s' : estate) :
  h_calls (st_heap s') = h_calls (st_heap s) →
  st_generator_calls s' = st_generator_calls s →
  keeps c m s s'.
Proof.
  intros Hc Ht. split.
  - intros k x Hx. rewrite Hc. eauto.
  - intros (x & Hx & Hres & Hget). exists x. by rewrite Hc, Ht.
Qed.

Lemma keeps_load {A} c m (sel : heap → gmap nat A) i : preserves (keeps c m) (load sel i).
Proof.
  intros s r s'. unfold load.
  destruct (sel (st_heap s) !! i); intros [= <- <-]; reflexivity.
Qed.

Lemma keeps_setattr_module c m i f : preserves (keeps c m) (setattr_module i f).
Proof. apply preserves_modify. intros s. by apply keeps_same. Qed.

Lemma keeps_setattr_instance c m i f : preserves (keeps c m) (setattr_instance i f).
Proof. apply preserves_modify. intros s. by apply keeps_same. Qed.

Lemma keeps_setattr_intfinst c m i f : preserves (keeps c m) (setattr_intfinst i f).
Proof. apply preserves_modify. intros s. by apply keeps_same. Qed.

Lemma keeps_visit c m i : preserves (keeps c m) (visit i).
Proof. apply preserves_modify. intros s. by apply keeps_same. Qed.

Lemma keeps_mark_done c m i : preserves (keeps c m) (mark_done i).
Proof. apply preserves_modify. intros s. by apply keeps_same. Qed.

Lemma keeps_name_result c m call r :
  preserves (keeps c m) (GeneratorElaborator.name_result call r).
Proof.
  unfold GeneratorElaborator.name_result.
  repeat first [pres_structure | apply keeps_load | apply keeps_setattr_module].
Qed.

Lemma keeps_call_generator c m g arg :
  generators_keep_calls →
  preserves (keeps c m) (GeneratorElaborator.call_generator ctx g arg).
Proof.
  intros Hgen s r s'. unfold GeneratorElaborator.call_generator.
  destruct (gen_func g arg _ (st_heap s)) as [r' h'] eqn:Hrun. intros [= <- <-].
  split.
  - intros k x Hx. exists x. split; [| done]. simpl. by eapply Hgen.
  - intros (x & Hx & Hres & Hget). exists x. split; [| done]. simpl. by eapply Hgen.
Qed.

(** Writing the result of a call, and entering a call in the table. *)
Lemma set_result_run call r (s : estate) :
  GeneratorElaborator.set_result call r s =
    (Ok tt, with_heap (upd_calls (alter (GeneratorCall_set_result (Some r)) call)) s).
Proof. reflexivity. Qed.

Lemma keys_stable_set_result call r (s : estate) :
  keys_stable s (with_heap (upd_calls (alter (GeneratorCall_set_result (Some r)) call)) s).
Proof.
  intros k x Hx. simpl. destruct (decide (call = k)) as [<-|].
  - rewrite lookup_alter_eq, Hx. simpl. eauto.
  - rewrite lookup_alter_ne by done. eauto.
Qed.

Lemma remembered_set_result_other c m call r (s : estate) :
  c ≠ call → remembered c m s →
  remembered c m (with_heap (upd_calls (alter (GeneratorCall_set_result (Some r)) call)) s).
Proof.
  intros Hne (x & Hx & Hres & Hget). exists x. simpl.
  by rewrite lookup_alter_ne.
Qed.

Lemma remembered_set_result_same c m (s : estate) :
  remembered c m s →
  remembered c m (with_heap (upd_calls (alter (GeneratorCall_set_result (Some m)) c)) s).
Proof.
  intros (x & Hx & Hres & Hget). exists (GeneratorCall_set_result (Some m) x). simpl.
  by rewrite lookup_alter_eq, Hx.
Qed.

Lemma remember_inv call r (s : estate) res s' :
  GeneratorElaborator.remember call r s = (res, s') →
  (∃ x, h_calls (st_heap s) !! call = Some x ∧ res = Ok tt ∧
        s' = mkState _ (st_heap s) (dict_set (call_key x) r (st_generator_calls s))
               (st_modules s) (st_replacements s) (st_trace s)) ∨
  (h_calls (st_heap s) !! call = None ∧ res = Raise AttributeError ∧ s' = s).
Proof.
  unfold GeneratorElaborator.remember, bind, get_call, load.
  destruct (h_calls (st_heap s) !! call) as [x|]; intros [= <- <-]; [left | right]; eauto.
Qed.

(** The miss of a call in the table tells it apart from a remembered one. *)
Lemma miss_not_remembered c m call x y (s : estate) :
  h_calls (st_heap s) !! call = Some x →
  dict_get (call_key x) (st_generator_calls s) = None →
  remembered c m s →
  h_calls (st_heap s) !! c = Some y →
  c ≠ call ∧ call_key y ≠ call_key x.
Proof.
  intros Hcall Hmiss (y' & Hy' & _ & Hget) Hy. rewrite Hy in Hy'. injection Hy' as <-.
  split; [| congruence]. intros ->. rewrite Hcall in Hy. injection Hy as <-. congruence.
Qed.

(** The methods of the generator pass keep what the pass has for a call. *)
Lemma generator_pass_keeps c m :
  generators_keep_calls →
  ∀ fuel,
    (∀ call, preserves (keeps c m) (GeneratorElaborator.elaborate_generator_call ctx fuel call)) ∧
    (∀ module, preserves (keeps c m) (GeneratorElaborator.elaborate_module ctx fuel module)) ∧
    (∀ inst, preserves (keeps c m) (GeneratorElaborator.elaborate_instance ctx fuel inst)).
Proof.
  intros Hgen. induction fuel as [|fuel (IHcall & IHmod & IHinst)].
  { split; [| split]; intros x t r t' [= <- <-]; reflexivity. }
  split; [| split].
  - intros call s r s' Hrun. cbn [GeneratorElaborator.elaborate_generator_call] in Hrun.
    apply bind_inv in Hrun as [(x & s0 & Hx & Hrun)|(e & Hx & _)];
      [| by eapply keeps_load, Hx].
    unfold get_call, load in Hx.
    destruct (h_calls (st_heap s) !! call) as [x'|] eqn:Hcall; [| done].
    injection Hx as -> <-.
    rewrite bind_get in Hrun.
    destruct (dict_get (call_key x) (st_generator_calls s)) as [result|] eqn:Hhit.
    + (* the call is in the table *)
      rewrite (bind_run _ _ _ _ _ (set_result_run _ _ _)) in Hrun.
      injection Hrun as _ <-. split; [apply keys_stable_set_result |].
      intros Hrem. destruct (decide (c = call)) as [->|Hne];
        [| by apply remembered_set_result_other].
      destruct (Hrem) as (y & Hy & Hres & Hget). rewrite Hcall in Hy. injection Hy as <-.
      rewrite Hhit in Hget. injection Hget as ->.
      by apply remembered_set_result_same.
    + (* the generator runs *)
      apply bind_inv in Hrun as [(gr & s1 & Hgenrun & Hrun)|(e & Hgenrun & _)];
        [| by eapply keeps_call_generator, Hgenrun].
      assert (H1 : keeps c m s s1) by by eapply keeps_call_generator, Hgenrun.
      assert (Hnest : ∀ r2 s2,
                match gr with
                | GRGeneratorCall c' =>
                    GeneratorElaborator.elaborate_generator_call ctx fuel c'
                | GRModule m0 => ret m0
                | GROther => raise TypeError
                end s1 = (r2, s2) → keeps c m s s2).
      { intros r2 s2 Hnested. etrans; [exact H1 |].
        destruct gr; [| by eapply IHcall, Hnested |];
          injection Hnested as _ <-; reflexivity. }
      apply bind_inv in Hrun as [(m' & s2 & Hnested & Hrun)|(e & Hnested & _)];
        [| by eapply Hnest].
      assert (H2 : keeps c m s s2) by by eapply Hnest.
      rewrite (bind_run _ _ _ _ _ (set_result_run _ _ _)) in Hrun.
      set (s3 := with_heap _ s2) in Hrun.
      assert (Hs3 : keys_stable s s3).
      { etrans; [apply H2 | apply keys_stable_set_result]. }
      assert (H3 : keeps c m s s3).
      { split; [done |]. intros Hrem. apply remembered_set_result_other; [| by apply H2].
        destruct (Hrem) as (y & Hy & _). by eapply miss_not_remembered. }
      apply bind_inv in Hrun as [([] & s4 & Hremember & Hrun)|(e & Hremember & _)].
      2:{ apply remember_inv in Hremember as [(? & _ & [=] & _)|(_ & _ & ->)]. done. }
      apply remember_inv in Hremember as [(x3 & Hx3 & _ & ->)|(_ & [=] & _)].
      set (s4 := mkState _ _ _ _ _ _) in Hrun.
      assert (H4 : keeps c m s s4).
      { split; [by intros k y Hy; apply (Hs3 k y Hy) |].
        intros Hrem. destruct (proj2 H3 Hrem) as (y3 & Hy3 & Hres3 & Hget3).
        exists y3. split; [done |]. split; [done |]. subst s4. simpl.
        rewrite dict_get_set, decide_False; [done |].
        destruct (Hrem) as (y & Hy & _).
        destruct (miss_not_remembered c m call x y s) as [_ Hkey]; try done.
        destruct (Hs3 c y Hy) as (y3' & Hy3' & Hk). rewrite Hy3 in Hy3'. injection Hy3' as <-.
        destruct (Hs3 call x Hcall) as (x3' & Hx3' & Hk'). rewrite Hx3 in Hx3'.
        injection Hx3' as <-. congruence. }
      etrans; [exact H4 |].
      apply bind_inv in Hrun as [([] & s5 & Hname & Hrun)|(e & Hname & _)];
        [| by eapply keeps_name_result, Hname].
      etrans; [by eapply keeps_name_result, Hname | by eapply IHmod, Hrun].
  - intros module. cbn [GeneratorElaborator.elaborate_module].
    unfold Elaborator.elaborate_interface_instance.
    repeat first [pres_structure | apply keeps_load | apply keeps_visit
                 | apply keeps_mark_done | apply keeps_setattr_intfinst | apply IHinst].
  - intros inst. cbn [GeneratorElaborator.elaborate_instance].
    unfold Elaborator.elaborate_primitive_call, Elaborator.elaborate_external_module.
    repeat first [pres_structure | apply keeps_load | apply keeps_setattr_instance
                 | apply IHcall | apply IHmod].
Qed.

Lemma later_keeps c m s s' :
  generators_keep_calls → later ctx s s' → keeps c m s s'.
Proof.
  intros Hgen. induction 1 as [|s s1 s2 Hstep _ IH]; [reflexivity |].
  etrans; [| exact IH].
  destruct Hstep as [(fuel & x & r & Hrun)|[(fuel & x & r & Hrun)|(fuel & x & r & Hrun)]];
    destruct (generator_pass_keeps c m Hgen fuel) as (Hcall & Hmod & Hinst);
    [by eapply Hcall, Hrun | by eapply Hmod, Hrun | by eapply Hinst, Hrun].
Qed.

(** A call that was elaborated is remembered with the module returned. *)
Lemma elaborated_remembered fuel call (s : estate) m s' :
  generators_keep_calls →
  GeneratorElaborator.elaborate_generator_call ctx fuel call s = (Ok m, s') →
  remembered call m s'.
Proof.
  intros Hgen. destruct fuel as [|fuel]; [done |].
  cbn [GeneratorElaborator.elaborate_generator_call]. intros Hrun.
  apply bind_ok in Hrun as (x & s0 & Hx & Hrun).
  unfold get_call, load in Hx.
  destruct (h_calls (st_heap s) !! call) as [x'|] eqn:Hcall; [| done].
  injection Hx as -> <-.
  rewrite bind_get in Hrun.
  destruct (dict_get (call_key x) (st_generator_calls s)) as [result|] eqn:Hhit.
  - rewrite (bind_run _ _ _ _ _ (set_result_run _ _ _)) in Hrun.
    injection Hrun as <- <-.
    exists (GeneratorCall_set_result (Some result) x). simpl.
    by rewrite lookup_alter_eq, Hcall.
  - apply bind_ok in Hrun as (gr & s1 & Hgenrun & Hrun).
    apply bind_ok in Hrun as (m' & s2 & Hnested & Hrun).
    rewrite (bind_run _ _ _ _ _ (set_result_run _ _ _)) in Hrun.
    apply bind_ok in Hrun as ([] & s4 & Hremember & Hrun).
    apply remember_inv in Hremember as [(x3 & Hx3 & _ & ->)|(_ & [=] & _)].
    simpl in Hx3.
    destruct (h_calls (st_heap s2) !! call) as [x2|] eqn:Hx2;
      rewrite lookup_alter_eq, Hx2 in Hx3; [| done].
    injection Hx3 as <-.
    apply bind_ok in Hrun as ([] & s5 & Hname & Hrun).
    assert (Hmod : GeneratorElaborator.elaborate_module ctx fuel m' s5 = (Ok m, s') →
                   m = m').
    { destruct fuel as [|fuel']; [done |]. cbn [GeneratorElaborator.elaborate_module].
      intros Hm. rewrite bind_get in Hm.
      case_bool_decide; [by injection Hm as -> |].
      apply bind_ok in Hm as ([] & t1 & _ & Hm).
      apply bind_ok in Hm as (xm & t2 & _ & Hm).
      destruct (mod_name xm) as [[|]|]; try done;
        apply bind_ok in Hm as ([] & t3 & _ & Hm);
        apply bind_ok in Hm as (? & t4 & _ & Hm);
        apply bind_ok in Hm as ([] & t5 & _ & Hm);
        apply bind_ok in Hm as ([] & t6 & _ & Hm); by injection Hm as ->. }
    assert (m = m') as -> by by apply Hmod.
    destruct (generator_pass_keeps call m' Hgen fuel) as (_ & Hkeeps & _).
    eapply Hkeeps; [exact Hrun |].
    eapply keeps_name_result; [exact Hname |].
    eexists. split; [| split; [| by simpl; rewrite dict_get_set, decide_True]].
    + simpl. by rewrite lookup_alter_eq, Hx2.
    + done.
Qed.

(** A remembered call answers for every call equal to it. *)
Lemma remembered_hit c1 m c2 x1 x2 (s : estate) fuel :
  remembered c1 m s →
  h_calls (st_heap s) !! c1 = Some x1 →
  h_calls (st_heap s) !! c2 = Some x2 →
  call_key x1 = call_key x2 →
  let s' := with_heap (upd_calls (alter (GeneratorCall_set_result (Some m)) c2)) s in
  GeneratorElaborator.elaborate_generator_call ctx (S fuel) c2 s = (Ok m, s') ∧
  call_result <$> h_calls (st_heap s') !! c1 = Some (Some m) ∧
  call_result <$> h_calls (st_heap s') !! c2 = Some (Some m).
Proof.
  intros (y & Hy & Hres & Hget) Hx1 Hx2 Hkey s'.
  rewrite Hx1 in Hy. injection Hy as <-.
  split; [| split].
  - cbn [GeneratorElaborator.elaborate_generator_call].
    unfold get_call. erewrite bind_run by by apply load_run.
    erewrite bind_run by reflexivity. cbv beta.
    rewrite <- Hkey, Hget. by rewrite (bind_run _ _ _ _ _ (set_result_run _ _ _)).
  - subst s'. simpl. destruct (decide (c2 = c1)) as [->|].
    + by rewrite lookup_alter_eq, Hx1.
    + by rewrite lookup_alter_ne, Hx1, <- Hres.
  - subst s'. simpl. by rewrite lookup_alter_eq, Hx2.
Qed.
End memoized.

(** C2.  Let the generator functions leave the call objects they find
    alone.  Once the generator pass has elaborated a call [c1] and got the
    module [m], then at any later point of its run, reached by finished runs
    of its methods, elaborating a call [c2] of equal generator and argument
    returns the same [m], straight from the table and with no other effect
    than setting the result field of [c2] to [m]; the result field of [c1]
    is [m] as well. *)
Theorem generator_calls_memoized `{Generators} (ctx : Context) (fuel1 fuel2 : nat)
    (c1 c2 : callid) (x1 x2 : GeneratorCall) (m : modid) (s s1 s2 : estate) :
  generators_keep_calls →
  GeneratorElaborator.elaborate_generator_call ctx fuel1 c1 s = (Ok m, s1) →
  later ctx s1 s2 →
  h_calls (st_heap s2) !! c1 = Some x1 →
  h_calls (st_heap s2) !! c2 = Some x2 →
  call_key x1 = call_key x2 →
  let s3 := with_heap (upd_calls (alter (GeneratorCall_set_result (Some m)) c2)) s2 in
  GeneratorElaborator.elaborate_generator_call ctx (S fuel2) c2 s2 = (Ok m, s3) ∧
  call_result <$> h_calls (st_heap s3) !! c1 = Some (Some m) ∧
  call_result <$> h_calls (st_heap s3) !! c2 = Some (Some m).
Proof.
  intros Hgen Hrun Hlater Hx1 Hx2 Hkey.
  apply (remembered_hit ctx c1 m c2 x1 x2); try done.
  eapply (later_keeps ctx c1 m); [done | exact Hlater |].
  by eapply elaborated_remembered.
Qed.

Lemma example_generators_keep_calls : generators_keep_calls (H0:=example_generators).
Proof.
  intros g arg cx h r h' Hrun c x Hx. cbn in Hrun.
  destruct g; injection Hrun as _ <-; done.
Qed.

Lemma generator_calls_memoized_witness :
  let run1 := GeneratorElaborator.elaborate_generator_call (H0:=example_generators)
                mkContext 5 1 (init_state generated_design) in
  let s3 := with_heap (upd_calls (alter (GeneratorCall_set_result (Some 3)) 2)) run1.2 in
  run1.1 = Ok 3 ∧
  GeneratorElaborator.elaborate_generator_call (H0:=example_generators)
    mkContext 1 2 run1.2 = (Ok 3, s3) ∧
  call_result <$> h_calls (st_heap s3) !! 1 = Some (Some 3) ∧
  call_result <$> h_calls (st_heap s3) !! 2 = Some (Some 3).
Proof.
  intros run1 s3. split; [reflexivity |].
  apply (generator_calls_memoized (H0:=example_generators) mkContext 5 0 1 2
           (@mkGeneratorCall nat_args 1 3 (Some 3)) (@mkGeneratorCall nat_args 1 3 None)
           3 (init_state generated_design) run1.2 run1.2).
  - exact example_generators_keep_calls.
  - vm_compute. reflexivity.
  - constructor.
  - vm_compute. reflexivity.
  - vm_compute. reflexivity.
  - reflexivity.
Defined.

(** ** Bookkeeping *)

Section bookkeeping.
Context `{GenArgs}.

#[global] Instance bookkeeping_grows_preorder : PreOrder bookkeeping_grows.
Proof.
  split.
  - intros s. split; [done |]. exists []. by rewrite app_nil_r.
  - intros s1 s2 s3 [Hm [l Hl]] [Hm' [l' Hl']]. split; [by etrans |].
    exists (l ++ l'). by rewrite Hl', Hl, app_assoc.
Qed.

Lemma bookkeeping_same (s s' : estate) :
  st_modules s' = st_modules s → st_trace s' = st_trace s → bookkeeping_grows s s'.
Proof. intros Hm Ht. split; [by rewrite Hm |]. exists []. by rewrite app_nil_r. Qed.

Lemma bk_load {A} (sel : heap → gmap nat A) i : preserves bookkeeping_grows (load sel i).
Proof.
  intros s r s'. unfold load.
  destruct (sel (st_heap s) !! i); intros [= <- <-]; reflexivity.
Qed.

Lemma bk_with_heap f : preserves bookkeeping_grows (modify (with_heap f)).
Proof. apply preserves_modify. intros s. by apply bookkeeping_same. Qed.

Lemma bk_new_signal x : preserves bookkeeping_grows (new_signal x).
Proof. intros s r s' [= <- <-]. by apply bookkeeping_same. Qed.

Lemma bk_new_intfinst x : preserves bookkeeping_grows (new_intfinst x).
Proof. intros s r s' [= <- <-]. by apply bookkeeping_same. Qed.

Lemma bk_visit m : preserves bookkeeping_grows (visit m).
Proof. apply preserves_modify. intros s. split; [done |]. by exists [m]. Qed.

Lemma bk_mark_done m : preserves bookkeeping_grows (mark_done m).
Proof.
  apply preserves_modify. intros s. split; [simpl; set_solver |].
  exists []. by rewrite app_nil_r.
Qed.

Lemma bk_record_replacements m r :
  preserves bookkeeping_grows (InterfaceFlattener.record_replacements m r).
Proof. apply preserves_modify. intros s. by apply bookkeeping_same. Qed.
End bookkeeping.

Ltac bk_leaf :=
  lazymatch goal with
  | |- preserves _ (load _ _) => apply bk_load
  | |- preserves _ (get_module _) => apply bk_load
  | |- preserves _ (get_instance _) => apply bk_load
  | |- preserves _ (get_signal _) => apply bk_load
  | |- preserves _ (get_intfinst _) => apply bk_load
  | |- preserves _ (get_interface _) => apply bk_load
  | |- preserves _ (get_call _) => apply bk_load
  | |- preserves _ (setattr_module _ _) => apply bk_with_heap
  | |- preserves _ (setattr_instance _ _) => apply bk_with_heap
  | |- preserves _ (setattr_signal _ _) => apply bk_with_heap
  | |- preserves _ (setattr_intfinst _ _) => apply bk_with_heap
  | |- preserves _ (setattr_call _ _) => apply bk_with_heap
  | |- preserves _ (new_signal _) => apply bk_new_signal
  | |- preserves _ (new_intfinst _) => apply bk_new_intfinst
  | |- preserves _ (visit _) => apply bk_visit
  | |- preserves _ (mark_done _) => apply bk_mark_done
  | |- preserves _ (InterfaceFlattener.record_replacements _ _) =>
      apply bk_record_replacements
  end.
Ltac bk := repeat first [pres_structure | bk_leaf].

Section bookkeeping_passes.
Context `{Generators} (ctx : Context).

Lemma bk_elaborate_instances elaborate_module module :
  (∀ m, preserves bookkeeping_grows (elaborate_module m)) →
  preserves bookkeeping_grows (Elaborator.elaborate_instances elaborate_module module).
Proof.
  intros Hrec. unfold Elaborator.elaborate_instances, Elaborator.elaborate_instance,
    Elaborator.elaborate_primitive_call, Elaborator.elaborate_external_module. bk.
Qed.

Lemma bk_connect_net_signals module net :
  preserves bookkeeping_grows (ImplicitSignals.connect_net module net).
Proof.
  unfold ImplicitSignals.connect_net, ImplicitSignals.find_signal,
    ImplicitSignals.check_signal, ImplicitSignals.create_signal, ImplicitSignals.port_of,
    conn_of, connect, pair_names, segments_of, name_of, resolved_of, last_portref,
    add_signal. bk.
Qed.

Lemma bk_connect_net_interfaces module net :
  preserves bookkeeping_grows (ImplicitInterfaces.connect_net module net).
Proof.
  unfold ImplicitInterfaces.connect_net, ImplicitInterfaces.find_interface,
    ImplicitInterfaces.check_interface, ImplicitInterfaces.create_interface,
    ImplicitInterfaces.interface_port_of,
    conn_of, connect, pair_names, segments_of, name_of, resolved_of, last_portref,
    add_interface. bk.
Qed.

Lemma bk_implicit_signals fuel :
  ∀ module, preserves bookkeeping_grows (ImplicitSignals.elaborate_module fuel module).
Proof.
  induction fuel as [|fuel IH]; intros module; cbn [ImplicitSignals.elaborate_module];
    [bk |].
  unfold ImplicitSignals.build_portconns.
  repeat first [pres_structure | bk_leaf | by apply bk_elaborate_instances
               | apply bk_connect_net_signals].
Qed.

Lemma bk_implicit_interfaces fuel :
  ∀ module, preserves bookkeeping_grows (ImplicitInterfaces.elaborate_module fuel module).
Proof.
  induction fuel as [|fuel IH]; intros module; cbn [ImplicitInterfaces.elaborate_module];
    [bk |].
  unfold ImplicitInterfaces.build_portconns, ImplicitInterfaces.instance_portconns,
    ImplicitInterfaces.other_port, resolved_of.
  repeat first [pres_structure | bk_leaf | by apply bk_elaborate_instances
               | apply bk_connect_net_interfaces].
Qed.

Lemma bk_flatten_interface fuel :
  ∀ intf, preserves bookkeeping_grows (InterfaceFlattener.flatten_interface fuel intf).
Proof.
  induction fuel as [|fuel IH]; intros intf; cbn [InterfaceFlattener.flatten_interface];
    [bk |].
  unfold InterfaceFlattener.deepcopy_signals, InterfaceFlattener.merge_nested. bk.
Qed.

Lemma bk_flatten_all depth module fuel :
  ∀ reps, preserves bookkeeping_grows
            (InterfaceFlattener.flatten_all fuel depth module reps).
Proof.
  induction fuel as [|fuel IH]; intros reps; cbn [InterfaceFlattener.flatten_all];
    unfold InterfaceFlattener.add_flat_signals, InterfaceFlattener.add_flat_signal,
      InterfaceFlattener.replace_connections, InterfaceFlattener.replace_connection,
      InterfaceFlattener.replacements_of, InterfaceFlattener.reconnect_portrefs,
      InterfaceFlattener.update_conns, add_signal;
    repeat first [pres_structure | bk_leaf | apply bk_flatten_interface].
Qed.

Lemma bk_flattener fuel :
  ∀ module, preserves bookkeeping_grows (InterfaceFlattener.elaborate_module fuel module).
Proof.
  induction fuel as [|fuel IH]; intros module; cbn [InterfaceFlattener.elaborate_module];
    [bk |].
  repeat first [pres_structure | bk_leaf | by apply bk_elaborate_instances
               | apply bk_flatten_all].
Qed.

Lemma bk_generator_pass fuel :
  (∀ call, preserves bookkeeping_grows
             (GeneratorElaborator.elaborate_generator_call ctx fuel call)) ∧
  (∀ module, preserves bookkeeping_grows
               (GeneratorElaborator.elaborate_module ctx fuel module)) ∧
  (∀ inst, preserves bookkeeping_grows
             (GeneratorElaborator.elaborate_instance ctx fuel inst)).
Proof.
  induction fuel as [|fuel (IHcall & IHmod & IHinst)].
  { split; [| split]; intros x; cbn; bk. }
  assert (Hgen : ∀ g arg, preserves bookkeeping_grows
                            (GeneratorElaborator.call_generator ctx g arg)).
  { intros g arg s r s'. unfold GeneratorElaborator.call_generator.
    destruct (gen_func g arg _ (st_heap s)). intros [= <- <-]. by apply bookkeeping_same. }
  assert (Hrem : ∀ c m, preserves bookkeeping_grows (GeneratorElaborator.remember c m)).
  { intros c m. unfold GeneratorElaborator.remember. bk.
    apply preserves_modify. intros s. by apply bookkeeping_same. }
  split; [| split].
  - intros call. cbn [GeneratorElaborator.elaborate_generator_call].
    unfold GeneratorElaborator.set_result, GeneratorElaborator.name_result.
    repeat first [pres_structure | bk_leaf | apply Hgen | apply Hrem
                 | apply IHcall | apply IHmod].
  - intros module. cbn [GeneratorElaborator.elaborate_module].
    unfold Elaborator.elaborate_interface_instance.
    repeat first [pres_structure | bk_leaf | apply IHinst].
  - intros inst. cbn [GeneratorElaborator.elaborate_instance].
    unfold Elaborator.elaborate_primitive_call, Elaborator.elaborate_external_module.
    repeat first [pres_structure | bk_leaf | apply IHcall | apply IHmod].
Qed.
End bookkeeping_passes.

(** ** C7: which passes memoize their work on a module *)

Section memo.
Context `{Generators} (ctx : Context).

(** Every pass returns the module it was called on; the generator pass and
    the flattening pass have entered it in their table by then. *)
Lemma generator_elaborate_module_returns fuel module (s : estate) r s' :
  GeneratorElaborator.elaborate_module ctx fuel module s = (Ok r, s') →
  r = module ∧ module ∈ st_modules s'.
Proof.
  destruct fuel as [|fuel]; [done |]. cbn [GeneratorElaborator.elaborate_module].
  intros Hm. rewrite bind_get in Hm.
  case_bool_decide; [by injection Hm as <- <- |].
  apply bind_ok in Hm as ([] & t1 & _ & Hm).
  apply bind_ok in Hm as (xm & t2 & _ & Hm).
  destruct (mod_name xm) as [[|]|]; try done;
    apply bind_ok in Hm as ([] & t3 & _ & Hm);
    apply bind_ok in Hm as (? & t4 & _ & Hm);
    apply bind_ok in Hm as ([] & t5 & _ & Hm);
    apply bind_ok in Hm as ([] & t6 & [= <-] & Hm); injection Hm as <- <-;
    (split; [done |]); simpl; set_solver.
Qed.

Lemma flattener_elaborate_module_returns fuel module (s : estate) r s' :
  InterfaceFlattener.elaborate_module fuel module s = (Ok r, s') →
  r = module ∧ module ∈ st_modules s'.
Proof.
  destruct fuel as [|fuel]; [done |]. cbn [InterfaceFlattener.elaborate_module].
  intros Hm. rewrite bind_get in Hm.
  case_bool_decide; [by injection Hm as <- <- |].
  apply bind_ok in Hm as ([] & t1 & _ & Hm).
  apply bind_ok in Hm as ([] & t2 & _ & Hm).
  apply bind_ok in Hm as (xm & t3 & _ & Hm).
  apply bind_ok in Hm as (reps & t4 & _ & Hm).
  apply bind_ok in Hm as ([] & t5 & [= <-] & Hm).
  apply bind_ok in Hm as ([] & t6 & [= <-] & Hm). injection Hm as <- <-.
  split; [done |]. simpl. set_solver.
Qed.

Lemma implicit_signals_returns fuel module (s : estate) r s' :
  ImplicitSignals.elaborate_module fuel module s = (Ok r, s') → r = module.
Proof. by intros [? _]%implicit_signals_checks_interfaces. Qed.

Lemma implicit_interfaces_returns fuel module (s : estate) r s' :
  ImplicitInterfaces.elaborate_module fuel module s = (Ok r, s') → r = module.
Proof.
  destruct fuel as [|fuel]; [done |]. cbn [ImplicitInterfaces.elaborate_module].
  intros Hm.
  apply bind_ok in Hm as ([] & t1 & _ & Hm).
  apply bind_ok in Hm as ([] & t2 & _ & Hm).
  apply bind_ok in Hm as (pc & t3 & _ & Hm).
  apply bind_ok in Hm as ([] & t4 & _ & Hm). by injection Hm as <- _.
Qed.

(** The implicit-net passes start on the body at every visit. *)
Lemma implicit_signals_visits fuel module (s : estate) r s' :
  ImplicitSignals.elaborate_module (S fuel) module s = (r, s') →
  ∃ l, st_trace s' = st_trace s ++ module :: l.
Proof.
  intros Hrun.
  assert (Hrest : ∃ s0, st_trace s0 = st_trace s ++ [module] ∧ bookkeeping_grows s0 s').
  { revert Hrun. cbn [ImplicitSignals.elaborate_module]. intros Hrun.
    apply bind_inv in Hrun as [([] & s0 & [= <-] & Hrun)|(e & [=] & _)].
    exists (mkState _ (st_heap s) (st_generator_calls s) (st_modules s)
              (st_replacements s) (st_trace s ++ [module])).
    split; [reflexivity |]. revert Hrun. generalize (mkState _ (st_heap s)
      (st_generator_calls s) (st_modules s) (st_replacements s) (st_trace s ++ [module])).
    intros s0 Hrun. revert s0 r s' Hrun.
    change (preserves bookkeeping_grows
      (let* x := get_module module in
       if negb (bool_decide (length (mod_interfaces x) = 0)) then
         raise InterfacesNotFlattened
       else
         Elaborator.elaborate_instances (ImplicitSignals.elaborate_module fuel) module ;;
         let* portconns := ImplicitSignals.build_portconns module in
         for_each (nets_of portconns) (ImplicitSignals.connect_net module) ;;
         ret module)%elab).
    unfold ImplicitSignals.build_portconns.
    repeat first [pres_structure | bk_leaf | apply bk_elaborate_instances
                 | apply bk_connect_net_signals | apply bk_implicit_signals]. }
  destruct Hrest as (s0 & Hs0 & _ & l & Hl). exists l.
  by rewrite Hl, Hs0, <- app_assoc.
Qed.

Lemma implicit_interfaces_visits fuel module (s : estate) r s' :
  ImplicitInterfaces.elaborate_module (S fuel) module s = (r, s') →
  ∃ l, st_trace s' = st_trace s ++ module :: l.
Proof.
  intros Hrun.
  assert (Hrest : ∃ s0, st_trace s0 = st_trace s ++ [module] ∧ bookkeeping_grows s0 s').
  { revert Hrun. cbn [ImplicitInterfaces.elaborate_module]. intros Hrun.
    apply bind_inv in Hrun as [([] & s0 & [= <-] & Hrun)|(e & [=] & _)].
    exists (mkState _ (st_heap s) (st_generator_calls s) (st_modules s)
              (st_replacements s) (st_trace s ++ [module])).
    split; [reflexivity |]. revert Hrun. generalize (mkState _ (st_heap s)
      (st_generator_calls s) (st_modules s) (st_replacements s) (st_trace s ++ [module])).
    intros s0 Hrun. revert s0 r s' Hrun.
    change (preserves bookkeeping_grows
      (Elaborator.elaborate_instances (ImplicitInterfaces.elaborate_module fuel) module ;;
       let* portconns := ImplicitInterfaces.build_portconns module in
       for_each (nets_of portconns) (ImplicitInterfaces.connect_net module) ;;
       ret module)%elab).
    unfold ImplicitInterfaces.build_portconns, ImplicitInterfaces.instance_portconns,
      ImplicitInterfaces.other_port, resolved_of.
    repeat first [pres_structure | bk_leaf | apply bk_elaborate_instances
                 | apply bk_connect_net_interfaces | apply bk_implicit_interfaces]. }
  destruct Hrest as (s0 & Hs0 & _ & l & Hl). exists l.
  by rewrite Hl, Hs0, <- app_assoc.
Qed.
End memo.

(** C7, as the code has it.  The generator pass and the flattening pass
    memoize by module identity: a visit of a module that is in the table of
    the pass returns it at once and changes nothing; a visit that returns
    has entered the module in the table; and the table only grows during a
    visit.  The two implicit-net passes keep no table: every visit of a
    module, however it ends, starts on the body again. *)
Theorem passes_memoize_by_identity `{Generators} (ctx : Context) (fuel : nat)
    (module : modid) (s : estate) :
  (module ∈ st_modules s →
   GeneratorElaborator.elaborate_module ctx (S fuel) module s = (Ok module, s) ∧
   InterfaceFlattener.elaborate_module (S fuel) module s = (Ok module, s)) ∧
  (∀ r s', GeneratorElaborator.elaborate_module ctx fuel module s = (Ok r, s') →
           r = module ∧ module ∈ st_modules s') ∧
  (∀ r s', InterfaceFlattener.elaborate_module fuel module s = (Ok r, s') →
           r = module ∧ module ∈ st_modules s') ∧
  (∀ r s', GeneratorElaborator.elaborate_module ctx fuel module s = (r, s') →
           st_modules s ⊆ st_modules s') ∧
  (∀ r s', InterfaceFlattener.elaborate_module fuel module s = (r, s') →
           st_modules s ⊆ st_modules s') ∧
  (∀ r s', ImplicitSignals.elaborate_module (S fuel) module s = (r, s') →
           ∃ l, st_trace s' = st_trace s ++ module :: l) ∧
  (∀ r s', ImplicitInterfaces.elaborate_module (S fuel) module s = (r, s') →
           ∃ l, st_trace s' = st_trace s ++ module :: l).
Proof.
  split; [| split; [| split; [| split; [| split; [| split]]]]].
  - intros Hin. cbn [GeneratorElaborator.elaborate_module InterfaceFlattener.elaborate_module].
    rewrite !bind_get, !bool_decide_eq_true_2 by done. by split.
  - intros r s' Hrun. by eapply generator_elaborate_module_returns.
  - intros r s' Hrun. by eapply flattener_elaborate_module_returns.
  - intros r s' Hrun. destruct (bk_generator_pass ctx fuel) as (_ & Hmod & _).
    by eapply Hmod, Hrun.
  - intros r s' Hrun. by eapply bk_flattener, Hrun.
  - intros r s' Hrun. by eapply implicit_signals_visits.
  - intros r s' Hrun. by eapply implicit_interfaces_visits.
Qed.

Lemma passes_memoize_by_identity_witness :
  let s := (GeneratorElaborator.elaborate (H0:=example_generators) 10 (TopModule 0)
              mkContext (init_state shared_design)).2 in
  1 ∈ st_modules s ∧
  GeneratorElaborator.elaborate_module (H0:=example_generators) mkContext 1 1 s
    = (Ok 1, s) ∧
  InterfaceFlattener.elaborate_module 1 1 s = (Ok 1, s).
Proof.
  intros s.
  assert (Hin : 1 ∈ st_modules s) by (vm_compute; set_solver).
  split; [exact Hin |].
  by apply (passes_memoize_by_identity (H0:=example_generators) mkContext 0 1 s).
Defined.

(** C7 as stated fails: in a parent with two instances of one child, the
    implicit-signals pass and the implicit-interfaces pass each run their
    body on the child twice; the two other passes run it once. *)
Lemma implicit_passes_revisit_shared_module :
  ImplicitSignals.elaborate 10 (TopModule 0) mkContext (init_state shared_design)
    = (Ok 0, (ImplicitSignals.elaborate 10 (TopModule 0) mkContext
                (init_state shared_design)).2) ∧
  st_trace (ImplicitSignals.elaborate 10 (TopModule 0) mkContext
              (init_state shared_design)).2 = [0; 1; 1] ∧
  st_trace (ImplicitInterfaces.elaborate 10 (TopModule 0) mkContext
              (init_state shared_design)).2 = [0; 1; 1] ∧
  st_trace (InterfaceFlattener.elaborate 10 (TopModule 0) mkContext
              (init_state shared_design)).2 = [0; 1] ∧
  st_trace (GeneratorElaborator.elaborate (H0:=example_generators) 10 (TopModule 0)
              mkContext (init_state shared_design)).2 = [0; 1] ∧
  ¬ NoDup (st_trace (ImplicitSignals.elaborate 10 (TopModule 0) mkContext
                       (init_state shared_design)).2).
Proof.
  repeat split; try (vm_compute; reflexivity).
  assert (Htrace : st_trace (ImplicitSignals.elaborate 10 (TopModule 0) mkContext
                       (init_state shared_design)).2 = [0; 1; 1])
    by (vm_compute; reflexivity).
  rewrite Htrace. intros Hnd. apply NoDup_cons in Hnd as [_ Hnd].
  apply NoDup_cons in Hnd as [Hnot _]. apply Hnot. by left.
Qed.

(** ** C6: elaborating twice *)

Section twice.
Context `{Generators}.

Lemma run_pass_returns fuel pass_ m ctx (h h' : heap) r :
  run_pass fuel pass_ (TopModule m) ctx h = (Ok r, h') → r = m.
Proof.
  unfold run_pass. destruct pass_; cbn.
  - destruct (GeneratorElaborator.elaborate_module ctx fuel m (init_state h))
      as [[r'|] s] eqn:Hrun; intros [= <- <-].
    by eapply generator_elaborate_module_returns.
  - destruct (ImplicitInterfaces.elaborate_module fuel m (init_state h))
      as [[r'|] s] eqn:Hrun; intros [= <- <-].
    by eapply implicit_interfaces_returns.
  - destruct (InterfaceFlattener.elaborate_module fuel m (init_state h))
      as [[r'|] s] eqn:Hrun; intros [= <- <-].
    by eapply flattener_elaborate_module_returns.
  - destruct (ImplicitSignals.elaborate_module fuel m (init_state h))
      as [[r'|] s] eqn:Hrun; intros [= <- <-].
    by eapply implicit_signals_returns.
Qed.

Lemma run_passes_returns fuel passes ctx :
  ∀ m (h h' : heap) r,
    run_passes fuel passes (TopModule m) ctx h = (Ok r, h') → r = TopModule m.
Proof.
  induction passes as [|pass_ passes IH]; intros m h h' r; cbn [run_passes].
  - by intros [= <- _].
  - destruct (run_pass fuel pass_ (TopModule m) ctx h) as [[m'|] h1] eqn:Hpass; [| done].
    apply run_pass_returns in Hpass as ->. apply IH.
Qed.
End twice.


(** *** Relations between the heaps of a run *)

Section heap_rel_facts.
Context `{GenArgs} (PM : relation Module) (PI : relation Instance).
Context {HPM : PreOrder PM} {HPI : PreOrder PI}.

#[global] Instance heap_rel_preorder : PreOrder (heap_rel PM PI).
Proof.
  split.
  - intros s. split; [| split]; [intros m | intros i | done]; reflexivity.
  - intros s1 s2 s3 (Hm & Hi & Hc) (Hm' & Hi' & Hc'). split; [| split].
    + intros m. specialize (Hm m). specialize (Hm' m).
      destruct Hm; inversion Hm'; subst; constructor. by etrans.
    + intros i. specialize (Hi i). specialize (Hi' i).
      destruct Hi; inversion Hi'; subst; constructor. by etrans.
    + by rewrite Hc', Hc.
Qed.

Lemma heap_rel_same s s' :
  h_modules (st_heap s') = h_modules (st_heap s) →
  h_instances (st_heap s') = h_instances (st_heap s) →
  h_calls (st_heap s') = h_calls (st_heap s) →
  heap_rel PM PI s s'.
Proof.
  intros Hm Hi Hc. split; [| split]; [intros m | intros i | done].
  - rewrite Hm. reflexivity.
  - rewrite Hi. reflexivity.
Qed.

Lemma hr_load {A} (sel : heap → gmap nat A) i : preserves (heap_rel PM PI) (load sel i).
Proof.
  intros s r s'. unfold load.
  destruct (sel (st_heap s) !! i); intros [= <- <-]; reflexivity.
Qed.

Lemma hr_setattr_module m f :
  (∀ x, PM x (f x)) → preserves (heap_rel PM PI) (setattr_module m f).
Proof.
  intros Hf. apply preserves_modify. intros s. split; [| split]; [| | done].
  - intros m'. simpl. destruct (decide (m = m')) as [<-|].
    + rewrite lookup_alter_eq. destruct (h_modules (st_heap s) !! m); constructor.
      apply Hf.
    + rewrite lookup_alter_ne by done. reflexivity.
  - intros i. reflexivity.
Qed.

Lemma hr_setattr_instance i f :
  (∀ x, PI x (f x)) → preserves (heap_rel PM PI) (setattr_instance i f).
Proof.
  intros Hf. apply preserves_modify. intros s. split; [| split]; [| | done].
  - intros m. reflexivity.
  - intros i'. simpl. destruct (decide (i = i')) as [<-|].
    + rewrite lookup_alter_eq. destruct (h_instances (st_heap s) !! i); constructor.
      apply Hf.
    + rewrite lookup_alter_ne by done. reflexivity.
Qed.

Lemma hr_setattr_signal i f : preserves (heap_rel PM PI) (setattr_signal i f).
Proof. apply preserves_modify. intros s. by apply heap_rel_same. Qed.

Lemma hr_setattr_intfinst i f : preserves (heap_rel PM PI) (setattr_intfinst i f).
Proof. apply preserves_modify. intros s. by apply heap_rel_same. Qed.

Lemma hr_new_signal x : preserves (heap_rel PM PI) (new_signal x).
Proof. intros s r s' [= <- <-]. by apply heap_rel_same. Qed.

Lemma hr_new_intfinst x : preserves (heap_rel PM PI) (new_intfinst x).
Proof. intros s r s' [= <- <-]. by apply heap_rel_same. Qed.

Lemma hr_visit m : preserves (heap_rel PM PI) (visit m).
Proof. apply preserves_modify. intros s. by apply heap_rel_same. Qed.

Lemma hr_mark_done m : preserves (heap_rel PM PI) (mark_done m).
Proof. apply preserves_modify. intros s. by apply heap_rel_same. Qed.

Lemma hr_record_replacements m r :
  preserves (heap_rel PM PI) (InterfaceFlattener.record_replacements m r).
Proof. apply preserves_modify. intros s. by apply heap_rel_same. Qed.

(** What the relation hands on. *)
Lemma heap_rel_module s s' m x :
  heap_rel PM PI s s' → h_modules (st_heap s) !! m = Some x →
  ∃ x', h_modules (st_heap s') !! m = Some x' ∧ PM x x'.
Proof.
  intros (Hm & _) Hx. specialize (Hm m). rewrite Hx in Hm.
  inversion Hm; subst. eauto.
Qed.

Lemma heap_rel_instance s s' i x :
  heap_rel PM PI s s' → h_instances (st_heap s) !! i = Some x →
  ∃ x', h_instances (st_heap s') !! i = Some x' ∧ PI x x'.
Proof.
  intros (_ & Hi & _) Hx. specialize (Hi i). rewrite Hx in Hi.
  inversion Hi; subst. eauto.
Qed.

Lemma heap_rel_instance_back s s' i x' :
  heap_rel PM PI s s' → h_instances (st_heap s') !! i = Some x' →
  ∃ x, h_instances (st_heap s) !! i = Some x ∧ PI x x'.
Proof.
  intros (_ & Hi & _) Hx. specialize (Hi i). rewrite Hx in Hi.
  inversion Hi; subst. eauto.
Qed.

Lemma heap_rel_module_back s s' m x' :
  heap_rel PM PI s s' → h_modules (st_heap s') !! m = Some x' →
  ∃ x, h_modules (st_heap s) !! m = Some x ∧ PM x x'.
Proof.
  intros (Hm & _) Hx. specialize (Hm m). rewrite Hx in Hm.
  inversion Hm; subst. eauto.
Qed.
End heap_rel_facts.

Ltac hr_leaf_apply :=
  lazymatch goal with
  | |- preserves _ (load _ _) => apply hr_load
  | |- preserves _ (get_module _) => apply hr_load
  | |- preserves _ (get_instance _) => apply hr_load
  | |- preserves _ (get_signal _) => apply hr_load
  | |- preserves _ (get_intfinst _) => apply hr_load
  | |- preserves _ (get_interface _) => apply hr_load
  | |- preserves _ (get_call _) => apply hr_load
  | |- preserves _ (setattr_signal _ _) => apply hr_setattr_signal
  | |- preserves _ (setattr_intfinst _ _) => apply hr_setattr_intfinst
  | |- preserves _ (new_signal _) => apply hr_new_signal
  | |- preserves _ (new_intfinst _) => apply hr_new_intfinst
  | |- preserves _ (visit _) => apply hr_visit
  | |- preserves _ (mark_done _) => apply hr_mark_done
  | |- preserves _ (InterfaceFlattener.record_replacements _ _) =>
      apply hr_record_replacements
  end.
Ltac hr_leaf := hr_leaf_apply; try apply _.
Ltac hr := repeat first [pres_structure | hr_leaf].

Section dict_keys_facts.
Context {K V : Type} `{EqDecision K}.

Lemma dict_keys_set (k : K) (v : V) (d : list (K * V)) :
  dict_keys (dict_set k v d) = if decide (k ∈ dict_keys d) then dict_keys d
                               else dict_keys d ++ [k].
Proof.
  induction d as [|[k0 v0] d IH]; simpl.
  - destruct (decide (k ∈ @dict_keys K V [])) as [Hin|_]; [by apply elem_of_nil in Hin | done].
  - destruct (decide (k0 = k)) as [->|Hne]; simpl.
    + rewrite decide_True by left. done.
    + unfold dict_keys in *. rewrite IH. destruct (decide (k ∈ d.*1)) as [Hin|Hnin].
      * rewrite decide_True by by right. done.
      * rewrite decide_False; [done |]. by intros [?|?]%elem_of_cons.
Qed.

Lemma dict_set_NoDup (k : K) (v : V) (d : list (K * V)) :
  NoDup (dict_keys d) → NoDup (dict_keys (dict_set k v d)).
Proof.
  intros Hnd. rewrite dict_keys_set. case_decide; [done |].
  apply NoDup_app. split; [done |]. split; [| apply NoDup_singleton].
  intros x Hx ->%list_elem_of_singleton. done.
Qed.

Lemma dict_pop_keys (k : K) (d r : list (K * V)) (v : V) :
  dict_pop k d = Some (v, r) → dict_keys r ⊆ dict_keys d ∧
                               (NoDup (dict_keys d) → NoDup (dict_keys r)).
Proof.
  revert r. induction d as [|[k0 v0] d IH]; intros r; simpl; [done |].
  destruct (decide (k0 = k)) as [->|Hne].
  - intros [= <- <-]. split; [intros x Hx; by right |]. by intros [_ ?]%NoDup_cons.
  - destruct (dict_pop k d) as [[v' r']|] eqn:Hpop; [| done]. intros [= <- <-].
    destruct (IH r' eq_refl) as [Hsub Hnd]. simpl. split.
    { intros x [->|Hx]%elem_of_cons; [by left | right; by apply Hsub]. }
    intros [Hnin Hd]%NoDup_cons. apply NoDup_cons. split; [| by apply Hnd].
    intros Hin. apply Hnin. by apply Hsub.
Qed.

(** Under a key that occurs once, the dictionary gives the value paired
    with it. *)
Lemma dict_get_NoDup (k : K) (v : V) (d : list (K * V)) :
  NoDup (dict_keys d) → (k, v) ∈ d → dict_get k d = Some v.
Proof.
  induction d as [|[k0 v0] d IH]; simpl; [by intros _ ?%elem_of_nil |].
  intros [Hnin Hnd]%NoDup_cons [[= -> ->]|Hin]%elem_of_cons; rewrite dict_get_cons.
  - by rewrite decide_True.
  - rewrite decide_False; [by apply IH |]. intros ->. apply Hnin.
    unfold dict_keys. apply list_elem_of_fmap. by exists (k, v).
Qed.
End dict_keys_facts.

#[global] Instance same_on_preorder {X} (pm : Module → X) : PreOrder (same_on pm).
Proof.
  split; [by intros x |]. unfold same_on. intros x y z Hxy Hyz. by rewrite Hyz.
Qed.

#[global] Instance stays_wf_preorder : PreOrder stays_wf.
Proof.
  split; [by intros x |]. intros x y z [Hof Hwf] [Hof' Hwf']. split.
  - by rewrite Hof'.
  - auto.
Qed.

#[global] Instance settles_preorder : PreOrder settles.
Proof.
  split.
  - intros x. split; [reflexivity | done].
  - intros x y z (Hwf & He & Hp) (Hwf' & He' & Hp'). split; [by etrans |].
    split; [auto |]. intros port Hport. by apply Hp', Hp.
Qed.

Lemma stays_wf_elaborated x b : stays_wf x (Instance_set_elaborated b x).
Proof. by split. Qed.

Lemma stays_wf_set x k c :
  stays_wf x (Instance_set_conns (dict_set k c (inst_conns x)) x).
Proof. split; [done |]. apply dict_set_NoDup. Qed.

Lemma settles_elaborated x : settles x (Instance_set_elaborated true x).
Proof. split; [apply stays_wf_elaborated | done]. Qed.

Lemma settles_set x k sig :
  settles x (Instance_set_conns (dict_set k (CSignal sig) (inst_conns x)) x).
Proof.
  split; [apply stays_wf_set |]. split; [done |].
  intros port Hport p. unfold no_portref_at in *. simpl. rewrite dict_get_set.
  case_decide; [done | apply Hport].
Qed.

(** *** What the passes after the generators keep *)

Section heap_rel_passes.
Context `{GenArgs} (PM : relation Module) (PI : relation Instance) (okc : Conn → Prop).
Context {HPM : PreOrder PM} {HPI : PreOrder PI}.
Hypothesis PI_elaborated : ∀ x, PI x (Instance_set_elaborated true x).
Hypothesis PI_connect :
  ∀ x k c, okc c → PI x (Instance_set_conns (dict_set k c (inst_conns x)) x).

Lemma hr_elaborate_instance elaborate_module inst :
  (∀ m, preserves (heap_rel PM PI) (elaborate_module m)) →
  preserves (heap_rel PM PI) (Elaborator.elaborate_instance elaborate_module inst).
Proof.
  intros Hrec. unfold Elaborator.elaborate_instance,
    Elaborator.elaborate_primitive_call, Elaborator.elaborate_external_module.
  apply preserves_bind; [apply _ | by apply hr_setattr_instance | intros _].
  hr.
Qed.

Lemma hr_elaborate_instances elaborate_module module :
  (∀ m, preserves (heap_rel PM PI) (elaborate_module m)) →
  preserves (heap_rel PM PI) (Elaborator.elaborate_instances elaborate_module module).
Proof.
  intros Hrec. unfold Elaborator.elaborate_instances. hr.
  by apply hr_elaborate_instance.
Qed.

Lemma hr_connect c p : okc c → preserves (heap_rel PM PI) (connect c p).
Proof.
  intros Hc. unfold connect. hr. apply hr_setattr_instance; try apply _.
  intros x. by apply PI_connect.
Qed.

Section signals.
Hypothesis PM_add_signal : ∀ sig s x, PM x (Module_add_signal sig s x).
Hypothesis okc_signal : ∀ s, okc (CSignal s).

Lemma hr_connect_net_signals module net :
  preserves (heap_rel PM PI) (ImplicitSignals.connect_net module net).
Proof.
  unfold ImplicitSignals.connect_net, ImplicitSignals.find_signal,
    ImplicitSignals.check_signal, ImplicitSignals.create_signal, ImplicitSignals.port_of,
    conn_of, pair_names, segments_of, name_of, resolved_of, last_portref, add_signal.
  repeat first [pres_structure | hr_leaf | by apply hr_connect
               | by apply hr_setattr_module].
Qed.

Lemma hr_implicit_signals fuel :
  ∀ module, preserves (heap_rel PM PI) (ImplicitSignals.elaborate_module fuel module).
Proof.
  induction fuel as [|fuel IH]; intros module; cbn [ImplicitSignals.elaborate_module];
    [hr |].
  unfold ImplicitSignals.build_portconns.
  repeat first [pres_structure | hr_leaf | by apply hr_elaborate_instances
               | apply hr_connect_net_signals].
Qed.
End signals.

Section interfaces.
Hypothesis PM_add_interface : ∀ i ii x, PM x (Module_add_interface i ii x).
Hypothesis okc_interface : ∀ i, okc (CInterface i).

Lemma hr_connect_net_interfaces module net :
  preserves (heap_rel PM PI) (ImplicitInterfaces.connect_net module net).
Proof.
  unfold ImplicitInterfaces.connect_net, ImplicitInterfaces.find_interface,
    ImplicitInterfaces.check_interface, ImplicitInterfaces.create_interface,
    ImplicitInterfaces.interface_port_of,
    conn_of, pair_names, segments_of, name_of, resolved_of, last_portref, add_interface.
  repeat first [pres_structure | hr_leaf | by apply hr_connect
               | by apply hr_setattr_module].
Qed.

Lemma hr_implicit_interfaces fuel :
  ∀ module, preserves (heap_rel PM PI) (ImplicitInterfaces.elaborate_module fuel module).
Proof.
  induction fuel as [|fuel IH]; intros module; cbn [ImplicitInterfaces.elaborate_module];
    [hr |].
  unfold ImplicitInterfaces.build_portconns, ImplicitInterfaces.instance_portconns,
    ImplicitInterfaces.other_port, resolved_of.
  repeat first [pres_structure | hr_leaf | by apply hr_elaborate_instances
               | apply hr_connect_net_interfaces].
Qed.
End interfaces.
End heap_rel_passes.

Lemma same_on_hier_add_signal sig s x : same_on mod_hier x (Module_add_signal sig s x).
Proof. unfold same_on, Module_add_signal. by destruct (sig_vis s). Qed.

Lemma same_on_hier_intf_add_signal sig s x :
  same_on mod_hier_intf x (Module_add_signal sig s x).
Proof. unfold same_on, Module_add_signal. by destruct (sig_vis s). Qed.

Lemma same_on_hier_add_interface i ii x :
  same_on mod_hier x (Module_add_interface i ii x).
Proof. done. Qed.

Lemma dict_keys_repoint p sig conns :
  dict_keys (InterfaceFlattener.repoint p sig conns) = dict_keys conns.
Proof.
  unfold InterfaceFlattener.repoint, dict_keys. rewrite <- list_fmap_compose.
  apply list_fmap_ext. intros ? [k []] _; simpl; try done. by case_bool_decide.
Qed.

Lemma stays_wf_repoint p sig x :
  stays_wf x (Instance_set_conns (InterfaceFlattener.repoint p sig (inst_conns x)) x).
Proof. split; [done |]. unfold conns_wf. simpl. by rewrite dict_keys_repoint. Qed.

Section flattener_keeps.
Context `{GenArgs}.

(** [inst.conns.pop(portname)] *)
Lemma hr_pop_connection inst portname :
  preserves (heap_rel (same_on mod_hier) stays_wf)
    (let* x := get_instance inst in
     let* popped := lift_opt KeyError (dict_pop portname (inst_conns x)) in
     setattr_instance inst (Instance_set_conns popped.2))%elab.
Proof.
  intros s r s'. unfold bind, get_instance, load.
  destruct (h_instances (st_heap s) !! inst) as [x|] eqn:Hx;
    [| intros [= <- <-]; reflexivity].
  destruct (dict_pop portname (inst_conns x)) as [[v rest]|] eqn:Hpop; simpl;
    intros [= <- <-]; [| reflexivity].
  split; [| split]; [intros m; reflexivity | | done].
  intros i. simpl. destruct (decide (inst = i)) as [<-|].
  - rewrite lookup_alter_eq, Hx. constructor. split; [done |].
    by apply (dict_pop_keys _ _ _ _ Hpop).
  - rewrite lookup_alter_ne by done. reflexivity.
Qed.

Lemma hr_flatten_interface fuel :
  ∀ intf, preserves (heap_rel (same_on mod_hier) stays_wf)
            (InterfaceFlattener.flatten_interface fuel intf).
Proof.
  induction fuel as [|fuel IH]; intros intf; cbn [InterfaceFlattener.flatten_interface];
    [hr |].
  unfold InterfaceFlattener.deepcopy_signals, InterfaceFlattener.merge_nested. hr.
Qed.

Lemma hr_flatten_all depth module fuel :
  ∀ reps, preserves (heap_rel (same_on mod_hier) stays_wf)
            (InterfaceFlattener.flatten_all fuel depth module reps).
Proof.
  induction fuel as [|fuel IH]; intros reps; cbn [InterfaceFlattener.flatten_all];
    unfold InterfaceFlattener.add_flat_signals, InterfaceFlattener.add_flat_signal,
      InterfaceFlattener.replace_connections, InterfaceFlattener.replace_connection,
      InterfaceFlattener.replacements_of, InterfaceFlattener.reconnect_portrefs,
      InterfaceFlattener.update_conns, add_signal;
    repeat first
      [ apply hr_pop_connection | pres_structure | hr_leaf | apply hr_flatten_interface
      | apply hr_setattr_module; [apply _ | apply _ | done]
      | apply hr_setattr_module;
        [apply _ | apply _ | intros ?; apply same_on_hier_add_signal]
      | apply hr_setattr_instance; [apply _ | apply _ | intros ?; apply stays_wf_set]
      | apply hr_setattr_instance; [apply _ | apply _ | intros ?; apply stays_wf_repoint] ].
Qed.

Lemma hr_flattener fuel :
  ∀ module, preserves (heap_rel (same_on mod_hier) stays_wf)
              (InterfaceFlattener.elaborate_module fuel module).
Proof.
  induction fuel as [|fuel IH]; intros module; cbn [InterfaceFlattener.elaborate_module];
    [hr |].
  repeat first [pres_structure | hr_leaf | apply hr_flatten_all
               | apply hr_elaborate_instances; try apply _;
                 [intros ?; apply stays_wf_elaborated | exact IH] ].
Qed.
End flattener_keeps.

(** *** The generator pass on a design without generator calls *)

Section generator_free.
Context `{Generators} (ctx : Context) (PM : relation Module) {HPM : PreOrder PM}.

Lemma heap_rel_no_generator_calls s s' :
  heap_rel PM stays_wf s s' →
  no_generator_calls (st_heap s) → no_generator_calls (st_heap s').
Proof.
  intros Hr Hng i x' Hx' c Hof.
  destruct (heap_rel_instance_back _ _ _ _ _ _ Hr Hx') as (x & Hx & [Hof' _]).
  eapply Hng; [exact Hx |]. by rewrite <- Hof'.
Qed.

#[global] Instance gen_free_preorder : PreOrder (gen_free (heap_rel PM stays_wf)).
Proof.
  split.
  - intros s _. reflexivity.
  - intros s1 s2 s3 H12 H23 Hng. etrans; [by apply H12 |].
    apply H23. eapply heap_rel_no_generator_calls; [by apply H12 | done].
Qed.

Lemma gen_free_lift {A} (R : relation estate) (m : M estate A) :
  preserves R m → preserves (gen_free R) m.
Proof. intros Hm s r s' Hrun _. by eapply Hm. Qed.

Lemma hr_generator_pass fuel :
  (∀ module, preserves (gen_free (heap_rel PM stays_wf))
               (GeneratorElaborator.elaborate_module ctx fuel module)) ∧
  (∀ inst, preserves (gen_free (heap_rel PM stays_wf))
             (GeneratorElaborator.elaborate_instance ctx fuel inst)).
Proof.
  induction fuel as [|fuel [IHmod IHinst]].
  { split; intros x; cbn; pres. }
  split.
  - intros module. cbn [GeneratorElaborator.elaborate_module].
    unfold Elaborator.elaborate_interface_instance.
    repeat first [pres_structure | apply gen_free_lift; hr_leaf | apply IHinst].
  - intros inst. cbn [GeneratorElaborator.elaborate_instance]. intros s r s' Hrun Hng.
    assert (Hset : ∃ s1, heap_rel PM stays_wf s s1 ∧
              bind (get_instance inst)
                (λ x, match inst_of x with
                      | TGeneratorCall c =>
                          let* r := GeneratorElaborator.elaborate_generator_call ctx fuel c in
                          ret (TModule r)
                      | TModule m =>
                          let* r := GeneratorElaborator.elaborate_module ctx fuel m in
                          ret (TModule r)
                      | TPrimitiveCall p =>
                          let* r := Elaborator.elaborate_primitive_call p in
                          ret (TPrimitiveCall r)
                      | TExternalModuleCall p =>
                          let* r := Elaborator.elaborate_external_module p in
                          ret (TExternalModuleCall r)
                      | TOther => raise TypeError
                      end)%elab s1 = (r, s')).
    { eexists. split; [| exact Hrun].
      eapply (hr_setattr_instance PM stays_wf inst _ (λ x, stays_wf_elaborated x true)).
      reflexivity. }
    clear Hrun. destruct Hset as (s1 & H1 & Hrun).
    assert (Hng1 := heap_rel_no_generator_calls _ _ H1 Hng).
    etrans; [exact H1 |]. clear H1 Hng s.
    unfold bind at 1, get_instance, load in Hrun.
    destruct (h_instances (st_heap s1) !! inst) as [x|] eqn:Hx;
      [| injection Hrun as <- <-; reflexivity].
    assert (Hrest : preserves (gen_free (heap_rel PM stays_wf))
              (match inst_of x with
               | TGeneratorCall c =>
                   let* r := GeneratorElaborator.elaborate_generator_call ctx fuel c in
                   ret (TModule r)
               | TModule m =>
                   let* r := GeneratorElaborator.elaborate_module ctx fuel m in
                   ret (TModule r)
               | TPrimitiveCall p =>
                   let* r := Elaborator.elaborate_primitive_call p in
                   ret (TPrimitiveCall r)
               | TExternalModuleCall p =>
                   let* r := Elaborator.elaborate_external_module p in
                   ret (TExternalModuleCall r)
               | TOther => raise TypeError
               end)%elab).
    { destruct (inst_of x) eqn:Hof;
        unfold Elaborator.elaborate_primitive_call, Elaborator.elaborate_external_module;
        try (by pres). by destruct (Hng1 _ _ Hx c). }
    by eapply Hrest.
Qed.
End generator_free.

(** *** Every reference of the adjacency table ends up in a net *)

Section dict_pop_facts.
Context {K V : Type} `{EqDecision K}.

Lemma dict_get_elem (k : K) (v : V) (d : list (K * V)) :
  dict_get k d = Some v → (k, v) ∈ d.
Proof.
  induction d as [|[k0 v0] d IH]; [by rewrite dict_get_nil |].
  rewrite dict_get_cons. case_decide as Hk.
  - intros [= ->]. subst. by left.
  - intros Hget. right. by apply IH.
Qed.

Lemma dict_set_keys_mono (k k' : K) (v : V) (d : list (K * V)) :
  k' ∈ dict_keys d → k' ∈ dict_keys (dict_set k v d).
Proof.
  rewrite dict_keys_set. case_decide; [done |]. intros Hin. apply elem_of_app. by left.
Qed.

Lemma dict_set_keys_in (k : K) (v : V) (d : list (K * V)) :
  k ∈ dict_keys (dict_set k v d).
Proof.
  rewrite dict_keys_set. case_decide; [done |]. apply elem_of_app. right. by left.
Qed.

Lemma dict_pop_cover (k k' : K) (d r : list (K * V)) (v : V) :
  dict_pop k d = Some (v, r) →
  length r < length d ∧ (k' ∈ dict_keys d → k' = k ∨ k' ∈ dict_keys r).
Proof.
  revert r. induction d as [|[k0 v0] d IH]; intros r; simpl; [done |].
  destruct (decide (k0 = k)) as [->|Hne].
  - intros [= <- <-]. split; [lia |]. intros [->|?]%elem_of_cons; auto.
  - destruct (dict_pop k d) as [[v' r']|] eqn:Hpop; [| done]. intros [= <- <-].
    destruct (IH r' eq_refl) as [Hlen Hcov]. simpl. split; [lia |].
    intros [->|Hin]%elem_of_cons; [right; by left |].
    destruct (Hcov Hin) as [->|?]; [by left | right; by right].
Qed.

Lemma dict_popitem_cover (d r : list (K * V)) (k k' : K) (v : V) :
  dict_popitem d = Some ((k, v), r) →
  length d = S (length r) ∧ (k' ∈ dict_keys d → k' = k ∨ k' ∈ dict_keys r).
Proof.
  revert r. induction d as [|[k0 v0] d IH]; intros r; [done |].
  destruct d as [|kv d].
  - intros [= -> -> <-]. split; [done |]. intros [->|?]%elem_of_cons; auto.
  - change (dict_popitem ((k0, v0) :: kv :: d))
      with ('(x, r) ← dict_popitem (kv :: d); Some (x, (k0, v0) :: r)).
    destruct (dict_popitem (kv :: d)) as [[x r']|] eqn:Hpop; [| done].
    intros [= -> <-]. destruct (IH r' eq_refl) as [Hlen Hcov].
    split; [simpl in *; lia |].
    intros [->|Hin]%elem_of_cons; [right; by left |].
    destruct (Hcov Hin) as [->|?]; [by left | right; by right].
Qed.

Lemma dict_popitem_None (d : list (K * V)) : dict_popitem d = None → d = [].
Proof.
  induction d as [|kv d IH]; [done |]. destruct d as [|kv' d]; [done |].
  change (dict_popitem (kv :: kv' :: d))
    with ('(x, r) ← dict_popitem (kv' :: d); Some (x, kv :: r)).
  destruct (dict_popitem (kv' :: d)) as [[x r']|] eqn:Hpop; [done |].
  by specialize (IH eq_refl).
Qed.
End dict_pop_facts.

Section nets_cover.
Context `{GenArgs}.

Lemma SetList_add_in item l : item ∈ SetList.add item l.
Proof.
  unfold SetList.add, SetList.contains. case_bool_decide; [done |].
  apply elem_of_app. right. by left.
Qed.

Lemma SetList_add_mono item item' l : item' ∈ l → item' ∈ SetList.add item l.
Proof.
  unfold SetList.add, SetList.contains. case_bool_decide; [done |].
  intros ?. apply elem_of_app. by left.
Qed.

Lemma follow_cover fuel :
  ∀ outer portconns this_net portconns' net',
    follow fuel outer portconns this_net = (portconns', net') →
    key_of outer ∈ this_net →
    length portconns' ≤ length portconns ∧
    (∀ k, k ∈ this_net → k ∈ net') ∧
    (∀ k, k ∈ dict_keys portconns → k ∈ dict_keys portconns' ∨ k ∈ net').
Proof.
  induction fuel as [|fuel IH]; intros outer pc net pc' net'; simpl.
  { intros [= <- <-] _. auto. }
  destruct (dict_pop (key_of outer) pc) as [[outer' pc1]|] eqn:Hpop;
    [| intros [= <- <-] _; auto].
  intros Hrun Hin. apply IH in Hrun as (Hlen & Hnet & Hcov); [| apply SetList_add_in].
  split; [| split].
  - destruct (dict_pop_cover _ (key_of outer) _ _ _ Hpop) as [? _]. lia.
  - intros k Hk. by apply Hnet, SetList_add_mono.
  - intros k Hk. destruct (dict_pop_cover _ k _ _ _ Hpop) as [_ Hc].
    destruct (Hc Hk) as [->|Hk1]; [| by apply Hcov].
    right. by apply Hnet, SetList_add_mono.
Qed.

Lemma build_nets_cover fuel :
  ∀ portconns nets k,
    length portconns ≤ fuel →
    (k ∈ dict_keys portconns ∨ ∃ net, net ∈ nets ∧ k ∈ net) →
    ∃ net, net ∈ build_nets fuel portconns nets ∧ k ∈ net.
Proof.
  induction fuel as [|fuel IH]; intros pc nets k Hlen Hk; simpl.
  { destruct pc; [| simpl in Hlen; lia].
    destruct Hk as [Hk|Hk]; [by apply elem_of_nil in Hk | done]. }
  destruct (dict_popitem pc) as [[[inner outer] pc1]|] eqn:Hpop.
  - destruct (dict_popitem_cover _ _ _ k _ Hpop) as [Hlen1 Hcov1].
    destruct (follow (length pc1) outer pc1 _) as [pc2 net2] eqn:Hfollow.
    apply follow_cover in Hfollow as (Hlen2 & Hnet & Hcov2); [| apply SetList_add_in].
    apply IH; [lia |].
    assert (Hinner : inner ∈ net2).
    { apply Hnet, SetList_add_mono, SetList_add_in. }
    destruct Hk as [Hk|(net & Hnet' & Hk)].
    + destruct (Hcov1 Hk) as [->|Hk1].
      * right. exists net2. split; [| done]. apply elem_of_app. right. by left.
      * destruct (Hcov2 _ Hk1) as [?|?]; [by left |].
        right. exists net2. split; [| done]. apply elem_of_app. right. by left.
    + right. exists net. split; [| done]. apply elem_of_app. by left.
  - apply dict_popitem_None in Hpop as ->.
    destruct Hk as [Hk|Hk]; [by apply elem_of_nil in Hk | done].
Qed.

Lemma nets_of_cover portconns k :
  k ∈ dict_keys portconns → ∃ net, net ∈ nets_of portconns ∧ k ∈ net.
Proof. intros Hk. apply build_nets_cover; [done | by left]. Qed.
End nets_cover.

(** *** The adjacency table of the implicit-signals pass *)

Section portconns.
Context `{GenArgs}.

Lemma instance_portconns_mono inst x pc k :
  k ∈ dict_keys pc → k ∈ dict_keys (ImplicitSignals.instance_portconns inst x pc).
Proof.
  unfold ImplicitSignals.instance_portconns. generalize (inst_conns x). intros l.
  revert pc. induction l as [|[port c] l IH]; intros pc Hk; simpl; [done |].
  apply IH. destruct c; try done. by apply dict_set_keys_mono.
Qed.

Lemma instance_portconns_in inst x pc port p :
  dict_get port (inst_conns x) = Some (CPortRef p) →
  (RInst inst, port) ∈ dict_keys (ImplicitSignals.instance_portconns inst x pc).
Proof.
  intros Hin%dict_get_elem. revert Hin.
  unfold ImplicitSignals.instance_portconns. generalize (inst_conns x). intros l.
  revert pc. induction l as [|[port' c] l IH]; intros pc Hin; simpl;
    [by apply elem_of_nil in Hin |].
  apply elem_of_cons in Hin as [[= <- <-]|Hin]; [| by apply IH].
  apply (instance_portconns_mono inst (mkInstance "" TOther l false)).
  apply dict_set_keys_in.
Qed.

Lemma instance_portconns_none inst x pc :
  conns_wf x → (∀ port, no_portref_at x port) →
  ImplicitSignals.instance_portconns inst x pc = pc.
Proof.
  intros Hwf Hno.
  assert (Hl : ∀ kv, kv ∈ inst_conns x → ∀ p, kv.2 ≠ CPortRef p).
  { intros [k v] Hkv p Hv. simpl in Hv. subst v. by apply (Hno k p), dict_get_NoDup. }
  clear Hwf Hno. revert Hl.
  unfold ImplicitSignals.instance_portconns. generalize (inst_conns x). intros l.
  revert pc. induction l as [|[port c] l IH]; intros pc Hl; simpl; [done |].
  rewrite IH by (intros kv Hkv; apply Hl; by right).
  destruct c; try done. by destruct (Hl (port, CPortRef p) (ltac:(by left)) p).
Qed.

(** The table is built by reading only, and holds every connection of an
    instance of the module that is a [PortRef]. *)
Lemma build_portconns_keys module s r s' :
  ImplicitSignals.build_portconns module s = (r, s') →
  s' = s ∧
  ∀ pc x, r = Ok pc → h_modules (st_heap s) !! module = Some x →
    ∀ i xi port p,
      i ∈ dict_values (mod_instances x) →
      h_instances (st_heap s) !! i = Some xi →
      dict_get port (inst_conns xi) = Some (CPortRef p) →
      (RInst i, port) ∈ dict_keys pc.
Proof.
  unfold ImplicitSignals.build_portconns, bind at 1, get_module, load.
  destruct (h_modules (st_heap s) !! module) as [x|]; [| by intros [= <- <-]].
  intros Hfold.
  assert (Hgen : ∀ l acc r s',
    fold_each l
      (λ pc inst, let* i := get_instance inst in
                  ret (ImplicitSignals.instance_portconns inst i pc))%elab acc s = (r, s') →
    s' = s ∧ ∀ pc, r = Ok pc →
      (∀ k, k ∈ dict_keys acc → k ∈ dict_keys pc) ∧
      ∀ i xi port p, i ∈ l → h_instances (st_heap s) !! i = Some xi →
        dict_get port (inst_conns xi) = Some (CPortRef p) →
        (RInst i, port) ∈ dict_keys pc).
  { clear. induction l as [|j l IH]; intros acc r s'; simpl.
    - intros [= <- <-]. split; [done |]. intros pc [= <-]. split; [done |].
      intros i xi port p Hi. by apply elem_of_nil in Hi.
    - unfold bind at 1 2, get_instance, load.
      destruct (h_instances (st_heap s) !! j) as [xj|] eqn:Hj; simpl;
        [| by intros [= <- <-]].
      intros Hrun. apply IH in Hrun as [-> Hrun]. split; [done |].
      intros pc ->. destruct (Hrun pc eq_refl) as [Hmono Hin]. split.
      + intros k Hk. by apply Hmono, instance_portconns_mono.
      + intros i xi port p [->|Hi]%elem_of_cons Hxi Hget; [| by eapply Hin].
        rewrite Hj in Hxi. injection Hxi as <-.
        by eapply Hmono, instance_portconns_in. }
  apply Hgen in Hfold as [-> Hfold]. split; [done |].
  intros pc x' -> [= <-]. by apply (Hfold pc eq_refl).
Qed.
End portconns.

(** *** The implicit-signals pass settles the design *)

Section settling.
Context `{GenArgs}.

Lemma settles_connect x k c :
  (∃ sig, c = CSignal sig) →
  settles x (Instance_set_conns (dict_set k c (inst_conns x)) x).
Proof. intros [sig ->]. apply settles_set. Qed.

Lemma settling_implicit_signals fuel module :
  preserves (heap_rel (same_on mod_hier_intf) settles)
    (ImplicitSignals.elaborate_module fuel module).
Proof.
  apply (hr_implicit_signals _ _ (λ c, ∃ sig, c = CSignal sig)); eauto.
  - apply settles_elaborated.
  - apply settles_connect.
  - apply same_on_hier_intf_add_signal.
Qed.

Lemma settling_connect sig p :
  preserves (heap_rel (same_on mod_hier_intf) settles) (connect (CSignal sig) p).
Proof.
  apply (hr_connect _ _ (λ c, ∃ sig, c = CSignal sig)); eauto. apply settles_connect.
Qed.

Lemma settling_connect_net module net :
  preserves (heap_rel (same_on mod_hier_intf) settles)
    (ImplicitSignals.connect_net module net).
Proof.
  apply (hr_connect_net_signals _ _ (λ c, ∃ sig, c = CSignal sig)); eauto.
  - apply settles_connect.
  - apply same_on_hier_intf_add_signal.
Qed.

Lemma settling_dicts_wf PM s s' :
  heap_rel PM settles s s' → dicts_wf (st_heap s) → dicts_wf (st_heap s').
Proof.
  intros Hr Hwf i x' Hx'.
  destruct (heap_rel_instance_back _ _ _ _ _ _ Hr Hx') as (x & Hx & [[_ Hw] _]).
  by eapply Hw, Hwf.
Qed.

Lemma settled_persist n :
  ∀ m s s', heap_rel (same_on mod_hier_intf) settles s s' →
            settled (st_heap s) n m → settled (st_heap s') n m.
Proof.
  induction n as [|n IH]; intros m s s' Hr; [done |].
  intros (x & Hx & Hintf & Hinsts).
  destruct (heap_rel_module _ _ _ _ _ _ Hr Hx) as (x' & Hx' & Heq).
  injection Heq as _ Hsame_insts Hsame_intf.
  exists x'. split; [done |]. split; [congruence |].
  intros i Hi. rewrite Hsame_insts in Hi.
  destruct (Hinsts i Hi) as (xi & Hxi & Helab & Hwf & Hno & Hres).
  destruct (heap_rel_instance _ _ _ _ _ _ Hr Hxi) as (xi' & Hxi' & [Hof Hw] & He & Hp).
  exists xi'. split; [done |]. split; [auto |]. split; [auto |]. split; [auto |].
  rewrite (_resolved_ext (st_heap s) _ xi _ Hof) by apply Hr.
  destruct (_resolved (st_heap s) xi) as [[c| | | |]|]; try done. by eapply IH.
Qed.

(** Once a net is connected to its signal, no reference of the net is
    connected to a [PortRef]. *)
Lemma connected_no_portref sig net s s' u :
  for_each net (connect (CSignal sig)) s = (Ok u, s') →
  ∀ i port x', (RInst i, port) ∈ net → h_instances (st_heap s') !! i = Some x' →
               no_portref_at x' port.
Proof.
  intros Hrun i port x' Hin Hx'.
  destruct (for_each_ok_elem (heap_rel (same_on mod_hier_intf) settles) _ _ _ _ _ _
              (λ p _, settling_connect sig p) Hrun _ Hin) as (s1 & s2 & _ & Hp & H2).
  destruct (heap_rel_instance_back _ _ _ _ _ _ H2 Hx') as (x2 & Hx2 & _ & _ & Hmono).
  apply Hmono. clear Hmono. unfold connect in Hp. simpl in Hp.
  injection Hp as <-. simpl in Hx2. rewrite lookup_alter_eq in Hx2.
  destruct (h_instances (st_heap s1) !! i) as [x1|]; [| done].
  injection Hx2 as <-. intros p. simpl. rewrite dict_get_set, decide_True by done. done.
Qed.
End settling.

(** A visit of the implicit-signals pass that returns leaves the hierarchy
    under the module settled. *)
Lemma implicit_signals_settles `{GenArgs} n :
  ∀ m s r s', ImplicitSignals.elaborate_module n m s = (Ok r, s') →
              dicts_wf (st_heap s) → settled (st_heap s') n m.
Proof.
  induction n as [|n IH]; intros m s r s' Hrun Hwf; [done |].
  set (R := heap_rel (same_on mod_hier_intf) settles).
  cbn [ImplicitSignals.elaborate_module] in Hrun.
  apply bind_ok in Hrun as ([] & s0 & Hvisit & Hrun).
  assert (H0 : R s s0) by (eapply hr_visit; try apply _; exact Hvisit).
  apply bind_ok in Hrun as (x & s0' & Hx & Hrun).
  unfold get_module, load in Hx.
  destruct (h_modules (st_heap s0) !! m) as [x0|] eqn:Hmod; [| done].
  injection Hx as -> <-.
  destruct (bool_decide (length (mod_interfaces x) = 0)) eqn:Hlen; [| done].
  apply bool_decide_eq_true, length_zero_nil in Hlen. simpl in Hrun.
  apply bind_ok in Hrun as ([] & s1 & Hinsts & Hrun).
  apply bind_ok in Hrun as (pc & s1' & Hpc & Hrun).
  apply build_portconns_keys in Hpc as [-> Hkeys].
  apply bind_ok in Hrun as ([] & s2 & Hnets & [= <- <-]).
  assert (Hem : ∀ c, preserves R (ImplicitSignals.elaborate_module n c))
    by (intros c; apply settling_implicit_signals).
  assert (H01 : R s0 s1).
  { eapply (hr_elaborate_instances _ _ settles_elaborated); try apply _;
      [exact Hem | exact Hinsts]. }
  assert (H12 : R s1 s2).
  { eapply (preserves_for_each R _); [| exact Hnets].
    intros N _. apply settling_connect_net. }
  destruct (heap_rel_module _ _ _ _ _ _ (transitivity H01 H12) Hmod) as (x' & Hx' & Heq).
  injection Heq as _ Hsame_insts Hsame_intf.
  exists x'. split; [done |]. split; [congruence |].
  intros i Hi. rewrite Hsame_insts in Hi.
  unfold Elaborator.elaborate_instances in Hinsts.
  apply bind_ok in Hinsts as (x1 & s0'' & Hx1 & Hinsts).
  unfold get_module, load in Hx1. rewrite Hmod in Hx1. injection Hx1 as <- <-.
  assert (Hbody : ∀ j, j ∈ dict_values (mod_instances x) →
            preserves R (bind (Elaborator.elaborate_instance
                                 (ImplicitSignals.elaborate_module n) j)
                           (fun _ => ret tt))).
  { intros j _. apply preserves_bind; [apply _ | | intros ?; apply preserves_ret; apply _].
    apply (hr_elaborate_instance _ _ settles_elaborated); try apply _. exact Hem. }
  destruct (for_each_ok_elem R _ _ _ _ _ _ Hbody Hinsts i Hi)
    as (sa & sb & Hsa & Hi_run & Hsb).
  clear Hbody Hinsts.
  apply bind_ok in Hi_run as (t & sb' & Hi_run & [= ->]).
  unfold Elaborator.elaborate_instance in Hi_run.
  apply bind_ok in Hi_run as ([] & sa1 & Hset & Hi_run).
  apply bind_ok in Hi_run as (xi & sa1' & Hget & Hi_run).
  unfold get_instance, load in Hget.
  destruct (h_instances (st_heap sa1) !! i) as [xi0|] eqn:Hxi; [| done].
  injection Hget as -> <-. rewrite bind_get in Hi_run.
  assert (Helab : inst_elaborated xi = true).
  { injection Hset as <-. simpl in Hxi. rewrite lookup_alter_eq in Hxi.
    destruct (h_instances (st_heap sa) !! i); [| done]. by injection Hxi as <-. }
  assert (Hsa1 : R sa sa1).
  { eapply (hr_setattr_instance _ _ i _ settles_elaborated); try apply _. exact Hset. }
  assert (Hwf1 : dicts_wf (st_heap sa1)).
  { eapply (settling_dicts_wf (same_on mod_hier_intf)); [| exact Hwf].
    etrans; [exact H0 |]. etrans; [exact Hsa | exact Hsa1]. }
  assert (Hrec : R sa1 sb ∧
            match _resolved (st_heap sa1) xi with
            | Some (TModule c) => settled (st_heap sb) n c
            | Some (TPrimitiveCall _) | Some (TExternalModuleCall _) => True
            | _ => False
            end).
  { destruct (_resolved (st_heap sa1) xi) as [[c|c|p|p|]|]; try done.
    - apply bind_ok in Hi_run as (r' & sc & Hc & [= _ <-]).
      split; [by eapply Hem | by eapply IH].
    - injection Hi_run as _ <-. split; [reflexivity | done].
    - injection Hi_run as _ <-. split; [reflexivity | done]. }
  destruct Hrec as [Hab Hres].
  assert (Hto : R sa1 s2) by (etrans; [exact Hab |]; etrans; [exact Hsb | exact H12]).
  destruct (heap_rel_instance _ _ _ _ _ _ Hto Hxi) as (xi' & Hxi' & [Hof Hw] & He & Hp).
  exists xi'. split; [done |]. split; [auto |]. split; [by apply Hw, (Hwf1 i) |]. split.
  - intros port.
    destruct (heap_rel_instance_back _ _ _ _ _ _ H12 Hxi') as (xs1 & Hxs1 & _ & _ & Hmono).
    destruct (dict_get port (inst_conns xs1)) as [[sg|p|ii|]|] eqn:Hget;
      try (apply Hmono; intros p'; by rewrite Hget).
    destruct (heap_rel_module _ _ _ _ _ _ H01 Hmod) as (xm1 & Hxm1 & Heq1).
    injection Heq1 as _ Hi1 _.
    assert (Hkey : (RInst i, port) ∈ dict_keys pc).
    { eapply (Hkeys pc xm1 eq_refl Hxm1 i xs1 port p); [by rewrite Hi1 | done | done]. }
    destruct (nets_of_cover pc _ Hkey) as (net & Hnet & Hin).
    destruct (for_each_ok_elem R _ _ _ _ _ _ (λ N _, settling_connect_net m N)
                Hnets net Hnet) as (sc & sd & _ & Hcn & Hd).
    destruct (heap_rel_instance_back _ _ _ _ _ _ Hd Hxi') as (xd & Hxd & _ & _ & Hmono').
    apply Hmono'. unfold ImplicitSignals.connect_net in Hcn.
    apply bind_ok in Hcn as (osig & sc1 & _ & Hcn).
    apply bind_ok in Hcn as (sig & sc2 & _ & Hcn).
    by eapply connected_no_portref.
  - rewrite (_resolved_ext (st_heap sa1) _ xi _ Hof) by apply Hto.
    destruct (_resolved (st_heap sa1) xi) as [[c| | | |]|]; try done.
    eapply settled_persist; [| exact Hres]. etrans; [exact Hsb | exact H12].
Qed.

(** *** The passes on a settled design *)

Section second_run.
Context `{GenArgs}.

Lemma conns_no_portref x :
  conns_wf x → (∀ port, no_portref_at x port) →
  ∀ kv, kv ∈ inst_conns x → ∀ p, kv.2 ≠ CPortRef p.
Proof.
  intros Hwf Hno [k v] Hkv p Hv. simpl in Hv. subst v.
  by apply (Hno k p), dict_get_NoDup.
Qed.

Lemma setattr_elaborated_same (h : heap) i xi :
  h_instances h !! i = Some xi → inst_elaborated xi = true →
  upd_instances (alter (Instance_set_elaborated true) i) h = h.
Proof.
  intros Hxi Helab. unfold upd_instances. rewrite alter_id; [by destruct h |].
  intros x Hx. rewrite Hxi in Hx. injection Hx as <-. destruct xi; simpl in *.
  by subst.
Qed.

Lemma for_each_stays {A} (l : list A) (body : A → M estate unit) (h : heap) :
  (∀ x, x ∈ l → ∀ s, st_heap s = h → ∃ s', body x s = (Ok tt, s') ∧ st_heap s' = h) →
  ∀ s, st_heap s = h → ∃ s', for_each l body s = (Ok tt, s') ∧ st_heap s' = h.
Proof.
  induction l as [|x l IH]; intros Hbody s Hs; simpl; [by exists s |].
  destruct (Hbody x (ltac:(by left)) s Hs) as (s1 & Hx & Hs1).
  destruct (IH (λ y Hy, Hbody y (ltac:(by right))) s1 Hs1) as (s2 & Hl & Hs2).
  exists s2. by erewrite bind_run by exact Hx.
Qed.

(** The instances of a settled module are visited without a change. *)
Lemma elaborate_instances_settled elaborate_module (h : heap) n m :
  (∀ c s, st_heap s = h → settled h n c →
          ∃ s', elaborate_module c s = (Ok c, s') ∧ st_heap s' = h) →
  settled h (S n) m →
  ∀ s, st_heap s = h →
       ∃ s', Elaborator.elaborate_instances elaborate_module m s = (Ok tt, s') ∧
             st_heap s' = h.
Proof.
  intros Hem (x & Hx & _ & Hinsts) s Hs. unfold Elaborator.elaborate_instances.
  erewrite bind_run by (apply load_run; by rewrite Hs).
  apply for_each_stays; [| done]. clear s Hs. intros i Hi s Hs.
  destruct (Hinsts i Hi) as (xi & Hxi & Helab & _ & _ & Hres).
  unfold Elaborator.elaborate_instance, setattr_instance.
  rewrite (bind_bind_run (modify _) _ _ s tt _ eq_refl).
  assert (Hsame : st_heap (with_heap (upd_instances
                     (alter (Instance_set_elaborated true) i)) s) = h).
  { simpl. rewrite Hs. by eapply setattr_elaborated_same. }
  revert Hsame. generalize (with_heap (upd_instances
                     (alter (Instance_set_elaborated true) i)) s).
  intros s1 Hs1.
  erewrite bind_bind_run by (apply load_run; by rewrite Hs1).
  rewrite (bind_bind_run get _ _ s1 s1 s1 eq_refl). rewrite Hs1.
  destruct (_resolved h xi) as [[c|c|p|p|]|]; try done.
  - destruct (Hem c s1 Hs1 Hres) as (s2 & Hc & Hs2).
    exists s2. by rewrite (bind_bind_run _ _ _ _ _ _ Hc).
  - by exists s1.
  - by exists s1.
Qed.

Lemma build_portconns_settled (h : heap) n m s :
  settled h (S n) m → st_heap s = h →
  ImplicitSignals.build_portconns m s = (Ok [], s).
Proof.
  intros (x & Hx & _ & Hinsts) Hs. unfold ImplicitSignals.build_portconns.
  erewrite bind_run by (apply load_run; by rewrite Hs).
  revert Hinsts. generalize (dict_values (mod_instances x)). intros l.
  induction l as [|i l IH]; intros Hinsts; simpl; [done |].
  destruct (Hinsts i (ltac:(by left))) as (xi & Hxi & _ & Hwf & Hno & _).
  erewrite bind_bind_run by (apply load_run; by rewrite Hs).
  erewrite bind_run by reflexivity.
  rewrite instance_portconns_none by done.
  apply IH. intros j Hj. apply Hinsts. by right.
Qed.

Lemma implicit_signals_second (h : heap) n :
  ∀ m s, st_heap s = h → settled h n m →
         ∃ s', ImplicitSignals.elaborate_module n m s = (Ok m, s') ∧ st_heap s' = h.
Proof.
  induction n as [|n IH]; intros m s Hs Hsettled; [done |].
  cbn [ImplicitSignals.elaborate_module].
  erewrite bind_run by reflexivity.
  assert (Hs0 : st_heap (mkState _ (st_heap s) (st_generator_calls s) (st_modules s)
                           (st_replacements s) (st_trace s ++ [m])) = h) by done.
  revert Hs0. generalize (mkState _ (st_heap s) (st_generator_calls s) (st_modules s)
                           (st_replacements s) (st_trace s ++ [m])).
  clear s Hs. intros s Hs.
  destruct Hsettled as (x & Hx & Hintf & Hinsts).
  erewrite bind_run by (apply load_run; by rewrite Hs).
  rewrite Hintf. simpl.
  destruct (elaborate_instances_settled (ImplicitSignals.elaborate_module n) h n m IH
              (ex_intro _ x (conj Hx (conj Hintf Hinsts))) s Hs) as (s1 & Hrun & Hs1).
  erewrite bind_run by exact Hrun.
  erewrite bind_run
    by (eapply build_portconns_settled; [exact (ex_intro _ x (conj Hx (conj Hintf Hinsts))) | done]).
  by exists s1.
Qed.
End second_run.

Section second_run_interfaces.
Context `{GenArgs}.

Lemma interface_portconns_none inst x pc (s : estate) :
  conns_wf x → (∀ port, no_portref_at x port) →
  ImplicitInterfaces.instance_portconns inst x pc s = (Ok pc, s).
Proof.
  intros Hwf Hno. assert (Hl := conns_no_portref x Hwf Hno). clear Hwf Hno. revert Hl.
  unfold ImplicitInterfaces.instance_portconns. generalize (inst_conns x). intros l.
  induction l as [|[port c] l IH]; intros Hl; simpl; [done |].
  destruct c as [sg|p|ii|];
    try (erewrite bind_run by reflexivity; apply IH; intros kv Hkv; apply Hl; by right).
  by destruct (Hl (port, CPortRef p) (ltac:(by left)) p).
Qed.

Lemma interface_build_portconns_settled (h : heap) n m s :
  settled h (S n) m → st_heap s = h →
  ImplicitInterfaces.build_portconns m s = (Ok [], s).
Proof.
  intros (x & Hx & _ & Hinsts) Hs. unfold ImplicitInterfaces.build_portconns.
  erewrite bind_run by (apply load_run; by rewrite Hs).
  revert Hinsts. generalize (dict_values (mod_instances x)). intros l.
  induction l as [|i l IH]; intros Hinsts; simpl; [done |].
  destruct (Hinsts i (ltac:(by left))) as (xi & Hxi & _ & Hwf & Hno & _).
  erewrite bind_bind_run by (apply load_run; by rewrite Hs).
  erewrite bind_run by by apply interface_portconns_none.
  apply IH. intros j Hj. apply Hinsts. by right.
Qed.

Lemma implicit_interfaces_second (h : heap) n :
  ∀ m s, st_heap s = h → settled h n m →
         ∃ s', ImplicitInterfaces.elaborate_module n m s = (Ok m, s') ∧ st_heap s' = h.
Proof.
  induction n as [|n IH]; intros m s Hs Hsettled; [done |].
  cbn [ImplicitInterfaces.elaborate_module].
  erewrite bind_run by reflexivity.
  assert (Hs0 : st_heap (mkState _ (st_heap s) (st_generator_calls s) (st_modules s)
                           (st_replacements s) (st_trace s ++ [m])) = h) by done.
  revert Hs0. generalize (mkState _ (st_heap s) (st_generator_calls s) (st_modules s)
                           (st_replacements s) (st_trace s ++ [m])).
  clear s Hs. intros s Hs.
  destruct (elaborate_instances_settled (ImplicitInterfaces.elaborate_module n) h n m IH
              Hsettled s Hs) as (s1 & Hrun & Hs1).
  erewrite bind_run by exact Hrun.
  erewrite bind_run by by eapply interface_build_portconns_settled.
  by exists s1.
Qed.

Lemma flattener_second (h : heap) n :
  ∀ m s, st_heap s = h → settled h n m →
         ∃ s', InterfaceFlattener.elaborate_module n m s = (Ok m, s') ∧ st_heap s' = h.
Proof.
  induction n as [|n IH]; intros m s Hs Hsettled; [done |].
  cbn [InterfaceFlattener.elaborate_module]. rewrite bind_get.
  case_bool_decide; [by exists s |].
  erewrite bind_run by reflexivity.
  assert (Hs0 : st_heap (mkState _ (st_heap s) (st_generator_calls s) (st_modules s)
                           (st_replacements s) (st_trace s ++ [m])) = h) by done.
  revert Hs0. generalize (mkState _ (st_heap s) (st_generator_calls s) (st_modules s)
                           (st_replacements s) (st_trace s ++ [m])).
  clear s Hs H0. intros s Hs.
  destruct (elaborate_instances_settled (InterfaceFlattener.elaborate_module n) h n m IH
              Hsettled s Hs) as (s1 & Hrun & Hs1).
  erewrite bind_run by exact Hrun.
  destruct Hsettled as (x & Hx & Hintf & _).
  erewrite bind_run by (apply load_run; by rewrite Hs1).
  rewrite Hintf. cbn [length InterfaceFlattener.flatten_all].
  erewrite bind_bind_run by (apply load_run; by rewrite Hs1).
  rewrite Hintf. cbn [dict_popitem].
  erewrite bind_run by reflexivity.
  erewrite bind_run by reflexivity.
  erewrite bind_run by reflexivity.
  eexists. split; [reflexivity | done].
Qed.
End second_run_interfaces.

(** *** The generator pass on a settled design *)

Section generator_second.
Context `{Generators} (ctx : Context) (h : heap).
Hypothesis Hng : no_generator_calls h.

#[global] Instance stays_preorder : PreOrder (stays h).
Proof.
  split; [intros s Hs; exact Hs | intros s1 s2 s3 H12 H23 Hs; apply H23, H12, Hs].
Qed.

Lemma generator_pass_stays fuel :
  (∀ m, (∃ n, settled h n m) →
        preserves (stays h) (GeneratorElaborator.elaborate_module ctx fuel m)) ∧
  (∀ i xi, h_instances h !! i = Some xi → inst_elaborated xi = true →
           (∀ c, inst_of xi = TModule c → ∃ n, settled h n c) →
           preserves (stays h) (GeneratorElaborator.elaborate_instance ctx fuel i)).
Proof.
  induction fuel as [|fuel [IHmod IHinst]].
  { split; intros; cbn; by intros s r s' [= _ <-]. }
  split.
  - intros m [[|n] Hsettled]; [done |]. destruct Hsettled as (x & Hx & Hintf & Hinsts).
    intros s r s' Hrun Hs. cbn [GeneratorElaborator.elaborate_module] in Hrun.
    rewrite bind_get in Hrun. case_bool_decide; [by injection Hrun as _ <- |].
    erewrite bind_run in Hrun by reflexivity.
    assert (Hs0 : st_heap (mkState _ (st_heap s) (st_generator_calls s) (st_modules s)
                             (st_replacements s) (st_trace s ++ [m])) = h) by done.
    revert Hrun Hs0. generalize (mkState _ (st_heap s) (st_generator_calls s)
                                   (st_modules s) (st_replacements s) (st_trace s ++ [m])).
    clear s Hs H1. intros s Hrun Hs.
    erewrite bind_run in Hrun by (apply load_run; by rewrite Hs).
    assert (Hloop : preserves (stays h)
              (for_each (dict_values (mod_instances x))
                 (λ inst, GeneratorElaborator.elaborate_instance ctx fuel inst ;; ret tt)%elab)).
    { apply preserves_for_each; [apply _ |]. intros i Hi.
      destruct (Hinsts i Hi) as (xi & Hxi & Helab & _ & _ & Hres).
      apply preserves_bind; [apply _ | | intros ?; apply preserves_ret; apply _].
      apply (IHinst i xi Hxi Helab). intros c Hof. exists n.
      unfold _resolved in Hres. by rewrite Hof in Hres. }
    destruct (mod_name x) as [[|a nm]|]; try by injection Hrun as _ <-.
    apply bind_inv in Hrun as [([] & s1 & Hfor & Hrun)|(e & Hfor & _)];
      [| by eapply Hloop].
    assert (Hs1 : st_heap s1 = h) by by eapply Hloop.
    erewrite bind_run in Hrun by (apply load_run; by rewrite Hs1).
    rewrite Hintf in Hrun. by injection Hrun as _ <-.
  - intros i xi Hxi Helab Hof s r s' Hrun Hs.
    cbn [GeneratorElaborator.elaborate_instance] in Hrun.
    unfold setattr_instance in Hrun.
    rewrite (bind_run (modify _) _ s tt _ eq_refl) in Hrun.
    assert (Hs1 : st_heap (with_heap (upd_instances
                     (alter (Instance_set_elaborated true) i)) s) = h).
    { simpl. rewrite Hs. by eapply setattr_elaborated_same. }
    revert Hrun Hs1. generalize (with_heap (upd_instances
                     (alter (Instance_set_elaborated true) i)) s).
    clear s Hs. intros s Hrun Hs.
    erewrite bind_run in Hrun by (apply load_run; by rewrite Hs).
    destruct (inst_of xi) as [c|c|p|p|] eqn:Hxof.
    + apply bind_inv in Hrun as [(r' & s1 & Hc & [= _ <-])|(e & Hc & _)];
        by eapply (IHmod c (Hof c eq_refl)).
    + by destruct (Hng i xi Hxi c).
    + by injection Hrun as _ <-.
    + by injection Hrun as _ <-.
    + by injection Hrun as _ <-.
Qed.
End generator_second.

(** *** The generator pass sees only the hierarchy *)

Section simulation.
Context `{GenArgs}.

Lemma sim_ret {A B} (Q : A → B → Prop) a b : Q a b → simulates Q (ret a) (ret b).
Proof. intros HQ s t r s' Hsim [= <- <-]. by exists (Ok b), t. Qed.

Lemma sim_raise {A B} (Q : A → B → Prop) e : simulates Q (raise e) (raise e).
Proof. intros s t r s' Hsim [= <- <-]. by exists (Raise e), t. Qed.

Lemma sim_bind {A B A' B'} (Q : A → B → Prop) (Q' : A' → B' → Prop)
    (m1 : M estate A) (m2 : M estate B) f1 f2 :
  simulates Q m1 m2 → (∀ a b, Q a b → simulates Q' (f1 a) (f2 b)) →
  simulates Q' (bind m1 f1) (bind m2 f2).
Proof.
  intros Hm Hf s t r s' Hsim [(a & s1 & Hrun & Hk)|(e & Hrun & ->)]%bind_inv.
  - destruct (Hm _ _ _ _ Hsim Hrun) as ([b|] & t1 & Hrun' & Hsim1 & HQ); [| done].
    destruct (Hf a b HQ _ _ _ _ Hsim1 Hk) as (r' & t' & Hk' & ? & ?).
    exists r', t'. split; [| done]. by rewrite (bind_run _ _ _ _ _ Hrun').
  - destruct (Hm _ _ _ _ Hsim Hrun) as ([|e'] & t1 & Hrun' & Hsim1 & HQ); [done |].
    simpl in HQ. subst e'. exists (Raise e), t1.
    split; [| done]. by rewrite (bind_raise _ _ _ _ _ Hrun').
Qed.

Lemma sim_for_each {A} (l : list A) (b1 b2 : A → M estate unit) :
  (∀ x, x ∈ l → simulates eq (b1 x) (b2 x)) →
  simulates eq (for_each l b1) (for_each l b2).
Proof.
  induction l as [|x l IH]; intros Hbody; simpl; [by apply sim_ret |].
  eapply sim_bind; [apply Hbody; by left |]. intros _ _ _. apply IH.
  intros y Hy. apply Hbody. by right.
Qed.

Lemma sim_modify (f g : estate → estate) :
  (∀ s t, same_design s t → same_design (f s) (g t)) →
  simulates eq (modify f) (modify g).
Proof.
  intros Hfg s t r s' Hsim [= <- <-]. exists (Ok tt), (g t).
  split; [done |]. split; [by apply Hfg | done].
Qed.

Lemma sim_visit m : simulates eq (visit m) (visit m).
Proof. apply sim_modify. by intros s t (? & ? & ?). Qed.

Lemma sim_mark_done m : simulates eq (mark_done m) (mark_done m).
Proof.
  apply sim_modify. intros s t (Hmods & ? & ?). split; [| done]. simpl. by rewrite Hmods.
Qed.

Lemma sim_set_elaborated i :
  simulates eq (setattr_instance i (Instance_set_elaborated true))
    (setattr_instance i (Instance_set_elaborated true)).
Proof.
  apply sim_modify. intros s t (Hmods & (Hm & Hi & Hc) & Hng).
  split; [done |]. split; [split; [done | split; [| done]] |].
  - intros j. simpl. destruct (decide (i = j)) as [<-|].
    + rewrite !lookup_alter_eq. specialize (Hi i).
      destruct (h_instances (st_heap t) !! i), (h_instances (st_heap s) !! i);
        simplify_eq/=; congruence.
    + by rewrite !lookup_alter_ne.
  - intros j x. simpl. destruct (decide (i = j)) as [<-|].
    + rewrite lookup_alter_eq.
      destruct (h_instances (st_heap s) !! i) as [x0|] eqn:Hx0; [| done].
      intros [= <-]. by apply (Hng i x0).
    + rewrite lookup_alter_ne by done. apply Hng.
Qed.

(** The loop over the interface instances only marks them. *)
Lemma sim_interface_instances (l1 l2 : list intfid) :
  simulates eq (for_each l1 Elaborator.elaborate_interface_instance)
    (for_each l2 Elaborator.elaborate_interface_instance).
Proof.
  assert (Hrun : ∀ l (s : estate), ∃ s',
            for_each l Elaborator.elaborate_interface_instance s = (Ok tt, s') ∧
            st_modules s' = st_modules s ∧
            h_modules (st_heap s') = h_modules (st_heap s) ∧
            h_instances (st_heap s') = h_instances (st_heap s) ∧
            h_calls (st_heap s') = h_calls (st_heap s)).
  { induction l as [|i l IH]; intros s; simpl; [by exists s |].
    unfold Elaborator.elaborate_interface_instance at 1, setattr_intfinst.
    rewrite (bind_run (modify _) _ s tt _ eq_refl).
    destruct (IH (with_heap (upd_intfinsts
                (alter (InterfaceInstance_set_elaborated true) i)) s))
      as (s' & -> & ? & ? & ? & ?).
    by exists s'. }
  intros s t r s' (Hmods & (Hm & Hi & Hc) & Hng) Hs.
  destruct (Hrun l1 s) as (s1 & Hs1 & Ha & Hb & Hc1 & Hd). rewrite Hs1 in Hs.
  injection Hs as <- <-.
  destruct (Hrun l2 t) as (t1 & Ht1 & Ha' & Hb' & Hc' & Hd').
  exists (Ok tt), t1. split; [done |]. split; [| done].
  split; [congruence |]. split; [split; [| split] |].
  - intros m. by rewrite Hb', Hb.
  - intros i. by rewrite Hc', Hc1.
  - by rewrite Hd', Hd.
  - intros i x. rewrite Hc1. apply Hng.
Qed.

Lemma sim_get_module m :
  simulates (λ x y, mod_hier y = mod_hier x) (get_module m) (get_module m).
Proof.
  intros s t r s' Hsim. unfold get_module, load.
  pose proof Hsim as (_ & (Hm & _ & _) & _). specialize (Hm m).
  destruct (h_modules (st_heap s) !! m) as [x|], (h_modules (st_heap t) !! m) as [y|];
    try done; intros [= <- <-].
  - assert (Hm' : mod_hier y = mod_hier x) by exact (inj Some _ _ Hm).
    exists (Ok y), t. split; [done |]. split; [done |]. exact Hm'.
  - exists (Raise AttributeError), t. split; [done |]. split; done.
Qed.

Lemma sim_get_instance i :
  simulates (λ x y, inst_of y = inst_of x ∧ ∀ c, inst_of x ≠ TGeneratorCall c)
    (get_instance i) (get_instance i).
Proof.
  intros s t r s' Hsim. unfold get_instance, load.
  pose proof Hsim as (_ & (_ & Hi & _) & Hng). specialize (Hi i).
  destruct (h_instances (st_heap s) !! i) as [x|] eqn:Hx,
    (h_instances (st_heap t) !! i) as [y|];
    try done; intros [= <- <-].
  - assert (Hi' : inst_of y = inst_of x) by exact (inj Some _ _ Hi).
    exists (Ok y), t. split; [done |]. split; [done |].
    split; [exact Hi' |]. by apply (Hng i).
  - exists (Raise AttributeError), t. split; [done |]. split; done.
Qed.
End simulation.

Section generator_simulation.
Context `{Generators} (ctx : Context).

Lemma sim_memo {A} (m : modid) (a : A) (k1 k2 : M estate A) :
  simulates eq k1 k2 →
  simulates eq
    (let* s := get in if bool_decide (m ∈ st_modules s) then ret a else k1)%elab
    (let* s := get in if bool_decide (m ∈ st_modules s) then ret a else k2)%elab.
Proof.
  intros Hk s t r s' Hsim. rewrite !bind_get. pose proof Hsim as (Hmods & _).
  rewrite <- Hmods. case_bool_decide;
    [exact (sim_ret eq a a eq_refl s t r s' Hsim) | exact (Hk s t r s' Hsim)].
Qed.

Lemma generator_pass_sim fuel :
  (∀ m, simulates eq (GeneratorElaborator.elaborate_module ctx fuel m)
          (GeneratorElaborator.elaborate_module ctx fuel m)) ∧
  (∀ i, simulates eq (GeneratorElaborator.elaborate_instance ctx fuel i)
          (GeneratorElaborator.elaborate_instance ctx fuel i)).
Proof.
  induction fuel as [|fuel [IHmod IHinst]].
  { split; intros x; cbn; apply sim_raise. }
  split.
  - intros m. cbn [GeneratorElaborator.elaborate_module]. apply sim_memo.
    eapply sim_bind; [apply sim_visit | intros _ _ _].
    eapply sim_bind; [apply sim_get_module | intros x y Hxy].
    injection Hxy as Hname Hinsts. rewrite Hname, Hinsts.
    destruct (mod_name x) as [[|a nm]|]; try apply sim_raise.
    eapply sim_bind.
    { apply sim_for_each. intros i _.
      eapply sim_bind; [apply IHinst | intros _ _ _; by apply sim_ret]. }
    intros _ _ _. eapply sim_bind; [apply sim_get_module | intros x1 y1 _].
    eapply sim_bind; [apply sim_interface_instances | intros _ _ _].
    eapply sim_bind; [apply sim_mark_done | intros _ _ _]. by apply sim_ret.
  - intros i. cbn [GeneratorElaborator.elaborate_instance].
    eapply sim_bind; [apply sim_set_elaborated | intros _ _ _].
    eapply sim_bind; [apply sim_get_instance | intros x y [Hof Hnc]].
    rewrite Hof. destruct (inst_of x) as [c|c|p|p|] eqn:Hx.
    + eapply sim_bind; [apply IHmod | intros r1 r2 ->; by apply sim_ret].
    + by destruct (Hnc c).
    + unfold Elaborator.elaborate_primitive_call.
      eapply sim_bind; [by apply (sim_ret eq) | intros r1 r2 ->; by apply sim_ret].
    + unfold Elaborator.elaborate_external_module.
      eapply sim_bind; [by apply (sim_ret eq) | intros r1 r2 ->; by apply sim_ret].
    + apply sim_raise.
Qed.
End generator_simulation.

Section heap_rel_uses.
Context `{GenArgs}.

Lemma heap_rel_weaken (PM PM' : relation Module) (PI PI' : relation Instance) s s' :
  (∀ x x', PM x x' → PM' x x') → (∀ x x', PI x x' → PI' x x') →
  heap_rel PM PI s s' → heap_rel PM' PI' s s'.
Proof.
  intros HM HI (Hm & Hi & Hc). split; [| split; [| done]].
  - intros m. destruct (Hm m); constructor. auto.
  - intros i. destruct (Hi i); constructor. auto.
Qed.

Lemma heap_rel_frame s s' :
  heap_rel (same_on mod_hier) stays_wf s s' → frame mod_hier inst_of s s'.
Proof.
  intros (Hm & Hi & Hc). split; [| split; [| done]].
  - intros m. destruct (Hm m) as [x x' Hx|]; [| done]. simpl. by rewrite Hx.
  - intros i. destruct (Hi i) as [x x' [Hx _]|]; [| done]. simpl. by rewrite Hx.
Qed.

Lemma stays_dicts_wf PM s s' :
  heap_rel PM stays_wf s s' → dicts_wf (st_heap s) → dicts_wf (st_heap s').
Proof.
  intros Hr Hwf i x' Hx'.
  destruct (heap_rel_instance_back _ _ _ _ _ _ Hr Hx') as (x & Hx & [_ Hw]).
  by eapply Hw, Hwf.
Qed.

(** A pass starts on the heap the pass before it left. *)
Lemma heap_rel_restart PM PI `{!PreOrder PM, !PreOrder PI} s :
  heap_rel PM PI s (init_state (st_heap s)).
Proof. by apply heap_rel_same. Qed.
End heap_rel_uses.

(** C6, for the designs it holds for.  Let no instance of the design be an
    instance of a generator call, and let the connections of every instance
    be a dictionary.  When the default pipeline returns on the module [m],
    it returns [m], and a second run on the result returns [m] again and
    leaves the design exactly as the first run left it. *)
Theorem elaborate_twice_same `{Generators} (fuel : nat) (m : modid)
    (ctx : option Context) (h h1 : heap) (r : Top) :
  no_generator_calls h → dicts_wf h →
  elaborate fuel (TopModule m) ctx None h = (Ok r, h1) →
  r = TopModule m ∧ elaborate fuel r ctx None h1 = (Ok r, h1).
Proof.
  intros Hng Hwf. unfold elaborate, or_default, all_passes. cbn [run_passes].
  generalize (default mkContext ctx). intros cx.
  destruct (run_pass fuel RUN_GENERATORS _ _ _) as [[m1|?] ha] eqn:Hp1; [| done].
  pose proof (run_pass_returns _ _ _ _ _ _ _ Hp1) as ->.
  destruct (run_pass fuel IMPLICIT_INTERFACES _ _ _) as [[m2|?] hb] eqn:Hp2; [| done].
  pose proof (run_pass_returns _ _ _ _ _ _ _ Hp2) as ->.
  destruct (run_pass fuel FLATTEN_INTERFACES _ _ _) as [[m3|?] hc] eqn:Hp3; [| done].
  pose proof (run_pass_returns _ _ _ _ _ _ _ Hp3) as ->.
  destruct (run_pass fuel IMPLICIT_SIGNALS _ _ _) as [[m4|?] hd] eqn:Hp4; [| done].
  pose proof (run_pass_returns _ _ _ _ _ _ _ Hp4) as ->.
  intros [= <- <-]. split; [done |].
  unfold run_pass, GeneratorElaborator.elaborate, ImplicitInterfaces.elaborate,
    InterfaceFlattener.elaborate, ImplicitSignals.elaborate,
    GeneratorElaborator.elaborate_top, Elaborator.elaborate_top in *.
  destruct (GeneratorElaborator.elaborate_module cx fuel m (init_state h))
    as [r1 s1] eqn:H1. injection Hp1 as -> <-.
  destruct (ImplicitInterfaces.elaborate_module fuel m (init_state (st_heap s1)))
    as [r2 s2] eqn:H2. injection Hp2 as -> <-.
  destruct (InterfaceFlattener.elaborate_module fuel m (init_state (st_heap s2)))
    as [r3 s3] eqn:H3. injection Hp3 as -> <-.
  destruct (ImplicitSignals.elaborate_module fuel m (init_state (st_heap s3)))
    as [r4 s4] eqn:H4. injection Hp4 as -> <-.
  set (R := heap_rel (same_on mod_hier) stays_wf).
  assert (K1 : R (init_state h) s1).
  { exact (proj1 (hr_generator_pass cx (same_on mod_hier) fuel) m _ _ _ H1 Hng). }
  assert (K2 : R (init_state (st_heap s1)) s2).
  { eapply (hr_implicit_interfaces _ _ (λ _, True)); [.. | exact H2]; try apply _.
    - intros x. apply stays_wf_elaborated.
    - intros x k c _. apply stays_wf_set.
    - by intros i ii x.
    - done. }
  assert (K3 : R (init_state (st_heap s2)) s3) by (by eapply hr_flattener).
  assert (K4 : heap_rel (same_on mod_hier_intf) settles (init_state (st_heap s3)) s4)
    by (by eapply settling_implicit_signals).
  assert (K13 : R (init_state h) (init_state (st_heap s3))).
  { etrans; [exact K1 |]. etrans; [apply heap_rel_restart; apply _ |].
    etrans; [exact K2 |]. etrans; [apply heap_rel_restart; apply _ |].
    etrans; [exact K3 |]. apply heap_rel_restart; apply _. }
  assert (K : R (init_state h) (init_state (st_heap s4))).
  { etrans; [exact K13 |]. etrans; [| apply heap_rel_restart; apply _].
    eapply heap_rel_weaken; [| | exact K4].
    - intros x x' Hx. unfold same_on, mod_hier in *. by injection Hx as -> -> _.
    - by intros x x' [? _]. }
  assert (Hwf3 : dicts_wf (st_heap s3)) by exact (stays_dicts_wf _ _ _ K13 Hwf).
  assert (Hsettled : settled (st_heap s4) fuel m).
  { by eapply implicit_signals_settles. }
  assert (Hng4 : no_generator_calls (st_heap s4)).
  { exact (heap_rel_no_generator_calls _ _ _ K Hng). }
  (* the second run *)
  destruct (proj1 (generator_pass_sim cx fuel) m (init_state h) (init_state (st_heap s4))
              (Ok m) s1) as (r1' & t1 & Ht1 & _ & Hr1).
  { split; [done |]. split; [by apply heap_rel_frame | done]. }
  { exact H1. }
  destruct r1' as [m1'|]; [| done]. simpl in Hr1. subst m1'.
  assert (Hh1 : st_heap t1 = st_heap s4).
  { eapply (proj1 (generator_pass_stays cx (st_heap s4) Hng4 fuel) m); [by exists fuel | exact Ht1 | done]. }
  rewrite Ht1, Hh1.
  destruct (implicit_interfaces_second (st_heap s4) fuel m (init_state (st_heap s4))
              eq_refl Hsettled) as (t2 & -> & ->).
  destruct (flattener_second (st_heap s4) fuel m (init_state (st_heap s4))
              eq_refl Hsettled) as (t3 & -> & ->).
  destruct (implicit_signals_second (st_heap s4) fuel m (init_state (st_heap s4))
              eq_refl Hsettled) as (t4 & -> & ->).
  done.
Qed.

Lemma elaborate_twice_same_witness :
  no_generator_calls bundle_design ∧ dicts_wf bundle_design ∧
  ∃ h1,
    elaborate (H0:=no_generators) 10 (TopModule 0) None None bundle_design
      = (Ok (TopModule 0), h1) ∧
    elaborate (H0:=no_generators) 10 (TopModule 0) None None h1
      = (Ok (TopModule 0), h1).
Proof.
  assert (Hng : no_generator_calls bundle_design).
  { intros i x Hx c Hof. apply elem_of_list_to_map_2 in Hx.
    repeat (apply elem_of_cons in Hx as [Heq|Hx]; [by simplify_eq |]).
    by apply elem_of_nil in Hx. }
  assert (Hwf : dicts_wf bundle_design).
  { intros i x Hx. apply elem_of_list_to_map_2 in Hx.
    repeat (apply elem_of_cons in Hx as [Heq|Hx];
            [injection Heq as _ ->; apply (bool_decide_unpack _); by vm_compute |]).
    by apply elem_of_nil in Hx. }
  split; [exact Hng |]. split; [exact Hwf |].
  eexists. split; [vm_compute; reflexivity |].
  apply (elaborate_twice_same (H0:=no_generators) 10 0 None bundle_design _ (TopModule 0)
           Hng Hwf).
  vm_compute. reflexivity.
Defined.

(** C6 as stated fails: where an instance is a call of a generator that
    hands out one Module object, every run of the generator pass appends the
    argument's name to that Module's name, so the second run changes the
    design the first one produced. *)
Lemma elaborate_twice_renames_generated_module :
  let run1 := elaborate (H0:=example_generators) 10 (TopModule 0) None None
                generated_design in
  let run2 := elaborate (H0:=example_generators) 10 (TopModule 0) None None run1.2 in
  let target_of_c (h : heap) :=
    x ← h_modules h !! 0; i ← dict_get "c" (mod_instances x);
    inst ← h_instances h !! i; _resolved h inst in
  run1.1 = Ok (TopModule 0) ∧ run2.1 = Ok (TopModule 0) ∧
  target_of_c run1.2 = Some (TModule 2) ∧ target_of_c run2.2 = Some (TModule 2) ∧
  mod_name <$> h_modules run1.2 !! 2 = Some (Some "M(n=3)") ∧
  mod_name <$> h_modules run2.2 !! 2 = Some (Some "M(n=3)(n=3)") ∧
  run2.2 ≠ run1.2.
Proof.
  intros run1 run2 target_of_c.
  assert (H1 : mod_name <$> h_modules run1.2 !! 2 = Some (Some "M(n=3)"))
    by (vm_compute; reflexivity).
  assert (H2 : mod_name <$> h_modules run2.2 !! 2 = Some (Some "M(n=3)(n=3)"))
    by (vm_compute; reflexivity).
  repeat split; try (vm_compute; reflexivity).
  intros Heq. rewrite Heq, H1 in H2. discriminate.
Qed.

(** * Further properties of the elaborator *)

(** ** [SetList] *)

Lemma SetList_add_NoDup item l : NoDup l → NoDup (SetList.add item l).
Proof.
  intros Hnd. unfold SetList.add, SetList.contains. case_bool_decide; [done |].
  apply NoDup_app. split; [done |]. split; [| apply NoDup_singleton].
  by intros x Hx ->%list_elem_of_singleton.
Qed.

Lemma SetList_add_elem item l x : x ∈ SetList.add item l ↔ x = item ∨ x ∈ l.
Proof.
  unfold SetList.add, SetList.contains. case_bool_decide.
  - split; [by right | by intros [->|?]].
  - rewrite elem_of_app, list_elem_of_singleton. tauto.
Qed.

(** X1.  [SetList.add] keeps the items in the order they were first added
    and holds none twice: adding an item that is there changes nothing,
    adding a new one puts it last; after [add] the item is a member, the
    items from before still are, in their order, and no other is. *)
Theorem SetList_add_spec (item : pkey) (l : list pkey) :
  NoDup (SetList.order l) →
  NoDup (SetList.order (SetList.add item l)) ∧
  (SetList.contains item l = true → SetList.add item l = l) ∧
  (SetList.contains item l = false → SetList.order (SetList.add item l) = l ++ [item]) ∧
  (∀ x, SetList.contains x (SetList.add item l) = true ↔
        x = item ∨ SetList.contains x l = true) ∧
  SetList.add item (SetList.add item l) = SetList.add item l.
Proof.
  intros Hnd. unfold SetList.order in *.
  split; [by apply SetList_add_NoDup |].
  split; [unfold SetList.add; by intros -> |].
  split; [unfold SetList.add; by intros -> |].
  split.
  - intros x. unfold SetList.contains. rewrite !bool_decide_eq_true.
    apply SetList_add_elem.
  - unfold SetList.add at 1. unfold SetList.contains.
    rewrite bool_decide_eq_true_2; [done |]. apply SetList_add_elem. by left.
Qed.

Lemma SetList_add_spec_witness :
  NoDup (SetList.order [(RInst 1, "p")]) ∧
  SetList.order (SetList.add (RInst 2, "q") (SetList.add (RInst 1, "p") [(RInst 1, "p")]))
    = [(RInst 1, "p"); (RInst 2, "q")].
Proof.
  assert (Hnd : NoDup (SetList.order [(RInst 1, "p")])) by apply NoDup_singleton.
  split; [exact Hnd |].
  destruct (SetList_add_spec (RInst 1, "p") [(RInst 1, "p")] Hnd) as (_ & Hsame & _).
  rewrite Hsame by (vm_compute; reflexivity). vm_compute. reflexivity.
Defined.


(** ** The loop that builds the nets *)

Section dict_pop_more.
Context {K V : Type} `{EqDecision K}.

Lemma dict_pop_None (k : K) (d : list (K * V)) : dict_pop k d = None → k ∉ dict_keys d.
Proof.
  induction d as [|[k0 v0] d IH]; simpl; [intros _ ?%elem_of_nil; done |].
  destruct (decide (k0 = k)) as [->|Hne]; [done |].
  destruct (dict_pop k d) as [[v r]|]; [done |]. intros _ [->|?]%elem_of_cons; [done |].
  by apply IH.
Qed.

Lemma dict_pop_Some (k : K) (d r : list (K * V)) (v : V) :
  dict_pop k d = Some (v, r) →
  k ∈ dict_keys d ∧ (NoDup (dict_keys d) → k ∉ dict_keys r).
Proof.
  revert r. induction d as [|[k0 v0] d IH]; intros r; simpl; [done |].
  destruct (decide (k0 = k)) as [->|Hne].
  - intros [= <- <-]. split; [by left |]. by intros [? _]%NoDup_cons.
  - destruct (dict_pop k d) as [[v' r']|] eqn:Hpop; [| done]. intros [= <- <-].
    destruct (IH r' eq_refl) as [Hin Hnot]. split; [by right |].
    intros [_ Hnd]%NoDup_cons [?|?]%elem_of_cons; [done |]. by apply Hnot.
Qed.

Lemma dict_popitem_Some (d r : list (K * V)) (k : K) (v : V) :
  dict_popitem d = Some ((k, v), r) →
  k ∈ dict_keys d ∧ (∀ k', k' ∈ dict_keys r → k' ∈ dict_keys d) ∧
  (NoDup (dict_keys d) → (k ∉ dict_keys r) ∧ NoDup (dict_keys r)).
Proof.
  revert r. induction d as [|[k0 v0] d IH]; intros r; [done |].
  destruct d as [|kv d].
  - intros [= -> -> <-]. split; [by left |]. split; [by intros k' ?%elem_of_nil |].
    intros _. split; [by intros ?%elem_of_nil | constructor].
  - change (dict_popitem ((k0, v0) :: kv :: d))
      with ('(x, r) ← dict_popitem (kv :: d); Some (x, (k0, v0) :: r)).
    destruct (dict_popitem (kv :: d)) as [[x r']|] eqn:Hpop; [| done].
    intros [= -> <-]. destruct (IH r' eq_refl) as (Hin & Hsub & Hnd).
    split; [by right |]. split.
    { intros k' [->|?]%elem_of_cons; [by left | right; by apply Hsub]. }
    intros [Hk0 Hd]%NoDup_cons. destruct (Hnd Hd) as [Hnot Hr]. split.
    + intros [->|?]%elem_of_cons; [| done]. by apply Hk0.
    + apply NoDup_cons. split; [| done]. intros ?. by apply Hk0, Hsub.
Qed.
End dict_pop_more.

Section chains_facts.
Context `{GenArgs}.

Lemma last_elem {A} (l : list A) x : last l = Some x → x ∈ l.
Proof.
  induction l as [|y l IH]; [done |]. destruct l as [|z l].
  - intros [= ->]. by left.
  - intros Hl. right. by apply IH.
Qed.

Lemma last_snoc_Some {A} (l : list A) x : last (l ++ [x]) = Some x.
Proof. by rewrite last_snoc. Qed.

Lemma chains_snoc K nets :
  ∀ seen net,
    chains K seen nets →
    NoDup net → net ≠ [] →
    (∀ p, p ∈ net → (p ∈ K ∧ p ∉ seen ++ concat nets) ∨ last net = Some p) →
    chains K seen (nets ++ [net]).
Proof.
  induction nets as [|n nets IH]; intros seen net Hch Hnd Hne Hnet; simpl in *.
  - rewrite app_nil_r in Hnet. done.
  - destruct Hch as [Hn Hch]. split; [done |]. apply IH; try done.
    intros p Hp. rewrite <- app_assoc. by apply Hnet.
Qed.

Lemma follow_chain (Q : pkey → Prop) fuel :
  ∀ outer pc net pc' net',
    follow fuel outer pc net = (pc', net') →
    length pc ≤ fuel → NoDup (dict_keys pc) → (∀ k, k ∈ dict_keys pc → Q k) →
    NoDup net → key_of outer ∈ net →
    (∀ p, p ∈ net → p ≠ key_of outer → Q p ∧ p ∉ dict_keys pc) →
    (last net = Some (key_of outer) ∨ (Q (key_of outer) ∧ key_of outer ∉ dict_keys pc)) →
    NoDup (dict_keys pc') ∧ (∀ k, k ∈ dict_keys pc' → k ∈ dict_keys pc) ∧
    length pc' ≤ length pc ∧
    NoDup net' ∧ net' ≠ [] ∧
    (∀ p, p ∈ net' → p ∉ dict_keys pc') ∧
    (∀ p, p ∈ net' → Q p ∨ last net' = Some p).
Proof.
  induction fuel as [|fuel IH]; intros outer pc net pc' net' Hrun Hlen Hnd HQ Hnet Hin Hbody Hlast.
  - simpl in Hrun. injection Hrun as <- <-. destruct pc; [| simpl in Hlen; lia].
    split; [done |]. split; [done |]. split; [done |]. split; [done |].
    split; [by intros ->; apply elem_of_nil in Hin |].
    split; [by intros p _ ?%elem_of_nil |].
    intros p Hp. destruct (decide (p = key_of outer)) as [->|Hne].
    + destruct Hlast as [?|[? _]]; auto.
    + left. by apply Hbody.
  - simpl in Hrun.
    destruct (dict_pop (key_of outer) pc) as [[outer' pc1]|] eqn:Hpop.
    + destruct (dict_pop_Some _ _ _ _ Hpop) as [Hkin Hknot].
      destruct (dict_pop_keys _ _ _ _ Hpop) as [Hsub Hnd1].
      destruct (dict_pop_cover _ (key_of outer) _ _ _ Hpop) as [Hlen1 _].
      specialize (Hknot Hnd). specialize (Hnd1 Hnd).
      apply IH in Hrun as (? & Hsub' & ? & ? & ? & ? & ?).
      * split; [done |]. split; [intros k Hk; by apply Hsub, Hsub' |].
        split; [lia |]. done.
      * lia.
      * done.
      * intros k Hk. by apply HQ, Hsub.
      * by apply SetList_add_NoDup.
      * apply SetList_add_elem. by left.
      * intros p [->|Hp]%SetList_add_elem Hne; [done |].
        destruct (decide (p = key_of outer)) as [->|Hne'].
        -- split; [by apply HQ | done].
        -- destruct (Hbody p Hp Hne') as [? Hnot]. split; [done |].
           intros ?. by apply Hnot, Hsub.
      * unfold SetList.add, SetList.contains. case_bool_decide as Hmem.
        -- right. destruct (decide (key_of outer' = key_of outer)) as [Heq|Hne].
           ++ rewrite Heq. split; [by apply HQ | done].
           ++ destruct (Hbody _ Hmem Hne) as [? Hnot]. split; [done |].
              intros ?. by apply Hnot, Hsub.
        -- left. apply last_snoc_Some.
    + injection Hrun as <- <-. apply dict_pop_None in Hpop.
      split; [done |]. split; [done |]. split; [done |]. split; [done |].
      split; [by intros ->; apply elem_of_nil in Hin |].
      split.
      * intros p Hp. destruct (decide (p = key_of outer)) as [->|Hne]; [done |].
        by apply Hbody.
      * intros p Hp. destruct (decide (p = key_of outer)) as [->|Hne].
        -- destruct Hlast as [?|[? _]]; auto.
        -- left. by apply Hbody.
Qed.

Lemma build_nets_chains K fuel :
  ∀ pc nets seen,
    length pc ≤ fuel → NoDup (dict_keys pc) →
    (∀ k, k ∈ dict_keys pc → k ∈ K ∧ k ∉ seen ++ concat nets) →
    chains K seen nets →
    chains K seen (build_nets fuel pc nets).
Proof.
  induction fuel as [|fuel IH]; intros pc nets seen Hlen Hnd Hkeys Hch; simpl; [done |].
  destruct (dict_popitem pc) as [[[inner outer] pc1]|] eqn:Hpop; [| done].
  destruct (dict_popitem_Some _ _ _ _ Hpop) as (Hin & Hsub & Hnd1).
  destruct (Hnd1 Hnd) as [Hnot Hnd1'].
  destruct (dict_popitem_cover _ _ _ inner _ Hpop) as [Hlen1 _].
  destruct (follow (length pc1) outer pc1 _) as [pc2 net2] eqn:Hfollow.
  apply (follow_chain (λ p, p ∈ K ∧ p ∉ seen ++ concat nets)) in Hfollow
    as (Hnd2 & Hsub2 & Hlen2 & Hndnet & Hne & Hout & Hbody).
  - apply IH; [lia | done | | ].
    + intros k Hk. destruct (Hkeys k (Hsub _ (Hsub2 _ Hk))) as [HK Hseen].
      split; [done |]. rewrite concat_app, app_assoc. simpl. rewrite app_nil_r.
      intros [?|?]%elem_of_app; [done |]. by apply (Hout k).
    + apply chains_snoc; try done.
  - done.
  - done.
  - intros k Hk. by apply Hkeys, Hsub.
  - apply SetList_add_NoDup, SetList_add_NoDup. constructor.
  - apply SetList_add_elem. by left.
  - intros p [->|[->|Hp]%SetList_add_elem]%SetList_add_elem Hne; [done | |].
    + split; [by apply Hkeys | done].
    + by apply elem_of_nil in Hp.
  - unfold SetList.add at 1, SetList.contains. case_bool_decide as Hmem.
    + apply SetList_add_elem in Hmem as [Heq|Hmem]; [| by apply elem_of_nil in Hmem].
      left. rewrite Heq. unfold SetList.add, SetList.contains, SetList.empty.
      rewrite bool_decide_eq_false_2 by apply not_elem_of_nil. done.
    + left. apply last_snoc_Some.
Qed.

Lemma nets_of_chains_keys pc :
  NoDup (dict_keys pc) → chains (dict_keys pc) [] (nets_of pc).
Proof.
  intros Hnd. apply build_nets_chains; try done.
  intros k Hk. split; [done |]. apply not_elem_of_nil.
Qed.

(** What [chains] says of a net, by its place in the list. *)
Lemma chains_split K nets :
  ∀ seen nets1 net nets2,
    chains K seen nets → nets = nets1 ++ net :: nets2 →
    NoDup net ∧ net ≠ [] ∧
    ∀ p, p ∈ net →
         (p ∈ K ∧ (p ∉ seen) ∧ ∀ n, n ∈ nets1 → p ∉ n) ∨ last net = Some p.
Proof.
  induction nets as [|n nets IH]; intros seen nets1 net nets2 Hch Heq.
  - by destruct nets1.
  - destruct Hch as [(Hnd & Hne & Hn) Hch]. destruct nets1 as [|n1 nets1].
    + injection Heq as <- ->. split; [done |]. split; [done |].
      intros p Hp. destruct (Hn p Hp) as [[? ?]|?]; [left | by right].
      split; [done |]. split; [done |]. by intros ? ?%elem_of_nil.
    + injection Heq as <- ->.
      destruct (IH (seen ++ n) nets1 net nets2 Hch eq_refl) as (? & ? & Hbody).
      split; [done |]. split; [done |]. intros p Hp.
      destruct (Hbody p Hp) as [(? & Hseen & Hearlier)|?]; [left | by right].
      split; [done |]. split; [intros ?; apply Hseen, elem_of_app; by left |].
      intros n' [->|?]%elem_of_cons; [| by apply Hearlier].
      intros ?. apply Hseen, elem_of_app. by right.
Qed.
End chains_facts.

(** X2.  The loop that splits the adjacency table of a module into nets
    loses no reference and builds chains: every key of the table is in some
    net; a net holds at least one reference and none twice; and a member of
    a net other than its last is a key of the table that is in no net built
    before.  So two nets share at most the last member of the later one.
    An empty table gives no net. *)
Theorem nets_of_chains (portconns : dict pkey PortRef) :
  NoDup (dict_keys portconns) →
  (∀ k, k ∈ dict_keys portconns → ∃ net, net ∈ nets_of portconns ∧ k ∈ net) ∧
  (∀ nets1 net nets2, nets_of portconns = nets1 ++ net :: nets2 →
     NoDup net ∧ net ≠ [] ∧
     ∀ p, p ∈ net →
          (p ∈ dict_keys portconns ∧ ∀ n, n ∈ nets1 → p ∉ n) ∨ last net = Some p) ∧
  (portconns = [] → nets_of portconns = []).
Proof.
  intros Hnd. split; [intros k Hk; by apply nets_of_cover |]. split; [| by intros ->].
  intros nets1 net nets2 Heq.
  destruct (chains_split _ _ [] nets1 net nets2 (nets_of_chains_keys _ Hnd) Heq)
    as (? & ? & Hbody).
  split; [done |]. split; [done |]. intros p Hp.
  destruct (Hbody p Hp) as [(? & _ & ?)|?]; [by left | by right].
Qed.

Lemma nets_of_chains_witness :
  let pc : dict pkey PortRef :=
    [((RInst 1, "p"), mkPortRef 100 (RInst 3) "r");
     ((RInst 2, "q"), mkPortRef 101 (RInst 3) "r")] in
  NoDup (dict_keys pc) ∧
  nets_of pc = [[(RInst 2, "q"); (RInst 3, "r")]; [(RInst 1, "p"); (RInst 3, "r")]] ∧
  ∃ net, net ∈ nets_of pc ∧ (RInst 1, "p") ∈ net.
Proof.
  intros pc.
  assert (Hnd : NoDup (dict_keys pc)).
  { apply (bool_decide_unpack _). by vm_compute. }
  split; [exact Hnd |]. split; [vm_compute; reflexivity |].
  apply (proj1 (nets_of_chains pc Hnd)). apply (bool_decide_unpack _). by vm_compute.
Defined.


(** ** The shorting error *)

Section never_shorts_facts.
Context `{GenArgs}.

Lemma ns_ret {A} (a : A) : never_shorts (ret a).
Proof. by intros s r s' Hwf [= <- <-]. Qed.

Lemma ns_raise {A} e : (∀ c names, e ≠ Shorting c names) → never_shorts (raise (A:=A) e).
Proof. intros He s r s' Hwf [= <- <-]. split; [done |]. intros c n [= ?]. by eapply He. Qed.

Lemma ns_get : never_shorts get.
Proof. by intros s r s' Hwf [= <- <-]. Qed.

Lemma ns_load {A} (sel : heap → gmap nat A) i : never_shorts (load sel i).
Proof.
  intros s r s' Hwf. unfold load.
  destruct (sel (st_heap s) !! i); by intros [= <- <-].
Qed.

Lemma ns_lift_opt {A} e (o : option A) :
  (∀ c names, e ≠ Shorting c names) → never_shorts (lift_opt e o).
Proof. intros He. destruct o; [apply ns_ret | by apply ns_raise]. Qed.

Lemma ns_bind {A B} (m : M estate A) (f : A → M estate B) :
  never_shorts m → (∀ a, never_shorts (f a)) → never_shorts (bind m f).
Proof.
  intros Hm Hf s r s' Hwf [(a & s1 & Hrun & Hk)|(e & Hrun & ->)]%bind_inv.
  - destruct (Hm _ _ _ Hwf Hrun) as [Hwf1 _]. by eapply Hf.
  - destruct (Hm _ _ _ Hwf Hrun) as [Hwf1 Hne]. split; [done |].
    intros c n [= ->]. by eapply Hne.
Qed.

Lemma ns_for_each {A} (l : list A) (body : A → M estate unit) :
  (∀ x, x ∈ l → never_shorts (body x)) → never_shorts (for_each l body).
Proof.
  induction l as [|x l IH]; intros Hbody; simpl; [apply ns_ret |].
  apply ns_bind; [apply Hbody; by left | intros _; apply IH].
  intros y Hy. apply Hbody. by right.
Qed.

Lemma ns_fold_each {A B} (l : list A) (body : B → A → M estate B) b :
  (∀ b x, x ∈ l → never_shorts (body b x)) → never_shorts (fold_each l body b).
Proof.
  revert b. induction l as [|x l IH]; intros b Hbody; simpl; [apply ns_ret |].
  apply ns_bind; [apply Hbody; by left | intros b'; apply IH].
  intros b'' y Hy. apply Hbody. by right.
Qed.

Lemma ns_map_each {A B} (l : list A) (f : A → M estate B) :
  (∀ x, x ∈ l → never_shorts (f x)) → never_shorts (map_each l f).
Proof.
  induction l as [|x l IH]; intros Hf; simpl; [apply ns_ret |].
  apply ns_bind; [apply Hf; by left | intros y].
  apply ns_bind; [| intros ys; apply ns_ret].
  apply IH. intros z Hz. apply Hf. by right.
Qed.

Lemma ns_same_instances (f : estate → estate) :
  (∀ s, h_instances (st_heap (f s)) = h_instances (st_heap s)) →
  never_shorts (modify f).
Proof.
  intros Hf s r s' Hwf [= <- <-]. split; [| done].
  intros i x. rewrite Hf. apply Hwf.
Qed.

Lemma ns_setattr_instance i f :
  (∀ x, conns_wf x → conns_wf (f x)) → never_shorts (setattr_instance i f).
Proof.
  intros Hf s r s' Hwf [= <- <-]. split; [| done].
  intros j x. simpl. destruct (decide (i = j)) as [<-|].
  - rewrite lookup_alter_eq.
    destruct (h_instances (st_heap s) !! i) as [x0|] eqn:Hx0; [| done].
    intros [= <-]. by eapply Hf, Hwf.
  - rewrite lookup_alter_ne by done. apply Hwf.
Qed.

Lemma ns_new_signal x : never_shorts (new_signal x).
Proof. by intros s r s' Hwf [= <- <-]. Qed.

Lemma flatname_raises {V} segments (avoid : dict string V) maxlen e :
  flatname segments avoid maxlen = Raise e → ∃ trying, e = NameExhaustion segments trying.
Proof.
  intros Hname.
  destruct (flatname_loop_spec avoid segments maxlen (Z.to_nat maxlen)
              ("_" +:+ join "_" segments +:+ "_")) as (k & _ & Hres).
  { rewrite !length_append. simpl. lia. }
  change (flatname_loop (Z.to_nat maxlen) segments ("_" +:+ join "_" segments +:+ "_")
            avoid maxlen) with (flatname segments avoid maxlen) in Hres.
  rewrite Hname in Hres. destruct Hres as [([=] & _)|([= ->] & _)]. eauto.
Qed.

Lemma ns_flatname {V} segments (avoid : dict string V) maxlen :
  never_shorts (lift_result (flatname segments avoid maxlen)).
Proof.
  destruct (flatname segments avoid maxlen) as [name|e] eqn:Hname; [apply ns_ret |].
  apply flatname_raises in Hname as [trying ->]. by apply ns_raise.
Qed.
End never_shorts_facts.

Ltac ns_step :=
  first
    [ assumption
    | match goal with H : ∀ _, never_shorts _ |- _ => apply H end
    | lazymatch goal with
      | |- never_shorts (ret _) => apply ns_ret
      | |- never_shorts (raise _) => apply ns_raise; done
      | |- never_shorts get => apply ns_get
      | |- never_shorts (lift_opt _ _) => apply ns_lift_opt; done
      | |- never_shorts (lift_result (flatname _ _ _)) => apply ns_flatname
      | |- never_shorts (bind _ _) => apply ns_bind; [| intros ?]
      | |- never_shorts (for_each _ _) => apply ns_for_each; intros ? ?
      | |- never_shorts (fold_each _ _ _) => apply ns_fold_each; intros ? ? ?
      | |- never_shorts (map_each _ _) => apply ns_map_each; intros ? ?
      | |- never_shorts (load _ _) => apply ns_load
      | |- never_shorts (get_module _) => apply ns_load
      | |- never_shorts (get_instance _) => apply ns_load
      | |- never_shorts (get_signal _) => apply ns_load
      | |- never_shorts (get_intfinst _) => apply ns_load
      | |- never_shorts (get_interface _) => apply ns_load
      | |- never_shorts (new_signal _) => apply ns_new_signal
      | |- never_shorts (visit _) => by apply ns_same_instances
      | |- never_shorts (setattr_signal _ _) => by apply ns_same_instances
      | |- never_shorts (setattr_module _ _) => by apply ns_same_instances
      | |- never_shorts (setattr_intfinst _ _) => by apply ns_same_instances
      | |- never_shorts (match ?x with _ => _ end) => destruct x
      end ].
Ltac ns := repeat ns_step.


Section shorting_unreachable.
Context `{GenArgs}.

Lemma dict_set_keys_elem {K V} `{EqDecision K} (k k' : K) (v : V) (d : list (K * V)) :
  k' ∈ dict_keys (dict_set k v d) → k' = k ∨ k' ∈ dict_keys d.
Proof.
  rewrite dict_keys_set. case_decide; [by right |].
  intros [?|Hk]%elem_of_app; [by right |]. apply list_elem_of_singleton in Hk. by left.
Qed.

Lemma instance_portconns_held inst x pc :
  NoDup (dict_keys pc) →
  NoDup (dict_keys (ImplicitSignals.instance_portconns inst x pc)) ∧
  ∀ k, k ∈ dict_keys (ImplicitSignals.instance_portconns inst x pc) →
       k ∈ dict_keys pc ∨
       ∃ port pr, k = (RInst inst, port) ∧ (port, CPortRef pr) ∈ inst_conns x.
Proof.
  unfold ImplicitSignals.instance_portconns. generalize (inst_conns x). intros l.
  revert pc. induction l as [|[port c] l IH]; intros pc Hnd; simpl.
  { split; [done | by left]. }
  assert (Hstep : ∀ pc', NoDup (dict_keys pc') →
            (∀ k, k ∈ dict_keys pc' →
                  k ∈ dict_keys pc ∨ ∃ pr, k = (RInst inst, port) ∧ c = CPortRef pr) →
            NoDup (dict_keys (foldl
              (λ pc kv, match kv.2 with
                        | CPortRef conn => dict_set (RInst inst, kv.1) conn pc
                        | _ => pc
                        end) pc' l)) ∧
            ∀ k, k ∈ dict_keys (foldl
              (λ pc kv, match kv.2 with
                        | CPortRef conn => dict_set (RInst inst, kv.1) conn pc
                        | _ => pc
                        end) pc' l) →
                 k ∈ dict_keys pc ∨
                 ∃ port' pr, k = (RInst inst, port') ∧ (port', CPortRef pr) ∈ (port, c) :: l).
  { intros pc' Hnd' Hpc'. destruct (IH pc' Hnd') as [? Hk]. split; [done |].
    intros k Hin. destruct (Hk k Hin) as [Hin'|(port' & pr & -> & ?)].
    - destruct (Hpc' k Hin') as [?|(pr & -> & ->)]; [by left |].
      right. exists port, pr. split; [done | by left].
    - right. exists port', pr. split; [done | by right]. }
  destruct c as [sg|pr|ii|]; try (apply Hstep; [done | by left]).
  apply Hstep; [by apply dict_set_NoDup |].
  intros k [->|?]%dict_set_keys_elem; [right; by exists pr | by left].
Qed.

(** The keys of the adjacency table are ports connected to a [PortRef]. *)
Lemma build_portconns_held module s pc s' :
  ImplicitSignals.build_portconns module s = (Ok pc, s') →
  dicts_wf (st_heap s) →
  NoDup (dict_keys pc) ∧ ∀ k, k ∈ dict_keys pc → held (st_heap s) k.
Proof.
  unfold ImplicitSignals.build_portconns, bind at 1, get_module, load.
  destruct (h_modules (st_heap s) !! module) as [x|]; [| done].
  intros Hfold Hwf. revert Hfold.
  assert (Hnil : NoDup (dict_keys ([] : dict pkey PortRef)) ∧
            ∀ k, k ∈ dict_keys ([] : dict pkey PortRef) → held (st_heap s) k).
  { split; [constructor | by intros k ?%elem_of_nil]. }
  revert Hnil. generalize ([] : dict pkey PortRef).
  induction (dict_values (mod_instances x)) as [|j l IH]; intros acc Hacc; simpl.
  - by intros [= <- <-].
  - unfold bind at 1 2, get_instance, load.
    destruct (h_instances (st_heap s) !! j) as [xj|] eqn:Hj; simpl; [| done].
    apply IH. destruct Hacc as [Hnd Hheld].
    destruct (instance_portconns_held j xj acc Hnd) as [Hnd' Hkeys].
    split; [done |]. intros k Hk.
    destruct (Hkeys k Hk) as [?|(port & pr & -> & Hin)]; [by apply Hheld |].
    exists pr. unfold connection. simpl. rewrite Hj. simpl.
    apply dict_get_NoDup; [by apply (Hwf j) | done].
Qed.

Lemma check_signal_first net p (s : estate) r s' :
  ImplicitSignals.check_signal net None p s = (r, s') →
  s' = s ∧ (∀ c names, r ≠ Raise (Shorting c names)) ∧
  (held (st_heap s) p → r = Ok None).
Proof.
  unfold ImplicitSignals.check_signal, conn_of, held, connection.
  destruct p.1 as [i|i]; [| intros [= <- <-]; split; [done |]; split; [done |];
                             by intros [pr ?]].
  unfold bind, get_instance, load.
  destruct (h_instances (st_heap s) !! i) as [x|]; simpl;
    [| intros [= <- <-]; split; [done |]; split; [done |]; by intros [pr ?]].
  destruct (dict_get p.2 (inst_conns x)) as [[sg|pr|ii|]|]; intros [= <- <-];
    (split; [done |]); (split; [done |]); by intros [pr' ?].
Qed.

(** The scan of a net of which only the last member can be connected to a
    signal does not meet two signals. *)
Lemma find_signal_no_short net (s : estate) :
  ∀ l, NoDup l → (∀ p, p ∈ l → held (st_heap s) p ∨ last l = Some p) →
       ∀ r s', fold_each l (ImplicitSignals.check_signal net) None s = (r, s') →
               s' = s ∧ ∀ c names, r ≠ Raise (Shorting c names).
Proof.
  induction l as [|p l IH]; intros Hnd Hl r s'; [by intros [= <- <-] |].
  apply NoDup_cons in Hnd as [Hp Hnd]. simpl.
  intros [(sig & s1 & Hrun & Hk)|(e & Hrun & ->)]%bind_inv.
  - apply check_signal_first in Hrun as (-> & _ & Hheld).
    destruct l as [|q l]; [by injection Hk as <- <- |].
    assert (Hnone : sig = None).
    { destruct (Hl p (ltac:(by left))) as [Hh|Hlast].
      - by injection (Hheld Hh).
      - exfalso. apply Hp. apply last_elem. exact Hlast. }
    subst sig. apply IH in Hk; [done | done |].
    intros p' Hp'. destruct (Hl p' (ltac:(by right))) as [?|?]; [by left | by right].
  - by apply check_signal_first in Hrun as (-> & ? & _).
Qed.

#[global] Instance outside_preorder net : PreOrder (outside net).
Proof.
  split; [by intros s p |]. intros s1 s2 s3 H12 H23 p Hp. by rewrite H23, H12.
Qed.

Lemma outside_same_instances net s s' :
  h_instances (st_heap s') = h_instances (st_heap s) → outside net s s'.
Proof. intros Heq p _. unfold connection. by rewrite Heq. Qed.

Lemma outside_connect net c q : q ∈ net → preserves (outside net) (connect c q).
Proof.
  intros Hq s r s'. unfold connect. destruct q.1 as [i|i] eqn:Hq1;
    [| intros [= <- <-]; reflexivity].
  intros [= <- <-] p Hp. simpl.
  destruct (h_instances (st_heap s) !! i) as [x|] eqn:Hx.
  - rewrite (connection_connect _ _ q p i Hq1) by by rewrite Hx.
    rewrite decide_False; [done |]. by intros ->.
  - unfold connection. destruct p.1 as [j|j]; [| done]. simpl.
    destruct (decide (i = j)) as [<-|].
    + by rewrite lookup_alter_eq, Hx.
    + by rewrite lookup_alter_ne.
Qed.

Lemma outside_connect_net module net :
  preserves (outside net) (ImplicitSignals.connect_net module net).
Proof.
  assert (Hleaf : ∀ f, (∀ s, h_instances (st_heap (f s)) = h_instances (st_heap s)) →
                       preserves (outside net) (modify f)).
  { intros f Hf. apply preserves_modify. intros s. by apply outside_same_instances. }
  assert (Hload : ∀ A (sel : heap → gmap nat A) i, preserves (outside net) (load sel i)).
  { intros A sel i s r s'. unfold load.
    destruct (sel (st_heap s) !! i); intros [= <- <-]; reflexivity. }
  unfold ImplicitSignals.connect_net, ImplicitSignals.find_signal,
    ImplicitSignals.check_signal, ImplicitSignals.create_signal, ImplicitSignals.port_of,
    conn_of, pair_names, segments_of, name_of, resolved_of, last_portref, add_signal.
  repeat first
    [ pres_structure
    | by apply outside_connect
    | apply Hload
    | by apply Hleaf
    | lazymatch goal with
      | |- preserves _ (new_signal _) =>
          intros ? ? ? [= <- <-]; by apply outside_same_instances
      end ].
Qed.

Lemma connect_net_no_short module net (s : estate) r s' :
  dicts_wf (st_heap s) → NoDup net →
  (∀ p, p ∈ net → held (st_heap s) p ∨ last net = Some p) →
  ImplicitSignals.connect_net module net s = (r, s') →
  dicts_wf (st_heap s') ∧ ∀ c names, r ≠ Raise (Shorting c names).
Proof.
  intros Hwf Hnd Hnet. unfold ImplicitSignals.connect_net.
  intros [(sig & s1 & Hscan & Hrest)|(e & Hscan & ->)]%bind_inv.
  - apply find_signal_no_short in Hscan as [-> _]; [| done | done].
    clear Hnet. revert s r s' Hwf Hrest.
    change (never_shorts
      (let* sig := match sig with
                   | Some sig => ret sig
                   | None => ImplicitSignals.create_signal module net
                   end in
       for_each net (connect (CSignal sig)))%elab).
    unfold ImplicitSignals.create_signal, ImplicitSignals.port_of, segments_of, name_of,
      resolved_of, last_portref, add_signal, connect.
    repeat first
      [ ns_step
      | apply ns_setattr_instance; intros ? ?; by apply stays_wf_set ].
  - apply find_signal_no_short in Hscan as [-> Hne]; [| done | done].
    split; [done |]. intros c names [= ->]. by eapply Hne.
Qed.

(** The loop over the nets of a module. *)
Lemma connect_nets_no_short module K nets :
  ∀ seen (s : estate) r s',
    chains K seen nets → dicts_wf (st_heap s) →
    (∀ p, p ∈ K → p ∉ seen → held (st_heap s) p) →
    for_each nets (ImplicitSignals.connect_net module) s = (r, s') →
    dicts_wf (st_heap s') ∧ ∀ c names, r ≠ Raise (Shorting c names).
Proof.
  induction nets as [|net nets IH]; intros seen s r s' Hch Hwf Hheld; simpl.
  { by intros [= <- <-]. }
  destruct Hch as [(Hnd & Hne & Hnet) Hch].
  assert (Hmem : ∀ p, p ∈ net → held (st_heap s) p ∨ last net = Some p).
  { intros p Hp. destruct (Hnet p Hp) as [[? ?]|?]; [left; by apply Hheld | by right]. }
  intros [([] & s1 & Hrun & Hk)|(e & Hrun & ->)]%bind_inv.
  - pose proof (outside_connect_net module net _ _ _ Hrun) as Hout.
    apply connect_net_no_short in Hrun as [Hwf1 _]; try done.
    eapply (IH (seen ++ net)); [done | done | | exact Hk].
    intros p HK Hseen. destruct (Hheld p HK) as [pr Hpr].
    { intros ?. apply Hseen, elem_of_app. by left. }
    exists pr. rewrite Hout; [done |]. intros ?. apply Hseen, elem_of_app. by right.
  - by apply connect_net_no_short in Hrun as [Hwf1 Hns].
Qed.

Lemma ns_nets module :
  never_shorts
    (let* portconns := ImplicitSignals.build_portconns module in
     for_each (nets_of portconns) (ImplicitSignals.connect_net module) ;;
     ret module)%elab.
Proof.
  intros s r s' Hwf [(pc & s1 & Hpc & Hk)|(e & Hpc & ->)]%bind_inv.
  - pose proof (build_portconns_keys _ _ _ _ Hpc) as [-> _].
    destruct (build_portconns_held _ _ _ _ Hpc Hwf) as [Hnd Hheld].
    apply bind_inv in Hk as [([] & s2 & Hloop & [= <- <-])|(e & Hloop & ->)].
    + eapply (connect_nets_no_short module (dict_keys pc) _ []) in Hloop as [? _];
        [done | by apply nets_of_chains_keys | done |]. intros p Hp _. by apply Hheld.
    + eapply (connect_nets_no_short module (dict_keys pc) _ []) in Hloop as [? Hns];
        [| by apply nets_of_chains_keys | done | intros p Hp _; by apply Hheld].
      split; [done |]. intros c names [= ->]. by eapply Hns.
  - pose proof (build_portconns_keys _ _ _ _ Hpc) as [-> _]. split; [done |].
    revert Hpc. unfold ImplicitSignals.build_portconns.
    intros Hpc c names [= ->].
    assert (Hns : never_shorts
      (let* x := get_module module in
       fold_each (dict_values (mod_instances x))
         (λ pc inst, let* i := get_instance inst in
                     ret (ImplicitSignals.instance_portconns inst i pc)) [])%elab) by ns.
    by destruct (Hns _ _ _ Hwf Hpc) as [_ Hne]; eapply Hne.
Qed.

Lemma ns_implicit_signals fuel :
  ∀ module, never_shorts (ImplicitSignals.elaborate_module fuel module).
Proof.
  induction fuel as [|fuel IH]; intros module; cbn [ImplicitSignals.elaborate_module];
    [ns |].
  unfold Elaborator.elaborate_instances, Elaborator.elaborate_instance,
    Elaborator.elaborate_primitive_call, Elaborator.elaborate_external_module.
  repeat first
    [ apply ns_nets
    | ns_step
    | apply ns_setattr_instance; intros ? ?; by apply stays_wf_elaborated ].
Qed.
End shorting_unreachable.


(** X3.  The implicit-signals pass never raises the shorting error.  When
    it scans a net it has built, every member but the last is still
    connected to the [PortRef] it was found with, so the scan meets at most
    one declared signal: whatever the design and however the pass ends, its
    outcome is not that error. *)
Theorem implicit_signals_never_shorts `{GenArgs} (fuel : nat) (top : Top)
    (ctx : Context) (s : estate) (r : result modid) (s' : estate) :
  dicts_wf (st_heap s) →
  ImplicitSignals.elaborate fuel top ctx s = (r, s') →
  ∀ c names, r ≠ Raise (Shorting c names).
Proof.
  intros Hwf. unfold ImplicitSignals.elaborate, Elaborator.elaborate_top.
  destruct top as [m|c|g|]; try by intros [= <- _].
  intros Hrun. by eapply ns_implicit_signals.
Qed.

Lemma fan_in_design_wf : dicts_wf fan_in_design.
Proof.
  intros i x Hx. apply elem_of_list_to_map_2 in Hx.
  repeat (apply elem_of_cons in Hx as [Heq|Hx];
          [injection Heq as _ ->; apply (bool_decide_unpack _); by vm_compute |]).
  by apply elem_of_nil in Hx.
Qed.

Lemma implicit_signals_never_shorts_witness :
  dicts_wf fan_in_design ∧
  ∀ c names,
    (ImplicitSignals.elaborate 10 (TopModule 0) mkContext (init_state fan_in_design)).1
      ≠ Raise (Shorting c names).
Proof.
  split; [exact fan_in_design_wf |].
  exact (implicit_signals_never_shorts 10 (TopModule 0) mkContext
           (init_state fan_in_design) _ _ fan_in_design_wf
           (surjective_pairing _)).
Defined.

Section settled_facts.
Context `{GenArgs}.

Lemma settled_reachable (h : heap) m m' :
  reachable h m m' → ∀ n, settled h n m → ∃ n', settled h (S n') m'.
Proof.
  induction 1 as [m|m c m' Hchild _ IH]; intros [|n] Hs; try done.
  - by exists n.
  - destruct Hs as (x & Hx & _ & Hinsts).
    destruct Hchild as (x' & i & xi & Hx' & Hi & Hxi & Hres).
    rewrite Hx in Hx'. injection Hx' as <-.
    destruct (Hinsts i Hi) as (xi' & Hxi' & _ & _ & _ & Hmatch).
    rewrite Hxi in Hxi'. injection Hxi' as <-. rewrite Hres in Hmatch.
    by apply (IH n).
Qed.
End settled_facts.

(** X4.  When a visit of the implicit-signals pass returns, no instance in
    the hierarchy under the module is left connected to a [PortRef]: every
    module reachable from it is in the heap, and each of its instances is in
    the heap, is marked elaborated, has no [PortRef] among its connections
    and is an instance of a module, a primitive or an external module. *)
Theorem implicit_signals_leaves_no_portref `{GenArgs} (fuel : nat) (module : modid)
    (s : estate) (r : modid) (s' : estate) :
  dicts_wf (st_heap s) →
  ImplicitSignals.elaborate_module fuel module s = (Ok r, s') →
  ∀ m', reachable (st_heap s') module m' →
    ∃ x, h_modules (st_heap s') !! m' = Some x ∧
      ∀ i, i ∈ dict_values (mod_instances x) →
        ∃ xi, h_instances (st_heap s') !! i = Some xi ∧
              inst_elaborated xi = true ∧
              (∀ port p, dict_get port (inst_conns xi) ≠ Some (CPortRef p)) ∧
              (∀ kv p, kv ∈ inst_conns xi → kv.2 ≠ CPortRef p) ∧
              ∃ t, _resolved (st_heap s') xi = Some t ∧ t ≠ TOther ∧
                   ∀ c, t ≠ TGeneratorCall c.
Proof.
  intros Hwf Hrun m' Hreach.
  apply implicit_signals_settles in Hrun; [| done].
  destruct (settled_reachable _ _ _ Hreach _ Hrun) as (n' & x & Hx & _ & Hinsts).
  exists x. split; [done |]. intros i Hi.
  destruct (Hinsts i Hi) as (xi & Hxi & Helab & Hwfi & Hno & Hres).
  exists xi. split; [done |]. split; [done |]. split; [exact Hno |].
  split; [intros kv p Hkv; by apply (conns_no_portref xi Hwfi Hno) |].
  destruct (_resolved (st_heap s') xi) as [[c|c|p|p|]|]; try done; eauto.
Qed.

Lemma implicit_signals_leaves_no_portref_witness :
  let run := ImplicitSignals.elaborate_module 10 0 (init_state fan_in_design) in
  dicts_wf fan_in_design ∧ run.1 = Ok 0 ∧
  ∃ x, h_modules (st_heap run.2) !! 0 = Some x ∧
    ∀ i, i ∈ dict_values (mod_instances x) →
      ∃ xi, h_instances (st_heap run.2) !! i = Some xi ∧
            inst_elaborated xi = true ∧
            (∀ port p, dict_get port (inst_conns xi) ≠ Some (CPortRef p)) ∧
            (∀ kv p, kv ∈ inst_conns xi → kv.2 ≠ CPortRef p) ∧
            ∃ t, _resolved (st_heap run.2) xi = Some t ∧ t ≠ TOther ∧
                 ∀ c, t ≠ TGeneratorCall c.
Proof.
  intros run.
  assert (Hrun : run = (Ok 0, run.2)) by (vm_compute; reflexivity).
  split; [exact fan_in_design_wf |]. split; [vm_compute; reflexivity |].
  apply (implicit_signals_leaves_no_portref 10 0 (init_state fan_in_design) 0 run.2
           fan_in_design_wf Hrun 0).
  constructor.
Defined.


(** ** A net that has its signal *)

Section joining.
Context `{GenArgs}.

Lemma find_signal_join (s : estate) net sig :
  net_of_instances (st_heap s) net →
  ∀ l acc,
    net_of_instances (st_heap s) l →
    (∀ c, c ∈ attached_signals (st_heap s) l → c = sig) →
    acc = None ∨ acc = Some sig →
    fold_each l (ImplicitSignals.check_signal net) acc s =
      (Ok (match attached_signals (st_heap s) l with [] => acc | _ => Some sig end), s).
Proof.
  intros Hnet. induction l as [|p l IH]; intros acc Hl Hall Hacc; [done |].
  apply Forall_cons in Hl as [Hp Hl]. cbn [fold_each]. unfold bind.
  rewrite check_signal_run by (done || by apply Forall_singleton).
  rewrite attached_signals_cons in Hall |- *.
  destruct (connection (st_heap s) p) as [[c| | |]|] eqn:Hc; try by apply IH.
  assert (c = sig) as -> by (apply Hall; by left).
  assert (Hstep : fold_each l (ImplicitSignals.check_signal net) (Some sig) s =
                    (Ok (Some sig), s)).
  { rewrite IH; [| done | intros c Hin; apply Hall; by right | by right].
    by destruct (attached_signals (st_heap s) l). }
  destruct Hacc as [->| ->]; [done |]. by rewrite bool_decide_eq_true_2.
Qed.

Lemma find_interface_join (s : estate) net sig :
  net_of_instances (st_heap s) net →
  ∀ l acc,
    net_of_instances (st_heap s) l →
    (∀ c, c ∈ attached_interfaces (st_heap s) l → c = sig) →
    acc = None ∨ acc = Some sig →
    fold_each l (ImplicitInterfaces.check_interface net) acc s =
      (Ok (match attached_interfaces (st_heap s) l with [] => acc | _ => Some sig end), s).
Proof.
  intros Hnet. induction l as [|p l IH]; intros acc Hl Hall Hacc; [done |].
  apply Forall_cons in Hl as [Hp Hl]. cbn [fold_each]. unfold bind.
  rewrite check_interface_run by (done || by apply Forall_singleton).
  rewrite attached_interfaces_cons in Hall |- *.
  destruct (connection (st_heap s) p) as [[| |c|]|] eqn:Hc; try by apply IH.
  assert (c = sig) as -> by (apply Hall; by left).
  assert (Hstep : fold_each l (ImplicitInterfaces.check_interface net) (Some sig) s =
                    (Ok (Some sig), s)).
  { rewrite IH; [| done | intros c Hin; apply Hall; by right | by right].
    by destruct (attached_interfaces (st_heap s) l). }
  destruct Hacc as [->| ->]; [done |]. by rewrite bool_decide_eq_true_2.
Qed.
End joining.

(** X5.  A net to whose members one declared signal is attached, be it to
    several of them, is joined to that signal: the implicit-signals pass
    creates nothing, leaves the modules and the signals as they are, and
    connects every member of the net to the signal; no other connection
    changes.  The implicit-interfaces pass does the same with the one
    bundle instance attached to a net. *)
Theorem connect_net_joins `{GenArgs} (module : modid) (net : list pkey)
    (s : estate) (c : nat) :
  net_of_instances (st_heap s) net →
  (c ∈ attached_signals (st_heap s) net →
   (∀ c', c' ∈ attached_signals (st_heap s) net → c' = c) →
   ∃ s', ImplicitSignals.connect_net module net s = (Ok tt, s') ∧
         h_modules (st_heap s') = h_modules (st_heap s) ∧
         h_signals (st_heap s') = h_signals (st_heap s) ∧
         ∀ p, connection (st_heap s') p =
              if decide (p ∈ net) then Some (CSignal c) else connection (st_heap s) p) ∧
  (c ∈ attached_interfaces (st_heap s) net →
   (∀ c', c' ∈ attached_interfaces (st_heap s) net → c' = c) →
   ∃ s', ImplicitInterfaces.connect_net module net s = (Ok tt, s') ∧
         h_modules (st_heap s') = h_modules (st_heap s) ∧
         h_intfinsts (st_heap s') = h_intfinsts (st_heap s) ∧
         ∀ p, connection (st_heap s') p =
              if decide (p ∈ net) then Some (CInterface c) else connection (st_heap s) p).
Proof.
  intros Hnet. split; intros Hin Hall.
  - unfold ImplicitSignals.connect_net, ImplicitSignals.find_signal.
    erewrite bind_run by (by apply find_signal_join; [| | | left]).
    destruct (attached_signals (st_heap s) net) eqn:Hatt; [by apply elem_of_nil in Hin |].
    erewrite bind_run by reflexivity.
    destruct (connect_all_run (CSignal c) net s Hnet) as (s' & Hrun & Hm & Hs & _ & _ & Hconn).
    by exists s'.
  - unfold ImplicitInterfaces.connect_net, ImplicitInterfaces.find_interface.
    erewrite bind_run by (by apply find_interface_join; [| | | left]).
    destruct (attached_interfaces (st_heap s) net) eqn:Hatt;
      [by apply elem_of_nil in Hin |].
    erewrite bind_run by reflexivity.
    destruct (connect_all_run (CInterface c) net s Hnet)
      as (s' & Hrun & Hm & _ & Hi & _ & Hconn).
    by exists s'.
Qed.

Lemma connect_net_joins_witness :
  let s := init_state shorted_design in
  let net := [(RInst 1, "p"); (RInst 2, "z"); (RInst 1, "r")] in
  attached_signals (st_heap s) net = [1] ∧ attached_interfaces (st_heap s) net = [1] ∧
  (∃ s', ImplicitSignals.connect_net 0 net s = (Ok tt, s') ∧
         connection (st_heap s') (RInst 2, "z") = Some (CSignal 1) ∧
         connection (st_heap s') (RInst 2, "q") = Some (CSignal 2)) ∧
  (∃ s', ImplicitInterfaces.connect_net 0 net s = (Ok tt, s') ∧
         connection (st_heap s') (RInst 2, "z") = Some (CInterface 1)).
Proof.
  intros s net.
  assert (Hsigs : attached_signals (st_heap s) net = [1]) by reflexivity.
  assert (Hintfs : attached_interfaces (st_heap s) net = [1]) by reflexivity.
  split; [exact Hsigs |]. split; [exact Hintfs |].
  destruct (connect_net_joins 0 net s 1) as [Hsig Hintf].
  { repeat constructor; eexists; (split; [reflexivity | vm_compute; eauto]). }
  split.
  - destruct Hsig as (s' & Hrun & _ & _ & Hconn).
    { rewrite Hsigs. by left. }
    { rewrite Hsigs. by intros c' ->%list_elem_of_singleton. }
    exists s'. split; [exact Hrun |]. rewrite !Hconn. split; reflexivity.
  - destruct Hintf as (s' & Hrun & _ & _ & Hconn).
    { rewrite Hintfs. by left. }
    { rewrite Hintfs. by intros c' ->%list_elem_of_singleton. }
    exists s'. split; [exact Hrun |]. rewrite !Hconn. reflexivity.
Defined.


(** ** The bundle instance of an implicit net *)

(** X6.  Take a net whose members are ports of instances and to which no
    bundle instance is attached, in a module where [flatname] finds a name
    for the segments ["instname_portname"] of the members against the
    namespace, and let the last member be a port of an instance of a module
    that has a bundle port of that name.  Then the implicit-interfaces pass
    creates exactly one bundle instance, a copy of that bundle port that is
    no port, has no role and bears the name found; it adds it to the module,
    under a name that was free; it connects every member of the net to it,
    and changes no other connection. *)
Theorem connect_net_creates_interface `{GenArgs} (module : modid) (net : list pkey)
    (s : estate) (xm : Module) (signame : string) (last_inst : instid)
    (last_port : string) (xl : Instance) (lastmod : modid) (yl : Module)
    (intf0 : intfid) (x0 : InterfaceInstance) :
  net_of_instances (st_heap s) net →
  attached_interfaces (st_heap s) net = [] →
  h_modules (st_heap s) !! module = Some xm →
  flatname (member_segments (st_heap s) net) (mod_namespace xm) default_maxlen
    = Ok signame →
  last net = Some (RInst last_inst, last_port) →
  h_instances (st_heap s) !! last_inst = Some xl →
  _resolved (st_heap s) xl = Some (TModule lastmod) →
  h_modules (st_heap s) !! lastmod = Some yl →
  dict_get last_port (_interface_ports (st_heap s) yl) = Some intf0 →
  h_intfinsts (st_heap s) !! intf0 = Some x0 →
  let new := fresh (dom (h_intfinsts (st_heap s))) in
  let x := mkInterfaceInstance signame (intf_of x0) false None (intf_portrefs x0)
             (intf_elaborated x0) in
  ∃ s',
    ImplicitInterfaces.connect_net module net s = (Ok tt, s') ∧
    h_intfinsts (st_heap s) !! new = None ∧
    h_intfinsts (st_heap s') = <[new := x]> (h_intfinsts (st_heap s)) ∧
    (signame ∉ dict_keys (mod_namespace xm)) ∧
    h_modules (st_heap s') =
      <[module := Module_add_interface new x xm]> (h_modules (st_heap s)) ∧
    (∀ p, p ∈ net → connection (st_heap s') p = Some (CInterface new)) ∧
    (∀ p, p ∉ net → connection (st_heap s') p = connection (st_heap s) p).
Proof.
  intros Hnet Hnone Hmod Hname Hlast Hxl Hres Hyl Hport Hx0 new x.
  assert (Hfresh : h_intfinsts (st_heap s) !! new = None).
  { apply not_elem_of_dom, is_fresh. }
  assert (Hfree : signame ∉ dict_keys (mod_namespace xm)).
  { by eapply (flatname_ok_free (member_segments (st_heap s) net)). }
  unfold ImplicitInterfaces.connect_net, ImplicitInterfaces.find_interface.
  erewrite bind_run.
  2: { apply (find_interface_join s net 0 Hnet net None Hnet); [| by left].
       rewrite Hnone. by intros c ?%elem_of_nil. }
  rewrite Hnone.
  set (s1 := with_heap
     (fun h => upd_modules (alter (Module_add_interface new x) module)
                 (upd_intfinsts <[new := x]> h)) s).
  assert (Hcreate : ImplicitInterfaces.create_interface module net s = (Ok new, s1)).
  { unfold ImplicitInterfaces.create_interface.
    erewrite bind_run by by apply segments_of_run.
    erewrite bind_run by by apply load_run.
    rewrite Hname. erewrite bind_run by done.
    unfold last_portref. rewrite Hlast. erewrite bind_run by done.
    erewrite bind_run by by eapply resolved_of_run.
    rewrite Hres. unfold ImplicitInterfaces.interface_port_of. cbn [fmap option_fmap option_map].
    erewrite bind_bind_run by by apply load_run.
    rewrite bind_bind_run with (a := s) (s1 := s) by reflexivity.
    erewrite bind_run by reflexivity. cbn [snd]. rewrite Hport.
    erewrite bind_run by by apply load_run.
    unfold new_intfinst, setattr_intfinst, add_interface, get_intfinst, setattr_module,
      load, bind, modify, ret. simpl.
    rewrite !lookup_alter_eq, lookup_insert_eq. simpl.
    f_equal. subst s1. unfold with_heap, upd_modules, upd_intfinsts. simpl.
    f_equal. f_equal. by rewrite !alter_insert_eq. }
  destruct (connect_all_run (CInterface new) net s1)
    as (s' & Hrun & Hm & _ & Hi & _ & Hconn).
  { eapply Forall_impl; [exact Hnet |]. by intros p (j & Hp & Hj); exists j. }
  exists s'. split; [by erewrite bind_run by exact Hcreate |].
  split; [done |]. split; [by rewrite Hi |].
  split; [done |]. split.
  { rewrite Hm. subst s1. simpl. apply map_eq. intros m.
    destruct (decide (module = m)) as [<-|].
    - by rewrite lookup_alter_eq, lookup_insert_eq, Hmod.
    - by rewrite lookup_alter_ne, lookup_insert_ne. }
  split; intros p Hp; rewrite Hconn.
  - by rewrite decide_True.
  - by rewrite decide_False.
Qed.


Lemma connect_net_creates_interface_witness :
  let s := init_state bundle_design in
  let net := [(RInst 31, "io"); (RInst 32, "io")] in
  attached_interfaces (st_heap s) net = [] ∧
  flatname (V:=Attr) (member_segments (st_heap s) net)
    [("m", AInstance 30); ("m2", AInstance 31); ("m3", AInstance 32); ("b", AInterface 21)]
    default_maxlen = Ok "_m2_io_m3_io_" ∧
  ∃ s' new,
    ImplicitInterfaces.connect_net 0 net s = (Ok tt, s') ∧
    h_intfinsts (st_heap s) !! new = None ∧
    h_intfinsts (st_heap s') !! new =
      Some (mkInterfaceInstance "_m2_io_m3_io_" 0 false None [] false) ∧
    (∀ p, p ∈ net → connection (st_heap s') p = Some (CInterface new)).
Proof.
  intros s net. split; [reflexivity |]. split; [reflexivity |].
  destruct (connect_net_creates_interface 0 net s
              (mkModule (Some "P") [] [] [("m", 30); ("m2", 31); ("m3", 32)] [("b", 21)]
                 [("m", AInstance 30); ("m2", AInstance 31); ("m3", AInstance 32);
                  ("b", AInterface 21)] None)
              "_m2_io_m3_io_" 32 "io" (mkInstance "m3" (TModule 1) [] false) 1
              (mkModule (Some "M") [] [] [] [("io", 20)] [("io", AInterface 20)] None)
              20 (mkInterfaceInstance "io" 0 true (Some 1) [] false))
    as (s' & Hrun & Hfresh & Hintfs & _ & _ & Hconn & _);
    try (vm_compute; reflexivity).
  { repeat constructor; eexists; (split; [reflexivity | vm_compute; eauto]). }
  exists s', (fresh (dom (h_intfinsts (st_heap s)))).
  split; [exact Hrun |]. split; [exact Hfresh |].
  split; [by rewrite Hintfs, lookup_insert_eq | exact Hconn].
Defined.


(** ** What a pass leaves alone, however it ends *)

Section run_pass_relation.
Context `{Generators}.

(** A pass, run on a module or, for the passes after the generators, on
    anything, relates the heap it leaves to the heap it found. *)
Lemma run_pass_heap_rel (fuel : nat) (pass_ : ElabPasses) (top : Top) (ctx : Context)
    (h h' : heap) (r : result modid) :
  (pass_ = RUN_GENERATORS →
   no_generator_calls h ∧ ∀ c, top ≠ TopGeneratorCall c) →
  run_pass fuel pass_ top ctx h = (r, h') →
  ∃ s', heap_rel (same_on mod_hier) stays_wf (init_state h) s' ∧ h' = st_heap s'.
Proof.
  intros Hgen Hrun. unfold run_pass in Hrun.
  destruct pass_;
    unfold GeneratorElaborator.elaborate, ImplicitInterfaces.elaborate,
      InterfaceFlattener.elaborate, ImplicitSignals.elaborate,
      GeneratorElaborator.elaborate_top, Elaborator.elaborate_top in Hrun.
  - destruct (Hgen eq_refl) as [Hng Hcall].
    destruct top as [m|c|g|]; try (cbv [raise] in Hrun; injection Hrun as _ <-; eexists; split; [reflexivity | done]).
    + destruct (GeneratorElaborator.elaborate_module ctx fuel m (init_state h))
        as [r1 s1] eqn:H1. injection Hrun as _ <-. exists s1. split; [| done].
      exact (proj1 (hr_generator_pass ctx (same_on mod_hier) fuel) m _ _ _ H1 Hng).
    + by destruct (Hcall c).
  - destruct top as [m|c|g|]; try (cbv [raise] in Hrun; injection Hrun as _ <-; eexists; split; [reflexivity | done]).
    destruct (ImplicitInterfaces.elaborate_module fuel m (init_state h))
      as [r1 s1] eqn:H1. injection Hrun as _ <-. exists s1. split; [| done].
    eapply (hr_implicit_interfaces _ _ (λ _, True)); [.. | exact H1]; try apply _.
    + intros x. apply stays_wf_elaborated.
    + intros x k c _. apply stays_wf_set.
    + by intros i ii x.
    + done.
  - destruct top as [m|c|g|]; try (cbv [raise] in Hrun; injection Hrun as _ <-; eexists; split; [reflexivity | done]).
    destruct (InterfaceFlattener.elaborate_module fuel m (init_state h))
      as [r1 s1] eqn:H1. injection Hrun as _ <-. exists s1. split; [| done].
    by eapply hr_flattener.
  - destruct top as [m|c|g|]; try (cbv [raise] in Hrun; injection Hrun as _ <-; eexists; split; [reflexivity | done]).
    destruct (ImplicitSignals.elaborate_module fuel m (init_state h))
      as [r1 s1] eqn:H1. injection Hrun as _ <-. exists s1. split; [| done].
    eapply (hr_implicit_signals _ _ (λ _, True)); [.. | exact H1]; try apply _.
    + intros x. apply stays_wf_elaborated.
    + intros x k c _. apply stays_wf_set.
    + intros sig sg x. apply same_on_hier_add_signal.
    + done.
Qed.
End run_pass_relation.

(** X7.  The three passes after the generator pass never rename a module,
    never add, remove or reorder an instance of a module, never change what
    an instance is an instance of, never create or delete a module or an
    instance, and never touch a generator call, whether they return or
    raise; and the connections of an instance stay a dictionary.  The
    generator pass is as careful on a module whose design has no instance
    of a generator call. *)
Theorem passes_keep_hierarchy `{Generators} (fuel : nat) (pass_ : ElabPasses)
    (top : Top) (ctx : Context) (h h' : heap) (r : result modid) :
  (pass_ = RUN_GENERATORS →
   no_generator_calls h ∧ ∀ c, top ≠ TopGeneratorCall c) →
  run_pass fuel pass_ top ctx h = (r, h') →
  (∀ m, mod_hier <$> h_modules h' !! m = mod_hier <$> h_modules h !! m) ∧
  (∀ i, inst_of <$> h_instances h' !! i = inst_of <$> h_instances h !! i) ∧
  h_calls h' = h_calls h ∧
  (dicts_wf h → dicts_wf h').
Proof.
  intros Hgen Hrun.
  destruct (run_pass_heap_rel _ _ _ _ _ _ _ Hgen Hrun) as (s' & Hrel & ->).
  pose proof (heap_rel_frame _ _ Hrel) as (Hm & Hi & Hc).
  split; [exact Hm |]. split; [exact Hi |]. split; [exact Hc |].
  exact (stays_dicts_wf _ _ _ Hrel).
Qed.

Lemma passes_keep_hierarchy_witness :
  let run := run_pass (H0:=no_generators) 10 FLATTEN_INTERFACES (TopModule 0) mkContext
               bundle_design in
  run.1 = Ok 0 ∧
  (∀ m, mod_hier <$> h_modules run.2 !! m = mod_hier <$> h_modules bundle_design !! m) ∧
  (∀ i, inst_of <$> h_instances run.2 !! i = inst_of <$> h_instances bundle_design !! i) ∧
  h_calls run.2 = h_calls bundle_design ∧
  (dicts_wf bundle_design → dicts_wf run.2).
Proof.
  intros run. split; [vm_compute; reflexivity |].
  apply (passes_keep_hierarchy (H0:=no_generators) 10 FLATTEN_INTERFACES (TopModule 0)
           mkContext bundle_design run.2 run.1).
  - discriminate.
  - apply surjective_pairing.
Defined.

(** ** What [elaborate] takes and gives back *)

Lemma or_default_cons {A} (x : option (list A)) (a : A) (l : list A) :
  ∃ b l', or_default x (a :: l) = b :: l'.
Proof. destruct x as [[|b l']|]; simpl; eauto. Qed.

(** X8.  When [elaborate] returns, whatever the pass list, it returns a
    Module; called on a Module it returns that very Module, which it has
    elaborated in place. *)
Theorem elaborate_returns_module `{Generators} (fuel : nat) (top : Top)
    (ctx : option Context) (passes : option (list ElabPasses)) (h h' : heap) (r : Top) :
  elaborate fuel top ctx passes h = (Ok r, h') →
  ∃ m, r = TopModule m ∧ ∀ m0, top = TopModule m0 → m = m0.
Proof.
  unfold elaborate. destruct (or_default_cons passes RUN_GENERATORS
    [IMPLICIT_INTERFACES; FLATTEN_INTERFACES; IMPLICIT_SIGNALS]) as (p & ps & Hps).
  change (or_default passes all_passes = p :: ps) in Hps. rewrite Hps.
  cbn [run_passes].
  destruct (run_pass fuel p top _ h) as [[m1|e] h1] eqn:Hp; [| done].
  intros Hrest%run_passes_returns. exists m1. split; [done |].
  intros m0 ->. by apply run_pass_returns in Hp.
Qed.

Lemma elaborate_returns_module_witness :
  ∃ h' m,
    elaborate (H0:=example_generators) 10 (TopGeneratorCall 1) None None generated_design
      = (Ok (TopModule m), h') ∧
    ∀ m0, TopGeneratorCall 1 = TopModule m0 → m = m0.
Proof.
  eexists _, _. split; [vm_compute; reflexivity |].
  destruct (elaborate_returns_module (H0:=example_generators) 10 (TopGeneratorCall 1)
              None None generated_design _ _ ltac:(vm_compute; reflexivity))
    as (m & Hm & Hsame).
  injection Hm as <-. exact Hsame.
Defined.

(** X9.  [elaborate] takes a Module, or a call of a generator when the
    generator pass runs first.  A Generator, though [elabable] accepts it
    and [elab_all] collects it, and any other value are refused with a type
    error by the first pass, whatever the pass list, and so is a call of a
    generator when another pass runs first; the design is not touched. *)
Theorem elaborate_rejects_top `{Generators} (fuel : nat) (ctx : option Context)
    (passes : option (list ElabPasses)) (h : heap) :
  (∀ g, elabable_top (TopGenerator g) = true ∧
        elaborate fuel (TopGenerator g) ctx passes h = (Raise TypeError, h) ∧
        elab_all fuel (PElabable (TopGenerator g)) ctx passes h = (Raise TypeError, h)) ∧
  elaborate fuel TopOther ctx passes h = (Raise TypeError, h) ∧
  (∀ c p ps, p ≠ RUN_GENERATORS →
     elaborate fuel (TopGeneratorCall c) ctx (Some (p :: ps)) h = (Raise TypeError, h)).
Proof.
  assert (Hrej : ∀ top, (∀ m, top ≠ TopModule m) → (∀ c, top ≠ TopGeneratorCall c) →
            elaborate fuel top ctx passes h = (Raise TypeError, h)).
  { intros top Hm Hc. unfold elaborate.
    destruct (or_default_cons passes RUN_GENERATORS
      [IMPLICIT_INTERFACES; FLATTEN_INTERFACES; IMPLICIT_SIGNALS]) as (p & ps & Hps).
    change (or_default passes all_passes = p :: ps) in Hps. rewrite Hps.
    cbn [run_passes]. unfold run_pass.
    destruct top as [m|c|g|]; [by destruct (Hm m) | by destruct (Hc c) | |];
      by destruct p. }
  split; [| split].
  - intros g. split; [done |].
    assert (Hg := Hrej (TopGenerator g) ltac:(done) ltac:(done)).
    split; [exact Hg |]. unfold elab_all. cbn. by rewrite Hg.
  - by apply Hrej.
  - intros c p ps Hp. unfold elaborate. cbn [or_default run_passes]. unfold run_pass.
    by destruct p.
Qed.

(** ** The generator pass checks the whole hierarchy *)

Section generator_checks.
Context `{Generators} (ctx : Context).

#[global] Instance gen_walk_preorder : PreOrder gen_walk.
Proof.
  split.
  - intros s. split; reflexivity.
  - intros s1 s2 s3 [Ha Hb] [Hc Hd]. split; etrans; done.
Qed.

Lemma gen_walk_pass fuel :
  (∀ module, preserves gen_walk (GeneratorElaborator.elaborate_module ctx fuel module)) ∧
  (∀ inst, preserves gen_walk (GeneratorElaborator.elaborate_instance ctx fuel inst)).
Proof.
  destruct (hr_generator_pass ctx (same_on mod_hier) fuel) as [Hm Hi].
  destruct (bk_generator_pass ctx fuel) as (_ & Bm & Bi).
  split; intros x s r s' Hrun; split.
  - exact (Hm x s r s' Hrun).
  - exact (Bm x s r s' Hrun).
  - exact (Hi x s r s' Hrun).
  - exact (Bi x s r s' Hrun).
Qed.

Lemma inst_done_rel (s s' : estate) (done done' : gset nat) i :
  heap_rel (same_on mod_hier) stays_wf s s' → done ⊆ done' →
  (∃ xi, h_instances (st_heap s) !! i = Some xi ∧ plain_target (inst_of xi) ∧
         ∀ c, inst_of xi = TModule c → c ∈ done) →
  ∃ xi, h_instances (st_heap s') !! i = Some xi ∧ plain_target (inst_of xi) ∧
        ∀ c, inst_of xi = TModule c → c ∈ done'.
Proof.
  intros Hr Hsub (xi & Hxi & Hp & Hc).
  destruct (heap_rel_instance _ _ _ _ _ _ Hr Hxi) as (xi' & Hxi' & [Hof _]).
  exists xi'. rewrite Hof. split; [done |]. split; [done |].
  intros c Hc'. apply Hsub. by apply Hc.
Qed.

Lemma hier_done_rel (s s' : estate) (done done' : gset nat) :
  heap_rel (same_on mod_hier) stays_wf s s' → done ⊆ done' →
  ∀ m,
    (∃ x, h_modules (st_heap s) !! m = Some x ∧ named x ∧
      ∀ i, i ∈ dict_values (mod_instances x) →
        ∃ xi, h_instances (st_heap s) !! i = Some xi ∧ plain_target (inst_of xi) ∧
              ∀ c, inst_of xi = TModule c → c ∈ done) →
    ∃ x, h_modules (st_heap s') !! m = Some x ∧ named x ∧
      ∀ i, i ∈ dict_values (mod_instances x) →
        ∃ xi, h_instances (st_heap s') !! i = Some xi ∧ plain_target (inst_of xi) ∧
              ∀ c, inst_of xi = TModule c → c ∈ done'.
Proof.
  intros Hr Hsub m (x & Hx & Hn & Hi).
  destruct (heap_rel_module _ _ _ _ _ _ Hr Hx) as (x' & Hx' & Hh).
  unfold same_on, mod_hier in Hh. injection Hh as Hname Hinst.
  exists x'. split; [done |]. split.
  { destruct Hn as (a & n & Hn). exists a, n. by rewrite Hname. }
  intros i Hin. rewrite Hinst in Hin.
  eapply inst_done_rel; [exact Hr | exact Hsub | by apply Hi].
Qed.

Lemma hier_done_keeps (s s' : estate) :
  heap_rel (same_on mod_hier) stays_wf s s' → st_modules s' = st_modules s →
  hier_done (st_heap s) (st_modules s) → hier_done (st_heap s') (st_modules s').
Proof.
  intros Hr Heq Hd m Hm. rewrite Heq in Hm |- *.
  eapply hier_done_rel; [exact Hr | done | by apply Hd].
Qed.

#[global] Instance keeps_done_preorder : PreOrder (λ s s', gen_walk s s' ∧ keeps_done s s').
Proof.
  split.
  - intros s. split; [reflexivity |]. by intros _ ?.
  - intros s1 s2 s3 [Ha Hb] [Hc Hd]. split; [by etrans |].
    intros Hng H1. apply Hd; [| by apply Hb].
    destruct Ha as [Ha _]. eapply heap_rel_no_generator_calls; [by apply Ha | done].
Qed.

(** An instance the pass has elaborated is an instance of a module done, of
    a primitive or of an external module. *)
Lemma elaborate_instance_target fuel inst (s : estate) t s' :
  no_generator_calls (st_heap s) →
  GeneratorElaborator.elaborate_instance ctx fuel inst s = (Ok t, s') →
  ∃ xi, h_instances (st_heap s') !! inst = Some xi ∧ plain_target (inst_of xi) ∧
        ∀ c, inst_of xi = TModule c → c ∈ st_modules s'.
Proof.
  intros Hng Hrun. destruct fuel as [|fuel]; [done |].
  cbn [GeneratorElaborator.elaborate_instance] in Hrun.
  apply bind_ok in Hrun as ([] & s1 & Hset & Hrun).
  assert (H1 : heap_rel (same_on mod_hier) stays_wf s s1).
  { eapply (hr_setattr_instance _ _ inst _ (λ x, stays_wf_elaborated x true)). exact Hset. }
  assert (Hng1 := heap_rel_no_generator_calls _ _ _ H1 Hng).
  apply bind_ok in Hrun as (xi & s2 & Hget & Hrun).
  unfold get_instance, load in Hget.
  destruct (h_instances (st_heap s1) !! inst) as [xi'|] eqn:Hxi; [| done].
  injection Hget as -> <-.
  destruct (inst_of xi) as [m|c|p|p|] eqn:Hof.
  - apply bind_ok in Hrun as (r & s3 & Hmod & Hret). injection Hret as _ <-.
    destruct (generator_elaborate_module_returns _ _ _ _ _ _ Hmod) as [-> Hin].
    destruct (hr_generator_pass ctx (same_on mod_hier) fuel) as [Hm _].
    destruct (heap_rel_instance _ _ _ _ _ _ (Hm _ _ _ _ Hmod Hng1) Hxi)
      as (xi' & Hxi' & [Hof' _]).
    exists xi'. rewrite Hof', Hof. split; [done |]. split; [by split |].
    by intros c [= <-].
  - by destruct (Hng1 _ _ Hxi c).
  - unfold Elaborator.elaborate_primitive_call in Hrun. injection Hrun as _ <-.
    exists xi. rewrite Hof. split; [done |]. split; [by split | done].
  - unfold Elaborator.elaborate_external_module in Hrun. injection Hrun as _ <-.
    exists xi. rewrite Hof. split; [done |]. split; [by split | done].
  - done.
Qed.
End generator_checks.

Section generator_done.
Context `{Generators} (ctx : Context).

Lemma interface_instances_keep (l : list intfid) (s : estate) r s' :
  for_each l Elaborator.elaborate_interface_instance s = (r, s') →
  st_modules s' = st_modules s ∧ heap_rel (same_on mod_hier) stays_wf s s'.
Proof.
  revert s. induction l as [|i l IH]; intros s Hrun; simpl in Hrun.
  - injection Hrun as <- <-. split; [done | reflexivity].
  - apply bind_inv in Hrun as [([] & s1 & Hi & Hrun)|(e & Hi & ->)].
    + destruct (IH _ Hrun) as [Heq Hr].
      assert (H1 : heap_rel (same_on mod_hier) stays_wf s s1)
        by exact (hr_setattr_intfinst _ _ _ _ _ _ _ Hi).
      injection Hi as <-. split; [by rewrite Heq | by etrans].
    + done.
Qed.

Lemma done_generator_pass fuel :
  (∀ module, preserves keeps_done (GeneratorElaborator.elaborate_module ctx fuel module)) ∧
  (∀ inst, preserves keeps_done (GeneratorElaborator.elaborate_instance ctx fuel inst)).
Proof.
  induction fuel as [|fuel [IHmod IHinst]].
  { split; intros x s r s' Hrun; cbn in Hrun; injection Hrun as <- <-; by intros _ ?. }
  assert (Hbody : ∀ inst : instid,
            preserves (λ s s', gen_walk s s' ∧ keeps_done s s')
              (GeneratorElaborator.elaborate_instance ctx fuel inst ;; ret tt)%elab).
  { intros inst s r s' Hrun.
    apply bind_inv in Hrun as [(a & s1 & Hi & [= <- <-])|(e & Hi & ->)];
      (split; [exact (proj2 (gen_walk_pass ctx fuel) inst _ _ _ Hi)
              | exact (IHinst inst _ _ _ Hi)]). }
  split.
  - intros module s r s' Hrun Hng Hd.
    cbn [GeneratorElaborator.elaborate_module] in Hrun. rewrite bind_get in Hrun.
    case_bool_decide as Hin; [by injection Hrun as <- <- |].
    apply bind_inv in Hrun as [([] & s0 & Hv & Hrun)|(e & Hv & ->)]; [| done].
    injection Hv as <-.
    apply bind_inv in Hrun as [(x0 & s0' & Hget & Hrun)|(e & Hget & ->)];
      unfold get_module, load in Hget; simpl in Hget;
      destruct (h_modules (st_heap s) !! module) as [x|] eqn:Hx; try done;
      injection Hget as <- <-; [| exact Hd].
    destruct (mod_name x) as [[|a n]|] eqn:Hname;
      [injection Hrun as <- <-; exact Hd | | injection Hrun as <- <-; exact Hd].
    apply bind_inv in Hrun as [([] & s1 & Hloop & Hrun)|(e & Hloop & ->)].
    2: { by apply (preserves_for_each _ _ _ _ (λ i _, Hbody i) _ _ _ Hloop). }
    pose proof (preserves_for_each _ _ _ _ (λ i _, Hbody i) _ _ _ Hloop) as [[W01 B01] D01].
    specialize (W01 Hng). specialize (D01 Hng Hd).
    apply bind_inv in Hrun as [(x1' & s1' & Hget & Hrun)|(e & Hget & ->)];
      unfold get_module, load in Hget;
      destruct (h_modules (st_heap s1) !! module) as [x1|] eqn:Hx1; try done;
      injection Hget as <- <-; [| exact D01].
    apply bind_inv in Hrun as [([] & s2 & Hintf & Hrun)|(e & Hintf & ->)];
      destruct (interface_instances_keep _ _ _ _ Hintf) as [Heq H12].
    2: { by apply (hier_done_keeps s1). }
    assert (D2 := hier_done_keeps _ _ H12 Heq D01).
    apply bind_inv in Hrun as [([] & s3 & Hmark & Hrun)|(e & Hmark & ->)]; [| done].
    injection Hmark as <-. injection Hrun as _ <-. simpl.
    intros m' [->%elem_of_singleton|Hm']%elem_of_union.
    + assert (H02 : heap_rel (same_on mod_hier) stays_wf
                      (mkState _ (st_heap s) (st_generator_calls s) (st_modules s)
                         (st_replacements s) (st_trace s ++ [module])) s2)
        by (by etrans).
      destruct (heap_rel_module _ _ _ _ _ _ H02 Hx) as (x2 & Hx2 & Hh).
      unfold same_on, mod_hier in Hh. injection Hh as Hname2 Hinst2.
      exists x2. split; [done |]. split; [exists a, n; by rewrite Hname2 |].
      intros i Hi. rewrite Hinst2 in Hi.
      destruct (for_each_ok_elem _ _ _ _ _ _ _ (λ i _, Hbody i) Hloop i Hi)
        as (sa & sb & [[Wa _] _] & Hrun & [[Wb [Bb _]] _]).
      specialize (Wa Hng).
      assert (Hnga := heap_rel_no_generator_calls _ _ _ Wa Hng).
      apply bind_ok in Hrun as (t & sb' & Hrun & [= ->]).
      assert (Hngb : no_generator_calls (st_heap sb)).
      { eapply heap_rel_no_generator_calls; [| exact Hnga].
        exact (proj1 (proj2 (gen_walk_pass ctx fuel) i _ _ _ Hrun) Hnga). }
      eapply (inst_done_rel sb s2 (st_modules sb)).
      * etrans; [exact (Wb Hngb) | exact H12].
      * rewrite Heq. intros c Hc. apply elem_of_union. right. by apply Bb.
      * exact (elaborate_instance_target ctx fuel i sa t sb Hnga Hrun).
    + eapply (hier_done_rel s2 s2 (st_modules s2)); [reflexivity | | by apply D2]; intros c Hc; apply elem_of_union; by right.
  - intros inst s r s' Hrun Hng Hd.
    cbn [GeneratorElaborator.elaborate_instance] in Hrun.
    apply bind_inv in Hrun as [([] & s1 & Hset & Hrun)|(e & Hset & ->)]; [| done].
    assert (H1 : heap_rel (same_on mod_hier) stays_wf s s1).
    { eapply (hr_setattr_instance _ _ inst _ (λ x, stays_wf_elaborated x true)). exact Hset. }
    assert (Hng1 := heap_rel_no_generator_calls _ _ _ H1 Hng).
    assert (D1 : hier_done (st_heap s1) (st_modules s1)).
    { apply (hier_done_keeps s); [done | by injection Hset as <- | done]. }
    clear Hset.
    apply bind_inv in Hrun as [(xi0 & s1' & Hget & Hrun)|(e & Hget & ->)];
      unfold get_instance, load in Hget;
      destruct (h_instances (st_heap s1) !! inst) as [xi|] eqn:Hxi; try done;
      injection Hget as <- <-; [| exact D1].
    destruct (inst_of xi) as [m|c|p|p|] eqn:Hof.
    + apply bind_inv in Hrun as [(r0 & s2 & Hmod & [= <- <-])|(e & Hmod & ->)];
        exact (IHmod m _ _ _ Hmod Hng1 D1).
    + by destruct (Hng1 _ _ Hxi c).
    + unfold Elaborator.elaborate_primitive_call in Hrun. by injection Hrun as _ <-.
    + unfold Elaborator.elaborate_external_module in Hrun. by injection Hrun as _ <-.
    + by injection Hrun as _ <-.
Qed.
End generator_done.

Section hierarchy_checked.
Context `{Generators}.

(** The generator pass leaves a table of checked modules with the top in
    it. *)
Lemma generator_pass_done (fuel : nat) (m : modid) (ctx : Context) (h h' : heap) r :
  no_generator_calls h →
  run_pass fuel RUN_GENERATORS (TopModule m) ctx h = (Ok r, h') →
  ∃ done : gset nat, m ∈ done ∧ hier_done h' done.
Proof.
  intros Hng Hrun. unfold run_pass in Hrun.
  unfold GeneratorElaborator.elaborate, GeneratorElaborator.elaborate_top in Hrun.
  destruct (GeneratorElaborator.elaborate_module ctx fuel m (init_state h))
    as [r1 s1] eqn:H1. injection Hrun as -> <-.
  exists (st_modules s1). split; [by eapply generator_elaborate_module_returns |].
  apply (proj1 (done_generator_pass ctx fuel) m _ _ _ H1 Hng).
  intros m' Hm'. simpl in Hm'. by apply elem_of_empty in Hm'.
Qed.

(** The passes that follow keep it one. *)
Lemma run_passes_done (fuel : nat) (ctx : Context) (passes : list ElabPasses) :
  ∀ (m : modid) (h h' : heap) (r : Top) (done : gset nat),
    no_generator_calls h → hier_done h done →
    run_passes fuel passes (TopModule m) ctx h = (Ok r, h') →
    hier_done h' done.
Proof.
  induction passes as [|p passes IH]; intros m h h' r done Hng Hd; cbn [run_passes].
  - by intros [= _ <-].
  - destruct (run_pass fuel p (TopModule m) ctx h) as [[m1|] h1] eqn:Hpass; [| done].
    destruct (run_pass_heap_rel fuel p (TopModule m) ctx h h1 (Ok m1)) as (s1 & H1 & ->);
      [by intros _ | exact Hpass |].
    apply run_pass_returns in Hpass as ->.
    apply IH.
    + exact (heap_rel_no_generator_calls _ _ _ H1 Hng).
    + intros m' Hm'.
      by apply (hier_done_rel (init_state h) s1 done done H1 (reflexivity _) m'), Hd.
Qed.

Lemma run_passes_checked (fuel : nat) (ctx : Context) (passes : list ElabPasses) :
  ∀ (m : modid) (h h' : heap) (r : Top),
    no_generator_calls h → RUN_GENERATORS ∈ passes →
    run_passes fuel passes (TopModule m) ctx h = (Ok r, h') →
    ∃ done : gset nat, m ∈ done ∧ hier_done h' done.
Proof.
  induction passes as [|p passes IH]; intros m h h' r Hng Hin; cbn [run_passes].
  { by apply elem_of_nil in Hin. }
  destruct (run_pass fuel p (TopModule m) ctx h) as [[m1|] h1] eqn:Hpass; [| done].
  destruct (run_pass_heap_rel fuel p (TopModule m) ctx h h1 (Ok m1)) as (s1 & H1 & ->);
    [by intros _ | exact Hpass |].
  assert (Hng1 := heap_rel_no_generator_calls _ _ _ H1 Hng).
  pose proof (run_pass_returns _ _ _ _ _ _ _ Hpass) as ->.
  intros Hrest.
  apply elem_of_cons in Hin as [<-|Hin].
  - destruct (generator_pass_done _ _ _ _ _ _ Hng Hpass) as (done & Hm & Hd).
    exists done. split; [done |]. by eapply run_passes_done.
  - by eapply IH.
Qed.

(** What a table of checked modules says of the hierarchy. *)
Lemma hier_done_reachable (h : heap) (done : gset nat) (m m' : modid) :
  hier_done h done → m ∈ done → reachable h m m' → m' ∈ done.
Proof.
  intros Hd Hm Hreach. induction Hreach as [|m c m' Hchild _ IH]; [done |].
  apply IH. destruct Hchild as (x & i & xi & Hx & Hi & Hxi & Hres).
  destruct (Hd m Hm) as (x' & Hx' & _ & Hinst).
  rewrite Hx in Hx'. injection Hx' as <-.
  destruct (Hinst i Hi) as (xi' & Hxi' & [Ho Hc] & Hin).
  rewrite Hxi in Hxi'. injection Hxi' as <-.
  apply Hin. unfold _resolved in Hres.
  destruct (inst_of xi) as [m0|c0|p|p|]; try done.
  - by injection Hres as ->.
  - by destruct (Hc c0).
Qed.
End hierarchy_checked.

(** X10.  On a design without instances of generator calls, when
    [elaborate] returns and the generator pass was one of its passes, every
    module of the hierarchy under the top has a name that is not empty, and
    every instance in it is in the heap and is an instance of a module, a
    primitive or an external module: an anonymous module anywhere in the
    hierarchy makes the elaboration fail. *)
Theorem elaborate_checks_hierarchy `{Generators} (fuel : nat) (m : modid)
    (ctx : option Context) (passes : option (list ElabPasses)) (h h' : heap) (r : Top) :
  no_generator_calls h →
  RUN_GENERATORS ∈ or_default passes all_passes →
  elaborate fuel (TopModule m) ctx passes h = (Ok r, h') →
  ∀ m', reachable h' m m' →
    ∃ x, h_modules h' !! m' = Some x ∧ named x ∧
      ∀ i, i ∈ dict_values (mod_instances x) →
        ∃ xi, h_instances h' !! i = Some xi ∧ plain_target (inst_of xi).
Proof.
  intros Hng Hin Hrun m' Hreach. unfold elaborate in Hrun.
  destruct (run_passes_checked _ _ _ _ _ _ _ Hng Hin Hrun) as (done & Hm & Hd).
  destruct (Hd m' (hier_done_reachable _ _ _ _ Hd Hm Hreach)) as (x & Hx & Hn & Hi).
  exists x. split; [done |]. split; [done |].
  intros i Hi'. destruct (Hi i Hi') as (xi & Hxi & Hp & _). eauto.
Qed.

Lemma bundle_design_gen_free : no_generator_calls bundle_design.
Proof.
  intros i x Hx c Hof. apply elem_of_list_to_map_2 in Hx.
  repeat (apply elem_of_cons in Hx as [Heq|Hx]; [by simplify_eq |]).
  by apply elem_of_nil in Hx.
Qed.

Lemma elaborate_checks_hierarchy_witness :
  let run := elaborate (H0:=no_generators) 10 (TopModule 0) None None bundle_design in
  no_generator_calls bundle_design ∧
  RUN_GENERATORS ∈ or_default None all_passes ∧
  run.1 = Ok (TopModule 0) ∧
  ∀ m', reachable run.2 0 m' →
    ∃ x, h_modules run.2 !! m' = Some x ∧ named x ∧
      ∀ i, i ∈ dict_values (mod_instances x) →
        ∃ xi, h_instances run.2 !! i = Some xi ∧ plain_target (inst_of xi).
Proof.
  intros run.
  assert (Hin : RUN_GENERATORS ∈ or_default None all_passes) by (simpl; left).
  assert (Hrun : run.1 = Ok (TopModule 0)) by (vm_compute; reflexivity).
  split; [exact bundle_design_gen_free |]. split; [exact Hin |]. split; [exact Hrun |].
  apply (elaborate_checks_hierarchy (H0:=no_generators) 10 0 None None bundle_design
           run.2 (TopModule 0) bundle_design_gen_free Hin).
  rewrite <- Hrun. apply surjective_pairing.
Defined.

(** ** [flatten_interface] makes its own signals *)

Section dict_more.
Context {K V : Type} `{EqDecision K}.

Lemma dict_get_app (k : K) (a b : list (K * V)) :
  dict_get k (a ++ b) = match dict_get k a with Some v => Some v | None => dict_get k b end.
Proof.
  induction a as [|[k0 v0] a IH]; simpl; [done |].
  rewrite !dict_get_cons. by case_decide.
Qed.

Lemma dict_get_None_keys (k : K) (d : list (K * V)) : dict_get k d = None ↔ k ∉ dict_keys d.
Proof. rewrite <- dict_get_Some_keys, eq_None_not_Some. done. Qed.

Lemma dict_values_set_elem (k : K) (v v' : V) (d : list (K * V)) :
  v' ∈ dict_values (dict_set k v d) → v' = v ∨ v' ∈ dict_values d.
Proof.
  unfold dict_values. induction d as [|[k0 v0] d IH]; simpl.
  - intros Hin. apply list_elem_of_singleton in Hin. by left.
  - destruct (decide (k0 = k)) as [->|Hne]; simpl; rewrite !elem_of_cons.
    + intros [->|Hin]; [by left | right; by right].
    + intros [->|Hin]; [right; by left |]. destruct (IH Hin); [by left | right; by right].
Qed.
End dict_more.

Section signals_added_facts.
Context `{GenArgs}.

#[global] Instance signals_added_preorder : PreOrder signals_added.
Proof.
  split.
  - intros [[] ? ? ? ?]. split; [reflexivity | done].
  - intros s1 s2 s3 [E12 S12] [E23 S23]. split; [| by etrans].
    rewrite E23 at 1. rewrite E12 at 1. reflexivity.
Qed.

Lemma load_inv {A} (sel : heap → gmap nat A) i (s : estate) a s' :
  load sel i s = (Ok a, s') → s' = s ∧ sel (st_heap s) !! i = Some a.
Proof. unfold load. destruct (sel (st_heap s) !! i); [| done]. by intros [= -> ->]. Qed.

Lemma new_signal_added (y : Signal) (s : estate) c s' :
  new_signal y s = (Ok c, s') →
  signals_added s s' ∧ h_signals (st_heap s) !! c = None ∧
  h_signals (st_heap s') !! c = Some y.
Proof.
  unfold new_signal. intros [= <- <-].
  assert (Hc : h_signals (st_heap s) !! fresh (dom (h_signals (st_heap s))) = None).
  { apply not_elem_of_dom, is_fresh. }
  split; [split |]; simpl.
  - reflexivity.
  - by apply insert_subseteq.
  - split; [done | by rewrite lookup_insert_eq].
Qed.

(** Writing to a signal made since [s0] leaves the signals of [s0] alone. *)
Lemma setattr_signal_added (s0 s : estate) c f s' :
  signals_added s0 s → h_signals (st_heap s0) !! c = None →
  setattr_signal c f s = (Ok tt, s') →
  signals_added s0 s' ∧
  (∀ i, i ≠ c → h_signals (st_heap s') !! i = h_signals (st_heap s) !! i) ∧
  (∀ i, is_Some (h_signals (st_heap s) !! i) → is_Some (h_signals (st_heap s') !! i)).
Proof.
  intros [E S] Hc [= <-]. split; [split |]; simpl.
  - rewrite E at 1. reflexivity.
  - apply map_subseteq_spec. intros i y Hi.
    rewrite lookup_alter_ne by (intros ->; congruence).
    by eapply lookup_weaken.
  - split.
    + intros i Hi. by rewrite lookup_alter_ne.
    + intros i Hi. destruct (decide (c = i)) as [->|Hne].
      * rewrite lookup_alter_eq. destruct Hi as [y ->]. by eexists.
      * by rewrite lookup_alter_ne.
Qed.
End signals_added_facts.

Section flatten_copies.
Context `{GenArgs}.

Lemma made_since_later (s s1 s2 : estate) c :
  signals_added s1 s2 → made_since s s1 c → made_since s s2 c.
Proof.
  intros [_ Hsub] [Hnew [y Hy]]. split; [done |]. exists y. by eapply lookup_weaken.
Qed.

Lemma made_since_earlier (s s1 s2 : estate) c :
  signals_added s s1 → made_since s1 s2 c → made_since s s2 c.
Proof.
  intros [_ Hsub] [Hnew Hy]. split; [| done].
  destruct (h_signals (st_heap s) !! c) as [y|] eqn:Hc; [| done].
  by rewrite (lookup_weaken _ _ _ _ Hc Hsub) in Hnew.
Qed.

Lemma copy_of_later (s s1 s2 : estate) sig c :
  signals_added s1 s2 → copy_of s s1 sig c → copy_of s s2 sig c.
Proof.
  intros Hadd [Hm Hy]. split; [by eapply made_since_later |].
  intros y Hsig. destruct Hadd as [_ Hsub]. eapply lookup_weaken; [by apply Hy | done].
Qed.

Lemma copied_later (s s1 s2 : estate) d out :
  signals_added s1 s2 → copied s s1 d out → copied s s2 d out.
Proof.
  intros Hadd (Hk & Hget & Hval). split; [done |]. split.
  - intros k sig Hd. destruct (Hget k sig Hd) as (c & ? & ?).
    exists c. split; [done |]. by eapply copy_of_later.
  - intros c Hc. eapply made_since_later; [done | by apply Hval].
Qed.

(** One more key of the dictionary, with its copy. *)
Lemma copied_snoc (s s' : estate) d out k sig c :
  copied s s' d out → copy_of s s' sig c →
  copied s s' (d ++ [(k, sig)]) (out ++ [(k, c)]).
Proof.
  intros (Hk & Hget & Hval) Hc. split; [| split].
  - unfold dict_keys in *. by rewrite !fmap_app, Hk.
  - intros k' sig'. rewrite !dict_get_app.
    destruct (dict_get k' d) as [sig0|] eqn:Hd.
    + intros [= <-]. destruct (Hget k' sig0 Hd) as (c0 & -> & ?). by exists c0.
    + assert (dict_get k' out = None) as ->.
      { apply dict_get_None_keys. rewrite Hk. by apply dict_get_None_keys. }
      rewrite !dict_get_cons. case_decide; [| done]. intros [= <-]. by exists c.
  - intros c'. unfold dict_values. rewrite fmap_app, elem_of_app. intros [Hin|Hin].
    + by apply Hval.
    + apply list_elem_of_singleton in Hin. subst c'. apply Hc.
Qed.

Lemma deepcopy_fold (s0 : estate) (l : dict string sigid) :
  ∀ (pre out : dict string sigid) (memo : dict sigid sigid) (s : estate) acc' s',
    signals_added s0 s →
    copied s0 s pre out →
    (∀ o c, dict_get o memo = Some c → copy_of s0 s o c) →
    fold_each l
      (fun (acc : dict string sigid * dict sigid sigid) kv =>
         match dict_get kv.2 acc.2 with
         | Some c => ret (acc.1 ++ [(kv.1, c)], acc.2)
         | None =>
             let* s := get_signal kv.2 in
             let* c := new_signal s in
             ret (acc.1 ++ [(kv.1, c)], acc.2 ++ [(kv.2, c)])
         end)%elab
      (out, memo) s = (Ok acc', s') →
    signals_added s0 s' ∧ copied s0 s' (pre ++ l) acc'.1.
Proof.
  induction l as [|[k o] l IH]; intros pre out memo s acc' s' Hadd Hcop Hmemo Hrun;
    simpl in Hrun.
  { injection Hrun as <- <-. by rewrite app_nil_r. }
  apply bind_ok in Hrun as (acc1 & s1 & Hstep & Hrun). simpl in Hstep.
  rewrite (cons_middle (k, o) pre l), app_assoc.
  destruct (dict_get o memo) as [c|] eqn:Hhit.
  - injection Hstep as <- <-.
    apply (IH (pre ++ [(k, o)]) _ _ _ _ _ Hadd) in Hrun; [done | | done].
    apply copied_snoc; [done | by apply Hmemo].
  - apply bind_ok in Hstep as (y0 & s2 & [-> Hy0]%load_inv & Hstep).
    apply bind_ok in Hstep as (c & s3 & Hnew & [= <- <-]).
    apply new_signal_added in Hnew as (Hadd1 & Hfresh & Hc).
    assert (Hadd01 : signals_added s0 s3) by (by etrans).
    assert (Hcopy : copy_of s0 s3 o c).
    { split; [split |].
      - destruct (h_signals (st_heap s0) !! c) as [y|] eqn:Hc0; [| done].
        by rewrite (lookup_weaken _ _ _ _ Hc0 (proj2 Hadd)) in Hfresh.
      - by eexists.
      - intros y Hy. rewrite (lookup_weaken _ _ _ _ Hy (proj2 Hadd)) in Hy0.
        by injection Hy0 as <-. }
    apply (IH (pre ++ [(k, o)]) _ _ _ _ _ Hadd01) in Hrun; [done | |].
    + apply copied_snoc; [exact (copied_later _ _ _ _ _ Hadd1 Hcop) | done].
    + intros o' c'. rewrite dict_get_app.
      destruct (dict_get o' memo) as [c0|] eqn:Hm.
      * intros [= <-]. exact (copy_of_later _ _ _ _ _ Hadd1 (Hmemo _ _ Hm)).
      * rewrite dict_get_cons. case_decide; [| done]. intros [= <-]. by subst o'.
Qed.

Lemma deepcopy_signals_copies (d : dict string sigid) (s : estate) out s' :
  InterfaceFlattener.deepcopy_signals d s = (Ok out, s') →
  signals_added s s' ∧ copied s s' d out.
Proof.
  unfold InterfaceFlattener.deepcopy_signals. intros Hrun.
  apply bind_ok in Hrun as (acc & s1 & Hfold & [= <- <-]).
  apply (deepcopy_fold s d [] [] [] s) in Hfold; [done | reflexivity | | done].
  split; [done |]. split; [done |]. by intros c ?%elem_of_nil.
Qed.

(** Merging the signals of a nested bundle, all made since [s0], renames
    them and nothing else, and adds them under new keys. *)
Lemma merge_fold (s0 : estate) (iname : string) (vals : list sigid) :
  ∀ (sigs : dict string sigid) (s : estate) sigs' s',
    signals_added s0 s →
    (∀ c, c ∈ vals → made_since s0 s c) →
    fold_each vals (InterfaceFlattener.merge_nested iname) sigs s = (Ok sigs', s') →
    signals_added s0 s' ∧
    (∀ i, is_Some (h_signals (st_heap s) !! i) → is_Some (h_signals (st_heap s') !! i)) ∧
    (∀ k, k ∈ dict_keys sigs → dict_get k sigs' = dict_get k sigs) ∧
    (∀ c, c ∈ dict_values sigs' → c ∈ dict_values sigs ∨ c ∈ vals).
Proof.
  induction vals as [|c vals IH]; intros sigs s sigs' s' Hadd Hvals Hrun; simpl in Hrun.
  { injection Hrun as <- <-. split; [done |]. split; [done |]. split; [done |]. by left. }
  apply bind_ok in Hrun as (sigs1 & s1 & Hstep & Hrun).
  unfold InterfaceFlattener.merge_nested in Hstep.
  apply bind_ok in Hstep as (y & s2 & [-> Hy]%load_inv & Hstep).
  apply bind_ok in Hstep as (signame & s2 & [-> Hname]%lift_result_inv & Hstep).
  apply bind_ok in Hstep as ([] & s2 & Hset & [= <- <-]).
  symmetry in Hname. apply flatname_ok_free in Hname.
  destruct (Hvals c) as [Hc0 _]; [by left |].
  destruct (setattr_signal_added s0 s c _ _ Hadd Hc0 Hset) as (Hadd1 & _ & Hdom).
  assert (Hvals1 : ∀ c', c' ∈ vals → made_since s0 s2 c').
  { intros c' Hc'. destruct (Hvals c') as [? ?]; [by right |]. split; [done | by apply Hdom]. }
  destruct (IH _ _ _ _ Hadd1 Hvals1 Hrun) as (Hadd' & Hdom' & Hkeys & Hvals').
  split; [done |]. split; [by intros i Hi; apply Hdom', Hdom |]. split.
  - intros k Hk. rewrite Hkeys by (by apply dict_set_keys_mono).
    rewrite dict_get_set. case_decide; [by subst k | done].
  - intros c' Hc'. destruct (Hvals' c' Hc') as [Hin|Hin]; [| right; by right].
    apply dict_values_set_elem in Hin as [->|Hin]; [right; by left | by left].
Qed.
End flatten_copies.

Section flatten_interface_spec.
Context `{GenArgs}.

Lemma nested_fold (fuel : nat) (l : list intfid) :
  (∀ intf s flat s',
     InterfaceFlattener.flatten_interface fuel intf s = (Ok flat, s') →
     signals_added s s' ∧ ∀ c, c ∈ dict_values (flat_signals flat) → made_since s s' c) →
  ∀ (sigs : dict string sigid) (s : estate) sigs' s',
    fold_each l
      (fun signals i =>
         let* iflat := InterfaceFlattener.flatten_interface fuel i in
         let* ii := get_intfinst i in
         fold_each (dict_values (flat_signals iflat))
           (InterfaceFlattener.merge_nested (intf_name ii)) signals)%elab
      sigs s = (Ok sigs', s') →
    signals_added s s' ∧
    (∀ c, c ∈ dict_values sigs' → c ∈ dict_values sigs ∨ made_since s s' c) ∧
    (∀ k, k ∈ dict_keys sigs → dict_get k sigs' = dict_get k sigs).
Proof.
  intros Hflat. induction l as [|i l IH]; intros sigs s sigs' s' Hrun; simpl in Hrun.
  { injection Hrun as <- <-. split; [reflexivity |]. split; [by left | done]. }
  apply bind_ok in Hrun as (sigs1 & s1 & Hstep & Hrun).
  apply bind_ok in Hstep as (iflat & sa & Hi & Hstep).
  apply bind_ok in Hstep as (ii & sa' & [-> _]%load_inv & Hstep).
  destruct (Hflat _ _ _ _ Hi) as [Hadd Hvals].
  destruct (merge_fold s _ _ _ _ _ _ Hadd Hvals Hstep) as (Hadd1 & Hdom & Hkeys & Hvals1).
  destruct (IH _ _ _ _ Hrun) as (Hadd' & Hvals' & Hkeys').
  split; [by etrans |]. split.
  - intros c Hc. destruct (Hvals' c Hc) as [Hin|Hnew].
    + destruct (Hvals1 c Hin) as [?|Hin']; [by left | right].
      destruct (Hvals c Hin') as [Hc0 Hc1]. split; [done |].
      destruct (Hdom c Hc1) as [y Hy]. exists y.
      eapply lookup_weaken; [done | apply Hadd'].
    + right. by eapply made_since_earlier.
  - intros k Hk. rewrite Hkeys'; [by apply Hkeys |].
    apply dict_get_Some_keys. rewrite Hkeys by done. by apply dict_get_Some_keys.
Qed.
End flatten_interface_spec.

(** X11.  When [flatten_interface] returns, the flat bundle bears the name
    of the bundle instance and has its bundle as source, and its signals are
    objects it has made itself: none of them was there before, no signal
    that was there has changed, and nothing but signals has been made.  Each
    scalar signal of the bundle is in the flat bundle under its own name, as
    a copy that has its attributes. *)
Theorem flatten_interface_copies `{GenArgs} (fuel : nat) (intf : intfid) (s : estate)
    (flat : FlatInterfaceInst) (s' : estate) :
  InterfaceFlattener.flatten_interface fuel intf s = (Ok flat, s') →
  ∃ x ifc,
    h_intfinsts (st_heap s) !! intf = Some x ∧
    h_interfaces (st_heap s) !! intf_of x = Some ifc ∧
    flat_inst_name flat = intf_name x ∧ flat_src flat = intf_of x ∧
    signals_added s s' ∧
    (∀ c, c ∈ dict_values (flat_signals flat) → made_since s s' c) ∧
    (∀ k sig, dict_get k (ifc_signals ifc) = Some sig →
       ∃ c, dict_get k (flat_signals flat) = Some c ∧ copy_of s s' sig c).
Proof.
  revert intf s flat s'. induction fuel as [|fuel IH]; intros intf s flat s' Hrun; [done |].
  cbn [InterfaceFlattener.flatten_interface] in Hrun.
  apply bind_ok in Hrun as (x & s1 & [-> Hx]%load_inv & Hrun).
  apply bind_ok in Hrun as (ifc & s1 & [-> Hifc]%load_inv & Hrun).
  apply bind_ok in Hrun as (out & s1 & Hcopy & Hrun).
  apply bind_ok in Hrun as (sigs & s2 & Hnested & [= <- <-]).
  apply deepcopy_signals_copies in Hcopy as [Hadd (Hkeys & Hget & Hvals)].
  apply nested_fold in Hnested as (Hadd' & Hvals' & Hkeys').
  2: { intros i sa fl sb Hi. destruct (IH _ _ _ _ Hi) as (? & ? & _ & _ & _ & _ & ? & ? & _).
       done. }
  exists x, ifc. simpl. repeat (split; [done |]).
  split; [by etrans |]. split.
  - intros c Hc. destruct (Hvals' c Hc) as [Hin|Hnew].
    + eapply made_since_later; [done | by apply Hvals].
    + by eapply made_since_earlier.
  - intros k sig Hk. destruct (Hget k sig Hk) as (c & Hc & Hcp).
    exists c. split; [| by eapply copy_of_later].
    rewrite Hkeys'; [done |]. apply dict_get_Some_keys. by rewrite Hc.
Qed.

Lemma flatten_interface_copies_witness :
  let s := init_state nested_bundle_design in
  let run := InterfaceFlattener.flatten_interface 5 23 s in
  ∃ flat,
    run.1 = Ok flat ∧
    dict_keys (flat_signals flat) = ["clk"; "_d_p_"; "_d_n_"] ∧
    ∃ x ifc,
      h_intfinsts (st_heap s) !! 23 = Some x ∧
      h_interfaces (st_heap s) !! intf_of x = Some ifc ∧
      flat_inst_name flat = intf_name x ∧ flat_src flat = intf_of x ∧
      signals_added s run.2 ∧
      (∀ c, c ∈ dict_values (flat_signals flat) → made_since s run.2 c) ∧
      (∀ k sig, dict_get k (ifc_signals ifc) = Some sig →
         ∃ c, dict_get k (flat_signals flat) = Some c ∧ copy_of s run.2 sig c).
Proof.
  intros s run.
  assert (Hrun : ∃ flat, run.1 = Ok flat ∧
                         dict_keys (flat_signals flat) = ["clk"; "_d_p_"; "_d_n_"]).
  { eexists. split; vm_compute; reflexivity. }
  destruct Hrun as (flat & Hrun & Hkeys). exists flat.
  split; [exact Hrun |]. split; [exact Hkeys |].
  apply (flatten_interface_copies 5 23 s flat run.2).
  rewrite <- Hrun. apply surjective_pairing.
Defined.

(** ** The shorting error of the implicit-interfaces pass *)

Section interface_shorting_unreachable.
Context `{GenArgs}.

Lemma reads_load {A} (sel : heap → gmap nat A) i : preserves eq (load sel i).
Proof. intros s r s'. unfold load. destruct (sel (st_heap s) !! i); by intros [= <- <-]. Qed.

Lemma other_port_reads conn : preserves eq (ImplicitInterfaces.other_port conn).
Proof.
  unfold ImplicitInterfaces.other_port, resolved_of.
  repeat first [pres_structure | apply reads_load].
Qed.

Lemma ns_new_intfinst x : never_shorts (new_intfinst x).
Proof. by intros s r s' Hwf [= <- <-]. Qed.

Lemma interface_portconns_held inst x pc (s : estate) pc' s' :
  NoDup (dict_keys pc) →
  ImplicitInterfaces.instance_portconns inst x pc s = (Ok pc', s') →
  s' = s ∧ NoDup (dict_keys pc') ∧
  ∀ k, k ∈ dict_keys pc' →
       k ∈ dict_keys pc ∨
       ∃ port pr, k = (RInst inst, port) ∧ (port, CPortRef pr) ∈ inst_conns x.
Proof.
  unfold ImplicitInterfaces.instance_portconns. generalize (inst_conns x). intros l.
  revert pc. induction l as [|[port c] l IH]; intros pc Hnd Hrun; simpl in Hrun.
  { injection Hrun as <- <-. split; [done |]. split; [done | by left]. }
  apply bind_ok in Hrun as (pc1 & s1 & Hstep & Hrun). simpl in Hstep.
  assert (Hpc1 : s1 = s ∧ NoDup (dict_keys pc1) ∧
            ∀ k, k ∈ dict_keys pc1 →
                 k ∈ dict_keys pc ∨ ∃ pr, k = (RInst inst, port) ∧ c = CPortRef pr).
  { destruct c as [sg|conn|ii|]; try (injection Hstep as <- <-; split; [done |];
                                       split; [done | by left]).
    apply bind_ok in Hstep as (o & s2 & Ho & Hstep).
    apply other_port_reads in Ho as <-.
    destruct o as [[[]|]|]; try done;
      try (injection Hstep as <- <-; split; [done |]; split; [done | by left]).
    injection Hstep as <- <-. split; [done |]. split; [by apply dict_set_NoDup |].
    intros k [->|?]%dict_set_keys_elem; [right; by exists conn | by left]. }
  destruct Hpc1 as (-> & Hnd1 & Hk1).
  destruct (IH pc1 Hnd1 Hrun) as (-> & Hnd' & Hk'). split; [done |]. split; [done |].
  intros k Hk. destruct (Hk' k Hk) as [Hin|(port' & pr & -> & ?)].
  - destruct (Hk1 k Hin) as [?|(pr & -> & ->)]; [by left |].
    right. exists port, pr. split; [done | by left].
  - right. exists port', pr. split; [done | by right].
Qed.

(** The keys of the adjacency table are ports connected to a [PortRef]. *)
Lemma interface_build_portconns_held module (s : estate) pc s' :
  ImplicitInterfaces.build_portconns module s = (Ok pc, s') →
  dicts_wf (st_heap s) →
  s' = s ∧ NoDup (dict_keys pc) ∧ ∀ k, k ∈ dict_keys pc → held (st_heap s) k.
Proof.
  unfold ImplicitInterfaces.build_portconns. intros Hrun Hwf.
  apply bind_ok in Hrun as (x & s1 & [-> Hx]%load_inv & Hfold).
  revert Hfold.
  assert (Hnil : NoDup (dict_keys ([] : dict pkey PortRef)) ∧
            ∀ k, k ∈ dict_keys ([] : dict pkey PortRef) → held (st_heap s) k).
  { split; [constructor | by intros k ?%elem_of_nil]. }
  revert Hnil. generalize ([] : dict pkey PortRef).
  induction (dict_values (mod_instances x)) as [|j l IH]; intros acc Hacc; simpl.
  - by intros [= <- <-].
  - intros Hfold. apply bind_ok in Hfold as (acc1 & s1 & Hstep & Hfold).
    apply bind_ok in Hstep as (xj & s2 & [-> Hj]%load_inv & Hstep).
    destruct Hacc as [Hnd Hheld].
    destruct (interface_portconns_held _ _ _ _ _ _ Hnd Hstep) as (-> & Hnd' & Hkeys).
    apply (IH acc1); [| done]. split; [done |]. intros k Hk.
    destruct (Hkeys k Hk) as [?|(port & pr & -> & Hin)]; [by apply Hheld |].
    exists pr. unfold connection. simpl. rewrite Hj. simpl.
    apply dict_get_NoDup; [by apply (Hwf j) | done].
Qed.

Lemma check_interface_first net p (s : estate) r s' :
  ImplicitInterfaces.check_interface net None p s = (r, s') →
  s' = s ∧ (∀ c names, r ≠ Raise (Shorting c names)) ∧
  (held (st_heap s) p → r = Ok None).
Proof.
  unfold ImplicitInterfaces.check_interface, conn_of, held, connection.
  destruct p.1 as [i|i]; [| intros [= <- <-]; split; [done |]; split; [done |];
                             by intros [pr ?]].
  unfold bind, get_instance, load.
  destruct (h_instances (st_heap s) !! i) as [x|]; simpl;
    [| intros [= <- <-]; split; [done |]; split; [done |]; by intros [pr ?]].
  destruct (dict_get p.2 (inst_conns x)) as [[sg|pr|ii|]|]; intros [= <- <-];
    (split; [done |]); (split; [done |]); by intros [pr' ?].
Qed.

(** The scan of a net of which only the last member can be connected to a
    bundle instance does not meet two of them. *)
Lemma find_interface_no_short net (s : estate) :
  ∀ l, NoDup l → (∀ p, p ∈ l → held (st_heap s) p ∨ last l = Some p) →
       ∀ r s', fold_each l (ImplicitInterfaces.check_interface net) None s = (r, s') →
               s' = s ∧ ∀ c names, r ≠ Raise (Shorting c names).
Proof.
  induction l as [|p l IH]; intros Hnd Hl r s'; [by intros [= <- <-] |].
  apply NoDup_cons in Hnd as [Hp Hnd]. simpl.
  intros [(sig & s1 & Hrun & Hk)|(e & Hrun & ->)]%bind_inv.
  - apply check_interface_first in Hrun as (-> & _ & Hheld).
    destruct l as [|q l]; [by injection Hk as <- <- |].
    assert (Hnone : sig = None).
    { destruct (Hl p (ltac:(by left))) as [Hh|Hlast].
      - by injection (Hheld Hh).
      - exfalso. apply Hp. apply last_elem. exact Hlast. }
    subst sig. apply IH in Hk; [done | done |].
    intros p' Hp'. destruct (Hl p' (ltac:(by right))) as [?|?]; [by left | by right].
  - by apply check_interface_first in Hrun as (-> & ? & _).
Qed.

Lemma outside_connect_net_interfaces module net :
  preserves (outside net) (ImplicitInterfaces.connect_net module net).
Proof.
  assert (Hleaf : ∀ f, (∀ s, h_instances (st_heap (f s)) = h_instances (st_heap s)) →
                       preserves (outside net) (modify f)).
  { intros f Hf. apply preserves_modify. intros s. by apply outside_same_instances. }
  assert (Hload : ∀ A (sel : heap → gmap nat A) i, preserves (outside net) (load sel i)).
  { intros A sel i s r s'. unfold load.
    destruct (sel (st_heap s) !! i); intros [= <- <-]; reflexivity. }
  unfold ImplicitInterfaces.connect_net, ImplicitInterfaces.find_interface,
    ImplicitInterfaces.check_interface, ImplicitInterfaces.create_interface,
    ImplicitInterfaces.interface_port_of,
    conn_of, pair_names, segments_of, name_of, resolved_of, last_portref, add_interface.
  repeat first
    [ pres_structure
    | by apply outside_connect
    | apply Hload
    | by apply Hleaf
    | lazymatch goal with
      | |- preserves _ (new_intfinst _) =>
          intros ? ? ? [= <- <-]; by apply outside_same_instances
      end ].
Qed.

Lemma connect_net_interfaces_no_short module net (s : estate) r s' :
  dicts_wf (st_heap s) → NoDup net →
  (∀ p, p ∈ net → held (st_heap s) p ∨ last net = Some p) →
  ImplicitInterfaces.connect_net module net s = (r, s') →
  dicts_wf (st_heap s') ∧ ∀ c names, r ≠ Raise (Shorting c names).
Proof.
  intros Hwf Hnd Hnet. unfold ImplicitInterfaces.connect_net.
  intros [(sig & s1 & Hscan & Hrest)|(e & Hscan & ->)]%bind_inv.
  - apply find_interface_no_short in Hscan as [-> _]; [| done | done].
    clear Hnet. revert s r s' Hwf Hrest.
    change (never_shorts
      (let* sig := match sig with
                   | Some sig => ret sig
                   | None => ImplicitInterfaces.create_interface module net
                   end in
       for_each net (connect (CInterface sig)))%elab).
    unfold ImplicitInterfaces.create_interface, ImplicitInterfaces.interface_port_of,
      segments_of, name_of, resolved_of, last_portref, add_interface, connect.
    repeat first
      [ ns_step
      | apply ns_new_intfinst
      | apply ns_setattr_instance; intros ? ?; by apply stays_wf_set ].
  - apply find_interface_no_short in Hscan as [-> Hne]; [| done | done].
    split; [done |]. intros c names [= ->]. by eapply Hne.
Qed.

(** The loop over the nets of a module. *)
Lemma connect_nets_interfaces_no_short module K nets :
  ∀ seen (s : estate) r s',
    chains K seen nets → dicts_wf (st_heap s) →
    (∀ p, p ∈ K → p ∉ seen → held (st_heap s) p) →
    for_each nets (ImplicitInterfaces.connect_net module) s = (r, s') →
    dicts_wf (st_heap s') ∧ ∀ c names, r ≠ Raise (Shorting c names).
Proof.
  induction nets as [|net nets IH]; intros seen s r s' Hch Hwf Hheld; simpl.
  { by intros [= <- <-]. }
  destruct Hch as [(Hnd & Hne & Hnet) Hch].
  assert (Hmem : ∀ p, p ∈ net → held (st_heap s) p ∨ last net = Some p).
  { intros p Hp. destruct (Hnet p Hp) as [[? ?]|?]; [left; by apply Hheld | by right]. }
  intros [([] & s1 & Hrun & Hk)|(e & Hrun & ->)]%bind_inv.
  - pose proof (outside_connect_net_interfaces module net _ _ _ Hrun) as Hout.
    apply connect_net_interfaces_no_short in Hrun as [Hwf1 _]; try done.
    eapply (IH (seen ++ net)); [done | done | | exact Hk].
    intros p HK Hseen. destruct (Hheld p HK) as [pr Hpr].
    { intros ?. apply Hseen, elem_of_app. by left. }
    exists pr. rewrite Hout; [done |]. intros ?. apply Hseen, elem_of_app. by right.
  - by apply connect_net_interfaces_no_short in Hrun as [Hwf1 Hns].
Qed.

Lemma ns_nets_interfaces module :
  never_shorts
    (let* portconns := ImplicitInterfaces.build_portconns module in
     for_each (nets_of portconns) (ImplicitInterfaces.connect_net module) ;;
     ret module)%elab.
Proof.
  intros s r s' Hwf [(pc & s1 & Hpc & Hk)|(e & Hpc & ->)]%bind_inv.
  - destruct (interface_build_portconns_held _ _ _ _ Hpc Hwf) as (-> & Hnd & Hheld).
    apply bind_inv in Hk as [([] & s2 & Hloop & [= <- <-])|(e & Hloop & ->)].
    + eapply (connect_nets_interfaces_no_short module (dict_keys pc) _ []) in Hloop
        as [? _]; [done | by apply nets_of_chains_keys | done |].
      intros p Hp _. by apply Hheld.
    + eapply (connect_nets_interfaces_no_short module (dict_keys pc) _ []) in Hloop
        as [? Hns]; [| by apply nets_of_chains_keys | done | intros p Hp _; by apply Hheld].
      split; [done |]. intros c names [= ->]. by eapply Hns.
  - assert (Hns : never_shorts (ImplicitInterfaces.build_portconns module)).
    { unfold ImplicitInterfaces.build_portconns, ImplicitInterfaces.instance_portconns,
        ImplicitInterfaces.other_port, resolved_of. ns. }
    destruct (Hns _ _ _ Hwf Hpc) as [Hwf' Hne]. split; [done |].
    intros c names [= ->]. by eapply Hne.
Qed.

Lemma ns_implicit_interfaces fuel :
  ∀ module, never_shorts (ImplicitInterfaces.elaborate_module fuel module).
Proof.
  induction fuel as [|fuel IH]; intros module;
    cbn [ImplicitInterfaces.elaborate_module]; [ns |].
  unfold Elaborator.elaborate_instances, Elaborator.elaborate_instance,
    Elaborator.elaborate_primitive_call, Elaborator.elaborate_external_module.
  repeat first
    [ apply ns_nets_interfaces
    | ns_step
    | apply ns_setattr_instance; intros ? ?; by apply stays_wf_elaborated ].
Qed.
End interface_shorting_unreachable.

(** X12.  The implicit-interfaces pass never raises the shorting error
    either: in a net it has built only the last member can be connected to
    a bundle instance, so whatever the design and however the pass ends, its
    outcome is not that error. *)
Theorem implicit_interfaces_never_shorts `{GenArgs} (fuel : nat) (top : Top)
    (ctx : Context) (s : estate) (r : result modid) (s' : estate) :
  dicts_wf (st_heap s) →
  ImplicitInterfaces.elaborate fuel top ctx s = (r, s') →
  ∀ c names, r ≠ Raise (Shorting c names).
Proof.
  intros Hwf. unfold ImplicitInterfaces.elaborate, Elaborator.elaborate_top.
  destruct top as [m|c|g|]; try by intros [= <- _].
  intros Hrun. by eapply ns_implicit_interfaces.
Qed.

Lemma bundle_design_wf : dicts_wf bundle_design.
Proof.
  intros i x Hx. apply elem_of_list_to_map_2 in Hx.
  repeat (apply elem_of_cons in Hx as [Heq|Hx];
          [injection Heq as _ ->; apply (bool_decide_unpack _); by vm_compute |]).
  by apply elem_of_nil in Hx.
Qed.

Lemma implicit_interfaces_never_shorts_witness :
  dicts_wf bundle_design ∧
  ∀ c names,
    (ImplicitInterfaces.elaborate 10 (TopModule 0) mkContext (init_state bundle_design)).1
      ≠ Raise (Shorting c names).
Proof.
  split; [exact bundle_design_wf |].
  exact (implicit_interfaces_never_shorts 10 (TopModule 0) mkContext
           (init_state bundle_design) _ _ bundle_design_wf
           (surjective_pairing _)).
Defined.

(** ** The flattener disconnects the bundles it takes apart *)

Section dict_pop_get.
Context {K V : Type} `{EqDecision K}.

Lemma dict_get_pop (k k' : K) (d r : list (K * V)) (v : V) :
  NoDup (dict_keys d) → dict_pop k d = Some (v, r) →
  dict_get k' r = if decide (k' = k) then None else dict_get k' d.
Proof.
  revert r. induction d as [|[k0 v0] d IH]; intros r Hnd; simpl; [done |].
  apply NoDup_cons in Hnd as [Hk0 Hnd].
  destruct (decide (k0 = k)) as [->|Hne].
  - intros [= <- <-]. rewrite dict_get_cons. case_decide as Hk.
    + subst k'. apply dict_get_None_keys. done.
    + by rewrite decide_False by congruence.
  - destruct (dict_pop k d) as [[v' r']|] eqn:Hpop; [| done]. intros [= <- <-].
    rewrite !dict_get_cons, (IH r' Hnd eq_refl).
    destruct (decide (k0 = k')) as [<-|]; [by rewrite decide_False | done].
Qed.
End dict_pop_get.

#[global] Instance sheds_preorder : PreOrder sheds.
Proof.
  split.
  - intros x. split; [done |]. by intros Hwf.
  - intros x y z [Hxy Hwxy] [Hyz Hwyz]. split; [congruence |].
    intros Hwf. destruct (Hwxy Hwf) as [Hwy Hy]. destruct (Hwyz Hwy) as [Hwz Hz].
    split; [done |]. intros port d Hd. by apply Hy, Hz.
Qed.

Lemma sheds_stays_wf x x' : sheds x x' → stays_wf x x'.
Proof. intros [Hof Hwf]. split; [done |]. intros Hx. by apply Hwf. Qed.

Lemma sheds_set x k c :
  sheds x (Instance_set_conns (dict_set k (CSignal c) (inst_conns x)) x).
Proof.
  split; [done |]. intros Hwf. split; [by apply dict_set_NoDup |].
  intros port d. simpl. rewrite dict_get_set. by case_decide.
Qed.

Lemma dict_get_repoint p sig conns port d :
  dict_get port (InterfaceFlattener.repoint p sig conns) = Some (CInterface d) →
  dict_get port conns = Some (CInterface d).
Proof.
  unfold InterfaceFlattener.repoint.
  induction conns as [|[k c] conns IH]; simpl; [done |].
  destruct c as [sg|pr|ii|]; simpl; rewrite ?dict_get_cons;
    try (case_decide; [done | apply IH]).
  case_bool_decide; rewrite !dict_get_cons; simpl; (case_decide; [done | apply IH]).
Qed.

Lemma sheds_repoint p sig x :
  sheds x (Instance_set_conns (InterfaceFlattener.repoint p sig (inst_conns x)) x).
Proof.
  split; [done |]. intros Hwf. split.
  - unfold conns_wf. simpl. by rewrite dict_keys_repoint.
  - intros port d. apply dict_get_repoint.
Qed.

Section flattener_sheds.
Context `{GenArgs}.

Lemma shed_dicts_wf (PM : relation Module) (s s' : estate) :
  heap_rel PM sheds s s' → dicts_wf (st_heap s) → dicts_wf (st_heap s').
Proof.
  intros Hr. apply (stays_dicts_wf PM).
  eapply heap_rel_weaken; [| | exact Hr]; [done | apply sheds_stays_wf].
Qed.

(** A connection to a bundle instance in [s'] was there in [s]. *)
Lemma shed_connection (PM : relation Module) (s s' : estate) i xi' port d :
  heap_rel PM sheds s s' → dicts_wf (st_heap s) →
  h_instances (st_heap s') !! i = Some xi' →
  dict_get port (inst_conns xi') = Some (CInterface d) →
  ∃ xi, h_instances (st_heap s) !! i = Some xi ∧
        dict_get port (inst_conns xi) = Some (CInterface d).
Proof.
  intros Hr Hwf Hxi' Hd.
  destruct (heap_rel_instance_back _ _ _ _ _ _ Hr Hxi') as (xi & Hxi & [_ Hs]).
  exists xi. split; [done |]. by apply (Hs (Hwf _ _ Hxi)).
Qed.

(** [inst.conns.pop(portname)] *)
Lemma shed_pop_connection inst portname :
  preserves (heap_rel (same_on mod_hier_intf) sheds)
    (let* x := get_instance inst in
     let* popped := lift_opt KeyError (dict_pop portname (inst_conns x)) in
     setattr_instance inst (Instance_set_conns popped.2))%elab.
Proof.
  intros s r s'. unfold bind, get_instance, load.
  destruct (h_instances (st_heap s) !! inst) as [x|] eqn:Hx;
    [| intros [= <- <-]; reflexivity].
  destruct (dict_pop portname (inst_conns x)) as [[v rest]|] eqn:Hpop; simpl;
    intros [= <- <-]; [| reflexivity].
  split; [| split]; [intros m; reflexivity | | done].
  intros i. simpl. destruct (decide (inst = i)) as [<-|].
  - rewrite lookup_alter_eq, Hx. constructor. split; [done |].
    intros Hwf. split; [by apply (dict_pop_keys _ _ _ _ Hpop) |].
    intros port d. simpl. rewrite (dict_get_pop _ _ _ _ _ Hwf Hpop). by case_decide.
  - rewrite lookup_alter_ne by done. reflexivity.
Qed.

Lemma shed_flatten_interface fuel :
  ∀ intf, preserves (heap_rel (same_on mod_hier_intf) sheds)
      (InterfaceFlattener.flatten_interface fuel intf).
Proof.
  induction fuel as [|fuel IH]; intros intf; cbn [InterfaceFlattener.flatten_interface];
    [hr |].
  unfold InterfaceFlattener.deepcopy_signals, InterfaceFlattener.merge_nested. hr.
Qed.

Lemma shed_add_flat_signals module intf flat :
  preserves (heap_rel (same_on mod_hier_intf) sheds)
      (InterfaceFlattener.add_flat_signals module intf flat).
Proof.
  unfold InterfaceFlattener.add_flat_signals, InterfaceFlattener.add_flat_signal, add_signal.
  repeat first
    [ pres_structure | hr_leaf
    | apply hr_setattr_module;
      [apply _ | apply _ | intros ?; apply same_on_hier_intf_add_signal] ].
Qed.

Lemma shed_replace_connection inst flat portname :
  preserves (heap_rel (same_on mod_hier_intf) sheds)
      (InterfaceFlattener.replace_connection inst flat portname).
Proof.
  unfold InterfaceFlattener.replace_connection, InterfaceFlattener.replacements_of,
    InterfaceFlattener.update_conns.
  repeat first
    [ apply shed_pop_connection | pres_structure | hr_leaf
    | apply hr_setattr_instance; [apply _ | apply _ | intros ?; apply sheds_set] ].
Qed.

(** The body of [for portname in list(inst.conns.keys())]. *)
Lemma shed_replace_at inst intf flat portname :
  preserves (heap_rel (same_on mod_hier_intf) sheds)
    (let* i := get_instance inst in
     let* conn := lift_opt KeyError (dict_get portname (inst_conns i)) in
     match conn with
     | CInterface c =>
         if bool_decide (c = intf)
         then InterfaceFlattener.replace_connection inst flat portname
         else ret tt
     | _ => ret tt
     end)%elab.
Proof. repeat first [apply shed_replace_connection | pres_structure | hr_leaf]. Qed.

(** The body of [for inst in module.instances.values()]. *)
Lemma shed_replace_in inst intf flat :
  preserves (heap_rel (same_on mod_hier_intf) sheds)
    (let* i := get_instance inst in
     for_each (dict_keys (inst_conns i))
       (fun portname =>
          let* i := get_instance inst in
          let* conn := lift_opt KeyError (dict_get portname (inst_conns i)) in
          match conn with
          | CInterface c =>
              if bool_decide (c = intf)
              then InterfaceFlattener.replace_connection inst flat portname
              else ret tt
          | _ => ret tt
          end))%elab.
Proof.
  apply preserves_bind; [apply _ | hr_leaf | intros i].
  apply preserves_for_each; [apply _ |]. intros portname _. apply shed_replace_at.
Qed.

Lemma shed_replace_connections module intf flat :
  preserves (heap_rel (same_on mod_hier_intf) sheds)
      (InterfaceFlattener.replace_connections module intf flat).
Proof.
  unfold InterfaceFlattener.replace_connections.
  apply preserves_bind; [apply _ | hr_leaf | intros x].
  apply preserves_for_each; [apply _ |]. intros inst _. apply shed_replace_in.
Qed.

Lemma shed_reconnect_portrefs module intf flat :
  preserves (heap_rel (same_on mod_hier_intf) sheds)
      (InterfaceFlattener.reconnect_portrefs module intf flat).
Proof.
  unfold InterfaceFlattener.reconnect_portrefs, InterfaceFlattener.update_conns.
  repeat first
    [ pres_structure | hr_leaf
    | apply hr_setattr_instance; [apply _ | apply _ | intros ?; apply sheds_repoint] ].
Qed.
End flattener_sheds.

Section flattener_disconnects.
Context `{GenArgs}.

(** Replacing one connection ends with popping it. *)
Lemma replace_connection_pops inst flat portname (s : estate) s' :
  dicts_wf (st_heap s) →
  InterfaceFlattener.replace_connection inst flat portname s = (Ok tt, s') →
  ∀ x', h_instances (st_heap s') !! inst = Some x' →
        dict_get portname (inst_conns x') = None.
Proof.
  intros Hwf Hrun. unfold InterfaceFlattener.replace_connection in Hrun.
  apply bind_ok in Hrun as (reps & s1 & Hreps & Hrun).
  apply bind_ok in Hrun as (iflat & s2 & [-> _]%lift_opt_inv & Hrun).
  apply bind_ok in Hrun as ([] & s3 & Hloop & Hrun).
  assert (H01 : heap_rel (same_on mod_hier_intf) sheds s s1).
  { revert Hreps. unfold InterfaceFlattener.replacements_of.
    match goal with |- ?m s = _ → _ =>
      assert (Hp : preserves (heap_rel (same_on mod_hier_intf) sheds) m)
        by repeat first [pres_structure | hr_leaf] end.
    apply Hp. }
  assert (H13 : heap_rel (same_on mod_hier_intf) sheds s1 s3).
  { revert Hloop. unfold InterfaceFlattener.update_conns.
    match goal with |- ?m s1 = _ → _ =>
      assert (Hp : preserves (heap_rel (same_on mod_hier_intf) sheds) m)
        by repeat first
             [ pres_structure | hr_leaf
             | apply hr_setattr_instance; [apply _ | apply _ | intros ?; apply sheds_set] ]
    end.
    apply Hp. }
  assert (Hwf3 : dicts_wf (st_heap s3)).
  { eapply (shed_dicts_wf (same_on mod_hier_intf)); [| exact Hwf]. by etrans. }
  apply bind_ok in Hrun as (x & s4 & [-> Hx]%load_inv & Hrun).
  apply bind_ok in Hrun as ([v rest] & s4 & [-> Hpop]%lift_opt_inv & Hrun).
  injection Hrun as <-. simpl. rewrite lookup_alter_eq, Hx. intros x' [= <-]. simpl.
  destruct (dict_pop portname (inst_conns x)) as [[v0 r0]|] eqn:Hp; [| done].
  injection Hpop as -> ->.
  rewrite (dict_get_pop _ _ _ _ _ (Hwf3 _ _ Hx) Hp). by rewrite decide_True.
Qed.

(** After the turn of the loop for [portname], that port is not connected
    to the bundle instance. *)
Lemma replace_at_disconnects inst intf flat portname (s : estate) s' :
  dicts_wf (st_heap s) →
  (let* i := get_instance inst in
   let* conn := lift_opt KeyError (dict_get portname (inst_conns i)) in
   match conn with
   | CInterface c =>
       if bool_decide (c = intf)
       then InterfaceFlattener.replace_connection inst flat portname
       else ret tt
   | _ => ret tt
   end)%elab s = (Ok tt, s') →
  ∀ x', h_instances (st_heap s') !! inst = Some x' →
        dict_get portname (inst_conns x') ≠ Some (CInterface intf).
Proof.
  intros Hwf Hrun.
  apply bind_ok in Hrun as (i & s1 & [-> Hi]%load_inv & Hrun).
  apply bind_ok in Hrun as (conn & s1 & [-> Hconn]%lift_opt_inv & Hrun).
  destruct (dict_get portname (inst_conns i)) as [conn'|] eqn:Hget; [| done].
  injection Hconn as ->.
  destruct conn' as [sg|pr|c|]; try (injection Hrun as <-; intros x' Hx';
    rewrite Hi in Hx'; injection Hx' as <-; by rewrite Hget).
  case_bool_decide as Hc.
  - intros x' Hx'. by rewrite (replace_connection_pops _ _ _ _ _ Hwf Hrun x' Hx').
  - injection Hrun as <-. intros x' Hx'. rewrite Hi in Hx'. injection Hx' as <-.
    rewrite Hget. by intros [= ->].
Qed.

(** After the turn of the loop for an instance, it is not connected to the
    bundle instance. *)
Lemma replace_in_disconnects inst intf flat (s : estate) s' :
  dicts_wf (st_heap s) →
  (let* i := get_instance inst in
   for_each (dict_keys (inst_conns i))
     (fun portname =>
        let* i := get_instance inst in
        let* conn := lift_opt KeyError (dict_get portname (inst_conns i)) in
        match conn with
        | CInterface c =>
            if bool_decide (c = intf)
            then InterfaceFlattener.replace_connection inst flat portname
            else ret tt
        | _ => ret tt
        end))%elab s = (Ok tt, s') →
  ∀ x', h_instances (st_heap s') !! inst = Some x' →
        ∀ port, dict_get port (inst_conns x') ≠ Some (CInterface intf).
Proof.
  intros Hwf Hrun.
  apply bind_ok in Hrun as (i0 & s1 & [-> Hi0]%load_inv & Hloop).
  intros x' Hx' port Hbad.
  destruct (decide (port ∈ dict_keys (inst_conns i0))) as [Hin|Hnin].
  - destruct (for_each_ok_elem (heap_rel (same_on mod_hier_intf) sheds) _ _ _ _ _ _
                (λ p _, shed_replace_at inst intf flat p) Hloop port Hin)
      as (sa & sb & Hsa & Hbody & Hsb).
    assert (Hwfa := shed_dicts_wf _ _ _ Hsa Hwf).
    assert (Hwfb := shed_dicts_wf _ _ _ (shed_replace_at _ _ _ _ _ _ _ Hbody) Hwfa).
    destruct (shed_connection _ _ _ _ _ _ _ Hsb Hwfb Hx' Hbad) as (xb & Hxb & Hb).
    exact (replace_at_disconnects _ _ _ _ _ _ Hwfa Hbody _ Hxb Hb).
  - assert (Hss' : heap_rel (same_on mod_hier_intf) sheds s s').
    { eapply (preserves_for_each (heap_rel (same_on mod_hier_intf) sheds) _ _ _
                (λ p _, shed_replace_at inst intf flat p)). exact Hloop. }
    destruct (shed_connection _ _ _ _ _ _ _ Hss' Hwf Hx' Hbad) as (x0 & Hx0 & Hb).
    rewrite Hi0 in Hx0. injection Hx0 as <-.
    apply Hnin, dict_get_Some_keys. by rewrite Hb.
Qed.

Lemma replace_connections_disconnects module intf flat (s : estate) s' x :
  dicts_wf (st_heap s) → h_modules (st_heap s) !! module = Some x →
  InterfaceFlattener.replace_connections module intf flat s = (Ok tt, s') →
  disconnected (st_heap s') x intf.
Proof.
  intros Hwf Hx Hrun. unfold InterfaceFlattener.replace_connections in Hrun.
  apply bind_ok in Hrun as (x0 & s1 & [-> Hx0]%load_inv & Hloop).
  rewrite Hx in Hx0. injection Hx0 as <-.
  intros i xi Hi Hxi port Hbad.
  destruct (for_each_ok_elem (heap_rel (same_on mod_hier_intf) sheds) _ _ _ _ _ _
              (λ j _, shed_replace_in j intf flat) Hloop i Hi)
    as (sa & sb & Hsa & Hbody & Hsb).
  assert (Hwfa := shed_dicts_wf _ _ _ Hsa Hwf).
  assert (Hwfb := shed_dicts_wf _ _ _ (shed_replace_in _ _ _ _ _ _ Hbody) Hwfa).
  destruct (shed_connection _ _ _ _ _ _ _ Hsb Hwfb Hxi Hbad) as (xb & Hxb & Hb).
  exact (replace_in_disconnects _ _ _ _ _ Hwfa Hbody _ Hxb _ Hb).
Qed.

(** Connections shed stay shed. *)
Lemma disconnected_later (PM : relation Module) (s s' : estate) x intf :
  heap_rel PM sheds s s' → dicts_wf (st_heap s) →
  disconnected (st_heap s) x intf → disconnected (st_heap s') x intf.
Proof.
  intros Hr Hwf Hd i xi' Hi Hxi' port Hbad.
  destruct (shed_connection _ _ _ _ _ _ _ Hr Hwf Hxi' Hbad) as (xi & Hxi & Hb).
  exact (Hd _ _ Hi Hxi _ Hb).
Qed.
End flattener_disconnects.

Lemma dict_popitem_snoc {K V} (d r : list (K * V)) (kv : K * V) :
  dict_popitem d = Some (kv, r) → d = r ++ [kv].
Proof.
  revert r. induction d as [|kv0 d IH]; intros r; [done |].
  destruct d as [|kv1 d]; [by intros [= -> <-] |].
  change (dict_popitem (kv0 :: kv1 :: d))
    with ('(x, r) ← dict_popitem (kv1 :: d); Some (x, kv0 :: r)).
  destruct (dict_popitem (kv1 :: d)) as [[x r']|] eqn:Hpop; [| done].
  intros [= -> <-]. by rewrite (IH r' eq_refl).
Qed.

(** X13.  The loop [while module.interfaces] of the flattener, when it
    returns, has taken every bundle instance out of the module: the
    interface map of the module is empty, every name it held is a key of
    the replacements handed back, and no instance of the module is left
    connected to a bundle instance the module held.  The loop changes no
    module name, no instance list and no instance target, and connects no
    port to a bundle instance. *)
Theorem flatten_all_disconnects `{GenArgs} (depth : nat) (module : modid) (fuel : nat) :
  ∀ (reps : dict string FlatInterfaceInst) (s : estate) reps' s' (x : Module),
    dicts_wf (st_heap s) →
    h_modules (st_heap s) !! module = Some x →
    InterfaceFlattener.flatten_all fuel depth module reps s = (Ok reps', s') →
    heap_rel (same_on mod_hier) sheds s s' ∧
    (∃ x', h_modules (st_heap s') !! module = Some x' ∧ mod_interfaces x' = []) ∧
    (∀ k, k ∈ dict_keys reps → k ∈ dict_keys reps') ∧
    (∀ name intf, (name, intf) ∈ mod_interfaces x →
       name ∈ dict_keys reps' ∧ disconnected (st_heap s') x intf).
Proof.
  assert (Hweak : ∀ s s' : estate,
            heap_rel (same_on mod_hier_intf) sheds s s' →
            heap_rel (same_on mod_hier) sheds s s').
  { intros s s'. apply heap_rel_weaken; [| done]. unfold same_on, mod_hier_intf, mod_hier.
    by intros y y' [= -> -> _]. }
  induction fuel as [|fuel IH]; intros reps s reps' s' x Hwf Hx Hrun;
    cbn [InterfaceFlattener.flatten_all] in Hrun;
    apply bind_ok in Hrun as (x0 & s0 & [-> Hx0]%load_inv & Hrun);
    rewrite Hx in Hx0; injection Hx0 as <-;
    destruct (dict_popitem (mod_interfaces x)) as [[[name intf] rest]|] eqn:Hpop;
    try done;
    try (injection Hrun as <- <-; apply dict_popitem_None in Hpop;
         split; [reflexivity |]; split; [by exists x |]; split; [done |];
         intros n i Hin; rewrite Hpop in Hin; by apply elem_of_nil in Hin).
  apply dict_popitem_snoc in Hpop.
  apply bind_ok in Hrun as ([] & s1 & Hset & Hrun).
  assert (H01 : heap_rel (same_on mod_hier) sheds s s1).
  { eapply (hr_setattr_module _ _ module (Module_set_interfaces rest)); [| exact Hset].
    by intros y. }
  assert (Hx1 : h_modules (st_heap s1) !! module = Some (Module_set_interfaces rest x)).
  { injection Hset as <-. simpl. by rewrite lookup_alter_eq, Hx. }
  clear Hset.
  apply bind_ok in Hrun as (x1 & s1' & [-> Hx1']%load_inv & Hrun).
  rewrite Hx1 in Hx1'. injection Hx1' as <-.
  apply bind_ok in Hrun as (popped & s1' & [-> _]%lift_opt_inv & Hrun).
  apply bind_ok in Hrun as ([] & s2 & Hset & Hrun).
  assert (H12 : heap_rel (same_on mod_hier_intf) sheds s1 s2).
  { eapply (hr_setattr_module _ _ module (Module_set_namespace popped.2)); [| exact Hset].
    by intros y. }
  clear Hset.
  apply bind_ok in Hrun as (flat & s3 & Hflat & Hrun).
  apply shed_flatten_interface in Hflat.
  apply bind_ok in Hrun as ([] & s4 & Hadd & Hrun).
  apply shed_add_flat_signals in Hadd.
  apply bind_ok in Hrun as ([] & s5 & Hrep & Hrun).
  apply bind_ok in Hrun as ([] & s6 & Hrec & Hrun).
  assert (H14 : heap_rel (same_on mod_hier_intf) sheds s1 s4) by (by repeat (etrans; [done |])).
  assert (H45 := shed_replace_connections _ _ _ _ _ _ Hrep).
  assert (H56 := shed_reconnect_portrefs _ _ _ _ _ _ Hrec).
  assert (Hwf1 := shed_dicts_wf _ _ _ H01 Hwf).
  assert (Hwf4 := shed_dicts_wf _ _ _ H14 Hwf1).
  assert (Hwf5 := shed_dicts_wf _ _ _ H45 Hwf4).
  assert (Hwf6 := shed_dicts_wf _ _ _ H56 Hwf5).
  destruct (heap_rel_module _ _ _ _ _ _ H14 Hx1) as (x4 & Hx4 & Hh4).
  destruct (heap_rel_module _ _ _ _ _ _ (transitivity H45 H56) Hx4) as (x6 & Hx6 & Hh6).
  unfold same_on, mod_hier_intf in Hh4, Hh6. simpl in Hh4.
  injection Hh4 as Hn4 Hi4 Hf4. injection Hh6 as Hn6 Hi6 Hf6.
  assert (Hd5 : disconnected (st_heap s5) x intf).
  { intros i xi Hi. rewrite <- Hi4 in Hi. revert i xi Hi.
    exact (replace_connections_disconnects _ _ _ _ _ _ Hwf4 Hx4 Hrep). }
  destruct (IH _ _ _ _ _ Hwf6 Hx6 Hrun) as (H6' & Hx' & Hkeys & Hrest).
  split; [| split; [done |]; split].
  - etrans; [exact H01 |]. etrans; [apply Hweak; exact H14 |].
    etrans; [apply Hweak; exact H45 |]. etrans; [apply Hweak; exact H56 | exact H6'].
  - intros k Hk. by apply Hkeys, dict_set_keys_mono.
  - intros n i Hin. rewrite Hpop in Hin. apply elem_of_app in Hin as [Hin|Hin].
    + destruct (Hrest n i) as [Hn Hd]; [by rewrite Hf6, Hf4 |]. split; [done |].
      intros j xj Hj. apply Hd. by rewrite Hi6, Hi4.
    + apply list_elem_of_singleton in Hin. injection Hin as -> ->.
      split; [apply Hkeys, dict_set_keys_in |].
      eapply (disconnected_later (same_on mod_hier) s5 s'); [| exact Hwf5 | exact Hd5].
      etrans; [apply Hweak; exact H56 | exact H6'].
Qed.

Lemma flatten_all_disconnects_witness :
  let s := (InterfaceFlattener.elaborate_module 9 1 (init_state bundle_design)).2 in
  let run := InterfaceFlattener.flatten_all 1 9 0 [] s in
  ∃ x reps',
    h_modules (st_heap s) !! 0 = Some x ∧ mod_interfaces x = [("b", 21)] ∧
    run.1 = Ok reps' ∧
    heap_rel (same_on mod_hier) sheds s run.2 ∧
    (∃ x', h_modules (st_heap run.2) !! 0 = Some x' ∧ mod_interfaces x' = []) ∧
    (∀ k, k ∈ dict_keys ([] : dict string FlatInterfaceInst) → k ∈ dict_keys reps') ∧
    (∀ name intf, (name, intf) ∈ mod_interfaces x →
       name ∈ dict_keys reps' ∧ disconnected (st_heap run.2) x intf).
Proof.
  intros s run.
  assert (Hwf : dicts_wf (st_heap s)).
  { apply (stays_dicts_wf (same_on mod_hier) (init_state bundle_design));
      [| exact bundle_design_wf].
    eapply (hr_flattener 9 1). apply surjective_pairing. }
  assert (Hx : ∃ x, h_modules (st_heap s) !! 0 = Some x ∧ mod_interfaces x = [("b", 21)]).
  { eexists. split; vm_compute; reflexivity. }
  assert (Hrun : ∃ reps', run.1 = Ok reps') by (eexists; vm_compute; reflexivity).
  destruct Hx as (x & Hx & Hintf). destruct Hrun as (reps' & Hrun).
  exists x, reps'. split; [exact Hx |]. split; [exact Hintf |]. split; [exact Hrun |].
  apply (flatten_all_disconnects 9 0 1 [] s reps' run.2 x Hwf Hx).
  rewrite <- Hrun. apply surjective_pairing.
Defined.

(** ** C5: no elaboration ends in the shorting error *)

Section generator_pass_never_shorts.
Context `{Generators} (ctx : Context).
Hypothesis Hgen : generators_never_short.

Lemma ns_call_generator g arg :
  never_shorts (GeneratorElaborator.call_generator ctx g arg).
Proof.
  intros s r s' Hwf. unfold GeneratorElaborator.call_generator.
  destruct (gen_func g arg _ (st_heap s)) as [r0 h0] eqn:Hg. intros [= <- <-].
  destruct (Hgen _ _ _ _ _ _ Hg) as [Hwf' Hne]. split; [by apply Hwf' | done].
Qed.

Lemma ns_generator_pass fuel :
  (∀ call, never_shorts (GeneratorElaborator.elaborate_generator_call ctx fuel call)) ∧
  (∀ module, never_shorts (GeneratorElaborator.elaborate_module ctx fuel module)) ∧
  (∀ inst, never_shorts (GeneratorElaborator.elaborate_instance ctx fuel inst)).
Proof.
  induction fuel as [|fuel (IHcall & IHmod & IHinst)].
  { split; [| split]; intros x; cbn; ns. }
  split; [| split].
  - intros call. cbn [GeneratorElaborator.elaborate_generator_call].
    unfold GeneratorElaborator.set_result, GeneratorElaborator.remember,
      GeneratorElaborator.name_result, setattr_call, get_call.
    repeat first
      [ apply IHcall | apply IHmod | apply ns_call_generator | ns_step
      | by apply ns_same_instances ].
  - intros module. cbn [GeneratorElaborator.elaborate_module].
    unfold Elaborator.elaborate_interface_instance.
    repeat first [apply IHinst | ns_step | by apply ns_same_instances].
  - intros inst. cbn [GeneratorElaborator.elaborate_instance].
    unfold Elaborator.elaborate_primitive_call, Elaborator.elaborate_external_module.
    repeat first
      [ apply IHcall | apply IHmod | ns_step
      | apply ns_setattr_instance; intros ? ?; by apply stays_wf_elaborated ].
Qed.
End generator_pass_never_shorts.

Section flattener_never_shorts.
Context `{GenArgs}.

(** [inst.conns.pop(portname)] *)
Lemma ns_pop_connection inst portname :
  never_shorts
    (let* x := get_instance inst in
     let* popped := lift_opt KeyError (dict_pop portname (inst_conns x)) in
     setattr_instance inst (Instance_set_conns popped.2))%elab.
Proof.
  intros s r s' Hwf. unfold bind, get_instance, load.
  destruct (h_instances (st_heap s) !! inst) as [x|] eqn:Hx; [| by intros [= <- <-]].
  destruct (dict_pop portname (inst_conns x)) as [[v rest]|] eqn:Hpop; simpl;
    intros [= <- <-]; [| done].
  split; [| done]. intros j xj. simpl. destruct (decide (inst = j)) as [<-|].
  - rewrite lookup_alter_eq, Hx. intros [= <-].
    by apply (dict_pop_keys _ _ _ _ Hpop), (Hwf inst).
  - rewrite lookup_alter_ne by done. apply Hwf.
Qed.

Lemma ns_flatten_interface fuel :
  ∀ intf, never_shorts (InterfaceFlattener.flatten_interface fuel intf).
Proof.
  induction fuel as [|fuel IH]; intros intf; cbn [InterfaceFlattener.flatten_interface];
    [ns |].
  unfold InterfaceFlattener.deepcopy_signals, InterfaceFlattener.merge_nested. ns.
Qed.

Lemma ns_flatten_all depth module fuel :
  ∀ reps, never_shorts (InterfaceFlattener.flatten_all fuel depth module reps).
Proof.
  induction fuel as [|fuel IH]; intros reps; cbn [InterfaceFlattener.flatten_all];
    unfold InterfaceFlattener.add_flat_signals, InterfaceFlattener.add_flat_signal,
      InterfaceFlattener.replace_connections, InterfaceFlattener.replace_connection,
      InterfaceFlattener.replacements_of, InterfaceFlattener.reconnect_portrefs,
      InterfaceFlattener.update_conns, add_signal;
    repeat first
      [ apply ns_pop_connection | apply ns_flatten_interface | ns_step
      | apply ns_setattr_instance; intros ? ?; by apply stays_wf_set
      | apply ns_setattr_instance; intros ? ?; by apply stays_wf_repoint ].
Qed.

Lemma ns_flattener fuel :
  ∀ module, never_shorts (InterfaceFlattener.elaborate_module fuel module).
Proof.
  induction fuel as [|fuel IH]; intros module; cbn [InterfaceFlattener.elaborate_module];
    [ns |].
  unfold Elaborator.elaborate_instances, Elaborator.elaborate_instance,
    Elaborator.elaborate_primitive_call, Elaborator.elaborate_external_module.
  repeat first
    [ apply ns_flatten_all | ns_step | by apply ns_same_instances
    | apply ns_setattr_instance; intros ? ?; by apply stays_wf_elaborated ].
Qed.
End flattener_never_shorts.

Section passes_never_short.
Context `{Generators}.
Hypothesis Hgen : generators_never_short.

Lemma ns_run_pass (fuel : nat) (pass_ : ElabPasses) (top : Top) (ctx : Context)
    (h h' : heap) (r : result modid) :
  dicts_wf h → run_pass fuel pass_ top ctx h = (r, h') →
  dicts_wf h' ∧ ∀ c names, r ≠ Raise (Shorting c names).
Proof.
  intros Hwf Hrun. unfold run_pass in Hrun.
  assert (Hns : never_shorts
            (match pass_ with
             | RUN_GENERATORS => GeneratorElaborator.elaborate fuel top ctx
             | IMPLICIT_INTERFACES => ImplicitInterfaces.elaborate fuel top ctx
             | FLATTEN_INTERFACES => InterfaceFlattener.elaborate fuel top ctx
             | IMPLICIT_SIGNALS => ImplicitSignals.elaborate fuel top ctx
             end)).
  { destruct pass_;
      unfold GeneratorElaborator.elaborate, ImplicitInterfaces.elaborate,
        InterfaceFlattener.elaborate, ImplicitSignals.elaborate,
        GeneratorElaborator.elaborate_top, Elaborator.elaborate_top;
      destruct top as [m|c|g|]; try (by apply ns_raise).
    - by apply (ns_generator_pass ctx Hgen fuel).
    - by apply (ns_generator_pass ctx Hgen fuel).
    - apply ns_implicit_interfaces.
    - apply ns_flattener.
    - apply ns_implicit_signals. }
  destruct (match pass_ with
            | RUN_GENERATORS => GeneratorElaborator.elaborate fuel top ctx
            | IMPLICIT_INTERFACES => ImplicitInterfaces.elaborate fuel top ctx
            | FLATTEN_INTERFACES => InterfaceFlattener.elaborate fuel top ctx
            | IMPLICIT_SIGNALS => ImplicitSignals.elaborate fuel top ctx
            end (init_state h)) as [r1 s1] eqn:H1.
  injection Hrun as <- <-. exact (Hns (init_state h) _ _ Hwf H1).
Qed.

Lemma ns_run_passes (fuel : nat) (ctx : Context) (passes : list ElabPasses) :
  ∀ (top : Top) (h h' : heap) (r : result Top),
    dicts_wf h → run_passes fuel passes top ctx h = (r, h') →
    dicts_wf h' ∧ ∀ c names, r ≠ Raise (Shorting c names).
Proof.
  induction passes as [|p passes IH]; intros top h h' r Hwf; cbn [run_passes].
  { by intros [= <- <-]. }
  destruct (run_pass fuel p top ctx h) as [[m|e] h1] eqn:Hpass;
    destruct (ns_run_pass _ _ _ _ _ _ _ Hwf Hpass) as [Hwf1 Hne].
  - by apply IH.
  - intros [= <- <-]. split; [done |]. intros c names [= ->]. by eapply Hne.
Qed.
End passes_never_short.

Section built_nets.
Context `{GenArgs}.

(** A net of which only the last member can be connected to a declared
    signal has at most one attached. *)
Lemma attached_signals_one (h : heap) (net : list pkey) :
  NoDup net → (∀ p, p ∈ net → held h p ∨ last net = Some p) →
  ∀ a b, a ∈ attached_signals h net → b ∈ attached_signals h net → a = b.
Proof.
  induction net as [|p net IH]; intros Hnd Hnet a b; [by intros ?%elem_of_nil |].
  apply NoDup_cons in Hnd as [Hp Hnd]. rewrite attached_signals_cons.
  destruct net as [|q net].
  { destruct (connection h p) as [[c| | |]|]; try by intros ?%elem_of_nil.
    by intros ->%list_elem_of_singleton ->%list_elem_of_singleton. }
  assert (Hheld : held h p).
  { destruct (Hnet p (ltac:(by left))) as [?|Hlast]; [done |].
    exfalso. apply Hp. by apply last_elem. }
  destruct Hheld as [pr ->]. apply IH; [done |].
  intros p' Hp'. destruct (Hnet p' (ltac:(by right))) as [?|?]; [by left | by right].
Qed.

Lemma attached_interfaces_one (h : heap) (net : list pkey) :
  NoDup net → (∀ p, p ∈ net → held h p ∨ last net = Some p) →
  ∀ a b, a ∈ attached_interfaces h net → b ∈ attached_interfaces h net → a = b.
Proof.
  induction net as [|p net IH]; intros Hnd Hnet a b; [by intros ?%elem_of_nil |].
  apply NoDup_cons in Hnd as [Hp Hnd]. rewrite attached_interfaces_cons.
  destruct net as [|q net].
  { destruct (connection h p) as [[| |c|]|]; try by intros ?%elem_of_nil.
    by intros ->%list_elem_of_singleton ->%list_elem_of_singleton. }
  assert (Hheld : held h p).
  { destruct (Hnet p (ltac:(by left))) as [?|Hlast]; [done |].
    exfalso. apply Hp. by apply last_elem. }
  destruct Hheld as [pr ->]. apply IH; [done |].
  intros p' Hp'. destruct (Hnet p' (ltac:(by right))) as [?|?]; [by left | by right].
Qed.

(** Every member but the last of a net built from the adjacency table is
    connected to a [PortRef]. *)
Lemma nets_of_held (h : heap) (pc : dict pkey PortRef) (net : list pkey) :
  NoDup (dict_keys pc) → (∀ k, k ∈ dict_keys pc → held h k) →
  net ∈ nets_of pc →
  NoDup net ∧ ∀ p, p ∈ net → held h p ∨ last net = Some p.
Proof.
  intros Hnd Hheld Hin. apply list_elem_of_split in Hin as (nets1 & nets2 & Heq).
  destruct (chains_split _ _ _ _ _ _ (nets_of_chains_keys pc Hnd) Heq) as (Hn & _ & Hmem).
  split; [done |]. intros p Hp.
  destruct (Hmem p Hp) as [(HK & _)|?]; [left; by apply Hheld | by right].
Qed.
End built_nets.

(** C5, as the code has it: no elaboration ends in the shorting error.
    The check that raises it compares the declared signals, or the bundle
    instances, met on the members of one net.  A port holds one connection,
    so every member but the last of a net that a pass has built is connected
    to a [PortRef]: where the connections of an instance are a dictionary,
    no net built from the adjacency table of either pass has two different
    declared signals, or bundle instances, attached.  And whatever the
    design, the top, the passes and the recursion limit, and however it
    ends, [elaborate] does not end in the shorting error, as long as the
    generator functions do not raise that error of themselves. *)
Theorem elaborate_never_shorts `{Generators} :
  (∀ (module : modid) (s s' : estate) (pc : dict pkey PortRef) (net : list pkey)
     (a b : nat),
     dicts_wf (st_heap s) → net ∈ nets_of pc →
     (ImplicitSignals.build_portconns module s = (Ok pc, s') →
      a ∈ attached_signals (st_heap s) net → b ∈ attached_signals (st_heap s) net →
      a = b) ∧
     (ImplicitInterfaces.build_portconns module s = (Ok pc, s') →
      a ∈ attached_interfaces (st_heap s) net →
      b ∈ attached_interfaces (st_heap s) net → a = b)) ∧
  (∀ (fuel : nat) (top : Top) (ctx : option Context)
     (passes : option (list ElabPasses)) (h h' : heap) (r : result Top),
     generators_never_short → dicts_wf h →
     elaborate fuel top ctx passes h = (r, h') →
     ∀ c names, r ≠ Raise (Shorting c names)).
Proof.
  split.
  - intros module s s' pc net a b Hwf Hin. split; intros Hpc.
    + destruct (build_portconns_held _ _ _ _ Hpc Hwf) as [Hnd Hheld].
      destruct (nets_of_held _ _ _ Hnd Hheld Hin). by apply attached_signals_one.
    + destruct (interface_build_portconns_held _ _ _ _ Hpc Hwf) as (_ & Hnd & Hheld).
      destruct (nets_of_held _ _ _ Hnd Hheld Hin). by apply attached_interfaces_one.
  - intros fuel top ctx passes h h' r Hgen Hwf Hrun. unfold elaborate in Hrun.
    by destruct (ns_run_passes Hgen _ _ _ _ _ _ _ Hwf Hrun).
Qed.

Lemma no_generators_never_short : generators_never_short (H0:=no_generators).
Proof. intros g arg cx h r h' [= <- <-]. done. Qed.

Lemma two_signals_design_wf xp : dicts_wf (two_signals_design xp).
Proof.
  intros i x Hx. apply elem_of_list_to_map_2 in Hx.
  repeat (apply elem_of_cons in Hx as [Heq|Hx];
          [injection Heq as _ ->; apply (bool_decide_unpack _); by vm_compute |]).
  by apply elem_of_nil in Hx.
Qed.

Lemma elaborate_never_shorts_witness :
  let h := two_signals_design (CPortRef (mkPortRef 100 (RInst 2) "q")) in
  let pc := [((RInst 1, "p"), mkPortRef 100 (RInst 2) "q")] in
  let net := [(RInst 1, "p"); (RInst 2, "q")] in
  generators_never_short (H0:=no_generators) ∧ dicts_wf h ∧
  ImplicitSignals.build_portconns 0 (init_state h) = (Ok pc, init_state h) ∧
  net ∈ nets_of pc ∧
  (∀ a b, a ∈ attached_signals h net → b ∈ attached_signals h net → a = b) ∧
  ∀ c names,
    (elaborate (H0:=no_generators) 10 (TopModule 0) None None h).1
      ≠ Raise (Shorting c names).
Proof.
  intros h pc net.
  assert (Hpc : ImplicitSignals.build_portconns 0 (init_state h) = (Ok pc, init_state h))
    by reflexivity.
  assert (Hnet : net ∈ nets_of pc) by (vm_compute; left).
  destruct (elaborate_never_shorts (H0:=no_generators)) as [Hone Hnever].
  split; [exact no_generators_never_short |].
  split; [apply two_signals_design_wf |]. split; [exact Hpc |]. split; [exact Hnet |].
  split.
  - intros a b.
    exact (proj1 (Hone 0 (init_state h) (init_state h) pc net a b
                    (two_signals_design_wf _) Hnet) Hpc).
  - exact (Hnever 10 (TopModule 0) None None h _ _
             no_generators_never_short (two_signals_design_wf _) (surjective_pairing _)).
Defined.

(** C5 as stated fails on the design it is meant for, a port [x.p]
    connected to the declared signal [s1], a port [y.q] connected to the
    declared signal [s2], and [x.p] tied to [y.q].  A port holds one
    connection.  Where [x.p] keeps [s1], no reference is there to tie the two
    ports, and elaboration returns with both connections as they were.  Where
    the reference to [y.q] has been assigned over [s1], the net of [x.p] and
    [y.q] has one declared signal attached, [s2], and elaboration returns
    with both ports connected to [s2].  No signal is created, and nothing is
    raised. *)
Lemma two_signals_elaborate_normally :
  let kept := two_signals_design (CSignal 11) in
  let tied := two_signals_design (CPortRef (mkPortRef 100 (RInst 2) "q")) in
  let run1 := elaborate (H0:=no_generators) 10 (TopModule 0) None None kept in
  let run2 := elaborate (H0:=no_generators) 10 (TopModule 0) None None tied in
  (ImplicitSignals.build_portconns 0 (init_state kept)).1 = Ok [] ∧
  run1.1 = Ok (TopModule 0) ∧
  connection run1.2 (RInst 1, "p") = Some (CSignal 11) ∧
  connection run1.2 (RInst 2, "q") = Some (CSignal 12) ∧
  mod_signals <$> h_modules run1.2 !! 0 = Some [("s1", 11); ("s2", 12)] ∧
  h_signals run1.2 = h_signals kept ∧
  nets_of [((RInst 1, "p"), mkPortRef 100 (RInst 2) "q")]
    = [[(RInst 1, "p"); (RInst 2, "q")]] ∧
  attached_signals tied [(RInst 1, "p"); (RInst 2, "q")] = [12] ∧
  run2.1 = Ok (TopModule 0) ∧
  connection run2.2 (RInst 1, "p") = Some (CSignal 12) ∧
  connection run2.2 (RInst 2, "q") = Some (CSignal 12) ∧
  mod_signals <$> h_modules run2.2 !! 0 = Some [("s1", 11); ("s2", 12)] ∧
  h_signals run2.2 = h_signals tied.
Proof. repeat split; vm_compute; reflexivity. Qed.
